(** * Lab4 search engine: tokenizer, inverted index, crawler, PageRank engines,
    query engine, application

    A shallow embedding of the Python sources under [Lab4/] and the
    properties stated for them.

    Conventions of the embedding

    - A Python [str] is a list of characters; a character is a code point
      below 256 (Rocq's [ascii]), classified the way Python classifies the
      code points U+0000..U+00FF ([str.isspace], the [\w] class of [re],
      [str.lower]).  [UtilsWide] has the functions of utils.py on an
      alphabet with two code points more, U+0130 and U+0307, where
      [str.lower] changes the length of a string.
    - A Python [dict] is an association list in insertion order, the order
      in which [items()], [keys()] and [values()] iterate.
    - The PageRank engines are given twice.  [PageRankMapReduce],
      [PregelVertex], [SimplePregelGraph] and [PageRankPregel] compute in
      exact rationals ([Q]): they are the engines without rounding, and
      the general statements about them say so.  [PageRankMapReduce64],
      [PregelVertex64], [SimplePregelGraph64] and [PageRankPregel64] have
      the same operations on binary64 numbers, as the code computes; what
      rounding does is shown on them.
    - The scores of the query engine, which go through [math.log], are
      real numbers ([R]); the one place where the code turns a float into
      an integer, [int(raw_tf * doc_length)], is computed in binary64.
    - A Python exception is a value of [result]; a function that cannot raise
      is an ordinary function.
    - The SQLite tables are lists of rows, and a query returns its rows in
      the order in which SQLite answers it: insertion order for a scan,
      the order of the index for a query through an index.  A failing SQL
      statement ([sqlite3.Error]) is outside the model.
    - The network is a parameter of the crawler: [parse_page] takes the url
      and the state of the network and returns the page, if any, with the
      next state; [normalize_url], which rests on [urllib], is a parameter
      as well. *)

From Stdlib Require Import Ascii String.
From Stdlib Require Import List Bool Arith ZArith QArith Qabs Lia Psatz Permutation.
From Stdlib Require Import Reals Qreals Sorted SpecFloat.
Import ListNotations.

Set Implicit Arguments.
Open Scope nat_scope.

(** ** Python values *)

Definition str := list ascii.

(** A string literal of the source. *)
Definition py (s : string) : str := list_ascii_of_string s.

Definition str_eq_dec : forall a b : str, {a = b} + {a <> b} :=
  list_eq_dec ascii_dec.

Definition str_eqb (a b : str) : bool :=
  if str_eq_dec a b then true else false.

(** [x in l] for a list or a set of strings. *)
Definition str_in (x : str) (l : list str) : bool := existsb (str_eqb x) l.

(** The order of texts in an SQLite index ([BINARY] collation): that of the
    code points, a proper prefix before its extensions. *)
Fixpoint str_leb (a b : str) : bool :=
  match a, b with
  | [], _ => true
  | _ :: _, [] => false
  | x :: a', y :: b' =>
      if (N_of_ascii x <? N_of_ascii y)%N then true
      else if (N_of_ascii y <? N_of_ascii x)%N then false
      else str_leb a' b'
  end.

(** Rows in the order of a key: each row is put before the first row whose
    key is not below its own, so rows with equal keys keep their order. *)
Fixpoint insert_by {A : Type} (leb : A -> A -> bool) (x : A) (l : list A)
  : list A :=
  match l with
  | [] => [x]
  | y :: l' => if leb x y then x :: l else y :: insert_by leb x l'
  end.

Definition sort_by {A : Type} (leb : A -> A -> bool) (l : list A) : list A :=
  fold_right (insert_by leb) [] l.

(** ** Python floats

    A Python [float] is an IEEE 754 binary64 number.  [spec_float] is the
    Standard Library's executable definition of these numbers and of their
    operations, each rounded to the nearest number, ties to even. *)

Module Binary64.

Definition float : Type := spec_float.

Definition prec : Z := 53.
Definition emax : Z := 1024.

(** [float(z)] *)
Definition of_Z (z : Z) : float := binary_normalize prec emax z 0 false.

Definition of_nat (n : nat) : float := of_Z (Z.of_nat n).

Definition add : float -> float -> float := SFadd prec emax.
Definition sub : float -> float -> float := SFsub prec emax.
Definition mul : float -> float -> float := SFmul prec emax.
Definition div : float -> float -> float := SFdiv prec emax.
Definition abs : float -> float := SFabs.
Definition ltb : float -> float -> bool := SFltb.

(** The number that a decimal literal of the value [q] denotes, such as
    [0.85], [1e-6] and [1e-10]: the binary64 number nearest to [q].  A
    numerator and a denominator below [2^53] are binary64 numbers
    themselves, and the division rounds to the nearest. *)
Definition literal (q : Q) : float :=
  div (of_Z (Qnum q)) (of_Z (Zpos (Qden q))).

(** The rational number that a finite binary64 number is. *)
Definition to_Q (x : float) : Q :=
  match x with
  | S754_finite s m e =>
      ((if s then -1 else 1) * inject_Z (Zpos m) * Qpower 2 e)%Q
  | _ => 0%Q
  end.

(** [sum(values)]: from [0], left to right, each addition rounded, as
    CPython adds floats up to version 3.11 (from 3.12 on [sum] carries the
    rounding errors along and rounds once). *)
Definition sum (l : list float) : float := fold_left add l (of_Z 0).

End Binary64.

Inductive exn : Type :=
| ZeroDivisionError
| KeyError
| ValueError.

Inductive result (A : Type) : Type :=
| Ok (a : A)
| Raise (e : exn).

Arguments Ok {A} a.
Arguments Raise {A} e.

Definition bind {A B : Type} (m : result A) (k : A -> result B) : result B :=
  match m with
  | Ok a => k a
  | Raise e => Raise e
  end.

Notation "x <- m ;; k" := (bind m (fun x => k))
  (at level 61, m at next level, right associativity).

(** ** Python dictionaries, in insertion order *)

Module Dict.

Section WithKey.
Variables (K V : Type).
Variable K_eq_dec : forall a b : K, {a = b} + {a <> b}.

Definition t := list (K * V).

Fixpoint get (k : K) (d : t) : option V :=
  match d with
  | [] => None
  | (k', v) :: d' => if K_eq_dec k k' then Some v else get k d'
  end.

Definition get_default (k : K) (dflt : V) (d : t) : V :=
  match get k d with
  | Some v => v
  | None => dflt
  end.

Definition contains (k : K) (d : t) : bool :=
  match get k d with
  | Some _ => true
  | None => false
  end.

(** [d[k] = v]: an existing key keeps its place, a new key goes last. *)
Fixpoint set (k : K) (v : V) (d : t) : t :=
  match d with
  | [] => [(k, v)]
  | (k', v') :: d' =>
      if K_eq_dec k k' then (k', v) :: d' else (k', v') :: set k v d'
  end.

Definition keys (d : t) : list K := map fst d.
Definition values (d : t) : list V := map snd d.

End WithKey.

End Dict.

(** ** utils.py *)

Module Utils.

Definition code (c : ascii) : N := N_of_ascii c.

Definition between (lo hi n : N) : bool := (lo <=? n)%N && (n <=? hi)%N.

(** [str.isspace] and the [\s] class on code points below 256. *)
Definition isspace (c : ascii) : bool :=
  let n := code c in
  between 9 13 n || between 28 32 n || (n =? 133)%N || (n =? 160)%N.

(** The [\w] class on code points below 256: alphanumeric or underscore. *)
Definition isword (c : ascii) : bool :=
  let n := code c in
  between 48 57 n || between 65 90 n || (n =? 95)%N || between 97 122 n
  || (n =? 170)%N || between 178 179 n || (n =? 181)%N || between 185 186 n
  || between 188 190 n || between 192 214 n || between 216 246 n
  || between 248 255 n.

(** [str.lower] on one code point below 256. *)
Definition lower_char (c : ascii) : ascii :=
  let n := code c in
  if between 65 90 n || between 192 214 n || between 216 222 n
  then ascii_of_N (n + 32)
  else c.

Definition lower (s : str) : str := map lower_char s.

Definition space : ascii := " "%char.
Definition lt_sign : ascii := "<"%char.
Definition gt_sign : ascii := ">"%char.

(** Does the text after a ["<"] complete a match of [<[^>]+>]: one
    character other than [">"] at least, and a [">"] further on. *)
Definition tag_closes (rest : str) : bool :=
  match rest with
  | [] => false
  | c :: rest' =>
      negb (Ascii.eqb c gt_sign) && existsb (Ascii.eqb gt_sign) rest'
  end.

(** [re.sub(r'<[^>]+>', ' ', text)]: the matches are taken leftmost first
    and do not overlap; [in_tag] holds while a match is being consumed. *)
Fixpoint sub_tags (in_tag : bool) (s : str) : str :=
  match s with
  | [] => []
  | c :: rest =>
      if in_tag then
        if Ascii.eqb c gt_sign then sub_tags false rest
        else sub_tags true rest
      else if Ascii.eqb c lt_sign && tag_closes rest then
        space :: sub_tags true rest
      else c :: sub_tags false rest
  end.

(** [re.sub(r'[^\w\s]', ' ', text)]. *)
Definition sub_special (s : str) : str :=
  map (fun c => if isword c || isspace c then c else space) s.

(** [re.sub(r'\s+', ' ', text)]; [prev] holds inside a run of whitespace. *)
Fixpoint sub_spaces (prev : bool) (s : str) : str :=
  match s with
  | [] => []
  | c :: rest =>
      if isspace c then
        if prev then sub_spaces true rest else space :: sub_spaces true rest
      else c :: sub_spaces false rest
  end.

Fixpoint lstrip (s : str) : str :=
  match s with
  | [] => []
  | c :: rest => if isspace c then lstrip rest else s
  end.

Definition strip (s : str) : str := rev (lstrip (rev (lstrip s))).

Definition clean_text (text : str) : str :=
  let text := sub_tags false text in
  let text := sub_special text in
  let text := sub_spaces false text in
  lower (strip text).

(** [str.split()]: the maximal runs of characters that are not whitespace;
    [cur] is the run being read. *)
Fixpoint split_from (cur : str) (s : str) : list str :=
  match s with
  | [] => match cur with [] => [] | _ => [cur] end
  | c :: rest =>
      if isspace c then
        match cur with
        | [] => split_from [] rest
        | _ => cur :: split_from [] rest
        end
      else split_from (cur ++ [c]) rest
  end.

Definition split (s : str) : list str := split_from [] s.

(** [sep.join(parts)]. *)
Fixpoint join (sep : str) (parts : list str) : str :=
  match parts with
  | [] => []
  | [x] => x
  | x :: rest => x ++ sep ++ join sep rest
  end.

Definition tokenize (text : str) (stop_words : list str) : list str :=
  let text := clean_text text in
  let tokens := split text in
  filter (fun token => negb (str_in token stop_words)) tokens.

(** [s.startswith(p)]. *)
Fixpoint startswith (p s : str) : bool :=
  match p, s with
  | [], _ => true
  | _ :: _, [] => false
  | a :: p', b :: s' => Ascii.eqb a b && startswith p' s'
  end.

(** The lowest index [i + k] at which [sub] occurs in [s] at offset [k]. *)
Fixpoint find_at (s sub : str) (i : nat) : option nat :=
  if startswith sub s then Some i
  else match s with
       | [] => None
       | _ :: rest => find_at rest sub (S i)
       end.

(** [s.find(sub, start)], with [None] for [-1]. *)
Definition find (s sub : str) (start : nat) : option nat :=
  if length s <? start then None else find_at (skipn start s) sub start.

(** The [while True] loop of [generate_snippet] for one term: [None] when
    the loop has not left after [fuel] rounds. *)
Fixpoint term_positions (fuel : nat) (text term : str) (start : nat)
  : option (list (nat * nat)) :=
  match fuel with
  | O => None
  | S fuel' =>
      match find (lower text) (lower term) start with
      | None => Some []
      | Some pos =>
          match term_positions fuel' text term (pos + 1) with
          | None => None
          | Some more => Some ((pos, pos + length term) :: more)
          end
      end
  end.

(** The [for term in query_terms] loop around it. *)
Fixpoint all_positions (text : str) (query_terms : list str)
  : option (list (nat * nat)) :=
  match query_terms with
  | [] => Some []
  | term :: rest =>
      match term_positions (length text + 2) text term 0 with
      | None => None
      | Some here =>
          match all_positions text rest with
          | None => None
          | Some more => Some (here ++ more)
          end
      end
  end.

(** [min(positions, key=lambda x: x[0])[0]] for a non-empty list. *)
Fixpoint min_start (p : nat * nat) (ps : list (nat * nat)) : nat :=
  match ps with
  | [] => fst p
  | q :: ps' => Nat.min (fst p) (min_start q ps')
  end.

(** [text[start:stop]]. *)
Definition slice (text : str) (start stop : nat) : str :=
  firstn (stop - start) (skipn start text).

Definition ellipsis : str := py "...".

Definition generate_snippet (text : str) (query_terms : list str)
    (max_length : nat) : str :=
  match text with
  | [] => []
  | _ =>
      match all_positions text query_terms with
      | None => [] (* not reached: see [all_positions_total] *)
      | Some [] =>
          if max_length <? length text
          then firstn max_length text ++ ellipsis
          else text
      | Some (p :: ps) =>
          let first_pos := min_start p ps in
          let start := first_pos - max_length / 2 in
          let stop := Nat.min (length text) (start + max_length) in
          let snippet := slice text start stop in
          let snippet := if 0 <? start then ellipsis ++ snippet else snippet in
          if stop <? length text then snippet ++ ellipsis else snippet
      end
  end.

(** [calculate_tf]: the loop that counts, then the loop that divides every
    count by [total_terms]. *)
Definition calculate_tf (tokens : list str) : Dict.t str Q :=
  match tokens with
  | [] => []
  | _ =>
      let total_terms := length tokens in
      let tf :=
        fold_left (fun tf token =>
                     Dict.set str_eq_dec token
                       (Dict.get_default str_eq_dec token 0%Q tf + 1)%Q tf)
                  tokens [] in
      fold_left (fun tf token =>
                   Dict.set str_eq_dec token
                     (Dict.get_default str_eq_dec token 0%Q tf
                      / inject_Z (Z.of_nat total_terms))%Q tf)
                (Dict.keys tf) tf
  end.

End Utils.

(** ** config.py *)

Module Config.

Record pagerank_config : Type := {
  damping_factor : Q;
  max_iterations : nat;
  tolerance : Q
}.

Definition PAGERANK_CONFIG : pagerank_config := {|
  damping_factor := 85 # 100;
  max_iterations := 100;
  tolerance := 1 # 1000000
|}.

(** [PARSER_CONFIG], without the [user_agent] header. *)
Record parser_config : Type := {
  timeout : Z;
  max_pages : Z;
  max_content_length : Z
}.

Definition PARSER_CONFIG : parser_config := {|
  timeout := 10;
  max_pages := 50;
  max_content_length := 1000000
|}.

Record search_config : Type := {
  results_per_page : nat;
  snippet_length : nat
}.

Definition SEARCH_CONFIG : search_config := {|
  results_per_page := 10;
  snippet_length := 150
|}.

Definition STOP_WORDS : list str := map py [
  "a"; "an"; "the"; "and"; "or"; "but"; "in"; "on"; "at"; "to"; "for";
  "of"; "with"; "by"; "is"; "are"; "was"; "were"; "be"; "been"; "being";
  "have"; "has"; "had"; "do"; "does"; "did"; "will"; "would"; "shall";
  "should"; "may"; "might"; "must"; "can"; "could"; "i"; "you"; "he";
  "she"; "it"; "we"; "they"; "me"; "him"; "her"; "us"; "them"; "this";
  "that"; "these"; "those"; "am"; "is"; "are"
]%string.

End Config.

(** ** database.py

    Every table is the list of its rows, in insertion order.  The
    [AUTOINCREMENT] counters of [documents] and [words] are kept as
    [seq_documents] and [seq_words].  No query has an [ORDER BY]: a query
    that SQLite answers by scanning the table returns the rows in
    insertion order, and a query that it answers through an index returns
    them in the order of the index. *)

Module Database.

Record Document : Type := {
  doc_id : Z;
  url : str;
  title : str;
  content : str;
  content_length : nat
}.

Record Word : Type := {
  word_id : Z;
  word : str;
  frequency : Z
}.

Record Link : Type := {
  source_doc_id : Z;
  target_url : str;
  target_doc_id : option Z
}.

Record Posting : Type := {
  p_word_id : Z;
  p_doc_id : Z;
  tf : Q;
  positions : list nat
}.

Record Rank : Type := {
  r_doc_id : Z;
  r_pagerank : Q;
  r_iteration : nat
}.

Record t : Type := {
  documents : list Document;
  words : list Word;
  links : list Link;
  inverted_index : list Posting;
  pagerank : list Rank;
  seq_documents : Z;
  seq_words : Z
}.

(** The tables right after [_initialize_database] on a new file. *)
Definition empty : t := {|
  documents := [];
  words := [];
  links := [];
  inverted_index := [];
  pagerank := [];
  seq_documents := 0;
  seq_words := 0
|}.

Definition get_document_id (u : str) (db : t) : option Z :=
  option_map doc_id (find (fun d => str_eqb (url d) u) (documents db)).

(** [INSERT OR IGNORE INTO documents]: [url] is [UNIQUE]. *)
Definition insert_or_ignore_document (u ti c : str) (db : t) : t :=
  match get_document_id u db with
  | Some _ => db
  | None =>
      let id := (seq_documents db + 1)%Z in
      {| documents := documents db ++
           [{| doc_id := id; url := u; title := ti; content := c;
               content_length := length c |}];
         words := words db; links := links db;
         inverted_index := inverted_index db; pagerank := pagerank db;
         seq_documents := id; seq_words := seq_words db |}
  end.

(** [UPDATE documents SET title, content, content_length WHERE id = ?]. *)
Definition update_document (id : Z) (ti c : str) (db : t) : t :=
  {| documents :=
       map (fun d => if (doc_id d =? id)%Z
                     then {| doc_id := doc_id d; url := url d; title := ti;
                             content := c; content_length := length c |}
                     else d) (documents db);
     words := words db; links := links db;
     inverted_index := inverted_index db; pagerank := pagerank db;
     seq_documents := seq_documents db; seq_words := seq_words db |}.

Definition add_document (u ti c : str) (db : t) : Z * t :=
  let db := insert_or_ignore_document u ti c db in
  match get_document_id u db with
  | Some id => (id, update_document id ti c db)
  | None =>
      let id := (seq_documents db + 1)%Z in
      (id,
       {| documents := documents db ++
            [{| doc_id := id; url := u; title := ti; content := c;
                content_length := length c |}];
          words := words db; links := links db;
          inverted_index := inverted_index db; pagerank := pagerank db;
          seq_documents := id; seq_words := seq_words db |})
  end.

Definition get_word_id (w : str) (db : t) : option Z :=
  option_map word_id (find (fun r => str_eqb (word r) w) (words db)).

Definition add_word (w : str) (db : t) : Z * t :=
  match get_word_id w db with
  | Some id =>
      (id,
       {| documents := documents db;
          words :=
            map (fun r => if (word_id r =? id)%Z
                          then {| word_id := word_id r; word := word r;
                                  frequency := (frequency r + 1)%Z |}
                          else r) (words db);
          links := links db; inverted_index := inverted_index db;
          pagerank := pagerank db;
          seq_documents := seq_documents db; seq_words := seq_words db |})
  | None =>
      let id := (seq_words db + 1)%Z in
      (id,
       {| documents := documents db;
          words := words db ++ [{| word_id := id; word := w; frequency := 1 |}];
          links := links db; inverted_index := inverted_index db;
          pagerank := pagerank db;
          seq_documents := seq_documents db; seq_words := id |})
  end.

(** [INSERT OR IGNORE INTO links]: [(source_doc_id, target_url)] is
    [UNIQUE]. *)
Definition add_link (source : Z) (target : str) (target_id : option Z)
    (db : t) : t :=
  if existsb (fun l => (source_doc_id l =? source)%Z
                       && str_eqb (target_url l) target) (links db)
  then db
  else
    {| documents := documents db; words := words db;
       links := links db ++
         [{| source_doc_id := source; target_url := target;
             target_doc_id := target_id |}];
       inverted_index := inverted_index db; pagerank := pagerank db;
       seq_documents := seq_documents db; seq_words := seq_words db |}.

Definition same_posting (w d : Z) (p : Posting) : bool :=
  (p_word_id p =? w)%Z && (p_doc_id p =? d)%Z.

(** [INSERT OR REPLACE INTO inverted_index]: the primary key is
    [(word_id, doc_id)]; a row with that key is deleted first. *)
Definition add_inverted_index_entry (w d : Z) (f : Q) (pos : list nat)
    (db : t) : t :=
  {| documents := documents db; words := words db; links := links db;
     inverted_index :=
       filter (fun p => negb (same_posting w d p)) (inverted_index db) ++
       [{| p_word_id := w; p_doc_id := d; tf := f; positions := pos |}];
     pagerank := pagerank db;
     seq_documents := seq_documents db; seq_words := seq_words db |}.

(** [INSERT OR REPLACE INTO pagerank]: the primary key is [doc_id]. *)
Definition update_pagerank (d : Z) (rank : Q) (iteration : nat) (db : t) : t :=
  {| documents := documents db; words := words db; links := links db;
     inverted_index := inverted_index db;
     pagerank :=
       filter (fun r => negb (r_doc_id r =? d)%Z) (pagerank db) ++
       [{| r_doc_id := d; r_pagerank := rank; r_iteration := iteration |}];
     seq_documents := seq_documents db; seq_words := seq_words db |}.

Definition get_all_documents (db : t) : list (Z * str * str) :=
  map (fun d => (doc_id d, url d, title d)) (documents db).

Definition get_document_content (id : Z) (db : t) : option str :=
  option_map content (find (fun d => (doc_id d =? id)%Z) (documents db)).

(** Answered through the index of [UNIQUE(source_doc_id, target_url)]:
    the links of the source in the order of their target urls. *)
Definition get_outgoing_links (id : Z) (db : t) : list (option Z * str) :=
  map (fun l => (target_doc_id l, target_url l))
      (sort_by (fun l1 l2 => str_leb (target_url l1) (target_url l2))
         (filter (fun l => (source_doc_id l =? id)%Z) (links db))).

Definition get_incoming_links (id : Z) (db : t) : list Z :=
  map source_doc_id
      (filter (fun l => match target_doc_id l with
                        | Some x => (x =? id)%Z
                        | None => false
                        end) (links db)).

(** The join of [inverted_index] with [words] on the word's id, answered
    through the index of the primary key [(word_id, doc_id)]: the postings
    of the word in the order of their document ids. *)
Definition get_documents_for_word (w : str) (db : t) : list (Z * Q) :=
  map (fun p => (p_doc_id p, tf p))
      (sort_by (fun p1 p2 => (p_doc_id p1 <=? p_doc_id p2)%Z)
         (filter (fun p => existsb (fun r => (word_id r =? p_word_id p)%Z
                                             && str_eqb (word r) w) (words db))
                 (inverted_index db))).

Definition get_document_url (id : Z) (db : t) : option str :=
  option_map url (find (fun d => (doc_id d =? id)%Z) (documents db)).

Definition get_document_info (id : Z) (db : t) : option (str * str) :=
  option_map (fun d => (url d, title d))
             (find (fun d => (doc_id d =? id)%Z) (documents db)).

(** [result[0] if result else 0] *)
Definition get_word_frequency (w : str) (db : t) : Z :=
  match find (fun r => str_eqb (word r) w) (words db) with
  | Some r => frequency r
  | None => 0%Z
  end.

(** [result[0] if result else 1.0] *)
Definition get_pagerank (id : Z) (db : t) : Q :=
  match find (fun r => (r_doc_id r =? id)%Z) (pagerank db) with
  | Some r => r_pagerank r
  | None => 1%Q
  end.

(** [DELETE FROM] every table and from [sqlite_sequence], which restarts
    the [AUTOINCREMENT] counters. *)
Definition clear_database (db : t) : t := empty.

Definition get_total_documents (db : t) : nat := length (documents db).

(** [doc_id] is the key of the table: a scan returns the rows in the
    order of their document ids. *)
Definition get_all_pageranks (db : t) : Dict.t Z Q :=
  fold_left (fun d r => Dict.set Z.eq_dec (r_doc_id r) (r_pagerank r) d)
            (sort_by (fun r1 r2 => (r_doc_id r1 <=? r_doc_id r2)%Z)
               (pagerank db)) [].

End Database.

(** ** parser.py *)

Module WebParser.

(** [Counter(tokens)]: the tokens in order of first occurrence, with their
    number of occurrences. *)
Definition Counter (tokens : list str) : Dict.t str nat :=
  fold_left (fun d token =>
               Dict.set str_eq_dec token
                 (Dict.get_default str_eq_dec token 0 d + 1) d)
            tokens [].

(** The loop filling [positions_cache]; [i] is the index of the first of
    [tokens]. *)
Fixpoint positions_from (i : nat) (tokens : list str)
    (cache : Dict.t str (list nat)) : Dict.t str (list nat) :=
  match tokens with
  | [] => cache
  | token :: rest =>
      positions_from (S i) rest
        (Dict.set str_eq_dec token
           (Dict.get_default str_eq_dec token [] cache ++ [i]) cache)
  end.

Definition add_links (doc_id : Z) (links : list str) (db : Database.t)
  : Database.t :=
  fold_left (fun db link =>
               let target_doc_id := Database.get_document_id link db in
               Database.add_link doc_id link target_doc_id db)
            links db.

Definition index_terms (doc_id : Z) (term_counts : Dict.t str nat)
    (positions_cache : Dict.t str (list nat)) (db : Database.t)
  : Database.t :=
  fold_left (fun db wc =>
               let '(word, count) := wc in
               let '(word_id, db) := Database.add_word word db in
               if (word_id =? -1)%Z then db
               else
                 let tf := inject_Z (Z.of_nat count) in
                 let positions :=
                   Dict.get_default str_eq_dec word [] positions_cache in
                 Database.add_inverted_index_entry word_id doc_id tf
                   positions db)
            term_counts db.

Definition index_document (url title content : str) (links : list str)
    (db : Database.t) : Database.t :=
  let '(doc_id, db) := Database.add_document url title content db in
  if (doc_id =? -1)%Z then db
  else
    let tokens := Utils.tokenize content Config.STOP_WORDS in
    match tokens with
    | [] => add_links doc_id links db
    | _ =>
        let term_counts := Counter tokens in
        let positions_cache := positions_from 0 tokens [] in
        let db := index_terms doc_id term_counts positions_cache db in
        add_links doc_id links db
    end.

(** A posting for [(term, doc)] exists: the lookup of the postings of
    [term] returns one for [doc]. *)
Definition has_posting (term : str) (doc : Z) (db : Database.t) : bool :=
  existsb (fun e => (fst e =? doc)%Z) (Database.get_documents_for_word term db).

(** The crawler.  [visited_urls] is a set: only membership and size are
    read, and [add] keeps one copy. *)
Record t : Type := {
  visited_urls : list str;
  urls_to_visit : list str;
  max_pages : Z
}.

Definition init : t :=
  {| visited_urls := [];
     urls_to_visit := [];
     max_pages := Config.max_pages Config.PARSER_CONFIG |}.

(** [visited_urls.add(url)] *)
Definition add_visited (url : str) (visited : list str) : list str :=
  if str_in url visited then visited else url :: visited.

(** The loop [for link in links] at the end of a round of [crawl]. *)
Definition enqueue_links (visited links queue : list str) : list str :=
  fold_left (fun queue link =>
               if negb (str_in link visited) && negb (str_in link queue)
               then queue ++ [link]
               else queue)
            links queue.

(** What the loop of [crawl] carries besides the queue: the visited set,
    the counter, the tables, the network, and the urls handed to
    [parse_page] so far (its [Parsing:] lines in the log). *)
Record crawl_state (World : Type) : Type := {
  visited : list str;
  pages_parsed : Z;
  db : Database.t;
  world : World;
  requested : list str
}.

Section Crawl.

(** The state of the network, [utils.normalize_url], and [parse_page],
    which downloads one page: [None], or the title, the content and the
    links of the page. *)
Variable World : Type.
Variable normalize_url : str -> str -> str.
Variable parse_page : str -> World -> option (str * str * list str) * World.

Definition add_start_urls (urls : list str) (self : t) : t :=
  fold_left (fun self url =>
               let normalized_url := normalize_url [] url in
               if negb (str_in normalized_url (visited_urls self)) then
                 {| visited_urls := visited_urls self;
                    urls_to_visit := urls_to_visit self ++ [normalized_url];
                    max_pages := max_pages self |}
               else self)
            urls self.

(** The loop [while self.urls_to_visit and pages_parsed < self.max_pages]:
    [budget] is [self.max_pages - pages_parsed], which a round lowers when
    it parses a page; a round that does not shortens the queue. *)
Fixpoint crawl_loop (budget : nat)
  : list str -> crawl_state World -> list str * crawl_state World :=
  match budget with
  | O => fun queue st => (queue, st)
  | S budget' =>
      fix rounds (queue : list str) (st : crawl_state World) {struct queue}
        : list str * crawl_state World :=
        match queue with
        | [] => ([], st)
        | url :: queue =>
            if str_in url (visited st) then rounds queue st
            else
              let result := parse_page url (world st) in
              match fst result with
              | None =>
                  rounds queue
                    {| visited := add_visited url (visited st);
                       pages_parsed := pages_parsed st;
                       db := db st;
                       world := snd result;
                       requested := requested st ++ [url] |}
              | Some (title, content, links) =>
                  let visited := add_visited url (visited st) in
                  crawl_loop budget' (enqueue_links visited links queue)
                    {| visited := visited;
                       pages_parsed := (pages_parsed st + 1)%Z;
                       db := index_document url title content links (db st);
                       world := snd result;
                       requested := requested st ++ [url] |}
              end
        end
  end.

(** Returns the crawler, the tables, the network and the urls handed to
    [parse_page], in order. *)
Definition crawl (start_urls : list str) (max_pages_arg : option Z) (self : t)
    (tables : Database.t) (w : World)
  : t * Database.t * World * list str :=
  let self :=
    match max_pages_arg with
    | Some m =>
        if (m =? 0)%Z then self
        else {| visited_urls := visited_urls self;
                urls_to_visit := urls_to_visit self;
                max_pages := m |}
    | None => self
    end in
  let self := add_start_urls start_urls self in
  let end_state :=
    crawl_loop (Z.to_nat (max_pages self)) (urls_to_visit self)
      {| visited := visited_urls self; pages_parsed := 0; db := tables;
         world := w; requested := [] |} in
  ({| visited_urls := visited (snd end_state);
      urls_to_visit := fst end_state;
      max_pages := max_pages self |},
   db (snd end_state), world (snd end_state), requested (snd end_state)).

End Crawl.

(** [get_statistics]: [visited_urls], [urls_to_visit], [total_documents]. *)
Definition get_statistics (self : t) (tables : Database.t) : nat * nat * nat :=
  (length (visited_urls self), length (urls_to_visit self),
   Database.get_total_documents tables).

End WebParser.

(** ** pagerank_mapreduce.py, without rounding

    The scores are exact rationals here; [PageRankMapReduce64] below has
    the iteration in binary64. *)

(** An optional document id is true in a condition when it is neither
    [None] nor [0]. *)
Definition truthy (o : option Z) : bool :=
  match o with
  | Some z => negb (z =? 0)%Z
  | None => false
  end.

(** [sum(values)] *)
Definition Qsum (l : list Q) : Q := fold_left Qplus l 0%Q.

Definition Qnat (n : nat) : Q := inject_Z (Z.of_nat n).

(** The loop [for doc_id, rank in ....items(): self.db.update_pagerank(doc_id,
    rank, iteration)] of both engines. *)
Definition save_pagerank (ranks : Dict.t Z Q) (iteration : nat)
    (db : Database.t) : Database.t :=
  fold_left (fun db dr => Database.update_pagerank (fst dr) (snd dr) iteration db)
            ranks db.

(** [sorted(items, key=lambda x: x[1], reverse=True)] on scores:
    descending and stable. *)
Fixpoint insert_by_rank (x : Z * Q) (l : list (Z * Q)) : list (Z * Q) :=
  match l with
  | [] => [x]
  | y :: l' =>
      if Qlt_le_dec (snd x) (snd y) then y :: insert_by_rank x l' else x :: l
  end.

Definition sorted_by_rank (l : list (Z * Q)) : list (Z * Q) :=
  fold_right insert_by_rank [] l.

(** [l[:n]] for an integer [n]: a negative [n] counts from the end. *)
Definition prefix {A : Type} (n : Z) (l : list A) : list A :=
  if (n <? 0)%Z then firstn (length l - Z.to_nat (- n)) l
  else firstn (Z.to_nat n) l.

(** The loop filling [documents_info] in [get_top_documents]. *)
Definition documents_info (documents : list (Z * str * str))
  : Dict.t Z (str * str) :=
  fold_left (fun info doc =>
               Dict.set Z.eq_dec (fst (fst doc)) (snd (fst doc), snd doc) info)
            documents [].

Module PageRankMapReduce.

(** [num_documents] is [len(doc_ids)]: both are set in [__init__] and no
    method assigns either again. *)
Record t : Type := {
  damping_factor : Q;
  max_iterations : nat;
  tolerance : Q;
  documents : list (Z * str * str);
  doc_ids : list Z;
  pagerank : Dict.t Z Q;
  outgoing_links : Dict.t Z (list Z);
  incoming_links : Dict.t Z (list Z)
}.

Definition num_documents (self : t) : nat := length (doc_ids self).

(** [[link[0] for link in outgoing if link[0]]] *)
Definition resolved_targets (outgoing : list (option Z * str)) : list Z :=
  flat_map (fun link => match fst link with
                        | Some z => if truthy (Some z) then [z] else []
                        | None => []
                        end) outgoing.

(** The division [1.0 / self.num_documents] is evaluated once per document
    id, hence only when there is one. *)
Definition init (cfg : Config.pagerank_config) (db : Database.t) : t :=
  let documents := Database.get_all_documents db in
  let doc_ids := map (fun doc => fst (fst doc)) documents in
  let n := length doc_ids in
  {| damping_factor := Config.damping_factor cfg;
     max_iterations := Config.max_iterations cfg;
     tolerance := Config.tolerance cfg;
     documents := documents;
     doc_ids := doc_ids;
     pagerank :=
       fold_left (fun d doc_id => Dict.set Z.eq_dec doc_id (1 / Qnat n)%Q d)
                 doc_ids [];
     outgoing_links :=
       fold_left (fun d doc_id =>
                    Dict.set Z.eq_dec doc_id
                      (resolved_targets (Database.get_outgoing_links doc_id db)) d)
                 doc_ids [];
     incoming_links :=
       fold_left (fun d doc_id =>
                    Dict.set Z.eq_dec doc_id
                      (Database.get_incoming_links doc_id db) d)
                 doc_ids [] |}.

Definition map_phase (self : t) (doc_id : Z) (pagerank : Q) : list (Z * Q) :=
  match Dict.get Z.eq_dec doc_id (outgoing_links self) with
  | None => []
  | Some outgoing =>
      match outgoing with
      | [] => []
      | _ =>
          let share := (pagerank / Qnat (length outgoing))%Q in
          map (fun target_id => (target_id, share)) outgoing
      end
  end.

Definition reduce_phase (contributions : list (Z * Q)) : Dict.t Z Q :=
  fold_left (fun reduced c =>
               let '(doc_id, contribution) := c in
               Dict.set Z.eq_dec doc_id
                 (Dict.get_default Z.eq_dec doc_id 0 reduced + contribution)%Q
                 reduced)
            contributions [].

(** The division by [self.num_documents] stands inside the loop over
    [self.doc_ids]. *)
Definition calculate_pagerank_iteration (self : t)
    (current_pagerank : Dict.t Z Q) : Dict.t Z Q :=
  let all_contributions :=
    flat_map (fun dr => map_phase self (fst dr) (snd dr)) current_pagerank in
  let new_ranks := reduce_phase all_contributions in
  fold_left (fun new_ranks doc_id =>
               let base_rank :=
                 ((1 - damping_factor self) / Qnat (num_documents self))%Q in
               let incoming_rank :=
                 (Dict.get_default Z.eq_dec doc_id 0 new_ranks
                  * damping_factor self)%Q in
               Dict.set Z.eq_dec doc_id (base_rank + incoming_rank)%Q new_ranks)
            (doc_ids self) new_ranks.

Definition total_diff (self : t) (old_ranks new_ranks : Dict.t Z Q) : Q :=
  fold_left (fun total doc_id =>
               let diff := (Dict.get_default Z.eq_dec doc_id 0 new_ranks
                            - Dict.get_default Z.eq_dec doc_id 0 old_ranks)%Q in
               (total + diff * diff)%Q)
            (doc_ids self) 0%Q.

(** [calculate_convergence] up to its last operation: the value returned
    here is [total_diff / self.num_documents], of which the source returns
    the square root.  The division raises on an empty corpus. *)
Definition calculate_convergence_squared (self : t)
    (old_ranks new_ranks : Dict.t Z Q) : result Q :=
  let total := total_diff self old_ranks new_ranks in
  if num_documents self =? 0 then Raise ZeroDivisionError
  else Ok (total / Qnat (num_documents self))%Q.

(** [convergence < self.tolerance] for [convergence] the square root of
    [squared]: see [below_tolerance_sqrt]. *)
Definition below_tolerance (squared tolerance : Q) : bool :=
  match (0 ?= tolerance)%Q, (squared ?= tolerance * tolerance)%Q with
  | Lt, Lt => true
  | _, _ => false
  end.

(** The loop [for iteration in range(self.max_iterations)], with
    [remaining] rounds to go. *)
Fixpoint calculate_loop (self : t) (remaining iteration : nat)
    (current_pagerank : Dict.t Z Q) (db : Database.t)
  : result (Dict.t Z Q * Database.t) :=
  match remaining with
  | O => Ok (current_pagerank, db)
  | S remaining' =>
      let new_pagerank := calculate_pagerank_iteration self current_pagerank in
      convergence2 <-
        calculate_convergence_squared self current_pagerank new_pagerank ;;
      let db := save_pagerank new_pagerank (iteration + 1) db in
      if below_tolerance convergence2 (tolerance self)
      then Ok (new_pagerank, db)
      else calculate_loop self remaining' (S iteration) new_pagerank db
  end.

Definition set_pagerank (self : t) (ranks : Dict.t Z Q) : t :=
  {| damping_factor := damping_factor self;
     max_iterations := max_iterations self;
     tolerance := tolerance self;
     documents := documents self;
     doc_ids := doc_ids self;
     pagerank := ranks;
     outgoing_links := outgoing_links self;
     incoming_links := incoming_links self |}.

(** Returns the scores, the engine with [self.pagerank] assigned, and the
    tables. *)
Definition calculate (self : t) (db : Database.t)
  : result (Dict.t Z Q * t * Database.t) :=
  rd <- calculate_loop self (max_iterations self) 0 (pagerank self) db ;;
  Ok (fst rd, set_pagerank self (fst rd), snd rd).

Definition get_top_documents (self : t) (n : Z)
  : list (Z * Q * str * str) :=
  let documents_info := documents_info (documents self) in
  let sorted_docs := prefix n (sorted_by_rank (pagerank self)) in
  map (fun dr =>
         let '(url, title) :=
           Dict.get_default Z.eq_dec (fst dr) (py "Unknown", py "Unknown")
             documents_info in
         (fst dr, snd dr, url, firstn 50 title))
      sorted_docs.

(** [print_statistics]: what it prints of the scores. *)
Definition print_statistics (self : t) : list (Z * Q * str * str) :=
  get_top_documents self 5.

End PageRankMapReduce.

(** ** pagerank_pregel.py, without rounding

    The values of the vertices are exact rationals here;
    [SimplePregelGraph64] below has the superstep in binary64. *)

Module PregelVertex.

Record t : Type := {
  id : nat;
  value : Q;
  outgoing_edges : list nat;
  active : bool
}.

Definition init (vertex_id : nat) : t :=
  {| id := vertex_id; value := 0; outgoing_edges := []; active := true |}.

Definition send_messages (self : t) : list (nat * Q) :=
  match outgoing_edges self with
  | [] => []
  | _ =>
      let share := (value self / Qnat (length (outgoing_edges self)))%Q in
      map (fun neighbor => (neighbor, share)) (outgoing_edges self)
  end.

End PregelVertex.

Module SimplePregelGraph.

(** [num_vertices] is [len(vertices)]: [__init__] builds the list from
    [range(num_vertices)] and no method changes its length. *)
Record t : Type := {
  vertices : list PregelVertex.t;
  superstep : nat;
  messages : Dict.t nat (list Q)
}.

Definition num_vertices (self : t) : nat := length (vertices self).

Definition init (num_vertices : nat) : t :=
  {| vertices := map PregelVertex.init (seq 0 num_vertices);
     superstep := 0;
     messages := [] |}.

(** [vertices[i].outgoing_edges.append(target)] *)
Fixpoint append_edge (i target : nat) (vs : list PregelVertex.t)
  : list PregelVertex.t :=
  match vs, i with
  | [], _ => []
  | v :: vs', O =>
      {| PregelVertex.id := PregelVertex.id v;
         PregelVertex.value := PregelVertex.value v;
         PregelVertex.outgoing_edges := PregelVertex.outgoing_edges v ++ [target];
         PregelVertex.active := PregelVertex.active v |} :: vs'
  | v :: vs', S i' => v :: append_edge i' target vs'
  end.

Definition add_edge (source target : nat) (self : t) : t :=
  if (source <? num_vertices self) && (target <? num_vertices self)
  then {| vertices := append_edge source target (vertices self);
          superstep := superstep self;
          messages := messages self |}
  else self.

Definition initialize_pagerank (self : t) : result t :=
  if num_vertices self =? 0 then Raise ZeroDivisionError
  else
    let initial_value := (1 / Qnat (num_vertices self))%Q in
    Ok {| vertices :=
            map (fun v => {| PregelVertex.id := PregelVertex.id v;
                             PregelVertex.value := initial_value;
                             PregelVertex.outgoing_edges :=
                               PregelVertex.outgoing_edges v;
                             PregelVertex.active := true |})
                (vertices self);
          superstep := superstep self;
          messages := messages self |}.

(** The threshold [1e-10] of [run_superstep]. *)
Definition threshold : Q := 1 # 10000000000.

(** Phase 1: the messages of the active vertices, filed by target. *)
Definition deliver (messages : Dict.t nat (list Q)) (m : nat * Q)
  : Dict.t nat (list Q) :=
  let '(target_id, message_value) := m in
  Dict.set Nat.eq_dec target_id
    (Dict.get_default Nat.eq_dec target_id [] messages ++ [message_value])
    messages.

Definition send_phase (vs : list PregelVertex.t) : Dict.t nat (list Q) :=
  fold_left (fun messages vertex =>
               if PregelVertex.active vertex
               then fold_left deliver (PregelVertex.send_messages vertex) messages
               else messages)
            vs [].

(** Phase 2 for one vertex.  The division by [self.num_vertices] stands
    inside the loop over the vertices. *)
Definition receive (damping_factor : Q) (num_vertices : nat)
    (messages : Dict.t nat (list Q)) (vertex : PregelVertex.t)
  : PregelVertex.t :=
  let incoming_messages :=
    Dict.get_default Nat.eq_dec (PregelVertex.id vertex) [] messages in
  let incoming_sum :=
    match incoming_messages with
    | [] => 0%Q
    | _ => Qsum incoming_messages
    end in
  let random_walk := ((1 - damping_factor) / Qnat num_vertices)%Q in
  let new_value := (random_walk + damping_factor * incoming_sum)%Q in
  {| PregelVertex.id := PregelVertex.id vertex;
     PregelVertex.value := new_value;
     PregelVertex.outgoing_edges := PregelVertex.outgoing_edges vertex;
     PregelVertex.active :=
       match (Qabs (new_value - PregelVertex.value vertex) ?= threshold)%Q with
       | Gt => true
       | _ => false
       end |}.

Definition run_superstep (damping_factor : Q) (self : t) : t * bool :=
  let messages := send_phase (vertices self) in
  let vs := map (receive damping_factor (num_vertices self) messages)
                (vertices self) in
  let active_vertices := length (filter PregelVertex.active vs) in
  ({| vertices := vs;
      superstep := superstep self + 1;
      messages := messages |},
   0 <? active_vertices).

End SimplePregelGraph.

Module PageRankPregel.

Record t : Type := {
  damping_factor : Q;
  max_iterations : nat;
  tolerance : Q;
  documents : list (Z * str * str);
  doc_ids : list Z;
  id_to_index : Dict.t Z nat;
  index_to_id : Dict.t nat Z;
  graph : option SimplePregelGraph.t
}.

Definition num_documents (self : t) : nat := length (doc_ids self).

(** [d[k]] *)
Definition lookup {K V : Type} (eq_dec : forall a b : K, {a = b} + {a <> b})
    (k : K) (d : Dict.t K V) : result V :=
  match Dict.get eq_dec k d with
  | Some v => Ok v
  | None => Raise KeyError
  end.

(** [enumerate(l)], counting from [i]. *)
Fixpoint enumerate_from {A : Type} (i : nat) (l : list A) : list (nat * A) :=
  match l with
  | [] => []
  | x :: l' => (i, x) :: enumerate_from (S i) l'
  end.

Definition enumerate {A : Type} (l : list A) : list (nat * A) :=
  enumerate_from 0 l.

(** The inner loop of [build_graph] for one source. *)
Definition add_targets (id_to_index : Dict.t Z nat) (source_idx : nat)
    (outgoing : list (option Z * str)) (g : SimplePregelGraph.t)
  : result SimplePregelGraph.t :=
  fold_left (fun rg link =>
               g <- rg ;;
               match fst link with
               | Some target_doc_id =>
                   if truthy (Some target_doc_id)
                      && Dict.contains Z.eq_dec target_doc_id id_to_index
                   then
                     target_idx <- lookup Z.eq_dec target_doc_id id_to_index ;;
                     Ok (SimplePregelGraph.add_edge source_idx target_idx g)
                   else Ok g
               | None => Ok g
               end)
            outgoing (Ok g).

Definition build_graph (doc_ids : list Z) (id_to_index : Dict.t Z nat)
    (db : Database.t) (g : SimplePregelGraph.t) : result SimplePregelGraph.t :=
  fold_left (fun rg doc_id =>
               g <- rg ;;
               source_idx <- lookup Z.eq_dec doc_id id_to_index ;;
               add_targets id_to_index source_idx
                 (Database.get_outgoing_links doc_id db) g)
            doc_ids (Ok g).

Definition init (cfg : Config.pagerank_config) (db : Database.t) : result t :=
  let documents := Database.get_all_documents db in
  let doc_ids := map (fun doc => fst (fst doc)) documents in
  if length doc_ids =? 0 then
    Ok {| damping_factor := Config.damping_factor cfg;
          max_iterations := Config.max_iterations cfg;
          tolerance := Config.tolerance cfg;
          documents := documents;
          doc_ids := doc_ids;
          id_to_index := [];
          index_to_id := [];
          graph := None |}
  else
    let id_to_index :=
      fold_left (fun d e => Dict.set Z.eq_dec (snd e) (fst e) d)
                (enumerate doc_ids) [] in
    let index_to_id :=
      fold_left (fun d e => Dict.set Nat.eq_dec (fst e) (snd e) d)
                (enumerate doc_ids) [] in
    g <- build_graph doc_ids id_to_index db
           (SimplePregelGraph.init (length doc_ids)) ;;
    Ok {| damping_factor := Config.damping_factor cfg;
          max_iterations := Config.max_iterations cfg;
          tolerance := Config.tolerance cfg;
          documents := documents;
          doc_ids := doc_ids;
          id_to_index := id_to_index;
          index_to_id := index_to_id;
          graph := Some g |}.

Definition pagerank_of (index_to_id : Dict.t nat Z)
    (vs : list PregelVertex.t) : result (Dict.t Z Q) :=
  fold_left (fun rd iv =>
               d <- rd ;;
               doc_id <- lookup Nat.eq_dec (fst iv) index_to_id ;;
               Ok (Dict.set Z.eq_dec doc_id (PregelVertex.value (snd iv)) d))
            (enumerate vs) (Ok []).

Definition get_current_pagerank (self : t) : result (Dict.t Z Q) :=
  match graph self with
  | None => Ok []
  | Some g => pagerank_of (index_to_id self) (SimplePregelGraph.vertices g)
  end.

Definition set_graph (self : t) (g : SimplePregelGraph.t) : t :=
  {| damping_factor := damping_factor self;
     max_iterations := max_iterations self;
     tolerance := tolerance self;
     documents := documents self;
     doc_ids := doc_ids self;
     id_to_index := id_to_index self;
     index_to_id := index_to_id self;
     graph := Some g |}.

(** The loop [for iteration in range(self.max_iterations)], with
    [remaining] rounds to go. *)
Fixpoint calculate_loop (self : t) (remaining iteration : nat)
    (g : SimplePregelGraph.t) (db : Database.t)
  : result (SimplePregelGraph.t * Database.t) :=
  match remaining with
  | O => Ok (g, db)
  | S remaining' =>
      let '(g, active) := SimplePregelGraph.run_superstep (damping_factor self) g in
      current_pagerank <- get_current_pagerank (set_graph self g) ;;
      let db := save_pagerank current_pagerank (iteration + 1) db in
      if negb active then Ok (g, db)
      else calculate_loop self remaining' (S iteration) g db
  end.

(** Returns the scores, the engine with its graph as the run left it, and
    the tables. *)
Definition calculate (self : t) (db : Database.t)
  : result (Dict.t Z Q * t * Database.t) :=
  match graph self with
  | None => Ok ([], self, db)
  | Some g =>
      if num_documents self =? 0 then Ok ([], self, db)
      else
        g <- SimplePregelGraph.initialize_pagerank g ;;
        gd <- calculate_loop self (max_iterations self) 0 g db ;;
        let self := set_graph self (fst gd) in
        ranks <- get_current_pagerank self ;;
        Ok (ranks, self, snd gd)
  end.

(** [count_active_vertices] *)
Definition count_active_vertices (self : t) : nat :=
  match graph self with
  | None => 0
  | Some g => length (filter PregelVertex.active (SimplePregelGraph.vertices g))
  end.

Definition get_top_documents (self : t) (n : Z)
  : result (list (Z * Q * str * str)) :=
  pagerank <- get_current_pagerank self ;;
  match pagerank with
  | [] => Ok []
  | _ =>
      let documents_info := documents_info (documents self) in
      let sorted_docs := prefix n (sorted_by_rank pagerank) in
      Ok (map (fun dr =>
                 let '(url, title) :=
                   Dict.get_default Z.eq_dec (fst dr) (py "Unknown", py "Unknown")
                     documents_info in
                 (fst dr, snd dr, url,
                  if 50 <? length title then firstn 50 title ++ py "..."
                  else title))
              sorted_docs)
  end.

(** [print_statistics]: what it prints of the graph and of the scores. *)
Definition print_statistics (self : t)
  : result (nat * list (Z * Q * str * str)) :=
  top_docs <- get_top_documents self 5 ;;
  Ok (count_active_vertices self, top_docs).

End PageRankPregel.

(** ** search_engine.py *)

(** [int(x)]: truncation towards zero. *)
Definition py_int (x : Q) : Z := Z.quot (Qnum x) (Zpos (Qden x)).

Module SearchEngine.

Record t : Type := {
  total_documents : nat;
  results_per_page : nat;
  snippet_length : nat;
  idf_cache : Dict.t str R
}.

Definition init (cfg : Config.search_config) (db : Database.t) : t :=
  {| total_documents := Database.get_total_documents db;
     results_per_page := Config.results_per_page cfg;
     snippet_length := Config.snippet_length cfg;
     idf_cache := [] |}.

Definition set_idf_cache (self : t) (cache : Dict.t str R) : t :=
  {| total_documents := total_documents self;
     results_per_page := results_per_page self;
     snippet_length := snippet_length self;
     idf_cache := cache |}.

Definition calculate_idf (self : t) (db : Database.t) (word : str) : R * t :=
  match Dict.get str_eq_dec word (idf_cache self) with
  | Some idf => (idf, self)
  | None =>
      let docs_with_word := Database.get_documents_for_word word db in
      let doc_count := length docs_with_word in
      if doc_count =? 0 then
        (0%R, set_idf_cache self (Dict.set str_eq_dec word 0%R (idf_cache self)))
      else
        let idf :=
          (ln (INR (total_documents self + 1) / INR (doc_count + 1)) + 1)%R in
        (idf, set_idf_cache self (Dict.set str_eq_dec word idf (idf_cache self)))
  end.

Definition calculate_tf (term_count total_terms : Z) : R :=
  if (total_terms =? 0)%Z then 0%R
  else (IZR term_count / IZR total_terms)%R.

(** [if content:] a content that is neither [None] nor empty. *)
Definition nonempty_content (c : option str) : option str :=
  match c with
  | Some (_ :: _) => c
  | _ => None
  end.

Definition collect_doc_lengths (db : Database.t) : Dict.t Z nat :=
  fold_left (fun doc_lengths doc =>
               let doc_id := fst (fst doc) in
               match nonempty_content (Database.get_document_content doc_id db) with
               | Some content =>
                   let tokens := Utils.tokenize content Config.STOP_WORDS in
                   Dict.set Z.eq_dec doc_id (length tokens) doc_lengths
               | None => doc_lengths
               end)
            (Database.get_all_documents db) [].

(** [int(raw_tf * doc_lengths[doc_id])].  [raw_tf] comes from the [REAL]
    column [tf], which returns the binary64 number nearest to the number
    written; the product is a product of floats, rounded before [int]
    truncates it.  (A product beyond the largest float, on which [int]
    raises, needs a [tf] above 1e290.) *)
Definition term_count_of (raw_tf : Q) (doc_length : nat) : Z :=
  py_int (Binary64.to_Q
            (Binary64.mul (Binary64.literal raw_tf)
                          (Binary64.of_nat doc_length))).

(** The loop [for doc_id, raw_tf in docs_with_term] of the term-at-a-time
    search. *)
Definition add_term_scores (doc_lengths : Dict.t Z nat) (idf : R)
    (docs_with_term : list (Z * Q)) (scores : Dict.t Z R) : Dict.t Z R :=
  fold_left (fun scores dt =>
               let '(doc_id, raw_tf) := dt in
               match Dict.get Z.eq_dec doc_id doc_lengths with
               | None => scores
               | Some doc_length =>
                   if doc_length =? 0 then scores
                   else
                     let term_count := term_count_of raw_tf doc_length in
                     let tf := calculate_tf term_count (Z.of_nat doc_length) in
                     let tfidf := (tf * idf)%R in
                     Dict.set Z.eq_dec doc_id
                       (Dict.get_default Z.eq_dec doc_id 0%R scores + tfidf)%R
                       scores
               end)
            docs_with_term scores.

(** The body of the loop [for term in query_terms] of the term-at-a-time
    search. *)
Definition term_at_a_time_step (db : Database.t) (doc_lengths : Dict.t Z nat)
    (state : t * Dict.t Z R) (term : str) : t * Dict.t Z R :=
  let '(self, scores) := state in
  let docs_with_term := Database.get_documents_for_word term db in
  let '(idf, self) := calculate_idf self db term in
  if Req_EM_T idf 0%R then (self, scores)
  else (self, add_term_scores doc_lengths idf docs_with_term scores).

(** [max(values)] of a non-empty sequence [v, vs]. *)
Definition max_of (v : R) (vs : list R) : R := fold_left Rmax vs v.

(** Normalisation by the largest score, then the weighting by
    [1 + pagerank]; both loops assign the entries of [scores] in place. *)
Definition apply_pagerank (db : Database.t) (scores : Dict.t Z R) : Dict.t Z R :=
  match Dict.values scores with
  | [] => scores
  | v :: vs =>
      let pageranks := Database.get_all_pageranks db in
      let max_score := max_of v vs in
      let scores :=
        if Rlt_dec 0 max_score then
          fold_left (fun scores doc_id =>
                       Dict.set Z.eq_dec doc_id
                         (Dict.get_default Z.eq_dec doc_id 0%R scores / max_score)%R
                         scores)
                    (Dict.keys scores) scores
        else scores in
      fold_left (fun scores doc_id =>
                   let pagerank := Dict.get_default Z.eq_dec doc_id 1%Q pageranks in
                   Dict.set Z.eq_dec doc_id
                     (Dict.get_default Z.eq_dec doc_id 0%R scores
                      * (1 + Q2R pagerank))%R
                     scores)
                (Dict.keys scores) scores
  end.

(** [sorted(items, key=lambda x: x[1], reverse=True)]: descending and
    stable. *)
Fixpoint insert_desc (x : Z * R) (l : list (Z * R)) : list (Z * R) :=
  match l with
  | [] => [x]
  | y :: l' => if Rlt_dec (snd x) (snd y) then y :: insert_desc x l' else x :: l
  end.

Definition sorted_desc (l : list (Z * R)) : list (Z * R) :=
  fold_right insert_desc [] l.

Definition format_results (self : t) (db : Database.t) (query_terms : list str)
    (sorted_results : list (Z * R)) : list (Z * R * str) :=
  flat_map (fun ds =>
              let '(doc_id, score) := ds in
              match nonempty_content (Database.get_document_content doc_id db) with
              | Some content =>
                  [(doc_id, score,
                    Utils.generate_snippet content query_terms (snippet_length self))]
              | None => []
              end)
           (firstn (results_per_page self) sorted_results).

Definition search_term_at_a_time (self : t) (db : Database.t) (query : str)
    (use_pagerank : bool) : list (Z * R * str) * t :=
  let query_terms := Utils.tokenize query Config.STOP_WORDS in
  match query_terms with
  | [] => ([], self)
  | _ =>
      let doc_lengths := collect_doc_lengths db in
      let '(self, scores) :=
        fold_left (term_at_a_time_step db doc_lengths) query_terms (self, []) in
      let scores := if use_pagerank then apply_pagerank db scores else scores in
      (format_results self db query_terms (sorted_desc scores), self)
  end.

(** The loop filling [term_idf]. *)
Definition collect_term_idf (self : t) (db : Database.t)
    (query_terms : list str) : t * Dict.t str R :=
  fold_left (fun state term =>
               let '(self, term_idf) := state in
               let '(idf, self) := calculate_idf self db term in
               (self, Dict.set str_eq_dec term idf term_idf))
            query_terms (self, []).

(** The body of the loop [for term in query_terms] of the
    document-at-a-time search; [term_idf] holds every query term. *)
Definition document_at_a_time_step (term_idf : Dict.t str R)
    (doc_tokens : list str) (doc_score : R) (term : str) : R :=
  let idf := Dict.get_default str_eq_dec term 0%R term_idf in
  if Req_EM_T idf 0%R then doc_score
  else
    let term_count := count_occ str_eq_dec doc_tokens term in
    if 0 <? term_count then
      let tf := calculate_tf (Z.of_nat term_count)
                  (Z.of_nat (length doc_tokens)) in
      (doc_score + tf * idf)%R
    else doc_score.

(** The body of the loop [for doc_id, url, title in all_docs]. *)
Definition score_document (db : Database.t) (term_idf : Dict.t str R)
    (query_terms : list str) (doc_scores : Dict.t Z R) (doc : Z * str * str)
  : Dict.t Z R :=
  let doc_id := fst (fst doc) in
  match nonempty_content (Database.get_document_content doc_id db) with
  | None => doc_scores
  | Some content =>
      let doc_tokens := Utils.tokenize content Config.STOP_WORDS in
      let total_terms := length doc_tokens in
      if total_terms =? 0 then doc_scores
      else
        let doc_score :=
          fold_left (document_at_a_time_step term_idf doc_tokens)
                    query_terms 0%R in
        if Rlt_dec 0 doc_score
        then Dict.set Z.eq_dec doc_id doc_score doc_scores
        else doc_scores
  end.

Definition search_document_at_a_time (self : t) (db : Database.t) (query : str)
    (use_pagerank : bool) : list (Z * R * str) * t :=
  let query_terms := Utils.tokenize query Config.STOP_WORDS in
  match query_terms with
  | [] => ([], self)
  | _ =>
      let '(self, term_idf) := collect_term_idf self db query_terms in
      let doc_scores :=
        fold_left (score_document db term_idf query_terms)
                  (Database.get_all_documents db) [] in
      let doc_scores :=
        if use_pagerank then apply_pagerank db doc_scores else doc_scores in
      (format_results self db query_terms (sorted_desc doc_scores), self)
  end.

Definition search (self : t) (db : Database.t) (query method : str)
    (use_pagerank : bool) : list (Z * R * str) * t :=
  if str_eqb (Utils.lower method) (py "term") then
    search_term_at_a_time self db query use_pagerank
  else if str_eqb (Utils.lower method) (py "document") then
    search_document_at_a_time self db query use_pagerank
  else
    search_term_at_a_time self db query use_pagerank.

End SearchEngine.

(** ** main.py *)

Module SearchEngineApp.

(** The application, without [parser], which holds the network session. *)
Record t : Type := {
  db : Database.t;
  mapreduce_pr : option PageRankMapReduce.t;
  pregel_pr : option PageRankPregel.t;
  search_engine : option SearchEngine.t
}.

(** Returns the scores and the application; [print_statistics] prints and
    changes nothing. *)
Definition calculate_pagerank_mapreduce (self : t) : result (Dict.t Z Q * t) :=
  if Database.get_total_documents (db self) =? 0 then Ok ([], self)
  else
    let engine := PageRankMapReduce.init Config.PAGERANK_CONFIG (db self) in
    run <- PageRankMapReduce.calculate engine (db self) ;;
    let printed := PageRankMapReduce.print_statistics (snd (fst run)) in
    Ok (fst (fst run),
        {| db := snd run;
           mapreduce_pr := Some (snd (fst run));
           pregel_pr := pregel_pr self;
           search_engine := search_engine self |}).

Definition calculate_pagerank_pregel (self : t) : result (Dict.t Z Q * t) :=
  if Database.get_total_documents (db self) =? 0 then Ok ([], self)
  else
    engine <- PageRankPregel.init Config.PAGERANK_CONFIG (db self) ;;
    run <- PageRankPregel.calculate engine (db self) ;;
    printed <- PageRankPregel.print_statistics (snd (fst run)) ;;
    Ok (fst (fst run),
        {| db := snd run;
           mapreduce_pr := mapreduce_pr self;
           pregel_pr := Some (snd (fst run));
           search_engine := search_engine self |}).

(** [search]: the engine is made on the first search with documents and
    kept. *)
Definition search (self : t) (query method : str) (use_pagerank : bool)
  : list (Z * R * str) * t :=
  if Database.get_total_documents (db self) =? 0 then ([], self)
  else
    let engine :=
      match search_engine self with
      | Some engine => engine
      | None => SearchEngine.init Config.SEARCH_CONFIG (db self)
      end in
    let found := SearchEngine.search engine (db self) query method use_pagerank in
    (fst found,
     {| db := db self;
        mapreduce_pr := mapreduce_pr self;
        pregel_pr := pregel_pr self;
        search_engine := Some (snd found) |}).

End SearchEngineApp.

(** ** utils.py on an alphabet with code points beyond U+00FF

    [str.lower] maps U+0130 (LATIN CAPITAL LETTER I WITH DOT ABOVE) to the
    two code points U+0069 U+0307; U+0307 (COMBINING DOT ABOVE) is a mark,
    which the [\w] class of [re] does not match.  The functions of
    [Utils] are repeated here, line by line, for strings over the code
    points below 256 and these two. *)

Module UtilsWide.

Inductive char : Type :=
| Latin (c : ascii)
| capital_I_dot     (* U+0130 *)
| combining_dot.    (* U+0307 *)

Definition str := list char.

Definition char_eq_dec : forall a b : char, {a = b} + {a <> b}.
Proof.
  decide equality. apply ascii_dec.
Defined.

Definition char_eqb (a b : char) : bool :=
  if char_eq_dec a b then true else false.

Definition str_eq_dec : forall a b : str, {a = b} + {a <> b} :=
  list_eq_dec char_eq_dec.

Definition str_eqb (a b : str) : bool :=
  if str_eq_dec a b then true else false.

Definition str_in (x : str) (l : list str) : bool := existsb (str_eqb x) l.

(** A string of code points below 256. *)
Definition latin (s : list ascii) : str := map Latin s.

Definition isspace (c : char) : bool :=
  match c with
  | Latin x => Utils.isspace x
  | capital_I_dot | combining_dot => false
  end.

Definition isword (c : char) : bool :=
  match c with
  | Latin x => Utils.isword x
  | capital_I_dot => true
  | combining_dot => false
  end.

(** [str.lower] on one code point: a string. *)
Definition lower_char (c : char) : str :=
  match c with
  | Latin x => [Latin (Utils.lower_char x)]
  | capital_I_dot => [Latin "i"%char; combining_dot]
  | combining_dot => [combining_dot]
  end.

Definition lower (s : str) : str := flat_map lower_char s.

Definition space : char := Latin Utils.space.
Definition lt_sign : char := Latin Utils.lt_sign.
Definition gt_sign : char := Latin Utils.gt_sign.

Definition tag_closes (rest : str) : bool :=
  match rest with
  | [] => false
  | c :: rest' =>
      negb (char_eqb c gt_sign) && existsb (char_eqb gt_sign) rest'
  end.

Fixpoint sub_tags (in_tag : bool) (s : str) : str :=
  match s with
  | [] => []
  | c :: rest =>
      if in_tag then
        if char_eqb c gt_sign then sub_tags false rest
        else sub_tags true rest
      else if char_eqb c lt_sign && tag_closes rest then
        space :: sub_tags true rest
      else c :: sub_tags false rest
  end.

Definition sub_special (s : str) : str :=
  map (fun c => if isword c || isspace c then c else space) s.

Fixpoint sub_spaces (prev : bool) (s : str) : str :=
  match s with
  | [] => []
  | c :: rest =>
      if isspace c then
        if prev then sub_spaces true rest else space :: sub_spaces true rest
      else c :: sub_spaces false rest
  end.

Fixpoint lstrip (s : str) : str :=
  match s with
  | [] => []
  | c :: rest => if isspace c then lstrip rest else s
  end.

Definition strip (s : str) : str := rev (lstrip (rev (lstrip s))).

Definition clean_text (text : str) : str :=
  let text := sub_tags false text in
  let text := sub_special text in
  let text := sub_spaces false text in
  lower (strip text).

Fixpoint split_from (cur : str) (s : str) : list str :=
  match s with
  | [] => match cur with [] => [] | _ => [cur] end
  | c :: rest =>
      if isspace c then
        match cur with
        | [] => split_from [] rest
        | _ => cur :: split_from [] rest
        end
      else split_from (cur ++ [c]) rest
  end.

Definition split (s : str) : list str := split_from [] s.

Fixpoint join (sep : str) (parts : list str) : str :=
  match parts with
  | [] => []
  | [x] => x
  | x :: rest => x ++ sep ++ join sep rest
  end.

Definition tokenize (text : str) (stop_words : list str) : list str :=
  let text := clean_text text in
  let tokens := split text in
  filter (fun token => negb (str_in token stop_words)) tokens.

Fixpoint startswith (p s : str) : bool :=
  match p, s with
  | [], _ => true
  | _ :: _, [] => false
  | a :: p', b :: s' => char_eqb a b && startswith p' s'
  end.

Fixpoint find_at (s sub : str) (i : nat) : option nat :=
  if startswith sub s then Some i
  else match s with
       | [] => None
       | _ :: rest => find_at rest sub (S i)
       end.

Definition find (s sub : str) (start : nat) : option nat :=
  if length s <? start then None else find_at (skipn start s) sub start.

(** The positions are those of [text.lower()], a string that can be longer
    than [text]; the loop leaves within [len(text.lower()) + 2] rounds. *)
Fixpoint term_positions (fuel : nat) (text term : str) (start : nat)
  : option (list (nat * nat)) :=
  match fuel with
  | O => None
  | S fuel' =>
      match find (lower text) (lower term) start with
      | None => Some []
      | Some pos =>
          match term_positions fuel' text term (pos + 1) with
          | None => None
          | Some more => Some ((pos, pos + length term) :: more)
          end
      end
  end.

Fixpoint all_positions (text : str) (query_terms : list str)
  : option (list (nat * nat)) :=
  match query_terms with
  | [] => Some []
  | term :: rest =>
      match term_positions (length (lower text) + 2) text term 0 with
      | None => None
      | Some here =>
          match all_positions text rest with
          | None => None
          | Some more => Some (here ++ more)
          end
      end
  end.

Definition slice (text : str) (start stop : nat) : str :=
  firstn (stop - start) (skipn start text).

Definition ellipsis : str := latin (py "...").

Definition generate_snippet (text : str) (query_terms : list str)
    (max_length : nat) : str :=
  match text with
  | [] => []
  | _ =>
      match all_positions text query_terms with
      | None => []
      | Some [] =>
          if max_length <? length text
          then firstn max_length text ++ ellipsis
          else text
      | Some (p :: ps) =>
          let first_pos := Utils.min_start p ps in
          let start := first_pos - max_length / 2 in
          let stop := Nat.min (length text) (start + max_length) in
          let snippet := slice text start stop in
          let snippet := if 0 <? start then ellipsis ++ snippet else snippet in
          if stop <? length text then snippet ++ ellipsis else snippet
      end
  end.

End UtilsWide.

(** The text ["İstanbul"]: U+0130, then ["stanbul"]. *)
Definition dotted_istanbul : UtilsWide.str :=
  UtilsWide.capital_I_dot :: UtilsWide.latin (py "stanbul").

(** Eighty times U+0130, then ["x"]: a text of 81 characters. *)
Definition dotted_text : UtilsWide.str :=
  repeat UtilsWide.capital_I_dot 80 ++ UtilsWide.latin (py "x").


(** ** The PageRank engines in the arithmetic of the code

    The modules below are the arithmetic of [PageRankMapReduce],
    [PregelVertex], [SimplePregelGraph] and [PageRankPregel] once more,
    operation for operation, on binary64 numbers; the link graph, which
    holds no float, is taken from the engines above. *)

Module PageRankMapReduce64.

Record t : Type := {
  damping_factor : Binary64.float;
  doc_ids : list Z;
  pagerank : Dict.t Z Binary64.float;
  outgoing_links : Dict.t Z (list Z)
}.

Definition num_documents (self : t) : nat := length (doc_ids self).

(** [__init__], for the fields that [calculate_pagerank_iteration] reads. *)
Definition init (cfg : Config.pagerank_config) (db : Database.t) : t :=
  let exact := PageRankMapReduce.init cfg db in
  let doc_ids := PageRankMapReduce.doc_ids exact in
  let n := length doc_ids in
  {| damping_factor := Binary64.literal (Config.damping_factor cfg);
     doc_ids := doc_ids;
     pagerank :=
       fold_left (fun d doc_id =>
                    Dict.set Z.eq_dec doc_id
                      (Binary64.div (Binary64.of_Z 1) (Binary64.of_nat n)) d)
                 doc_ids [];
     outgoing_links := PageRankMapReduce.outgoing_links exact |}.

Definition map_phase (self : t) (doc_id : Z) (pagerank : Binary64.float)
  : list (Z * Binary64.float) :=
  match Dict.get Z.eq_dec doc_id (outgoing_links self) with
  | None => []
  | Some outgoing =>
      match outgoing with
      | [] => []
      | _ =>
          let share :=
            Binary64.div pagerank (Binary64.of_nat (length outgoing)) in
          map (fun target_id => (target_id, share)) outgoing
      end
  end.

Definition reduce_phase (contributions : list (Z * Binary64.float))
  : Dict.t Z Binary64.float :=
  fold_left (fun reduced c =>
               let '(doc_id, contribution) := c in
               Dict.set Z.eq_dec doc_id
                 (Binary64.add
                    (Dict.get_default Z.eq_dec doc_id (Binary64.of_Z 0) reduced)
                    contribution)
                 reduced)
            contributions [].

Definition calculate_pagerank_iteration (self : t)
    (current_pagerank : Dict.t Z Binary64.float) : Dict.t Z Binary64.float :=
  let all_contributions :=
    flat_map (fun dr => map_phase self (fst dr) (snd dr)) current_pagerank in
  let new_ranks := reduce_phase all_contributions in
  fold_left (fun new_ranks doc_id =>
               let base_rank :=
                 Binary64.div
                   (Binary64.sub (Binary64.of_Z 1) (damping_factor self))
                   (Binary64.of_nat (num_documents self)) in
               let incoming_rank :=
                 Binary64.mul
                   (Dict.get_default Z.eq_dec doc_id (Binary64.of_Z 0) new_ranks)
                   (damping_factor self) in
               Dict.set Z.eq_dec doc_id (Binary64.add base_rank incoming_rank)
                 new_ranks)
            (doc_ids self) new_ranks.

End PageRankMapReduce64.

Module PregelVertex64.

Record t : Type := {
  id : nat;
  value : Binary64.float;
  outgoing_edges : list nat;
  active : bool
}.

Definition send_messages (self : t) : list (nat * Binary64.float) :=
  match outgoing_edges self with
  | [] => []
  | _ =>
      let share :=
        Binary64.div (value self)
          (Binary64.of_nat (length (outgoing_edges self))) in
      map (fun neighbor => (neighbor, share)) (outgoing_edges self)
  end.

End PregelVertex64.

Module SimplePregelGraph64.

Record t : Type := {
  vertices : list PregelVertex64.t;
  superstep : nat;
  messages : Dict.t nat (list Binary64.float)
}.

Definition num_vertices (self : t) : nat := length (vertices self).

(** The graph with the edges of [g], as [build_graph] leaves it: the
    values are the [0.0] of [PregelVertex.__init__]. *)
Definition of_edges (g : SimplePregelGraph.t) : t :=
  {| vertices :=
       map (fun v => {| PregelVertex64.id := PregelVertex.id v;
                        PregelVertex64.value := Binary64.of_Z 0;
                        PregelVertex64.outgoing_edges :=
                          PregelVertex.outgoing_edges v;
                        PregelVertex64.active := PregelVertex.active v |})
           (SimplePregelGraph.vertices g);
     superstep := SimplePregelGraph.superstep g;
     messages := [] |}.

Definition initialize_pagerank (self : t) : result t :=
  if num_vertices self =? 0 then Raise ZeroDivisionError
  else
    let initial_value :=
      Binary64.div (Binary64.of_Z 1) (Binary64.of_nat (num_vertices self)) in
    Ok {| vertices :=
            map (fun v => {| PregelVertex64.id := PregelVertex64.id v;
                             PregelVertex64.value := initial_value;
                             PregelVertex64.outgoing_edges :=
                               PregelVertex64.outgoing_edges v;
                             PregelVertex64.active := true |})
                (vertices self);
          superstep := superstep self;
          messages := messages self |}.

Definition threshold : Binary64.float :=
  Binary64.literal SimplePregelGraph.threshold.

Definition deliver (messages : Dict.t nat (list Binary64.float))
    (m : nat * Binary64.float) : Dict.t nat (list Binary64.float) :=
  let '(target_id, message_value) := m in
  Dict.set Nat.eq_dec target_id
    (Dict.get_default Nat.eq_dec target_id [] messages ++ [message_value])
    messages.

Definition send_phase (vs : list PregelVertex64.t)
  : Dict.t nat (list Binary64.float) :=
  fold_left (fun messages vertex =>
               if PregelVertex64.active vertex
               then fold_left deliver (PregelVertex64.send_messages vertex)
                      messages
               else messages)
            vs [].

Definition receive (damping_factor : Binary64.float) (num_vertices : nat)
    (messages : Dict.t nat (list Binary64.float)) (vertex : PregelVertex64.t)
  : PregelVertex64.t :=
  let incoming_messages :=
    Dict.get_default Nat.eq_dec (PregelVertex64.id vertex) [] messages in
  let incoming_sum :=
    match incoming_messages with
    | [] => Binary64.of_Z 0
    | _ => Binary64.sum incoming_messages
    end in
  let random_walk :=
    Binary64.div (Binary64.sub (Binary64.of_Z 1) damping_factor)
      (Binary64.of_nat num_vertices) in
  let new_value :=
    Binary64.add random_walk (Binary64.mul damping_factor incoming_sum) in
  {| PregelVertex64.id := PregelVertex64.id vertex;
     PregelVertex64.value := new_value;
     PregelVertex64.outgoing_edges := PregelVertex64.outgoing_edges vertex;
     PregelVertex64.active :=
       Binary64.ltb threshold
         (Binary64.abs (Binary64.sub new_value (PregelVertex64.value vertex))) |}.

Definition run_superstep (damping_factor : Binary64.float) (self : t)
  : t * bool :=
  let messages := send_phase (vertices self) in
  let vs := map (receive damping_factor (num_vertices self) messages)
                (vertices self) in
  let active_vertices := length (filter PregelVertex64.active vs) in
  ({| vertices := vs;
      superstep := superstep self + 1;
      messages := messages |},
   0 <? active_vertices).

End SimplePregelGraph64.

Module PageRankPregel64.

(** The graph of [__init__] after [initialize_pagerank], as [calculate]
    has it before the first superstep; [None] on a corpus without
    documents, where [calculate] returns at once. *)
Definition start (cfg : Config.pagerank_config) (db : Database.t)
  : result (option SimplePregelGraph64.t) :=
  self <- PageRankPregel.init cfg db ;;
  match PageRankPregel.graph self with
  | None => Ok None
  | Some g =>
      g <- SimplePregelGraph64.initialize_pagerank
             (SimplePregelGraph64.of_edges g) ;;
      Ok (Some g)
  end.

(** [k] supersteps, whatever the flags say. *)
Definition supersteps (damping_factor : Binary64.float) (k : nat)
    (g : SimplePregelGraph64.t) : SimplePregelGraph64.t :=
  Nat.iter k (fun g => fst (SimplePregelGraph64.run_superstep damping_factor g))
           g.

(** [get_current_pagerank]: the values of the vertices, by document. *)
Definition get_current_pagerank (index_to_id : Dict.t nat Z)
    (g : SimplePregelGraph64.t) : result (Dict.t Z Binary64.float) :=
  fold_left (fun rd iv =>
               d <- rd ;;
               doc_id <- PageRankPregel.lookup Nat.eq_dec (fst iv) index_to_id ;;
               Ok (Dict.set Z.eq_dec doc_id (PregelVertex64.value (snd iv)) d))
            (PageRankPregel.enumerate (SimplePregelGraph64.vertices g))
            (Ok []).

End PageRankPregel64.
(** ** Vocabulary of the statements about utils.py *)

(** A character that [clean_text] leaves as it is and that [split] keeps
    inside a token: a word character that is its own lower case. *)
Definition token_char (c : ascii) : bool :=
  Utils.isword c && Ascii.eqb (Utils.lower_char c) c.

(** What [tokenize] returns: non-empty runs of such characters. *)
Definition is_token (t : str) : Prop :=
  t <> [] /\ Forall (fun c => token_char c = true) t.

(** The characters of a cleaned text. *)
Definition clean_char (c : ascii) : bool := token_char c || Utils.isspace c.

(** The separator [" "] of the joined input. *)
Definition sp : str := [Utils.space].


(** [sub] occurs in [s] at index [i]. *)
Definition occurs_at (sub s : str) (i : nat) : Prop :=
  i <= length s /\ Utils.startswith sub (skipn i s) = true.

(** Some query term occurs in [text] at index [i], whatever the case of
    the letters. *)
Definition term_occurs_at (text : str) (query_terms : list str) (i : nat) : Prop :=
  exists term, In term query_terms
               /\ occurs_at (Utils.lower term) (Utils.lower text) i.

Definition first_occurrence (text : str) (query_terms : list str) (p : nat) : Prop :=
  term_occurs_at text query_terms p
  /\ forall q, term_occurs_at text query_terms q -> p <= q.

(** The window of [max_length] characters of [text] from [start], cut at
    the end of the text, with an ellipsis on each side where text is left
    out. *)
Definition window (text : str) (start max_length : nat) : str :=
  let stop := Nat.min (length text) (start + max_length) in
  (if 0 <? start then Utils.ellipsis else [])
  ++ Utils.slice text start stop
  ++ (if stop <? length text then Utils.ellipsis else []).

(** ** Vocabulary of the statements about search_engine.py *)


(** A corpus of one document, indexed by the parser. *)
Definition one_document_corpus : Database.t :=
  WebParser.index_document (py "http://example.com/doc1") (py "Document 1")
    (py "machine learning") [] Database.empty.

(** ** Vocabulary of the statements about parser.py and database.py *)

(** The invariants that the tables keep under the functions of
    [Database]: the ids handed out are positive and at most the
    [AUTOINCREMENT] counter, a posting refers to a word id handed out, and
    a word id stands for one word. *)
Record well_formed (db : Database.t) : Prop := {
  wf_seq_documents : (0 <= Database.seq_documents db)%Z;
  wf_seq_words : (0 <= Database.seq_words db)%Z;
  wf_doc_ids : forall d, In d (Database.documents db) ->
      (0 < Database.doc_id d <= Database.seq_documents db)%Z;
  wf_word_ids : forall r, In r (Database.words db) ->
      (0 < Database.word_id r <= Database.seq_words db)%Z;
  wf_posting_ids : forall p, In p (Database.inverted_index db) ->
      (Database.p_word_id p <= Database.seq_words db)%Z;
  wf_word_of_id : forall r1 r2,
      In r1 (Database.words db) -> In r2 (Database.words db) ->
      Database.word_id r1 = Database.word_id r2 ->
      Database.word r1 = Database.word r2
}.

(** C6 as it is stated: the postings of [doc] are those of the terms of
    [content]. *)
Definition postings_match_content (db : Database.t) (doc : Z) (content : str)
  : Prop :=
  forall term,
    WebParser.has_posting term doc db = true
    <-> In term (Utils.tokenize content Config.STOP_WORDS).


(** One round of the loop over [term_counts]: the word, then its posting. *)
Definition index_term (doc_id : Z) (positions_cache : Dict.t str (list nat))
    (db : Database.t) (wc : str * nat) : Database.t :=
  let '(word, count) := wc in
  let '(word_id, db) := Database.add_word word db in
  if (word_id =? -1)%Z then db
  else Database.add_inverted_index_entry word_id doc_id
         (inject_Z (Z.of_nat count))
         (Dict.get_default str_eq_dec word [] positions_cache) db.


(** ** Vocabulary of the statement about the weight of an absent term *)

(** The number of documents whose content has the token [word]: the [df]
    of C7 as it is stated. *)
Definition documents_containing (word : str) (db : Database.t) : nat :=
  length (filter (fun d => str_in word
                             (Utils.tokenize (Database.content d)
                                Config.STOP_WORDS))
                 (Database.documents db)).

(** ** Vocabulary of the statements about the PageRank engines *)

(** The messages that reach [target] in one superstep, in the order of
    their arrival: one from each edge to [target] of each active vertex. *)
Definition inbox (vs : list PregelVertex.t) (target : nat) : list Q :=
  flat_map (fun v =>
              if PregelVertex.active v
              then map (fun _ => (PregelVertex.value v
                                  / Qnat (length (PregelVertex.outgoing_edges v)))%Q)
                       (filter (Nat.eqb target) (PregelVertex.outgoing_edges v))
              else [])
           vs.

(** The same with every vertex sending, active or not. *)
Definition inbox_of_all (vs : list PregelVertex.t) (target : nat) : list Q :=
  flat_map (fun v =>
              map (fun _ => (PregelVertex.value v
                             / Qnat (length (PregelVertex.outgoing_edges v)))%Q)
                  (filter (Nat.eqb target) (PregelVertex.outgoing_edges v)))
           vs.

(** C4 as it is stated: every vertex sends along every edge, and a vertex
    is inactive exactly when its value moved by less than the threshold. *)
Definition superstep_as_stated (damping_factor : Q) (g : SimplePregelGraph.t)
  : Prop :=
  let g' := fst (SimplePregelGraph.run_superstep damping_factor g) in
  (forall target,
      Dict.get_default Nat.eq_dec target [] (SimplePregelGraph.messages g')
      = inbox_of_all (SimplePregelGraph.vertices g) target)
  /\ (forall i v v',
         nth_error (SimplePregelGraph.vertices g) i = Some v ->
         nth_error (SimplePregelGraph.vertices g') i = Some v' ->
         (PregelVertex.active v' = false
          <-> (Qabs (PregelVertex.value v' - PregelVertex.value v)
               < SimplePregelGraph.threshold)%Q)).

(** Two documents, the first linking to the second. *)
Definition chain_corpus : Database.t :=
  let '(a, db) :=
    Database.add_document (py "http://example.com/a") (py "A") (py "alpha")
      Database.empty in
  let '(b, db) :=
    Database.add_document (py "http://example.com/b") (py "B") (py "beta") db in
  Database.add_link a (py "http://example.com/b")
    (Database.get_document_id (py "http://example.com/b") db) db.

(** The engine as [__init__] builds it, with its graph as [calculate]
    initialises it ([None] on a corpus without documents). *)
Definition pregel_start (cfg : Config.pagerank_config) (db : Database.t)
  : result (PageRankPregel.t * option SimplePregelGraph.t) :=
  self <- PageRankPregel.init cfg db ;;
  match PageRankPregel.graph self with
  | None => Ok (self, None)
  | Some g =>
      g <- SimplePregelGraph.initialize_pagerank g ;;
      Ok (self, Some g)
  end.

(** [k] supersteps. *)
Definition supersteps (d : Q) (k : nat) (g : SimplePregelGraph.t)
  : SimplePregelGraph.t :=
  Nat.iter k (fun g => fst (SimplePregelGraph.run_superstep d g)) g.

(** The graph of [chain_corpus] after [k] supersteps. *)
Definition chain_graph (k : nat) : option SimplePregelGraph.t :=
  match pregel_start Config.PAGERANK_CONFIG chain_corpus with
  | Ok (self, Some g) =>
      Some (supersteps (PageRankPregel.damping_factor self) k g)
  | _ => None
  end.

(** One vertex without edges whose value is [1e-10]: with a damping factor
    of [1] its next value is [0]. *)
Definition threshold_graph : SimplePregelGraph.t :=
  {| SimplePregelGraph.vertices :=
       [{| PregelVertex.id := 0;
           PregelVertex.value := SimplePregelGraph.threshold;
           PregelVertex.outgoing_edges := [];
           PregelVertex.active := true |}];
     SimplePregelGraph.superstep := 0;
     SimplePregelGraph.messages := [] |}.

(** The values of the messages [(target, value)] of [ms] that go to [t]. *)
Definition to_target {T : Type} (T_eqb : T -> T -> bool) (t : T)
    (ms : list (T * Q)) : list Q :=
  map snd (filter (fun m => T_eqb t (fst m)) ms).

(** All the messages of one superstep, in the order in which they are sent. *)
Definition outbox (vs : list PregelVertex.t) : list (nat * Q) :=
  flat_map (fun v => if PregelVertex.active v
                     then PregelVertex.send_messages v
                     else [])
           vs.

(** A vertex that sends in the next superstep: active, with an edge. *)
Definition sends (v : PregelVertex.t) : bool :=
  PregelVertex.active v
  && match PregelVertex.outgoing_edges v with [] => false | _ => true end.

Definition total_value (vs : list PregelVertex.t) : Q :=
  Qsum (map PregelVertex.value vs).

(** The vertices as [SimplePregelGraph] keeps them: the vertex at index
    [i] has the id [i], and every edge leads to a vertex. *)
Definition graph_ok (vs : list PregelVertex.t) : Prop :=
  map PregelVertex.id vs = seq 0 (length vs)
  /\ Forall (fun v => Forall (fun t => t < length vs)
                             (PregelVertex.outgoing_edges v)) vs.

(** One superstep on the vertices. *)
Definition superstep_vertices (d : Q) (vs : list PregelVertex.t)
  : list PregelVertex.t :=
  map (SimplePregelGraph.receive d (length vs) (SimplePregelGraph.send_phase vs)) vs.

(** No vertex has a negative value. *)
Definition nonnegative (vs : list PregelVertex.t) : Prop :=
  Forall (fun v => (0 <= PregelVertex.value v)%Q) vs.

(** ** The link graph of a corpus *)

(** [self.doc_ids] of both engines. *)
Definition doc_ids_of (db : Database.t) : list Z :=
  map (fun doc => fst (fst doc)) (Database.get_all_documents db).

(** [self.id_to_index] and [self.index_to_id] of the Pregel engine. *)
Definition id_to_index_of (ids : list Z) : Dict.t Z nat :=
  fold_left (fun d e => Dict.set Z.eq_dec (snd e) (fst e) d)
            (PageRankPregel.enumerate ids) [].

Definition index_to_id_of (ids : list Z) : Dict.t nat Z :=
  fold_left (fun d e => Dict.set Nat.eq_dec (fst e) (snd e) d)
            (PageRankPregel.enumerate ids) [].

(** What the tables keep: the ids of the documents are distinct (the
    primary key), and a link that is resolved to a document id leads to a
    document ([index_document] resolves with [get_document_id], and no
    document is deleted). *)
Definition link_graph_ok (db : Database.t) : Prop :=
  NoDup (doc_ids_of db)
  /\ forall l, In l (Database.links db) ->
       forall t, Database.target_doc_id l = Some t -> t <> 0%Z ->
                 In t (doc_ids_of db).

(** The ids of the rows of [documents] are distinct and at most the
    [AUTOINCREMENT] counter. *)
Definition documents_ok (docs : list Database.Document) (seq : Z) : Prop :=
  NoDup (map Database.doc_id docs)
  /\ forall d, In d docs -> (Database.doc_id d <= seq)%Z.

(** Every resolved link of [links] leads to one of the [ids]. *)
Definition links_ok (links : list Database.Link) (ids : list Z) : Prop :=
  forall l, In l links ->
    forall t, Database.target_doc_id l = Some t -> In t ids.

(** The documents that [id] links to, once per link. *)
Definition outgoing (db : Database.t) (id : Z) : list Z :=
  PageRankMapReduce.resolved_targets (Database.get_outgoing_links id db).

(** No document has zero outdegree. *)
Definition no_dangling (db : Database.t) : Prop :=
  forall id, In id (doc_ids_of db) -> outgoing db id <> [].

(** The first index of [id] in [ids]. *)
Fixpoint index_in (id : Z) (ids : list Z) : option nat :=
  match ids with
  | [] => None
  | x :: ids' =>
      if Z.eq_dec id x then Some 0
      else option_map S (index_in id ids')
  end.

(** The index of the document [id] in the graph. *)
Definition index_of (ids : list Z) (id : Z) : nat :=
  match index_in id ids with
  | Some i => i
  | None => 0
  end.

(** The vertex that [build_graph] makes of the document [id] at index [i]. *)
Definition built_vertex (db : Database.t) (ids : list Z) (e : nat * Z)
  : PregelVertex.t :=
  {| PregelVertex.id := fst e;
     PregelVertex.value := 0;
     PregelVertex.outgoing_edges := map (index_of ids) (outgoing db (snd e));
     PregelVertex.active := true |}.

(** [vertices[i].outgoing_edges.extend(targets)] *)
Definition extend_edges (i : nat) (targets : list nat)
    (vs : list PregelVertex.t) : list PregelVertex.t :=
  fold_left (fun vs t => SimplePregelGraph.append_edge i t vs) targets vs.

(** [v.outgoing_edges.extend(targets)] *)
Definition with_edges (targets : list nat) (v : PregelVertex.t) : PregelVertex.t :=
  {| PregelVertex.id := PregelVertex.id v;
     PregelVertex.value := PregelVertex.value v;
     PregelVertex.outgoing_edges := PregelVertex.outgoing_edges v ++ targets;
     PregelVertex.active := PregelVertex.active v |}.

(** The vertices after the loop of [build_graph] over the documents [s]. *)
Definition build_vertices (db : Database.t) (ids s : list Z)
    (vs : list PregelVertex.t) : list PregelVertex.t :=
  fold_left (fun vs id =>
               extend_edges (index_of ids id)
                 (map (index_of ids) (outgoing db id)) vs)
            s vs.

(** [v'] is [v] with the edges [targets] appended. *)
Definition extends (v v' : PregelVertex.t) (targets : list nat) : Prop :=
  PregelVertex.id v' = PregelVertex.id v
  /\ PregelVertex.value v' = PregelVertex.value v
  /\ PregelVertex.active v' = PregelVertex.active v
  /\ PregelVertex.outgoing_edges v' = PregelVertex.outgoing_edges v ++ targets.

(** The vertices as [calculate] has them after [initialize_pagerank]. *)
Definition initial_vertices (db : Database.t) : list PregelVertex.t :=
  map (fun e =>
         {| PregelVertex.id := fst e;
            PregelVertex.value := (1 / Qnat (length (doc_ids_of db)))%Q;
            PregelVertex.outgoing_edges :=
              map (index_of (doc_ids_of db)) (outgoing db (snd e));
            PregelVertex.active := true |})
      (PageRankPregel.enumerate (doc_ids_of db)).

(** The vertices after [k] supersteps. *)
Definition pregel_vertices (d : Q) (db : Database.t) (k : nat)
  : list PregelVertex.t :=
  Nat.iter k (superstep_vertices d) (initial_vertices db).

(** The sum of the scores of the documents [ids]. *)
Definition total_score (ids : list Z) (ranks : Dict.t Z Q) : Q :=
  Qsum (map (fun id => Dict.get_default Z.eq_dec id 0%Q ranks) ids).

(** The scores of the documents [ids], read off the vertices in order:
    what [get_current_pagerank] returns. *)
Definition scores_of (ids : list Z) (vs : list PregelVertex.t) : Dict.t Z Q :=
  map (fun p => (fst p, PregelVertex.value (snd p))) (combine ids vs).

(** The Pregel engine of a corpus with a document. *)
Definition pregel_engine (cfg : Config.pagerank_config) (db : Database.t)
  : PageRankPregel.t :=
  {| PageRankPregel.damping_factor := Config.damping_factor cfg;
     PageRankPregel.max_iterations := Config.max_iterations cfg;
     PageRankPregel.tolerance := Config.tolerance cfg;
     PageRankPregel.documents := Database.get_all_documents db;
     PageRankPregel.doc_ids := doc_ids_of db;
     PageRankPregel.id_to_index := id_to_index_of (doc_ids_of db);
     PageRankPregel.index_to_id := index_to_id_of (doc_ids_of db);
     PageRankPregel.graph :=
       Some {| SimplePregelGraph.vertices :=
                 map (built_vertex db (doc_ids_of db))
                     (PageRankPregel.enumerate (doc_ids_of db));
               SimplePregelGraph.superstep := 0;
               SimplePregelGraph.messages := [] |} |}.

(** The MapReduce engine of a corpus, and its scores after [k] iterations. *)
Definition mapreduce_engine (cfg : Config.pagerank_config) (db : Database.t)
  : PageRankMapReduce.t :=
  PageRankMapReduce.init cfg db.

Definition mapreduce_scores (cfg : Config.pagerank_config) (db : Database.t)
    (k : nat) : Dict.t Z Q :=
  Nat.iter k
    (PageRankMapReduce.calculate_pagerank_iteration (mapreduce_engine cfg db))
    (PageRankMapReduce.pagerank (mapreduce_engine cfg db)).

(** All the contribution records of one map step. *)
Definition contributions (self : PageRankMapReduce.t) (ranks : Dict.t Z Q)
  : list (Z * Q) :=
  flat_map (fun dr => PageRankMapReduce.map_phase self (fst dr) (snd dr)) ranks.

(** A score vector of the MapReduce engine: one entry for each document,
    none negative. *)
Definition ranks_ok (ids : list Z) (ranks : Dict.t Z Q) : Prop :=
  NoDup (Dict.keys ranks)
  /\ (forall id, In id (Dict.keys ranks) <-> In id ids)
  /\ Forall (fun dr => (0 <= snd dr)%Q) ranks.

(** The document [id] has a resolved link. *)
Definition has_links (db : Database.t) (id : Z) : bool :=
  match outgoing db id with
  | [] => false
  | _ => true
  end.

(** The shares that reach the document [id] in one round from the scores
    [x]: one share [x j / outdegree j] for each link of a document [j] to
    [id]. *)
Definition inflow (db : Database.t) (x : Z -> Q) (id : Z) : list Q :=
  flat_map (fun j => map (fun _ => (x j / Qnat (length (outgoing db j)))%Q)
                         (filter (Z.eqb id) (outgoing db j)))
           (doc_ids_of db).

(** The score of the document [id] after [k] supersteps. *)
Definition pregel_score (d : Q) (db : Database.t) (k : nat) (id : Z) : Q :=
  Dict.get_default Z.eq_dec id 0%Q
    (scores_of (doc_ids_of db) (pregel_vertices d db k)).

Definition all_active (vs : list PregelVertex.t) : Prop :=
  Forall (fun v => PregelVertex.active v = true) vs.

(** The graph of a corpus with a document as [calculate] initialises it. *)
Definition initial_graph (db : Database.t) : SimplePregelGraph.t :=
  {| SimplePregelGraph.vertices := initial_vertices db;
     SimplePregelGraph.superstep := 0;
     SimplePregelGraph.messages := [] |}.

(** C1 as it is stated: the score vectors that the two [calculate] return
    differ by less than the tolerance at every document. *)
Definition engines_within_tolerance (cfg : Config.pagerank_config)
    (db : Database.t) : Prop :=
  forall selfA ranksA selfA' dbA ranksB selfB' dbB,
    PageRankPregel.init cfg db = Ok selfA ->
    PageRankPregel.calculate selfA db = Ok (ranksA, selfA', dbA) ->
    PageRankMapReduce.calculate (PageRankMapReduce.init cfg db) db
    = Ok (ranksB, selfB', dbB) ->
    forall id, In id (doc_ids_of db) ->
      (Qabs (Dict.get_default Z.eq_dec id 0 ranksA
             - Dict.get_default Z.eq_dec id 0 ranksB)
       < Config.tolerance cfg)%Q.

(** ** Vocabulary of the statements about the result list *)

(** The inverted index lists the document [id] for a term of the query. *)
Definition listed_for (db : Database.t) (query_terms : list str) (id : Z) : Prop :=
  exists term tf,
    In term query_terms
    /\ In (id, tf) (Database.get_documents_for_word term db).

(** A term of the query is a token of the content of the document [id]. *)
Definition contains_term (db : Database.t) (query_terms : list str) (id : Z)
  : Prop :=
  exists content term,
    Database.get_document_content id db = Some content
    /\ In term query_terms
    /\ In term (Utils.tokenize content Config.STOP_WORDS).

(** The scores of a result list do not increase. *)
Definition ranked (results : list (Z * R * str)) : Prop :=
  StronglySorted (fun a b => (snd (fst b) <= snd (fst a))%R) results.

(** ** Vocabulary of the statements about the postings of a document *)

(** The posting [p] is a posting of the document [doc] for the word
    [term]: the join of [get_documents_for_word], with the document fixed. *)
Definition is_posting_of (db : Database.t) (term : str) (doc : Z)
    (p : Database.Posting) : bool :=
  (Database.p_doc_id p =? doc)%Z
  && existsb (fun r => (Database.word_id r =? Database.p_word_id p)%Z
                       && str_eqb (Database.word r) term)
             (Database.words db).

Definition postings_of (db : Database.t) (term : str) (doc : Z)
  : list Database.Posting :=
  filter (is_posting_of db term doc) (Database.inverted_index db).

(** [word] is [UNIQUE] in the table of words. *)
Definition words_unique (db : Database.t) : Prop :=
  forall r1 r2,
    In r1 (Database.words db) -> In r2 (Database.words db) ->
    Database.word r1 = Database.word r2 ->
    Database.word_id r1 = Database.word_id r2.

(** The indices at which [term] stands in [tokens], counted from [i]. *)
Fixpoint indices_from (i : nat) (term : str) (tokens : list str) : list nat :=
  match tokens with
  | [] => []
  | token :: rest =>
      if str_eqb token term then i :: indices_from (S i) term rest
      else indices_from (S i) term rest
  end.

(** ** Vocabulary of the statements about repeated runs *)

(** What [initialize_pagerank] does to one vertex. *)
Definition reset_vertex (initial_value : Q) (v : PregelVertex.t) : PregelVertex.t :=
  {| PregelVertex.id := PregelVertex.id v;
     PregelVertex.value := initial_value;
     PregelVertex.outgoing_edges := PregelVertex.outgoing_edges v;
     PregelVertex.active := true |}.


(** ** Vocabulary of the statements about the top documents *)

(** The score and the identifier with its score in an entry of
    [get_top_documents]. *)
Definition entry_rank (e : Z * Q * str * str) : Q := snd (fst (fst e)).

Definition entry_score (e : Z * Q * str * str) : Z * Q := fst (fst e).

(** The entries [top] are drawn from the scores [pagerank], in
    non-increasing order of score, and no score left out is above one
    that was taken. *)
Definition top_of (pagerank : list (Z * Q)) (top : list (Z * Q * str * str))
  : Prop :=
  StronglySorted (fun a b => (entry_rank b <= entry_rank a)%Q) top
  /\ exists rest,
       Permutation pagerank (map entry_score top ++ rest)
       /\ forall e y, In e top -> In y rest -> (snd y <= entry_rank e)%Q.

(** ** Vocabulary of the statements about the application *)

(** The application on the tables [db], before any engine is made. *)
Definition app_on (db : Database.t) : SearchEngineApp.t :=
  {| SearchEngineApp.db := db;
     SearchEngineApp.mapreduce_pr := None;
     SearchEngineApp.pregel_pr := None;
     SearchEngineApp.search_engine := None |}.

(** A web of two pages that link to each other; the state of the network
    counts the requests. *)
Definition two_pages (url : str) (requests : nat)
  : option (str * str * list str) * nat :=
  (if str_eqb url (py "http://example.com/a")
   then Some (py "A", py "alpha beta", [py "http://example.com/b"])
   else if str_eqb url (py "http://example.com/b")
   then Some (py "B", py "beta", [py "http://example.com/a"])
   else None,
   S requests).

(** ** Vocabulary of the statement about the document frequency *)

(** The inverted index holds what the contents hold: the keys of the
    tables are distinct, every posting is a posting of a document, and the
    postings of every document are those of the tokens of its content, as
    they are while no document has been indexed again with other words. *)
Definition index_matches_contents (db : Database.t) : Prop :=
  NoDup (map Database.doc_id (Database.documents db))
  /\ NoDup (map (fun p => (Database.p_word_id p, Database.p_doc_id p))
                (Database.inverted_index db))
  /\ words_unique db
  /\ (forall p, In p (Database.inverted_index db) ->
        In (Database.p_doc_id p)
           (map Database.doc_id (Database.documents db)))
  /\ (forall d, In d (Database.documents db) ->
        postings_match_content db (Database.doc_id d) (Database.content d)).

(** ** Vocabulary of the statements about rounding *)

(** The documents and the links that [test_with_local_data] of main.py
    stores: four documents, with the links 1 -> 2, 3; 2 -> 1, 3; 3 -> 1;
    4 -> 2. *)
Definition local_test_documents : list (str * str * str * list str) :=
  [(py "http://example.com/doc1", py "Document 1: Machine Learning",
    py "Machine learning is a subset of artificial intelligence. Machine learning algorithms build models based on training data.",
    [py "http://example.com/doc2"; py "http://example.com/doc3"]);
   (py "http://example.com/doc2", py "Document 2: Artificial Intelligence",
    py "Artificial intelligence is the simulation of human intelligence by machines. AI includes machine learning and deep learning.",
    [py "http://example.com/doc1"; py "http://example.com/doc3"]);
   (py "http://example.com/doc3", py "Document 3: Data Science",
    py "Data science combines statistics, machine learning, and data analysis. Data scientists use machine learning for predictions.",
    [py "http://example.com/doc1"]);
   (py "http://example.com/doc4", py "Document 4: Deep Learning",
    py "Deep learning is a type of machine learning based on neural networks. Deep learning requires large amounts of data.",
    [py "http://example.com/doc2"])].

(** The two loops of a loader: the documents first, then the links of
    each, resolved by the url. *)
Definition load_documents (docs : list (str * str * str * list str))
  : Database.t :=
  let db :=
    fold_left (fun db doc =>
                 snd (Database.add_document (fst (fst (fst doc)))
                        (snd (fst (fst doc))) (snd (fst doc)) db))
              docs Database.empty in
  fold_left (fun db doc =>
               match Database.get_document_id (fst (fst (fst doc))) db with
               | Some source_id =>
                   fold_left (fun db link =>
                                Database.add_link source_id link
                                  (Database.get_document_id link db) db)
                             (snd doc) db
               | None => db
               end)
            docs db.

Definition local_test_corpus : Database.t :=
  load_documents local_test_documents.

(** Four documents with the links 1 -> 4; 2 -> 1, 3, 4; 3 -> 2, 4. *)
Definition rounding_corpus : Database.t :=
  load_documents
    [(py "http://example.com/doc1", py "Document 1", py "c",
      [py "http://example.com/doc4"]);
     (py "http://example.com/doc2", py "Document 2", py "c",
      [py "http://example.com/doc1"; py "http://example.com/doc3";
       py "http://example.com/doc4"]);
     (py "http://example.com/doc3", py "Document 3", py "c",
      [py "http://example.com/doc2"; py "http://example.com/doc4"]);
     (py "http://example.com/doc4", py "Document 4", py "c", [])].

(** The scores of the MapReduce engine after [k] iterations, in binary64. *)
Definition mapreduce_scores64 (cfg : Config.pagerank_config)
    (db : Database.t) (k : nat) : Dict.t Z Binary64.float :=
  Nat.iter k
    (PageRankMapReduce64.calculate_pagerank_iteration
       (PageRankMapReduce64.init cfg db))
    (PageRankMapReduce64.pagerank (PageRankMapReduce64.init cfg db)).

(** The graph of the Pregel engine after [k] supersteps, in binary64, and
    its scores. *)
Definition pregel_graph64 (cfg : Config.pagerank_config) (db : Database.t)
    (k : nat) : result (option SimplePregelGraph64.t) :=
  start <- PageRankPregel64.start cfg db ;;
  Ok (option_map
        (PageRankPregel64.supersteps
           (Binary64.literal (Config.damping_factor cfg)) k)
        start).

Definition pregel_scores64 (cfg : Config.pagerank_config) (db : Database.t)
    (k : nat) : result (Dict.t Z Binary64.float) :=
  g <- pregel_graph64 cfg db k ;;
  match g with
  | None => Ok []
  | Some g =>
      PageRankPregel64.get_current_pagerank (index_to_id_of (doc_ids_of db)) g
  end.

(** The sum of the scores as a rational number, without rounding. *)
Definition exact_total (scores : Dict.t Z Binary64.float) : Q :=
  Qsum (map (fun dr => Binary64.to_Q (snd dr)) scores).

(** C3 as it is stated, of the scores that the code computes: after every
    iteration of the MapReduce engine they add up to at most [1]. *)
Definition sum_at_most_one_binary64 (cfg : Config.pagerank_config)
    (db : Database.t) : Prop :=
  forall k, (exact_total (mapreduce_scores64 cfg db (S k)) <= 1)%Q.
(** * Properties *)

Unset Implicit Arguments.

(** ** Characters *)

Ltac all_chars c :=
  destruct c as [[] [] [] [] [] [] [] []]; vm_compute; try reflexivity; try discriminate; auto.

Lemma isword_not_space (c : ascii) : Utils.isword c = true -> Utils.isspace c = false.
Proof. all_chars c. Qed.

Lemma isspace_lower_char (c : ascii) : Utils.isspace (Utils.lower_char c) = Utils.isspace c.
Proof. all_chars c. Qed.

Lemma isword_lower_char (c : ascii) : Utils.isword (Utils.lower_char c) = Utils.isword c.
Proof. all_chars c. Qed.

Lemma lower_char_idem (c : ascii) : Utils.lower_char (Utils.lower_char c) = Utils.lower_char c.
Proof. all_chars c. Qed.

Lemma isword_not_lt (c : ascii) : Utils.isword c = true -> Ascii.eqb c Utils.lt_sign = false.
Proof. all_chars c. Qed.

Lemma token_char_not_space c : token_char c = true -> Utils.isspace c = false.
Proof.
  unfold token_char. intros H. apply andb_prop in H as [H _].
  now apply isword_not_space.
Qed.

Lemma token_char_lower c : token_char c = true -> Utils.lower_char c = c.
Proof.
  unfold token_char. intros H. apply andb_prop in H as [_ H].
  now apply Ascii.eqb_eq.
Qed.

Lemma space_is_space : Utils.isspace Utils.space = true.
Proof. reflexivity. Qed.

Lemma space_lower c : Utils.isspace c = true -> clean_char (Utils.lower_char c) = true.
Proof.
  intros H. unfold clean_char. rewrite isspace_lower_char, H. apply orb_true_r.
Qed.

Lemma word_lower c : Utils.isword c = true -> clean_char (Utils.lower_char c) = true.
Proof.
  intros H. unfold clean_char, token_char.
  rewrite isword_lower_char, H, lower_char_idem, Ascii.eqb_refl. reflexivity.
Qed.

(** ** The steps of [clean_text] *)

Lemma sub_special_chars (s : str) :
  Forall (fun c => Utils.isword c || Utils.isspace c = true) (Utils.sub_special s).
Proof.
  unfold Utils.sub_special. induction s as [|c s IH]; simpl; constructor; auto.
  destruct (Utils.isword c || Utils.isspace c) eqn:E; [exact E|reflexivity].
Qed.

Lemma sub_spaces_chars (P : ascii -> Prop) (s : str) :
  P Utils.space -> Forall P s -> forall prev, Forall P (Utils.sub_spaces prev s).
Proof.
  intros Hsp H. induction H as [|c s Hc Hs IH]; intros prev; simpl; [constructor|].
  destruct (Utils.isspace c); [destruct prev|]; auto.
Qed.

Lemma lstrip_chars (P : ascii -> Prop) (s : str) :
  Forall P s -> Forall P (Utils.lstrip s).
Proof.
  intros H. induction H as [|c s Hc Hs IH]; simpl; [constructor|].
  destruct (Utils.isspace c); auto.
Qed.

Lemma strip_chars (P : ascii -> Prop) (s : str) :
  Forall P s -> Forall P (Utils.strip s).
Proof.
  intros H. unfold Utils.strip.
  apply Forall_rev, lstrip_chars, Forall_rev, lstrip_chars, H.
Qed.

Lemma clean_text_chars (text : str) :
  Forall (fun c => clean_char c = true) (Utils.clean_text text).
Proof.
  unfold Utils.clean_text, Utils.lower.
  apply Forall_map.
  eapply Forall_impl; [|apply strip_chars, sub_spaces_chars;
                        [|apply sub_special_chars]].
  - intros c H. apply orb_prop in H as [H|H]; [now apply word_lower|now apply space_lower].
  - reflexivity.
Qed.

(** ** [split] *)

Lemma split_from_tokens (s : str) :
  Forall (fun c => clean_char c = true) s ->
  forall cur, Forall (fun c => token_char c = true) cur ->
  Forall is_token (Utils.split_from cur s).
Proof.
  intros H. induction H as [|c s Hc Hs IH]; intros cur Hcur; simpl.
  - destruct cur; constructor; [|constructor].
    split; [discriminate|exact Hcur].
  - destruct (Utils.isspace c) eqn:E.
    + destruct cur as [|a cur'].
      * apply IH. constructor.
      * constructor; [split; [discriminate|exact Hcur]|apply IH; constructor].
    + apply IH. apply Forall_app. split; [exact Hcur|].
      constructor; [|constructor].
      unfold clean_char in Hc. rewrite E, orb_false_r in Hc. exact Hc.
Qed.

Lemma split_clean_text_tokens (text : str) :
  Forall is_token (Utils.split (Utils.clean_text text)).
Proof.
  apply split_from_tokens; [apply clean_text_chars|constructor].
Qed.

Lemma tokenize_tokens (text : str) (stop_words : list str) :
  Forall is_token (Utils.tokenize text stop_words).
Proof.
  unfold Utils.tokenize.
  apply Forall_forall. intros t Ht. apply filter_In in Ht as [Ht _].
  revert t Ht. apply Forall_forall, split_clean_text_tokens.
Qed.

Lemma isspace_not_lt (c : ascii) : Utils.isspace c = true -> Ascii.eqb c Utils.lt_sign = false.
Proof. all_chars c. Qed.

Lemma isspace_lower_id (c : ascii) : Utils.isspace c = true -> Utils.lower_char c = c.
Proof. all_chars c. Qed.

Lemma clean_char_cases c :
  clean_char c = true ->
  Ascii.eqb c Utils.lt_sign = false
  /\ Utils.isword c || Utils.isspace c = true
  /\ Utils.lower_char c = c.
Proof.
  unfold clean_char. intros H. apply orb_prop in H as [H|H].
  - pose proof (token_char_lower _ H) as Hl.
    unfold token_char in H. apply andb_prop in H as [H _].
    rewrite H. auto using isword_not_lt.
  - rewrite H, orb_true_r. auto using isspace_not_lt, isspace_lower_id.
Qed.

Lemma sub_tags_clean (s : str) :
  Forall (fun c => clean_char c = true) s -> Utils.sub_tags false s = s.
Proof.
  induction 1 as [|c s Hc Hs IH]; simpl; [reflexivity|].
  destruct (clean_char_cases _ Hc) as (E & _ & _). rewrite E. simpl. now rewrite IH.
Qed.

Lemma sub_special_clean (s : str) :
  Forall (fun c => clean_char c = true) s -> Utils.sub_special s = s.
Proof.
  unfold Utils.sub_special.
  induction 1 as [|c s Hc Hs IH]; simpl; [reflexivity|].
  destruct (clean_char_cases _ Hc) as (_ & E & _). rewrite E. now rewrite IH.
Qed.

Lemma lower_clean (s : str) :
  Forall (fun c => clean_char c = true) s -> Utils.lower s = s.
Proof.
  unfold Utils.lower.
  induction 1 as [|c s Hc Hs IH]; simpl; [reflexivity|].
  destruct (clean_char_cases _ Hc) as (_ & _ & E). now rewrite E, IH.
Qed.

(** ** Tokens joined by single spaces *)

Lemma join_cons2 (x y : str) (r : list str) :
  Utils.join sp (x :: y :: r) = x ++ Utils.space :: Utils.join sp (y :: r).
Proof. reflexivity. Qed.

Lemma join_chars (ts : list str) :
  Forall is_token ts -> Forall (fun c => clean_char c = true) (Utils.join sp ts).
Proof.
  assert (Htok : forall t, is_token t -> Forall (fun c => clean_char c = true) t).
  { intros t [_ Ht]. eapply Forall_impl; [|exact Ht].
    intros c Hc. unfold clean_char. now rewrite Hc. }
  induction 1 as [|x ts Hx Hts IH]; [constructor|].
  destruct ts as [|y r]; [simpl; auto|].
  rewrite join_cons2. apply Forall_app. split; [auto|].
  constructor; [reflexivity|exact IH].
Qed.

Lemma sub_spaces_token_app (t rest : str) :
  Forall (fun c => token_char c = true) t ->
  forall prev,
  Utils.sub_spaces prev (t ++ rest)
  = t ++ Utils.sub_spaces (match t with [] => prev | _ => false end) rest.
Proof.
  induction 1 as [|c t Hc Ht IH]; intros prev; simpl; [reflexivity|].
  rewrite (token_char_not_space _ Hc), IH. now destruct t.
Qed.

Lemma sub_spaces_join (ts : list str) :
  Forall is_token ts -> forall prev, Utils.sub_spaces prev (Utils.join sp ts) = Utils.join sp ts.
Proof.
  induction 1 as [|x ts [Hne Hx] Hts IH]; intros prev; [reflexivity|].
  destruct ts as [|y r].
  - simpl. rewrite <- (app_nil_r x) at 1. rewrite sub_spaces_token_app by exact Hx.
    simpl. now rewrite app_nil_r.
  - rewrite join_cons2, sub_spaces_token_app by exact Hx.
    destruct x; [congruence|]. simpl Utils.sub_spaces. now rewrite IH.
Qed.

Lemma lstrip_join (ts : list str) :
  Forall is_token ts -> Utils.lstrip (Utils.join sp ts) = Utils.join sp ts.
Proof.
  intros H. destruct H as [|x ts [Hne Hx] Hts]; [reflexivity|].
  destruct x as [|c x]; [congruence|].
  assert (E : Utils.isspace c = false)
    by (apply token_char_not_space; now inversion Hx).
  destruct ts; simpl; now rewrite E.
Qed.

Lemma join_last (ts : list str) :
  Forall is_token ts -> ts <> [] ->
  exists s c, Utils.join sp ts = s ++ [c] /\ Utils.isspace c = false.
Proof.
  induction 1 as [|x ts [Hne Hx] Hts IH]; intros Hn; [congruence|].
  destruct ts as [|y r].
  - destruct (exists_last Hne) as (s & c & ->). exists s, c. split; [reflexivity|].
    apply token_char_not_space. apply Forall_app in Hx as [_ Hx]. now inversion Hx.
  - destruct IH as (s & c & E & Hc); [discriminate|].
    rewrite join_cons2, E. exists (x ++ Utils.space :: s), c.
    split; [now rewrite <- app_assoc|exact Hc].
Qed.

Lemma strip_join (ts : list str) :
  Forall is_token ts -> Utils.strip (Utils.join sp ts) = Utils.join sp ts.
Proof.
  intros H. unfold Utils.strip. rewrite lstrip_join by exact H.
  destruct ts as [|x r]; [reflexivity|].
  destruct (join_last _ H) as (s & c & E & Hc); [discriminate|].
  rewrite E, rev_app_distr. simpl. rewrite Hc. simpl.
  now rewrite rev_involutive.
Qed.

Lemma clean_text_join (ts : list str) :
  Forall is_token ts -> Utils.clean_text (Utils.join sp ts) = Utils.join sp ts.
Proof.
  intros H. pose proof (join_chars _ H) as Hc. unfold Utils.clean_text.
  rewrite (sub_tags_clean _ Hc), (sub_special_clean _ Hc), (sub_spaces_join _ H), (strip_join _ H).
  apply lower_clean, Hc.
Qed.

Lemma split_from_token_app (t rest : str) :
  Forall (fun c => token_char c = true) t ->
  forall cur, Utils.split_from cur (t ++ rest) = Utils.split_from (cur ++ t) rest.
Proof.
  induction 1 as [|c t Hc Ht IH]; intros cur; simpl; [now rewrite app_nil_r|].
  rewrite (token_char_not_space _ Hc), IH, <- app_assoc. reflexivity.
Qed.

Lemma split_from_space (cur rest : str) :
  cur <> [] ->
  Utils.split_from cur (Utils.space :: rest) = cur :: Utils.split_from [] rest.
Proof. destruct cur; [congruence|reflexivity]. Qed.

Lemma split_join (ts : list str) :
  Forall is_token ts -> Utils.split (Utils.join sp ts) = ts.
Proof.
  unfold Utils.split.
  induction 1 as [|x ts [Hne Hx] Hts IH]; [reflexivity|].
  destruct ts as [|y r].
  - simpl. rewrite <- (app_nil_r x) at 1. rewrite split_from_token_app by exact Hx.
    simpl. destruct x; [congruence|reflexivity].
  - rewrite join_cons2, split_from_token_app by exact Hx.
    rewrite split_from_space by exact Hne. now rewrite IH.
Qed.

Lemma filter_idem {A : Type} (f : A -> bool) (l : list A) :
  filter f (filter f l) = filter f l.
Proof.
  induction l as [|a l IH]; simpl; [reflexivity|].
  destruct (f a) eqn:E; simpl; [rewrite E|]; now rewrite ?IH.
Qed.

Lemma str_in_spec (x : str) (l : list str) : str_in x l = true <-> In x l.
Proof.
  unfold str_in. rewrite existsb_exists. split.
  - intros (y & Hy & E). unfold str_eqb in E. destruct (str_eq_dec x y); [now subst|discriminate].
  - intros H. exists x. split; [exact H|]. unfold str_eqb. now destruct (str_eq_dec x x).
Qed.

(** On texts over the code points below 256: tokenizing the space-joined
    tokens of a text gives the same tokens again; no token of the result is
    a stop word;
    [tokenize("the quick fox", {"the"})] is [["quick"; "fox"]]; the empty
    text has no tokens, and a text all of whose tokens are stop words has
    none either.  [tokenize] is a total function, so it raises nothing. *)
Theorem tokenize_idempotent_and_stop_words :
  forall (text : str) (stop_words : list str),
    Utils.tokenize (Utils.join (py " ") (Utils.tokenize text stop_words)) stop_words
    = Utils.tokenize text stop_words
    /\ (forall token, In token (Utils.tokenize text stop_words) -> ~ In token stop_words)
    /\ Utils.tokenize (py "the quick fox") [py "the"] = [py "quick"; py "fox"]
    /\ Utils.tokenize (py "") stop_words = []
    /\ ((forall token, In token (Utils.tokenize text []) -> In token stop_words) ->
        Utils.tokenize text stop_words = []).
Proof.
  intros text stop_words. repeat split.
  - pose proof (tokenize_tokens text stop_words) as H.
    change (py " ") with sp. unfold Utils.tokenize at 1.
    rewrite (clean_text_join _ H), (split_join _ H).
    unfold Utils.tokenize. apply filter_idem.
  - intros token H Hin. unfold Utils.tokenize in H. apply filter_In in H as [_ H].
    apply str_in_spec in Hin. rewrite Hin in H. discriminate.
  - intros H. unfold Utils.tokenize in *. simpl in H.
    induction (Utils.split (Utils.clean_text text)) as [|t l IH]; [reflexivity|].
    simpl in *. assert (Ht : In t stop_words) by (apply H; now left).
    apply str_in_spec in Ht. rewrite Ht. simpl. apply IH. intros token Hl. apply H. now right.
Qed.


(** ** Rows in the order of an index *)

Section SortBy.

Variable A : Type.
Variable leb : A -> A -> bool.

Lemma insert_by_perm (x : A) (l : list A) :
  Permutation (x :: l) (insert_by leb x l).
Proof.
  induction l as [|y l IH]; cbn [insert_by]; [reflexivity|].
  destruct (leb x y); [reflexivity|].
  rewrite perm_swap. now apply perm_skip.
Qed.

Lemma sort_by_perm (l : list A) : Permutation l (sort_by leb l).
Proof.
  induction l as [|x l IH]; [reflexivity|].
  change (sort_by leb (x :: l)) with (insert_by leb x (sort_by leb l)).
  rewrite <- insert_by_perm. now apply perm_skip.
Qed.

Lemma sort_by_in (x : A) (l : list A) : In x (sort_by leb l) <-> In x l.
Proof.
  split; apply Permutation_in;
    [apply Permutation_sym|]; apply sort_by_perm.
Qed.

Lemma sort_by_length (l : list A) : length (sort_by leb l) = length l.
Proof. symmetry. apply Permutation_length, sort_by_perm. Qed.

Lemma sort_by_nil (l : list A) : sort_by leb l = [] <-> l = [].
Proof.
  split.
  - intros H. apply length_zero_iff_nil.
    now rewrite <- sort_by_length, H.
  - intros ->. reflexivity.
Qed.

Lemma sort_by_map_perm (B : Type) (f : A -> B) (l : list A) :
  Permutation (map f l) (map f (sort_by leb l)).
Proof. apply Permutation_map, sort_by_perm. Qed.

Lemma sort_by_filter_perm (B : Type) (f : A -> B) (p : B -> bool)
    (l : list A) :
  Permutation (filter p (map f l)) (filter p (map f (sort_by leb l))).
Proof.
  assert (H : forall l1 l2 : list B,
             Permutation l1 l2 -> Permutation (filter p l1) (filter p l2)).
  { intros l1 l2 HP. induction HP as [|x l1 l2 _ IH|x y l1|l1 l2 l3 _ IH1 _ IH2];
      cbn [filter].
    - constructor.
    - destruct (p x); [now constructor|exact IH].
    - destruct (p x), (p y); try reflexivity. apply perm_swap.
    - now transitivity (filter p l2). }
  apply H, sort_by_map_perm.
Qed.

(** A list with one kept row at most is filtered the same in any order. *)
Lemma sort_by_filter_one (B : Type) (f : A -> B) (p : B -> bool)
    (l : list A) (x : B) :
  filter p (map f l) = [x] -> filter p (map f (sort_by leb l)) = [x].
Proof.
  intros H. pose proof (sort_by_filter_perm B f p l) as HP.
  rewrite H in HP. apply Permutation_length_1_inv. exact HP.
Qed.

Lemma sort_by_filter_none (B : Type) (f : A -> B) (p : B -> bool)
    (l : list A) :
  filter p (map f l) = [] -> filter p (map f (sort_by leb l)) = [].
Proof.
  intros H. pose proof (sort_by_filter_perm B f p l) as HP.
  rewrite H in HP. now apply Permutation_nil.
Qed.

Hypothesis leb_total : forall a b, leb a b = false -> leb b a = true.
Hypothesis leb_trans :
  forall a b c, leb a b = true -> leb b c = true -> leb a c = true.



End SortBy.



(** The rows of one key keep their order under the order of the keys. *)
Lemma insert_by_key_filter (A : Type) (key : A -> Z) (k : Z) (x : A)
    (l : list A) :
  filter (fun a => (key a =? k)%Z)
         (insert_by (fun a b => (key a <=? key b)%Z) x l)
  = if (key x =? k)%Z then x :: filter (fun a => (key a =? k)%Z) l
    else filter (fun a => (key a =? k)%Z) l.
Proof.
  induction l as [|y l IH]; cbn [insert_by filter]; [reflexivity|].
  destruct (key x <=? key y)%Z eqn:E; cbn [filter]; [reflexivity|].
  rewrite IH. apply Z.leb_gt in E.
  destruct (key y =? k)%Z eqn:Ey; [|reflexivity].
  apply Z.eqb_eq in Ey.
  destruct (key x =? k)%Z eqn:Ex; [|reflexivity].
  apply Z.eqb_eq in Ex. lia.
Qed.

Lemma sort_by_key_filter (A : Type) (key : A -> Z) (k : Z) (l : list A) :
  filter (fun a => (key a =? k)%Z)
         (sort_by (fun a b => (key a <=? key b)%Z) l)
  = filter (fun a => (key a =? k)%Z) l.
Proof.
  induction l as [|x l IH]; [reflexivity|].
  change (sort_by (fun a b => (key a <=? key b)%Z) (x :: l))
    with (insert_by (fun a b => (key a <=? key b)%Z) x
            (sort_by (fun a b => (key a <=? key b)%Z) l)).
  rewrite insert_by_key_filter, IH. reflexivity.
Qed.

Lemma filter_map_swap (A B : Type) (f : A -> B) (p : B -> bool) (l : list A) :
  filter p (map f l) = map f (filter (fun a => p (f a)) l).
Proof.
  induction l as [|x l IH]; [reflexivity|].
  cbn [map filter]. destruct (p (f x)); cbn [map]; now rewrite IH.
Qed.
(** ** [generate_snippet] *)

Lemma find_at_some (sub : str) (s : str) :
  forall i pos, Utils.find_at s sub i = Some pos ->
    i <= pos /\ pos - i <= length s
    /\ Utils.startswith sub (skipn (pos - i) s) = true
    /\ forall k, k < pos - i -> Utils.startswith sub (skipn k s) = false.
Proof.
  induction s as [|c s IH]; intros i pos H; simpl in H.
  - destruct (Utils.startswith sub []) eqn:E; [|discriminate].
    injection H as <-. rewrite Nat.sub_diag. repeat split; auto. intros k Hk. lia.
  - destruct (Utils.startswith sub (c :: s)) eqn:E.
    + injection H as <-. rewrite Nat.sub_diag. repeat split; auto with arith.
      intros k Hk. lia.
    + apply IH in H as (H1 & H2 & H3 & H4).
      replace (pos - i) with (S (pos - S i)) by lia.
      repeat split; simpl; try lia; auto.
      intros [|k] Hk; [exact E|]. apply H4. lia.
Qed.

Lemma find_at_none (sub : str) (s : str) :
  forall i, Utils.find_at s sub i = None ->
    forall k, k <= length s -> Utils.startswith sub (skipn k s) = false.
Proof.
  induction s as [|c s IH]; intros i H k Hk; simpl in H.
  - destruct (Utils.startswith sub []) eqn:E; [discriminate|].
    simpl in Hk. now replace k with 0 by lia.
  - destruct (Utils.startswith sub (c :: s)) eqn:E; [discriminate|].
    destruct k as [|k]; [exact E|]. simpl. eapply IH; [exact H|]. simpl in Hk. lia.
Qed.

Lemma str_find_some (s sub : str) (start pos : nat) :
  Utils.find s sub start = Some pos ->
  start <= pos /\ occurs_at sub s pos
  /\ forall q, start <= q -> q < pos -> ~ occurs_at sub s q.
Proof.
  unfold Utils.find, occurs_at. intros H.
  destruct (length s <? start) eqn:E; [discriminate|].
  apply Nat.ltb_ge in E.
  apply find_at_some in H as (H1 & H2 & H3 & H4).
  rewrite length_skipn in H2. rewrite skipn_skipn in H3.
  replace (pos - start + start) with pos in H3 by lia.
  repeat split; try lia; auto.
  intros q Hq1 Hq2 [_ Hq]. specialize (H4 (q - start)).
  rewrite skipn_skipn in H4. replace (q - start + start) with q in H4 by lia.
  rewrite H4 in Hq by lia. discriminate.
Qed.

Lemma str_find_none (s sub : str) (start : nat) :
  Utils.find s sub start = None ->
  forall q, start <= q -> ~ occurs_at sub s q.
Proof.
  unfold Utils.find, occurs_at. intros H q Hq [Hq1 Hq2].
  destruct (length s <? start) eqn:E.
  - apply Nat.ltb_lt in E. lia.
  - apply Nat.ltb_ge in E.
    pose proof (find_at_none _ _ _ H (q - start)) as H'.
    rewrite length_skipn, skipn_skipn in H'.
    replace (q - start + start) with q in H' by lia.
    rewrite H' in Hq2 by lia. discriminate.
Qed.

Lemma length_lower (s : str) : length (Utils.lower s) = length s.
Proof. apply length_map. Qed.

(** The loop over one term leaves before its fuel is spent, with the
    occurrences of the term from [start] on. *)
Lemma term_positions_spec (text term : str) :
  forall fuel start,
    start <= length text + 1 -> length text + 2 <= fuel + start ->
    exists l, Utils.term_positions fuel text term start = Some l
              /\ forall q, In q (map fst l) <->
                           start <= q
                           /\ occurs_at (Utils.lower term) (Utils.lower text) q.
Proof.
  induction fuel as [|fuel IH]; intros start H1 H2; [lia|].
  simpl. destruct (Utils.find (Utils.lower text) (Utils.lower term) start) as [pos|] eqn:E.
  - apply str_find_some in E as (E1 & E2 & E3).
    assert (Hpos : pos <= length text) by (destruct E2 as [E2 _]; now rewrite length_lower in E2).
    destruct (IH (pos + 1)) as (l & -> & Hl); [lia|lia|].
    eexists. split; [reflexivity|]. intros q. simpl. rewrite Hl. split.
    + intros [<-|[Hq1 Hq2]]; [auto|]. split; [lia|exact Hq2].
    + intros [Hq1 Hq2]. destruct (Nat.eq_dec pos q) as [|Hne]; [now left|right].
      split; [|exact Hq2]. destruct (Nat.lt_ge_cases q pos) as [Hlt|Hge]; [|lia].
      exfalso. exact (E3 q Hq1 Hlt Hq2).
  - exists []. split; [reflexivity|]. intros q. simpl. split; [tauto|].
    intros [Hq1 Hq2]. exact (str_find_none _ _ _ E q Hq1 Hq2).
Qed.

Lemma all_positions_spec (text : str) (query_terms : list str) :
  exists l, Utils.all_positions text query_terms = Some l
            /\ forall q, In q (map fst l) <-> term_occurs_at text query_terms q.
Proof.
  induction query_terms as [|term rest (more & Hmore & IH)]; simpl.
  - exists []. split; [reflexivity|]. intros q. simpl. split; [tauto|].
    intros (t & [] & _).
  - destruct (term_positions_spec text term (length text + 2) 0)
      as (here & -> & Hhere); [lia|lia|].
    rewrite Hmore. eexists. split; [reflexivity|]. intros q.
    rewrite map_app, in_app_iff, Hhere, IH. unfold term_occurs_at. split.
    + intros [[_ H]|(t & Ht & H)]; [exists term|exists t]; simpl; auto.
    + intros (t & [<-|Ht] & H); [left; split; [lia|exact H]|right; now exists t].
Qed.

(** The loops of [generate_snippet] end: the branch of [generate_snippet]
    for spent fuel is never taken. *)
Lemma all_positions_total (text : str) (query_terms : list str) :
  Utils.all_positions text query_terms <> None.
Proof.
  destruct (all_positions_spec text query_terms) as (l & -> & _). discriminate.
Qed.

Lemma min_start_spec (p : nat * nat) (ps : list (nat * nat)) :
  In (Utils.min_start p ps) (map fst (p :: ps))
  /\ forall q, In q (map fst (p :: ps)) -> Utils.min_start p ps <= q.
Proof.
  revert p. induction ps as [|p' ps IH]; intros p.
  - simpl. split; [now left|]. intros q [<-|[]]. lia.
  - destruct (IH p') as [H1 H2]. cbn [Utils.min_start]. split.
    + destruct (Nat.min_spec (fst p) (Utils.min_start p' ps)) as [[_ ->]|[_ ->]];
        [now left|right; exact H1].
    + intros q [<-|Hq]; [lia|]. specialize (H2 q Hq). lia.
Qed.

Lemma window_at_start (text : str) (max_length : nat) :
  window text 0 max_length
  = if max_length <? length text
    then firstn max_length text ++ Utils.ellipsis
    else text.
Proof.
  unfold window, Utils.slice. simpl.
  destruct (max_length <? length text) eqn:E.
  - pose proof E as E'. apply Nat.ltb_lt in E.
    rewrite Nat.min_r by lia. rewrite Nat.sub_0_r. now rewrite E'.
  - apply Nat.ltb_ge in E. rewrite Nat.min_l by lia. rewrite Nat.sub_0_r.
    rewrite Nat.ltb_irrefl, firstn_all. apply app_nil_r.
Qed.

(** On texts over the code points below 256, where [text.lower()] has the
    length of [text] and the positions found in it are positions of
    [text]: the snippet is the window of [max_length] characters that starts
    [max_length // 2] characters before the first occurrence of a query
    term, whatever the case of the letters (at the start of the text when
    that is too far back, or when no query term occurs), with an ellipsis in
    front exactly when the window does not start the text and one behind
    exactly when it does not end it; the occurrence lies inside the
    window. *)
Theorem generate_snippet_window :
  forall (text : str) (query_terms : list str) (max_length : nat),
  exists start,
    Utils.generate_snippet text query_terms max_length
    = window text start max_length
    /\ ((exists p, first_occurrence text query_terms p
                   /\ start = p - max_length / 2
                   /\ start <= p
                   /\ (0 < max_length -> p < start + max_length))
        \/ ((forall q, ~ term_occurs_at text query_terms q) /\ start = 0)).
Proof.
  intros text query_terms max_length.
  destruct (all_positions_spec text query_terms) as (l & Hl & Hocc).
  destruct l as [|p ps].
  - exists 0. split.
    + rewrite window_at_start. unfold Utils.generate_snippet. rewrite Hl.
      destruct text; [reflexivity|reflexivity].
    + right. split; [|reflexivity]. intros q Hq. apply Hocc in Hq. exact Hq.
  - destruct (min_start_spec p ps) as [Hin Hmin].
    set (first_pos := Utils.min_start p ps) in *.
    assert (Hfirst : first_occurrence text query_terms first_pos).
    { split; [now apply Hocc|]. intros q Hq. apply Hmin. now apply Hocc. }
    exists (first_pos - max_length / 2). split.
    + unfold Utils.generate_snippet. rewrite Hl. fold first_pos.
      destruct text as [|c text].
      * destruct Hfirst as [(t & _ & Hle & _) _]. simpl in Hle.
        replace first_pos with 0 by lia. reflexivity.
      * unfold window. cbv zeta.
        destruct (0 <? first_pos - max_length / 2);
          destruct (Nat.min (length (c :: text)) (first_pos - max_length / 2 + max_length)
                    <? length (c :: text));
          rewrite <- ?app_assoc, ?app_nil_r; reflexivity.
    + left. exists first_pos. repeat split; try apply Hfirst; try lia.
      intros HL. pose proof (Nat.div_lt max_length 2 HL). lia.
Qed.

(** ** utils.py beyond the code points below 256

    [UtilsWide] agrees with [Utils] on the texts that [Utils] has. *)

Lemma latin_char_eqb (a b : ascii) :
  UtilsWide.char_eqb (UtilsWide.Latin a) (UtilsWide.Latin b) = Ascii.eqb a b.
Proof.
  unfold UtilsWide.char_eqb.
  destruct (UtilsWide.char_eq_dec (UtilsWide.Latin a) (UtilsWide.Latin b)) as [E|E];
    destruct (Ascii.eqb_spec a b) as [E'|E']; try reflexivity.
  - congruence.
  - subst. congruence.
Qed.

Lemma latin_inj (s t : list ascii) :
  UtilsWide.latin s = UtilsWide.latin t -> s = t.
Proof.
  revert t. induction s as [|a s IH]; intros [|b t] H; try discriminate;
    [reflexivity|].
  simpl in H. injection H as -> H. f_equal. exact (IH t H).
Qed.

Lemma latin_app (s t : list ascii) :
  UtilsWide.latin (s ++ t) = UtilsWide.latin s ++ UtilsWide.latin t.
Proof. apply map_app. Qed.

Lemma latin_length (s : list ascii) : length (UtilsWide.latin s) = length s.
Proof. apply length_map. Qed.

Lemma latin_tag_closes (s : list ascii) :
  UtilsWide.tag_closes (UtilsWide.latin s) = Utils.tag_closes s.
Proof.
  destruct s as [|c s]; [reflexivity|]. simpl.
  unfold UtilsWide.gt_sign. rewrite latin_char_eqb. f_equal.
  induction s as [|d s IH]; [reflexivity|]. simpl.
  now rewrite latin_char_eqb, IH.
Qed.

Lemma latin_sub_tags (s : list ascii) (in_tag : bool) :
  UtilsWide.sub_tags in_tag (UtilsWide.latin s)
  = UtilsWide.latin (Utils.sub_tags in_tag s).
Proof.
  revert in_tag. induction s as [|c s IH]; intros in_tag; [reflexivity|].
  cbn [UtilsWide.latin map UtilsWide.sub_tags Utils.sub_tags].
  fold (UtilsWide.latin s).
  unfold UtilsWide.gt_sign, UtilsWide.lt_sign.
  rewrite !latin_char_eqb, latin_tag_closes.
  destruct in_tag.
  - destruct (Ascii.eqb c Utils.gt_sign); apply IH.
  - destruct (Ascii.eqb c Utils.lt_sign && Utils.tag_closes s);
      cbn [map]; now rewrite IH.
Qed.

Lemma latin_sub_special (s : list ascii) :
  UtilsWide.sub_special (UtilsWide.latin s)
  = UtilsWide.latin (Utils.sub_special s).
Proof.
  unfold UtilsWide.sub_special, Utils.sub_special, UtilsWide.latin.
  rewrite !map_map. apply map_ext. intros c. simpl.
  now destruct (Utils.isword c || Utils.isspace c).
Qed.

Lemma latin_sub_spaces (s : list ascii) (prev : bool) :
  UtilsWide.sub_spaces prev (UtilsWide.latin s)
  = UtilsWide.latin (Utils.sub_spaces prev s).
Proof.
  revert prev. induction s as [|c s IH]; intros prev; [reflexivity|].
  cbn [UtilsWide.latin map UtilsWide.sub_spaces Utils.sub_spaces UtilsWide.isspace].
  fold (UtilsWide.latin s).
  destruct (Utils.isspace c); [destruct prev|]; cbn [map]; now rewrite IH.
Qed.

Lemma latin_lstrip (s : list ascii) :
  UtilsWide.lstrip (UtilsWide.latin s) = UtilsWide.latin (Utils.lstrip s).
Proof.
  induction s as [|c s IH]; [reflexivity|].
  cbn [UtilsWide.latin map UtilsWide.lstrip Utils.lstrip UtilsWide.isspace].
  fold (UtilsWide.latin s).
  destruct (Utils.isspace c); [exact IH|reflexivity].
Qed.

Lemma latin_strip (s : list ascii) :
  UtilsWide.strip (UtilsWide.latin s) = UtilsWide.latin (Utils.strip s).
Proof.
  unfold UtilsWide.strip, Utils.strip.
  rewrite latin_lstrip. unfold UtilsWide.latin at 1. rewrite <- map_rev.
  fold (UtilsWide.latin (rev (Utils.lstrip s))).
  rewrite latin_lstrip. unfold UtilsWide.latin. now rewrite map_rev.
Qed.

Lemma latin_lower (s : list ascii) :
  UtilsWide.lower (UtilsWide.latin s) = UtilsWide.latin (Utils.lower s).
Proof.
  induction s as [|c s IH]; [reflexivity|].
  unfold UtilsWide.lower in *. simpl. now rewrite IH.
Qed.

Lemma latin_clean_text (text : list ascii) :
  UtilsWide.clean_text (UtilsWide.latin text)
  = UtilsWide.latin (Utils.clean_text text).
Proof.
  unfold UtilsWide.clean_text, Utils.clean_text.
  now rewrite latin_sub_tags, latin_sub_special, latin_sub_spaces,
    latin_strip, latin_lower.
Qed.

Lemma latin_split_from (s cur : list ascii) :
  UtilsWide.split_from (UtilsWide.latin cur) (UtilsWide.latin s)
  = map UtilsWide.latin (Utils.split_from cur s).
Proof.
  revert cur. induction s as [|c s IH]; intros cur.
  - now destruct cur.
  - cbn [UtilsWide.latin map UtilsWide.split_from Utils.split_from UtilsWide.isspace].
    fold (UtilsWide.latin s). fold (UtilsWide.latin cur).
    destruct (Utils.isspace c).
    + destruct cur as [|x cur]; cbn [UtilsWide.latin map].
      * exact (IH []).
      * f_equal. exact (IH []).
    + change [UtilsWide.Latin c] with (UtilsWide.latin [c]).
      rewrite <- latin_app. apply IH.
Qed.

Lemma latin_str_in (x : list ascii) (l : list (list ascii)) :
  UtilsWide.str_in (UtilsWide.latin x) (map UtilsWide.latin l) = str_in x l.
Proof.
  unfold UtilsWide.str_in, str_in.
  induction l as [|y l IH]; [reflexivity|]. simpl. rewrite IH. f_equal.
  unfold UtilsWide.str_eqb, str_eqb.
  destruct (UtilsWide.str_eq_dec (UtilsWide.latin x) (UtilsWide.latin y)) as [E|E];
    destruct (str_eq_dec x y) as [E'|E']; try reflexivity.
  - apply latin_inj in E. contradiction.
  - subst. contradiction.
Qed.

(** On texts over the code points below 256 the two embeddings of
    [tokenize] agree. *)
Lemma latin_tokenize (text : list ascii) (stop_words : list (list ascii)) :
  UtilsWide.tokenize (UtilsWide.latin text) (map UtilsWide.latin stop_words)
  = map UtilsWide.latin (Utils.tokenize text stop_words).
Proof.
  unfold UtilsWide.tokenize, Utils.tokenize, UtilsWide.split, Utils.split.
  rewrite latin_clean_text.
  change (@nil UtilsWide.char) with (UtilsWide.latin []).
  rewrite latin_split_from.
  induction (Utils.split_from [] (Utils.clean_text text)) as [|t ts IH];
    [reflexivity|].
  simpl. rewrite latin_str_in, IH.
  now destruct (str_in t stop_words).
Qed.

Lemma latin_startswith (p s : list ascii) :
  UtilsWide.startswith (UtilsWide.latin p) (UtilsWide.latin s)
  = Utils.startswith p s.
Proof.
  revert s. induction p as [|a p IH]; intros s; [reflexivity|].
  destruct s as [|b s]; [reflexivity|]. simpl.
  now rewrite latin_char_eqb, IH.
Qed.

Lemma latin_find_at (s sub : list ascii) (i : nat) :
  UtilsWide.find_at (UtilsWide.latin s) (UtilsWide.latin sub) i
  = Utils.find_at s sub i.
Proof.
  revert i. induction s as [|c s IH]; intros i.
  - cbn [UtilsWide.latin map UtilsWide.find_at Utils.find_at].
    change (@nil UtilsWide.char) with (UtilsWide.latin []).
    now rewrite latin_startswith.
  - cbn [UtilsWide.latin map UtilsWide.find_at Utils.find_at].
    change (UtilsWide.Latin c :: map UtilsWide.Latin s)
      with (UtilsWide.latin (c :: s)).
    rewrite latin_startswith. fold (UtilsWide.latin s). now rewrite IH.
Qed.

Lemma latin_find (s sub : list ascii) (start : nat) :
  UtilsWide.find (UtilsWide.latin s) (UtilsWide.latin sub) start
  = Utils.find s sub start.
Proof.
  unfold UtilsWide.find, Utils.find. rewrite latin_length.
  unfold UtilsWide.latin at 1. rewrite skipn_map.
  fold (UtilsWide.latin (skipn start s)). now rewrite latin_find_at.
Qed.

Lemma latin_term_positions (fuel : nat) (text term : list ascii) (start : nat) :
  UtilsWide.term_positions fuel (UtilsWide.latin text) (UtilsWide.latin term) start
  = Utils.term_positions fuel text term start.
Proof.
  revert start. induction fuel as [|fuel IH]; intros start; [reflexivity|].
  cbn [UtilsWide.term_positions Utils.term_positions].
  rewrite !latin_lower, latin_find, latin_length.
  destruct (Utils.find (Utils.lower text) (Utils.lower term) start); [|reflexivity].
  now rewrite IH.
Qed.

Lemma lower_length (s : list ascii) : length (Utils.lower s) = length s.
Proof. apply length_map. Qed.

Lemma latin_all_positions (text : list ascii) (query_terms : list (list ascii)) :
  UtilsWide.all_positions (UtilsWide.latin text) (map UtilsWide.latin query_terms)
  = Utils.all_positions text query_terms.
Proof.
  induction query_terms as [|term rest IH]; [reflexivity|].
  cbn [map UtilsWide.all_positions Utils.all_positions].
  rewrite latin_lower, latin_length, lower_length, latin_term_positions, IH.
  reflexivity.
Qed.

Lemma latin_slice (text : list ascii) (start stop : nat) :
  UtilsWide.slice (UtilsWide.latin text) start stop
  = UtilsWide.latin (Utils.slice text start stop).
Proof.
  unfold UtilsWide.slice, Utils.slice, UtilsWide.latin.
  now rewrite skipn_map, firstn_map.
Qed.

(** On texts over the code points below 256 the two embeddings of
    [generate_snippet] agree. *)
Lemma latin_generate_snippet (text : list ascii)
    (query_terms : list (list ascii)) (max_length : nat) :
  UtilsWide.generate_snippet (UtilsWide.latin text)
    (map UtilsWide.latin query_terms) max_length
  = UtilsWide.latin (Utils.generate_snippet text query_terms max_length).
Proof.
  destruct text as [|c text]; [reflexivity|].
  unfold UtilsWide.generate_snippet, Utils.generate_snippet.
  change (UtilsWide.latin (c :: text))
    with (UtilsWide.Latin c :: UtilsWide.latin text) at 1.
  cbv iota beta.
  change (UtilsWide.Latin c :: UtilsWide.latin text)
    with (UtilsWide.latin (c :: text)).
  rewrite latin_all_positions, latin_length.
  destruct (Utils.all_positions (c :: text) query_terms) as [[|p ps]|];
    [| |reflexivity].
  - destruct (max_length <? length (c :: text)); [|reflexivity].
    rewrite latin_app. unfold UtilsWide.latin at 1 3. now rewrite firstn_map.
  - cbv zeta. rewrite latin_slice.
    destruct (0 <? _); destruct (_ <? length (c :: text));
      now rewrite ?latin_app.
Qed.

(** C8, at a failing input.  The text ["İstanbul"] (U+0130, then
    ["stanbul"]) has one token, in which [str.lower] has put U+0307 after
    the ["i"]; tokenizing that token gives the two tokens ["i"] and
    ["stanbul"], since U+0307 is no word character: [tokenize] is not
    idempotent on its own space-joined output. *)
Theorem tokenize_not_idempotent_on_dotted_I :
  UtilsWide.tokenize dotted_istanbul []
  = [UtilsWide.latin (py "i") ++ [UtilsWide.combining_dot]
     ++ UtilsWide.latin (py "stanbul")]
  /\ UtilsWide.tokenize
       (UtilsWide.join (UtilsWide.latin (py " "))
          (UtilsWide.tokenize dotted_istanbul [])) []
     = [UtilsWide.latin (py "i"); UtilsWide.latin (py "stanbul")]
  /\ UtilsWide.tokenize
       (UtilsWide.join (UtilsWide.latin (py " "))
          (UtilsWide.tokenize dotted_istanbul [])) []
     <> UtilsWide.tokenize dotted_istanbul [].
Proof.
  split; [vm_compute; reflexivity|].
  split; [vm_compute; reflexivity|].
  vm_compute. discriminate.
Qed.

(** C9, at a failing input.  In the text of eighty U+0130 and an ["x"],
    81 characters and so shorter than the snippet length of [config.py],
    the query term ["x"] occurs at index 80.  [generate_snippet] takes the
    position from [text.lower()], where the ["x"] stands at index 160, and
    cuts [text[85:81]]: the snippet is ["..."], without the occurrence and
    without any of the text. *)
Theorem snippet_misses_term_after_dotted_I :
  length dotted_text = 81
  /\ nth_error dotted_text 80 = Some (UtilsWide.Latin "x"%char)
  /\ UtilsWide.all_positions dotted_text [UtilsWide.latin (py "x")]
     = Some [(160, 161)]
  /\ UtilsWide.generate_snippet dotted_text [UtilsWide.latin (py "x")]
       (Config.snippet_length Config.SEARCH_CONFIG)
     = UtilsWide.latin (py "...").
Proof.
  split; [reflexivity|]. split; [reflexivity|].
  split; vm_compute; reflexivity.
Qed.

(** ** Dictionaries *)

Section DictFacts.
Variables (K V : Type).
Variable K_eq_dec : forall a b : K, {a = b} + {a <> b}.

Lemma get_set_same (k : K) (v : V) (d : Dict.t K V) :
  Dict.get K_eq_dec k (Dict.set K_eq_dec k v d) = Some v.
Proof.
  induction d as [|[k' v'] d IH]; simpl.
  - now destruct (K_eq_dec k k).
  - destruct (K_eq_dec k k') as [E|E]; simpl.
    + now rewrite <- E; destruct (K_eq_dec k k).
    + now destruct (K_eq_dec k k').
Qed.

Lemma get_set_other (k k' : K) (v : V) (d : Dict.t K V) :
  k <> k' ->
  Dict.get K_eq_dec k (Dict.set K_eq_dec k' v d) = Dict.get K_eq_dec k d.
Proof.
  intros Hne. induction d as [|[k'' v''] d IH]; simpl.
  - destruct (K_eq_dec k k'); [contradiction|reflexivity].
  - destruct (K_eq_dec k' k'') as [E|E]; simpl.
    + subst k''. destruct (K_eq_dec k k'); [contradiction|reflexivity].
    + destruct (K_eq_dec k k''); [reflexivity|exact IH].
Qed.

End DictFacts.

(** ** [SearchEngine] *)

(** C10.  A method name that, in lower case, is neither ["term"] nor
    ["document"] makes [search] run the term-at-a-time strategy: the same
    results, and the same engine state afterwards. *)
Theorem search_unknown_method_is_term_at_a_time :
  forall (self : SearchEngine.t) (db : Database.t) (query method : str)
         (use_pagerank : bool),
    Utils.lower method <> py "term" ->
    Utils.lower method <> py "document" ->
    SearchEngine.search self db query method use_pagerank
    = SearchEngine.search_term_at_a_time self db query use_pagerank.
Proof.
  intros self db query method use_pagerank Hterm Hdoc.
  unfold SearchEngine.search, str_eqb.
  destruct (str_eq_dec (Utils.lower method) (py "term")); [contradiction|].
  destruct (str_eq_dec (Utils.lower method) (py "document")); [contradiction|].
  reflexivity.
Qed.

Lemma search_unknown_method_witness :
  Utils.lower (py "BM25") <> py "term"
  /\ Utils.lower (py "BM25") <> py "document"
  /\ SearchEngine.search (SearchEngine.init Config.SEARCH_CONFIG Database.empty)
       Database.empty (py "machine learning") (py "BM25") true
     = SearchEngine.search_term_at_a_time
         (SearchEngine.init Config.SEARCH_CONFIG Database.empty)
         Database.empty (py "machine learning") true.
Proof.
  split; [discriminate|]. split; [discriminate|].
  apply search_unknown_method_is_term_at_a_time; discriminate.
Defined.








(** ** The two strategies on a corpus indexed by the parser *)

Lemma idf_of_machine : (ln (INR (1 + 1) / INR (1 + 1)) + 1 = 1)%R.
Proof.
  replace (INR (1 + 1) / INR (1 + 1))%R with 1%R.
  - rewrite ln_1. lra.
  - simpl. field.
Qed.


Lemma one_document_term_at_a_time :
  fst (SearchEngine.search
         (SearchEngine.init Config.SEARCH_CONFIG one_document_corpus)
         one_document_corpus (py "machine") (py "term") false)
  = [(1%Z, 1%R, py "machine learning")].
Proof.
  unfold SearchEngine.search.
  replace (str_eqb (Utils.lower (py "term")) (py "term")) with true by reflexivity.
  unfold SearchEngine.search_term_at_a_time.
  replace (Utils.tokenize (py "machine") Config.STOP_WORDS) with [py "machine"]
    by reflexivity.
  replace (SearchEngine.collect_doc_lengths one_document_corpus) with [(1%Z, 2)]
    by reflexivity.
  cbn [fold_left]. unfold SearchEngine.term_at_a_time_step, SearchEngine.calculate_idf.
  replace (Database.get_documents_for_word (py "machine") one_document_corpus)
    with [(1%Z, 1%Q)] by reflexivity.
  cbn [SearchEngine.init SearchEngine.idf_cache Dict.get length Nat.eqb
       SearchEngine.total_documents].
  replace (Database.get_total_documents one_document_corpus) with 1 by reflexivity.
  rewrite idf_of_machine.
  destruct (Req_EM_T 1 0) as [E|_]; [lra|].
  unfold SearchEngine.add_term_scores. cbn [fold_left Dict.get].
  destruct (Z.eq_dec 1 1) as [_|E]; [|contradiction].
  cbn [Nat.eqb].
  replace (SearchEngine.term_count_of 1 2) with 2%Z by (vm_compute; reflexivity).
  unfold SearchEngine.calculate_tf. cbn [Z.of_nat Pos.of_succ_nat Pos.succ Z.eqb].
  cbn [Dict.get_default Dict.get Dict.set SearchEngine.sorted_desc fold_right
       SearchEngine.insert_desc].
  unfold SearchEngine.format_results.
  cbn [SearchEngine.set_idf_cache SearchEngine.results_per_page Config.results_per_page
       Config.SEARCH_CONFIG firstn flat_map SearchEngine.snippet_length Config.snippet_length].
  replace (Database.get_document_content 1 one_document_corpus)
    with (Some (py "machine learning")) by reflexivity.
  replace (SearchEngine.nonempty_content (Some (py "machine learning")))
    with (Some (py "machine learning")) by reflexivity.
  replace (Utils.generate_snippet (py "machine learning") [py "machine"] 150)
    with (py "machine learning") by reflexivity.
  cbn [app fst].
  replace (0 + 2 / 2 * 1)%R with 1%R by field. reflexivity.
Qed.

Lemma one_document_document_at_a_time :
  fst (SearchEngine.search
         (SearchEngine.init Config.SEARCH_CONFIG one_document_corpus)
         one_document_corpus (py "machine") (py "document") false)
  = [(1%Z, (1 / 2)%R, py "machine learning")].
Proof.
  unfold SearchEngine.search.
  replace (str_eqb (Utils.lower (py "document")) (py "term")) with false by reflexivity.
  replace (str_eqb (Utils.lower (py "document")) (py "document")) with true by reflexivity.
  unfold SearchEngine.search_document_at_a_time.
  replace (Utils.tokenize (py "machine") Config.STOP_WORDS) with [py "machine"]
    by reflexivity.
  unfold SearchEngine.collect_term_idf.
  cbn [fold_left]. unfold SearchEngine.calculate_idf.
  replace (Database.get_documents_for_word (py "machine") one_document_corpus)
    with [(1%Z, 1%Q)] by reflexivity.
  cbn [SearchEngine.init SearchEngine.idf_cache Dict.get length Nat.eqb
       SearchEngine.total_documents].
  replace (Database.get_total_documents one_document_corpus) with 1 by reflexivity.
  rewrite idf_of_machine.
  replace (Database.get_all_documents one_document_corpus)
    with [(1%Z, py "http://example.com/doc1", py "Document 1")] by reflexivity.
  cbn [fold_left]. unfold SearchEngine.score_document. cbn [fst].
  replace (Database.get_document_content 1 one_document_corpus)
    with (Some (py "machine learning")) by reflexivity.
  replace (SearchEngine.nonempty_content (Some (py "machine learning")))
    with (Some (py "machine learning")) by reflexivity.
  replace (Utils.tokenize (py "machine learning") Config.STOP_WORDS)
    with [py "machine"; py "learning"] by reflexivity.
  cbn [length Nat.eqb fold_left]. unfold SearchEngine.document_at_a_time_step.
  replace (Dict.get_default str_eq_dec (py "machine") 0%R
             (Dict.set str_eq_dec (py "machine") 1%R [])) with 1%R
    by (unfold Dict.get_default; now rewrite get_set_same).
  destruct (Req_EM_T 1 0) as [E|_]; [lra|].
  replace (count_occ str_eq_dec [py "machine"; py "learning"] (py "machine")) with 1
    by reflexivity.
  cbn [Nat.ltb Nat.leb]. unfold SearchEngine.calculate_tf.
  cbn [length Z.of_nat Pos.of_succ_nat Pos.succ Z.eqb].
  replace (0 + 1 / 2 * 1)%R with (1 / 2)%R by field.
  destruct (Rlt_dec 0 (1 / 2)) as [_|E]; [|lra].
  cbn [Dict.set SearchEngine.sorted_desc fold_right SearchEngine.insert_desc].
  unfold SearchEngine.format_results.
  cbn [SearchEngine.set_idf_cache SearchEngine.results_per_page Config.results_per_page
       Config.SEARCH_CONFIG firstn flat_map SearchEngine.snippet_length Config.snippet_length].
  replace (Database.get_document_content 1 one_document_corpus)
    with (Some (py "machine learning")) by reflexivity.
  replace (SearchEngine.nonempty_content (Some (py "machine learning")))
    with (Some (py "machine learning")) by reflexivity.
  replace (Utils.generate_snippet (py "machine learning") [py "machine"] 150)
    with (py "machine learning") by reflexivity.
  cbn [app fst].
  reflexivity.
Qed.

(** C2, at a failing input.  On the corpus of the one document "machine
    learning", indexed by [index_document], the query "machine" without
    PageRank scores the document [1] term-at-a-time and [1/2]
    document-at-a-time. *)
Theorem strategies_disagree_on_indexed_document :
  fst (SearchEngine.search
         (SearchEngine.init Config.SEARCH_CONFIG one_document_corpus)
         one_document_corpus (py "machine") (py "term") false)
  = [(1%Z, 1%R, py "machine learning")]
  /\ fst (SearchEngine.search
            (SearchEngine.init Config.SEARCH_CONFIG one_document_corpus)
            one_document_corpus (py "machine") (py "document") false)
     = [(1%Z, (1 / 2)%R, py "machine learning")]
  /\ (1 <> 1 / 2)%R.
Proof.
  split; [exact one_document_term_at_a_time|].
  split; [exact one_document_document_at_a_time|lra].
Qed.

(** ** [index_document] *)

Lemma str_eqb_eq (a b : str) : str_eqb a b = true <-> a = b.
Proof.
  unfold str_eqb. destruct (str_eq_dec a b); split; congruence.
Qed.

Lemma has_posting_spec (term : str) (doc : Z) (db : Database.t) :
  WebParser.has_posting term doc db = true <->
  exists p r, In p (Database.inverted_index db) /\ Database.p_doc_id p = doc
              /\ In r (Database.words db)
              /\ Database.word_id r = Database.p_word_id p
              /\ Database.word r = term.
Proof.
  unfold WebParser.has_posting, Database.get_documents_for_word.
  rewrite existsb_exists. split.
  - intros (e & He & Hd). apply in_map_iff in He as (p & <- & Hp).
    apply sort_by_in in Hp.
    apply filter_In in Hp as [Hp Hw]. apply existsb_exists in Hw as (r & Hr & Hrw).
    apply andb_prop in Hrw as [H1 H2]. apply Z.eqb_eq in H1, Hd.
    apply str_eqb_eq in H2. now exists p, r.
  - intros (p & r & Hp & Hd & Hr & Hid & Hw).
    exists (Database.p_doc_id p, Database.tf p). split.
    + apply in_map_iff. exists p. split; [reflexivity|].
      apply sort_by_in. apply filter_In. split; [exact Hp|].
      apply existsb_exists. exists r. split; [exact Hr|].
      apply andb_true_intro. split; [now apply Z.eqb_eq|now apply str_eqb_eq].
    + now apply Z.eqb_eq.
Qed.

Lemma get_word_id_some (w : str) (db : Database.t) (id : Z) :
  Database.get_word_id w db = Some id ->
  exists r, In r (Database.words db) /\ Database.word_id r = id /\ Database.word r = w.
Proof.
  unfold Database.get_word_id. intros H.
  destruct (find _ (Database.words db)) as [r|] eqn:E; [|discriminate].
  injection H as <-. apply find_some in E as [Hr Hw]. apply str_eqb_eq in Hw. now exists r.
Qed.

Lemma get_word_id_none (w : str) (db : Database.t) :
  Database.get_word_id w db = None ->
  forall r, In r (Database.words db) -> Database.word r <> w.
Proof.
  unfold Database.get_word_id. intros H r Hr Hw.
  destruct (find _ (Database.words db)) as [r'|] eqn:E; [discriminate|].
  pose proof (find_none _ _ E r Hr) as Hn. simpl in Hn.
  apply str_eqb_eq in Hw. rewrite Hw in Hn. discriminate.
Qed.

Lemma index_terms_fold (doc_id : Z) (term_counts : Dict.t str nat)
    (positions_cache : Dict.t str (list nat)) (db : Database.t) :
  WebParser.index_terms doc_id term_counts positions_cache db
  = fold_left (index_term doc_id positions_cache) term_counts db.
Proof.
  reflexivity.
Qed.

(** What [add_word] does to the rows of [words]: the row of the word is
    there afterwards, under the id returned; the other rows keep their id
    and their word. *)
Lemma add_word_spec (w : str) (db : Database.t) :
  well_formed db ->
  forall id db1, Database.add_word w db = (id, db1) ->
    (0 < id <= Database.seq_words db1)%Z
    /\ (Database.seq_words db <= Database.seq_words db1)%Z
    /\ Database.documents db1 = Database.documents db
    /\ Database.seq_documents db1 = Database.seq_documents db
    /\ Database.inverted_index db1 = Database.inverted_index db
    /\ (forall r', In r' (Database.words db1) ->
          (0 < Database.word_id r' <= Database.seq_words db1)%Z)
    /\ (forall r1 r2, In r1 (Database.words db1) -> In r2 (Database.words db1) ->
          Database.word_id r1 = Database.word_id r2 ->
          Database.word r1 = Database.word r2)
    /\ (exists r', In r' (Database.words db1)
                   /\ Database.word_id r' = id /\ Database.word r' = w)
    /\ (forall r', In r' (Database.words db1) ->
          (exists r, In r (Database.words db)
                     /\ Database.word_id r' = Database.word_id r
                     /\ Database.word r' = Database.word r)
          \/ (Database.seq_words db < Database.word_id r')%Z)
    /\ (forall r, In r (Database.words db) ->
          exists r', In r' (Database.words db1)
                     /\ Database.word_id r' = Database.word_id r
                     /\ Database.word r' = Database.word r).
Proof.
  intros Hwf id db1 H. unfold Database.add_word in H.
  destruct (Database.get_word_id w db) as [id0|] eqn:E; injection H as <- <-; simpl.
  - destruct (get_word_id_some _ _ _ E) as (r0 & Hr0 & Hid0 & Hw0).
    pose proof (wf_word_ids Hwf r0 Hr0) as Hpos. rewrite Hid0 in Hpos.
    set (bump := fun r : Database.Word =>
                   if (Database.word_id r =? id0)%Z
                   then {| Database.word_id := Database.word_id r;
                           Database.word := Database.word r;
                           Database.frequency := (Database.frequency r + 1)%Z |}
                   else r).
    assert (Hbump : forall r, Database.word_id (bump r) = Database.word_id r
                              /\ Database.word (bump r) = Database.word r).
    { intros r. unfold bump. now destruct (Database.word_id r =? id0)%Z. }
    assert (Hin : forall r', In r' (map bump (Database.words db)) ->
                  exists r, In r (Database.words db)
                            /\ Database.word_id r' = Database.word_id r
                            /\ Database.word r' = Database.word r).
    { intros r' Hr'. apply in_map_iff in Hr' as (r & <- & Hr). exists r.
      destruct (Hbump r). auto. }
    split; [exact Hpos|]. split; [lia|]. do 3 (split; [reflexivity|]).
    split; [|split; [|split; [|split]]].
    + intros r' Hr'. destruct (Hin r' Hr') as (r & Hr & -> & _).
      exact (wf_word_ids Hwf r Hr).
    + intros r1 r2 H1 H2 Heq.
      destruct (Hin r1 H1) as (s1 & Hs1 & E1 & ->).
      destruct (Hin r2 H2) as (s2 & Hs2 & E2 & ->).
      apply (wf_word_of_id Hwf s1 s2 Hs1 Hs2). congruence.
    + exists (bump r0). destruct (Hbump r0) as [-> ->]. split; [now apply in_map|auto].
    + intros r' Hr'. left. exact (Hin r' Hr').
    + intros r Hr. exists (bump r). destruct (Hbump r) as [-> ->].
      split; [now apply in_map|auto].
  - pose proof (wf_seq_words Hwf) as Hseq.
    split; [lia|]. split; [lia|]. do 3 (split; [reflexivity|]).
    split; [|split; [|split; [|split]]].
    + intros r' Hr'. apply in_app_iff in Hr' as [Hr'|[<-|[]]]; [|simpl; lia].
      pose proof (wf_word_ids Hwf r' Hr'). lia.
    + intros r1 r2 H1 H2 Heq.
      apply in_app_iff in H1 as [H1|[<-|[]]]; apply in_app_iff in H2 as [H2|[<-|[]]].
      * now apply (wf_word_of_id Hwf).
      * pose proof (wf_word_ids Hwf r1 H1). simpl in Heq. lia.
      * pose proof (wf_word_ids Hwf r2 H2). simpl in Heq. lia.
      * reflexivity.
    + eexists. split; [apply in_app_iff; right; left; reflexivity|]. auto.
    + intros r' Hr'. apply in_app_iff in Hr' as [Hr'|[<-|[]]].
      * left. now exists r'.
      * right. simpl. lia.
    + intros r Hr. exists r. split; [apply in_app_iff; now left|auto].
Qed.

Lemma index_term_spec (doc : Z) (pc : Dict.t str (list nat)) (db : Database.t)
    (w : str) (c : nat) :
  well_formed db ->
  well_formed (index_term doc pc db (w, c))
  /\ Database.documents (index_term doc pc db (w, c)) = Database.documents db
  /\ Database.seq_documents (index_term doc pc db (w, c)) = Database.seq_documents db
  /\ forall term d,
       WebParser.has_posting term d (index_term doc pc db (w, c)) = true <->
       (d = doc /\ term = w) \/ WebParser.has_posting term d db = true.
Proof.
  intros Hwf. unfold index_term.
  destruct (Database.add_word w db) as [id db1] eqn:E.
  destruct (add_word_spec w db Hwf id db1 E)
    as (Hid & Hseq & Hdocs & Hsd & Hii & Hids & Hfun & (r0 & Hr0 & Hr0id & Hr0w) & Hold & Hnew).
  destruct (id =? -1)%Z eqn:Em; [apply Z.eqb_eq in Em; lia|].
  split; [|split; [exact Hdocs|split; [exact Hsd|]]].
  - constructor; simpl.
    + rewrite Hsd. apply Hwf.
    + pose proof (wf_seq_words Hwf). lia.
    + rewrite Hdocs, Hsd. apply Hwf.
    + exact Hids.
    + intros p Hp. apply in_app_iff in Hp as [Hp|[<-|[]]]; [|simpl; lia].
      apply filter_In in Hp as [Hp _]. rewrite Hii in Hp.
      pose proof (wf_posting_ids Hwf p Hp). lia.
    + exact Hfun.
  - intros term d. rewrite !has_posting_spec. simpl. split.
    + intros (p & r' & Hp & Hd & Hr' & Hrid & Hw).
      apply in_app_iff in Hp as [Hp|[<-|[]]].
      * right. apply filter_In in Hp as [Hp _]. rewrite Hii in Hp.
        destruct (Hold r' Hr') as [(r & Hr & E1 & E2)|Hlt].
        -- exists p, r. repeat split; auto; congruence.
        -- pose proof (wf_posting_ids Hwf p Hp). lia.
      * left. simpl in Hd, Hrid. split; [auto|].
        rewrite <- Hw, <- Hr0w. apply Hfun; auto. congruence.
    + intros [[-> ->]|(p & r & Hp & Hd & Hr & Hrid & Hw)].
      * eexists; exists r0. split; [apply in_app_iff; right; left; reflexivity|].
        simpl. auto.
      * destruct (Hnew r Hr) as (r' & Hr' & E1 & E2).
        destruct (Database.same_posting id doc p) eqn:Es.
        -- apply andb_prop in Es as [Es1 Es2]. apply Z.eqb_eq in Es1, Es2.
           eexists; exists r'. split; [apply in_app_iff; right; left; reflexivity|].
           simpl. repeat split; auto; congruence.
        -- exists p, r'. split.
           ++ apply in_app_iff. left. apply filter_In. rewrite Hii.
              split; [exact Hp|now rewrite Es].
           ++ repeat split; auto; congruence.
Qed.

Lemma index_terms_spec (doc : Z) (pc : Dict.t str (list nat))
    (term_counts : Dict.t str nat) :
  forall db, well_formed db ->
    well_formed (WebParser.index_terms doc term_counts pc db)
    /\ Database.documents (WebParser.index_terms doc term_counts pc db)
       = Database.documents db
    /\ Database.seq_documents (WebParser.index_terms doc term_counts pc db)
       = Database.seq_documents db
    /\ forall term d,
         WebParser.has_posting term d (WebParser.index_terms doc term_counts pc db) = true
         <-> (d = doc /\ In term (Dict.keys term_counts))
             \/ WebParser.has_posting term d db = true.
Proof.
  induction term_counts as [|[w c] l IH]; intros db Hwf;
    rewrite index_terms_fold; cbn [fold_left Dict.keys map fst].
  - split; [exact Hwf|]. split; [reflexivity|]. split; [reflexivity|].
    intros term d. unfold Dict.keys. simpl. tauto.
  - destruct (index_term_spec doc pc db w c Hwf) as (Hwf1 & Hd1 & Hs1 & Hp1).
    specialize (IH _ Hwf1). rewrite index_terms_fold in IH.
    destruct IH as (Hwf2 & Hd2 & Hs2 & Hp2).
    split; [exact Hwf2|]. split; [congruence|]. split; [congruence|].
    intros term d. rewrite Hp2, Hp1. unfold Dict.keys. simpl. intuition (subst; auto).
Qed.

Lemma keys_set (k : str) (v : nat) (d : Dict.t str nat) (k' : str) :
  In k' (Dict.keys (Dict.set str_eq_dec k v d)) <-> k' = k \/ In k' (Dict.keys d).
Proof.
  unfold Dict.keys. induction d as [|[k0 v0] d IH]; simpl.
  - intuition.
  - destruct (str_eq_dec k k0) as [->|Hne]; simpl; [intuition|].
    rewrite IH. intuition.
Qed.

Lemma Counter_keys (tokens : list str) (t : str) :
  In t (Dict.keys (WebParser.Counter tokens)) <-> In t tokens.
Proof.
  unfold WebParser.Counter.
  assert (H : forall d,
             In t (Dict.keys
                     (fold_left (fun d token =>
                                   Dict.set str_eq_dec token
                                     (Dict.get_default str_eq_dec token 0 d + 1) d)
                                tokens d))
             <-> In t tokens \/ In t (Dict.keys d)).
  { induction tokens as [|a l IH]; intros d; simpl; [intuition|].
    rewrite IH, keys_set. intuition. }
  rewrite H. simpl. intuition.
Qed.

Lemma has_posting_ext (db1 db2 : Database.t) (term : str) (d : Z) :
  Database.words db1 = Database.words db2 ->
  Database.inverted_index db1 = Database.inverted_index db2 ->
  WebParser.has_posting term d db1 = WebParser.has_posting term d db2.
Proof.
  intros Hw Hi. unfold WebParser.has_posting, Database.get_documents_for_word.
  now rewrite Hw, Hi.
Qed.

Lemma well_formed_ext (db1 db2 : Database.t) :
  Database.documents db1 = Database.documents db2 ->
  Database.words db1 = Database.words db2 ->
  Database.inverted_index db1 = Database.inverted_index db2 ->
  Database.seq_documents db1 = Database.seq_documents db2 ->
  Database.seq_words db1 = Database.seq_words db2 ->
  well_formed db2 -> well_formed db1.
Proof.
  intros Hd Hw Hi Hsd Hsw [].
  constructor; rewrite ?Hd, ?Hw, ?Hi, ?Hsd, ?Hsw; assumption.
Qed.

Lemma add_links_spec (doc : Z) (links : list str) :
  forall db,
    Database.documents (WebParser.add_links doc links db) = Database.documents db
    /\ Database.words (WebParser.add_links doc links db) = Database.words db
    /\ Database.inverted_index (WebParser.add_links doc links db)
       = Database.inverted_index db
    /\ Database.seq_documents (WebParser.add_links doc links db)
       = Database.seq_documents db
    /\ Database.seq_words (WebParser.add_links doc links db) = Database.seq_words db.
Proof.
  unfold WebParser.add_links.
  induction links as [|l ls IH]; intros db; simpl; [auto 6|].
  destruct (IH (Database.add_link doc l (Database.get_document_id l db) db))
    as (H1 & H2 & H3 & H4 & H5).
  rewrite H1, H2, H3, H4, H5. unfold Database.add_link.
  destruct (existsb _ (Database.links db)); auto 6.
Qed.

Lemma add_document_spec (u ti c : str) (db : Database.t) :
  well_formed db ->
  (0 < fst (Database.add_document u ti c db))%Z
  /\ well_formed (snd (Database.add_document u ti c db))
  /\ Database.words (snd (Database.add_document u ti c db)) = Database.words db
  /\ Database.inverted_index (snd (Database.add_document u ti c db))
     = Database.inverted_index db.
Proof.
  intros Hwf.
  assert (Hins : well_formed (Database.insert_or_ignore_document u ti c db)
                 /\ Database.words (Database.insert_or_ignore_document u ti c db)
                    = Database.words db
                 /\ Database.inverted_index (Database.insert_or_ignore_document u ti c db)
                    = Database.inverted_index db).
  { unfold Database.insert_or_ignore_document.
    destruct (Database.get_document_id u db); [auto|].
    pose proof (wf_seq_documents Hwf) as Hs.
    split; [|auto]. constructor; simpl; try apply Hwf; try lia.
    intros d Hd. apply in_app_iff in Hd as [Hd|[<-|[]]]; [|simpl; lia].
    pose proof (wf_doc_ids Hwf d Hd). lia. }
  destruct Hins as (Hwf1 & Hw1 & Hi1).
  unfold Database.add_document.
  set (db1 := Database.insert_or_ignore_document u ti c db) in *.
  pose proof (wf_seq_documents Hwf1) as Hs.
  destruct (Database.get_document_id u db1) as [id|] eqn:E; simpl.
  - unfold Database.get_document_id in E.
    destruct (find _ (Database.documents db1)) as [d0|] eqn:Ef; [|discriminate].
    injection E as <-. apply find_some in Ef as [Hd0 _].
    split; [apply (wf_doc_ids Hwf1 d0 Hd0)|]. split; [|auto].
    constructor; simpl; try apply Hwf1.
    intros d Hd. apply in_map_iff in Hd as (d' & <- & Hd').
    pose proof (wf_doc_ids Hwf1 d' Hd').
    now destruct (Database.doc_id d' =? Database.doc_id d0)%Z.
  - split; [lia|]. split; [|auto].
    constructor; simpl; try apply Hwf1; try lia.
    intros d Hd. apply in_app_iff in Hd as [Hd|[<-|[]]]; [|simpl; lia].
    pose proof (wf_doc_ids Hwf1 d Hd). lia.
Qed.

(** [Database.empty] is well formed, and [index_document] keeps the tables
    so: the hypothesis of [index_document_postings] holds of every state
    that indexing reaches. *)
Lemma empty_well_formed : well_formed Database.empty.
Proof. constructor; simpl; try lia; intros; contradiction. Qed.

(** What [index_document] does to the postings. *)
Lemma index_document_postings_effect :
  forall (db : Database.t) (url title content : str) (links : list str),
    well_formed db ->
    let doc := fst (Database.add_document url title content db) in
    let db' := WebParser.index_document url title content links db in
    well_formed db'
    /\ forall term d,
         WebParser.has_posting term d db' = true
         <-> (d = doc /\ In term (Utils.tokenize content Config.STOP_WORDS))
             \/ WebParser.has_posting term d db = true.
Proof.
  intros db url title content links Hwf doc db'.
  destruct (add_document_spec url title content db Hwf) as (Hid & Hwf1 & Hw1 & Hi1).
  subst doc db'. unfold WebParser.index_document.
  destruct (Database.add_document url title content db) as [doc db1].
  simpl in Hid, Hwf1, Hw1, Hi1. simpl fst.
  destruct (doc =? -1)%Z eqn:Em; [apply Z.eqb_eq in Em; lia|].
  assert (Hb : forall term d, WebParser.has_posting term d db1
                              = WebParser.has_posting term d db)
    by (intros; now apply has_posting_ext).
  destruct (Utils.tokenize content Config.STOP_WORDS) as [|t ts] eqn:Et.
  - destruct (add_links_spec doc links db1) as (H1 & H2 & H3 & H4 & H5).
    split; [now apply (well_formed_ext _ db1)|].
    intros term d. rewrite (has_posting_ext _ db1) by assumption.
    rewrite Hb. simpl. tauto.
  - set (tokens := t :: ts) in *.
    destruct (index_terms_spec doc (WebParser.positions_from 0 tokens [])
                (WebParser.Counter tokens) db1 Hwf1) as (Hwf2 & _ & _ & Hp).
    set (db2 := WebParser.index_terms doc (WebParser.Counter tokens)
                  (WebParser.positions_from 0 tokens []) db1) in *.
    destruct (add_links_spec doc links db2) as (H1 & H2 & H3 & H4 & H5).
    split; [now apply (well_formed_ext _ db2)|].
    intros term d. rewrite (has_posting_ext _ db2) by assumption.
    rewrite Hp, Counter_keys, Hb. tauto.
Qed.





(** ** The document frequency *)

Lemma NoDup_map_filter_key (A K B : Type) (k : A -> K) (g : A -> B)
    (q : A -> bool) (l : list A) :
  NoDup (map k l) ->
  (forall x y, In x l -> In y l -> q x = true -> q y = true ->
               g x = g y -> k x = k y) ->
  NoDup (map g (filter q l)).
Proof.
  induction l as [|a l IH]; intros Hnd Hk; cbn [filter map]; [constructor|].
  cbn [map] in Hnd. inversion Hnd as [|? ? Hnotin Hnd']; subst.
  assert (IH' : NoDup (map g (filter q l))).
  { apply IH; [exact Hnd'|]. intros x y Hx Hy. apply Hk; now right. }
  destruct (q a) eqn:Eq; [|exact IH'].
  cbn [map]. constructor; [|exact IH'].
  intros Hin. apply in_map_iff in Hin as (y & Hg & Hy).
  apply filter_In in Hy as [Hy Hqy].
  apply Hnotin. apply in_map_iff. exists y. split; [|exact Hy].
  symmetry. apply Hk; [now left|now right|exact Eq|exact Hqy|now symmetry].
Qed.

(** While the index matches the contents, the [df] of [calculate_idf], the
    number of documents that the inverted index lists for the word, is the
    number of documents whose content has the word. *)
Lemma df_counts_documents (db : Database.t) (word : str) :
  index_matches_contents db ->
  length (Database.get_documents_for_word word db)
  = documents_containing word db.
Proof.
  intros (Hdocs & Hkeys & Hwords & Hfk & Hmatch).
  unfold Database.get_documents_for_word, documents_containing.
  rewrite length_map, sort_by_length.
  set (joined := fun p : Database.Posting =>
                   existsb (fun r => (Database.word_id r =? Database.p_word_id p)%Z
                                     && str_eqb (Database.word r) word)
                           (Database.words db)).
  set (holds := fun d : Database.Document =>
                  str_in word (Utils.tokenize (Database.content d)
                                 Config.STOP_WORDS)).
  rewrite <- (length_map Database.p_doc_id
                (filter joined (Database.inverted_index db))).
  rewrite <- (length_map Database.doc_id
                (filter holds (Database.documents db))).
  apply Permutation_length, NoDup_Permutation.
  - apply (NoDup_map_filter_key _ _ _
             (fun p => (Database.p_word_id p, Database.p_doc_id p)));
      [exact Hkeys|].
    intros x y _ _ Hx Hy Hd. unfold joined in Hx, Hy.
    apply existsb_exists in Hx as (r1 & Hr1 & H1).
    apply existsb_exists in Hy as (r2 & Hr2 & H2).
    apply andb_prop in H1 as [H1 W1]. apply andb_prop in H2 as [H2 W2].
    apply Z.eqb_eq in H1, H2. apply str_eqb_eq in W1, W2.
    assert (E : Database.word_id r1 = Database.word_id r2)
      by (apply Hwords; [exact Hr1|exact Hr2|congruence]).
    f_equal; congruence.
  - apply (NoDup_map_filter_key _ _ _ Database.doc_id); [exact Hdocs|].
    intros x y _ _ _ _ H. exact H.
  - intros id. split.
    + intros Hin. apply in_map_iff in Hin as (p & <- & Hp).
      apply filter_In in Hp as [Hp Hj].
      destruct (proj1 (in_map_iff _ _ _) (Hfk p Hp)) as (d & Hd & Hin).
      apply in_map_iff. exists d. split; [exact Hd|].
      apply filter_In. split; [exact Hin|].
      unfold holds. apply str_in_spec.
      apply (Hmatch d Hin). rewrite Hd.
      apply has_posting_spec. unfold joined in Hj.
      apply existsb_exists in Hj as (r & Hr & H).
      apply andb_prop in H as [H1 H2].
      apply Z.eqb_eq in H1. apply str_eqb_eq in H2.
      exists p, r. auto.
    + intros Hin. apply in_map_iff in Hin as (d & <- & Hd).
      apply filter_In in Hd as [Hd Hh]. unfold holds in Hh.
      apply str_in_spec in Hh. apply (Hmatch d Hd) in Hh.
      apply has_posting_spec in Hh as (p & r & Hp & Hpd & Hr & Hid & Hw).
      apply in_map_iff. exists p. split; [exact Hpd|].
      apply filter_In. split; [exact Hp|].
      unfold joined. apply existsb_exists. exists r. split; [exact Hr|].
      apply andb_true_intro. split; [now apply Z.eqb_eq|now apply str_eqb_eq].
Qed.

(** A corpus that the parser indexed once is such a state. *)
Lemma one_document_corpus_matches : index_matches_contents one_document_corpus.
Proof.
  assert (Hdocs : map (fun d => (Database.doc_id d, Database.content d))
                      (Database.documents one_document_corpus)
                  = [(1%Z, py "machine learning")])
    by (vm_compute; reflexivity).
  assert (Hkeys : map (fun p => (Database.p_word_id p, Database.p_doc_id p))
                      (Database.inverted_index one_document_corpus)
                  = [(1, 1); (2, 1)]%Z)
    by (vm_compute; reflexivity).
  assert (Hwords : map (fun r => (Database.word_id r, Database.word r))
                       (Database.words one_document_corpus)
                   = [(1%Z, py "machine"); (2%Z, py "learning")])
    by (vm_compute; reflexivity).
  assert (Hids : map Database.doc_id (Database.documents one_document_corpus)
                 = [1%Z])
    by (vm_compute; reflexivity).
  split; [|split; [|split; [|split]]].
  - rewrite Hids. repeat constructor. intros [].
  - rewrite Hkeys. repeat constructor; cbn [In]; intuition discriminate.
  - intros r1 r2 H1 H2 Hw.
    apply (in_map (fun r => (Database.word_id r, Database.word r))) in H1, H2.
    rewrite Hwords in H1, H2. cbn [In] in H1, H2.
    destruct H1 as [H1 | [H1 | []]]; destruct H2 as [H2 | [H2 | []]];
      injection H1 as I1 W1; injection H2 as I2 W2;
      try congruence; rewrite <- W1, <- W2 in Hw; discriminate.
  - intros p Hp. rewrite Hids.
    apply (in_map (fun p => (Database.p_word_id p, Database.p_doc_id p))) in Hp.
    rewrite Hkeys in Hp. cbn [In] in Hp |- *.
    destruct Hp as [Hp | [Hp | []]]; injection Hp as _ Hd; now left.
  - intros d Hd.
    apply (in_map (fun d => (Database.doc_id d, Database.content d))) in Hd.
    rewrite Hdocs in Hd. destruct Hd as [Hd | []]. injection Hd as E1 E2.
    rewrite <- E1, <- E2. clear E1 E2.
    intros term.
    pose proof (index_document_postings_effect Database.empty
                  (py "http://example.com/doc1") (py "Document 1")
                  (py "machine learning") [] empty_well_formed) as [_ H].
    cbv zeta in H. fold one_document_corpus in H.
    rewrite (H term 1%Z).
    change (fst (Database.add_document (py "http://example.com/doc1")
                   (py "Document 1") (py "machine learning") Database.empty))
      with 1%Z.
    change (WebParser.has_posting term 1 Database.empty) with false.
    intuition discriminate.
Qed.
(** ** The engines on an empty corpus *)

(** C5, at the failing input.  On a corpus without documents the
    Pregel engine is built and returns the empty mapping; the MapReduce
    engine is built, and its [calculate] raises [ZeroDivisionError] in
    [calculate_convergence]. *)
Theorem empty_corpus_engines :
  (exists self,
      PageRankPregel.init Config.PAGERANK_CONFIG Database.empty = Ok self
      /\ PageRankPregel.calculate self Database.empty
         = Ok ([], self, Database.empty))
  /\ PageRankMapReduce.pagerank
       (PageRankMapReduce.init Config.PAGERANK_CONFIG Database.empty) = []
  /\ PageRankMapReduce.calculate
       (PageRankMapReduce.init Config.PAGERANK_CONFIG Database.empty)
       Database.empty
     = Raise ZeroDivisionError.
Proof.
  split; [eexists; split; reflexivity|]. split; reflexivity.
Qed.

(** ** One superstep *)

Lemma deliver_get (messages : Dict.t nat (list Q)) (m : nat * Q) (target : nat) :
  Dict.get_default Nat.eq_dec target [] (SimplePregelGraph.deliver messages m)
  = Dict.get_default Nat.eq_dec target [] messages
    ++ (if Nat.eqb target (fst m) then [snd m] else []).
Proof.
  destruct m as [t x]. unfold SimplePregelGraph.deliver, Dict.get_default. simpl.
  destruct (Nat.eqb_spec target t) as [->|Hne].
  - now rewrite get_set_same.
  - rewrite get_set_other by exact Hne. now rewrite app_nil_r.
Qed.

Lemma deliver_all_get (ms : list (nat * Q)) (target : nat) :
  forall messages,
    Dict.get_default Nat.eq_dec target [] (fold_left SimplePregelGraph.deliver ms messages)
    = Dict.get_default Nat.eq_dec target [] messages
      ++ map snd (filter (fun m => Nat.eqb target (fst m)) ms).
Proof.
  induction ms as [|m ms IH]; intros messages; simpl; [now rewrite app_nil_r|].
  rewrite IH, deliver_get, <- app_assoc. now destruct (Nat.eqb target (fst m)).
Qed.

Lemma send_messages_to (v : PregelVertex.t) (target : nat) :
  map snd (filter (fun m => Nat.eqb target (fst m)) (PregelVertex.send_messages v))
  = map (fun _ => (PregelVertex.value v
                   / Qnat (length (PregelVertex.outgoing_edges v)))%Q)
        (filter (Nat.eqb target) (PregelVertex.outgoing_edges v)).
Proof.
  unfold PregelVertex.send_messages.
  destruct (PregelVertex.outgoing_edges v) as [|e es] eqn:E; [reflexivity|].
  generalize (PregelVertex.value v / Qnat (length (e :: es)))%Q as share.
  intros share. generalize (e :: es) as l.
  induction l as [|a l IH]; simpl; [reflexivity|].
  destruct (Nat.eqb target a); simpl; now rewrite IH.
Qed.

(** Phase 1 files under every target the messages of its inbox. *)
Lemma send_phase_inbox (vs : list PregelVertex.t) (target : nat) :
  Dict.get_default Nat.eq_dec target [] (SimplePregelGraph.send_phase vs)
  = inbox vs target.
Proof.
  unfold SimplePregelGraph.send_phase.
  assert (H : forall messages,
             Dict.get_default Nat.eq_dec target []
               (fold_left (fun messages vertex =>
                             if PregelVertex.active vertex
                             then fold_left SimplePregelGraph.deliver
                                    (PregelVertex.send_messages vertex) messages
                             else messages) vs messages)
             = Dict.get_default Nat.eq_dec target [] messages ++ inbox vs target).
  { induction vs as [|v vs IH]; intros messages; simpl; [now rewrite app_nil_r|].
    rewrite IH. destruct (PregelVertex.active v); [|reflexivity].
    rewrite deliver_all_get, send_messages_to, <- app_assoc. reflexivity. }
  rewrite H. reflexivity.
Qed.

(** C4, as the code has it.  In one superstep every active vertex with
    [k > 0] edges and value [v] sends [v / k] along each edge, and no other
    message is sent; then every vertex takes the value
    [(1 - d) / N + d * sum] for the sum of its inbox, computed from the
    values before the superstep, keeps its id and edges, and is inactive
    exactly when its value moved by at most [1e-10]; the superstep reports
    whether a vertex is active. *)
Theorem run_superstep_spec :
  forall (damping_factor : Q) (g : SimplePregelGraph.t),
    let g' := fst (SimplePregelGraph.run_superstep damping_factor g) in
    let N := SimplePregelGraph.num_vertices g in
    (forall target,
        Dict.get_default Nat.eq_dec target [] (SimplePregelGraph.messages g')
        = inbox (SimplePregelGraph.vertices g) target)
    /\ length (SimplePregelGraph.vertices g') = N
    /\ (forall i v,
          nth_error (SimplePregelGraph.vertices g) i = Some v ->
          exists v',
            nth_error (SimplePregelGraph.vertices g') i = Some v'
            /\ PregelVertex.id v' = PregelVertex.id v
            /\ PregelVertex.outgoing_edges v' = PregelVertex.outgoing_edges v
            /\ PregelVertex.value v'
               = ((1 - damping_factor) / Qnat N
                  + damping_factor
                    * Qsum (inbox (SimplePregelGraph.vertices g) (PregelVertex.id v)))%Q
            /\ (PregelVertex.active v' = false
                <-> (Qabs (PregelVertex.value v' - PregelVertex.value v)
                     <= SimplePregelGraph.threshold)%Q))
    /\ snd (SimplePregelGraph.run_superstep damping_factor g)
       = existsb PregelVertex.active (SimplePregelGraph.vertices g')
    /\ SimplePregelGraph.superstep g' = SimplePregelGraph.superstep g + 1.
Proof.
  intros d g g' N. subst g'. unfold SimplePregelGraph.run_superstep. simpl.
  split; [intros target; apply send_phase_inbox|].
  split; [apply length_map|]. split; [|split; [|reflexivity]].
  - intros i v Hv. eexists. split; [apply map_nth_error; exact Hv|].
    unfold SimplePregelGraph.receive. simpl. rewrite send_phase_inbox.
    split; [reflexivity|]. split; [reflexivity|].
    assert (Hsum : match inbox (SimplePregelGraph.vertices g) (PregelVertex.id v) with
                   | [] => 0%Q
                   | _ :: _ => Qsum (inbox (SimplePregelGraph.vertices g) (PregelVertex.id v))
                   end = Qsum (inbox (SimplePregelGraph.vertices g) (PregelVertex.id v)))
      by (now destruct (inbox (SimplePregelGraph.vertices g) (PregelVertex.id v))).
    rewrite Hsum. split; [reflexivity|].
    rewrite Qle_alt.
    match goal with
    | |- context [(?a ?= ?b)%Q] => destruct (a ?= b)%Q
    end; split; congruence.
  - induction (map _ (SimplePregelGraph.vertices g)) as [|v vs IH]; [reflexivity|].
    simpl. destruct (PregelVertex.active v); [reflexivity|exact IH].
Qed.

(** C4 as stated fails twice.  In the graph of two documents, the first
    linking to the second, the first vertex is inactive after two
    supersteps and sends nothing in the third; and a vertex whose value
    moves by [1e-10] exactly, from [1e-10] to [0] under a damping factor of
    [1], is marked inactive. *)
Lemma superstep_not_as_stated :
  (exists g, chain_graph 2 = Some g /\ ~ superstep_as_stated (85 # 100) g)
  /\ ~ superstep_as_stated 1 threshold_graph.
Proof.
  split.
  - eexists. split; [vm_compute; reflexivity|].
    intros [H _]. specialize (H 1). vm_compute in H. discriminate.
  - intros [_ H].
    pose proof (H 0 _ _ eq_refl eq_refl) as [H' _].
    specialize (H' eq_refl). vm_compute in H'. discriminate.
Qed.

(** ** Sums of rationals *)

Lemma Qsum_from (l : list Q) (a : Q) :
  (fold_left Qplus l a == a + Qsum l)%Q.
Proof.
  unfold Qsum. revert a. induction l as [|x l IH]; intros a; simpl.
  - ring.
  - rewrite (IH (a + x)%Q), (IH (0 + x)%Q). ring.
Qed.

Lemma Qsum_cons (x : Q) (l : list Q) : (Qsum (x :: l) == x + Qsum l)%Q.
Proof.
  unfold Qsum at 1. simpl. rewrite Qsum_from. ring.
Qed.

Lemma Qsum_app (l1 l2 : list Q) : (Qsum (l1 ++ l2) == Qsum l1 + Qsum l2)%Q.
Proof.
  induction l1 as [|x l1 IH]; simpl.
  - unfold Qsum at 2. simpl. ring.
  - rewrite !Qsum_cons, IH. ring.
Qed.

Lemma Qsum_nonneg (l : list Q) :
  Forall (fun x => (0 <= x)%Q) l -> (0 <= Qsum l)%Q.
Proof.
  induction 1 as [|x l Hx Hl IH].
  - unfold Qsum. simpl. apply Qle_refl.
  - rewrite Qsum_cons. cbv beta in Hx. lra.
Qed.

Lemma Qsum_map_ext {A : Type} (f g : A -> Q) (l : list A) :
  (forall x, In x l -> (f x == g x)%Q) ->
  (Qsum (map f l) == Qsum (map g l))%Q.
Proof.
  induction l as [|x l IH]; intros H; simpl; [reflexivity|].
  rewrite !Qsum_cons.
  rewrite (IH (fun y Hy => H y (or_intror Hy))), (H x (or_introl eq_refl)).
  reflexivity.
Qed.

Lemma Qsum_map_le {A : Type} (f g : A -> Q) (l : list A) :
  (forall x, In x l -> (f x <= g x)%Q) ->
  (Qsum (map f l) <= Qsum (map g l))%Q.
Proof.
  induction l as [|x l IH]; intros H; simpl; [apply Qle_refl|].
  rewrite !Qsum_cons. specialize (IH (fun y Hy => H y (or_intror Hy))).
  specialize (H x (or_introl eq_refl)). lra.
Qed.

Lemma Qsum_map_plus {A : Type} (f g : A -> Q) (l : list A) :
  (Qsum (map (fun x => f x + g x) l) == Qsum (map f l) + Qsum (map g l))%Q.
Proof.
  induction l as [|x l IH]; simpl; [unfold Qsum; simpl; ring|].
  rewrite !Qsum_cons, IH. ring.
Qed.

Lemma Qsum_map_scale {A : Type} (c : Q) (f : A -> Q) (l : list A) :
  (Qsum (map (fun x => c * f x) l) == c * Qsum (map f l))%Q.
Proof.
  induction l as [|x l IH]; simpl; [unfold Qsum; simpl; ring|].
  rewrite !Qsum_cons, IH. ring.
Qed.

Lemma Qsum_map_const {A : Type} (c : Q) (l : list A) :
  (Qsum (map (fun _ => c) l) == Qnat (length l) * c)%Q.
Proof.
  induction l as [|x l IH]; simpl length; simpl map.
  - unfold Qsum, Qnat. simpl. ring.
  - rewrite Qsum_cons, IH. unfold Qnat. rewrite Nat2Z.inj_succ, <- Z.add_1_r, inject_Z_plus.
    ring.
Qed.

Lemma Qsum_flat_map {A : Type} (f : A -> list Q) (l : list A) :
  (Qsum (flat_map f l) == Qsum (map (fun x => Qsum (f x)) l))%Q.
Proof.
  induction l as [|x l IH]; simpl; [reflexivity|].
  rewrite Qsum_app, Qsum_cons, IH. reflexivity.
Qed.

Lemma Qsum_zero {A : Type} (f : A -> Q) (l : list A) :
  (forall x, In x l -> (f x == 0)%Q) -> (Qsum (map f l) == 0)%Q.
Proof.
  intros H. rewrite (Qsum_map_ext f (fun _ => 0%Q) l H), Qsum_map_const. ring.
Qed.

Lemma Qnat_pos (n : nat) : n <> 0 -> (0 < Qnat n)%Q.
Proof.
  intros H. unfold Qnat, Qlt. simpl. lia.
Qed.

(** [k] shares of [v / k] make [v]. *)
Lemma Qsum_shares {A : Type} (v : Q) (l : list A) :
  l <> [] ->
  (Qsum (map (fun _ => v / Qnat (length l)) l) == v)%Q.
Proof.
  intros H. rewrite Qsum_map_const. field.
  assert (Hn : length l <> 0) by (destruct l; [congruence|discriminate]).
  apply Qnot_eq_sym, Qlt_not_eq, Qnat_pos, Hn.
Qed.

(** Messages [(target, value)]: the sums per target, over distinct
    targets, add up to the sum of the messages to these targets. *)
Section Messages.
Variable T : Type.
Variable T_eqb : T -> T -> bool.
Hypothesis T_eqb_spec : forall a b, T_eqb a b = true <-> a = b.

Lemma to_target_cons (t : T) (m : T * Q) (ms : list (T * Q)) :
  (Qsum (to_target T_eqb t (m :: ms))
   == (if T_eqb t (fst m) then snd m else 0) + Qsum (to_target T_eqb t ms))%Q.
Proof.
  unfold to_target. simpl. destruct (T_eqb t (fst m)); simpl.
  - apply Qsum_cons.
  - ring.
Qed.

Lemma sum_indicator (ts : list T) (t0 : T) (x : Q) :
  NoDup ts ->
  (Qsum (map (fun t => if T_eqb t t0 then x else 0) ts)
   == if existsb (fun t => T_eqb t t0) ts then x else 0)%Q.
Proof.
  induction 1 as [|t ts Hnot Hnd IH]; simpl; [reflexivity|].
  rewrite Qsum_cons, IH. destruct (T_eqb t t0) eqn:E; simpl; [|ring].
  apply T_eqb_spec in E. subst t0.
  destruct (existsb (fun t' => T_eqb t' t) ts) eqn:Ex; [|ring].
  apply existsb_exists in Ex as (t' & Ht' & Et'). apply T_eqb_spec in Et'.
  subst t'. contradiction.
Qed.

Lemma sum_to_targets (ts : list T) (ms : list (T * Q)) :
  NoDup ts ->
  (Qsum (map (fun t => Qsum (to_target T_eqb t ms)) ts)
   == Qsum (map snd (filter (fun m => existsb (fun t => T_eqb t (fst m)) ts) ms)))%Q.
Proof.
  intros Hnd. induction ms as [|m ms IH].
  - simpl. apply Qsum_zero. intros. reflexivity.
  - rewrite (Qsum_map_ext _ (fun t => (if T_eqb t (fst m) then snd m else 0)
                                      + Qsum (to_target T_eqb t ms))%Q)
      by (intros; apply to_target_cons).
    rewrite Qsum_map_plus, IH, sum_indicator by exact Hnd. simpl.
    destruct (existsb (fun t => T_eqb t (fst m)) ts); simpl.
    + now rewrite Qsum_cons.
    + ring.
Qed.

End Messages.

(** ** The mass of the scores under one superstep *)

Lemma inbox_outbox (vs : list PregelVertex.t) (target : nat) :
  inbox vs target = to_target Nat.eqb target (outbox vs).
Proof.
  unfold inbox, outbox, to_target.
  induction vs as [|v vs IH]; simpl; [reflexivity|].
  rewrite filter_app, map_app, <- IH.
  destruct (PregelVertex.active v); [|reflexivity].
  now rewrite send_messages_to.
Qed.

Lemma send_messages_sum (v : PregelVertex.t) :
  (Qsum (map snd (PregelVertex.send_messages v))
   == match PregelVertex.outgoing_edges v with
      | [] => 0
      | _ => PregelVertex.value v
      end)%Q.
Proof.
  unfold PregelVertex.send_messages.
  destruct (PregelVertex.outgoing_edges v) as [|e es]; [reflexivity|].
  rewrite map_map.
  apply (Qsum_shares (PregelVertex.value v) (e :: es)). discriminate.
Qed.

Lemma outbox_sum (vs : list PregelVertex.t) :
  (Qsum (map snd (outbox vs))
   == Qsum (map (fun v => if sends v then PregelVertex.value v else 0) vs))%Q.
Proof.
  unfold outbox. induction vs as [|v vs IH]; simpl; [reflexivity|].
  rewrite map_app, Qsum_app, Qsum_cons, IH. unfold sends.
  destruct (PregelVertex.active v); simpl.
  - rewrite send_messages_sum. now destruct (PregelVertex.outgoing_edges v).
  - reflexivity.
Qed.

Lemma outbox_targets (vs : list PregelVertex.t) (n : nat) :
  Forall (fun v => Forall (fun t => t < n) (PregelVertex.outgoing_edges v)) vs ->
  Forall (fun m => fst m < n) (outbox vs).
Proof.
  unfold outbox. induction 1 as [|v vs Hv Hvs IH]; simpl; [constructor|].
  apply Forall_app. split; [|exact IH].
  destruct (PregelVertex.active v); [|constructor].
  unfold PregelVertex.send_messages.
  destruct (PregelVertex.outgoing_edges v) as [|e es]; [constructor|].
  apply Forall_map. simpl. exact Hv.
Qed.

Lemma filter_all {A : Type} (f : A -> bool) (l : list A) :
  Forall (fun x => f x = true) l -> filter f l = l.
Proof.
  induction 1 as [|x l Hx Hl IH]; simpl; [reflexivity|]. now rewrite Hx, IH.
Qed.

Lemma receive_value (d : Q) (n : nat) (vs : list PregelVertex.t) (v : PregelVertex.t) :
  PregelVertex.value (SimplePregelGraph.receive d n (SimplePregelGraph.send_phase vs) v)
  = ((1 - d) / Qnat n + d * Qsum (inbox vs (PregelVertex.id v)))%Q.
Proof.
  unfold SimplePregelGraph.receive. simpl. rewrite send_phase_inbox.
  now destruct (inbox vs (PregelVertex.id v)).
Qed.

Lemma Nat_eqb_spec_iff (a b : nat) : Nat.eqb a b = true <-> a = b.
Proof. apply Nat.eqb_eq. Qed.

(** The scores after a superstep add up to [1 - d], shared by the
    vertices, and [d] times the scores of the vertices that sent. *)
Lemma superstep_total (d : Q) (vs : list PregelVertex.t) :
  graph_ok vs -> vs <> [] ->
  (total_value (superstep_vertices d vs)
   == (1 - d)
      + d * Qsum (map (fun v => if sends v then PregelVertex.value v else 0) vs))%Q.
Proof.
  intros [Hid Hedges] Hne. unfold total_value, superstep_vertices.
  rewrite map_map.
  rewrite (Qsum_map_ext _ (fun v => (1 - d) / Qnat (length vs)
                                    + d * Qsum (inbox vs (PregelVertex.id v)))%Q)
    by (intros v _; rewrite receive_value; reflexivity).
  rewrite Qsum_map_plus, Qsum_map_const, Qsum_map_scale.
  assert (Hn : (0 < Qnat (length vs))%Q)
    by (apply Qnat_pos; destruct vs; [congruence|discriminate]).
  assert (Hin : (Qsum (map (fun v => Qsum (inbox vs (PregelVertex.id v))) vs)
                 == Qsum (map snd (outbox vs)))%Q).
  { rewrite <- (map_map PregelVertex.id (fun t => Qsum (inbox vs t))), Hid.
    rewrite (Qsum_map_ext _ (fun t => Qsum (to_target Nat.eqb t (outbox vs))))
      by (intros t _; now rewrite inbox_outbox).
    rewrite (sum_to_targets nat Nat.eqb Nat_eqb_spec_iff) by apply seq_NoDup.
    rewrite filter_all; [reflexivity|].
    eapply Forall_impl; [|apply (outbox_targets vs (length vs) Hedges)].
    intros m Hm. cbv beta in Hm. apply existsb_exists. exists (fst m).
    split; [apply in_seq; lia|apply Nat.eqb_refl]. }
  rewrite Hin, outbox_sum. field. apply Qnot_eq_sym, Qlt_not_eq, Hn.
Qed.

Lemma Qsum_zero_terms (l : list Q) :
  Forall (fun x => (0 <= x)%Q) l -> (Qsum l == 0)%Q -> Forall (fun x => (x == 0)%Q) l.
Proof.
  induction 1 as [|x l Hx Hl IH]; intros Hs; [constructor|].
  rewrite Qsum_cons in Hs. pose proof (Qsum_nonneg _ Hl) as Hn. cbv beta in Hx.
  constructor; [lra|apply IH; lra].
Qed.

Lemma superstep_ids (d : Q) (vs : list PregelVertex.t) :
  map PregelVertex.id (superstep_vertices d vs) = map PregelVertex.id vs.
Proof. unfold superstep_vertices. rewrite map_map. reflexivity. Qed.

Lemma superstep_edges (d : Q) (vs : list PregelVertex.t) :
  map PregelVertex.outgoing_edges (superstep_vertices d vs)
  = map PregelVertex.outgoing_edges vs.
Proof. unfold superstep_vertices. rewrite map_map. reflexivity. Qed.

Lemma superstep_length (d : Q) (vs : list PregelVertex.t) :
  length (superstep_vertices d vs) = length vs.
Proof. apply length_map. Qed.

Lemma superstep_graph_ok (d : Q) (vs : list PregelVertex.t) :
  graph_ok vs -> graph_ok (superstep_vertices d vs).
Proof.
  intros [Hid Hedges]. split.
  - now rewrite superstep_ids, superstep_length.
  - rewrite superstep_length. unfold superstep_vertices.
    apply Forall_map. exact Hedges.
Qed.

Lemma inbox_nonnegative (vs : list PregelVertex.t) (target : nat) :
  nonnegative vs -> Forall (fun x => (0 <= x)%Q) (inbox vs target).
Proof.
  unfold inbox. induction 1 as [|v vs Hv Hvs IH]; simpl; [constructor|].
  apply Forall_app. split; [|exact IH].
  destruct (PregelVertex.active v); [|constructor].
  apply Forall_map, Forall_forall. intros t _.
  destruct (PregelVertex.outgoing_edges v) as [|e es].
  - unfold Qnat, Qdiv, Qinv. simpl. lra.
  - apply Qle_shift_div_l; [apply Qnat_pos; discriminate|]. lra.
Qed.

Lemma superstep_nonnegative (d : Q) (vs : list PregelVertex.t) :
  (0 <= d <= 1)%Q -> nonnegative vs -> nonnegative (superstep_vertices d vs).
Proof.
  intros Hd Hvs. unfold nonnegative, superstep_vertices.
  apply Forall_map, Forall_forall. intros v _. rewrite receive_value.
  pose proof (Qsum_nonneg _ (inbox_nonnegative vs (PregelVertex.id v) Hvs)) as Hs.
  assert (H1 : (0 <= (1 - d) / Qnat (length vs))%Q).
  { destruct (length vs) as [|n].
    - unfold Qnat, Qdiv, Qinv. simpl. lra.
    - apply Qle_shift_div_l; [apply Qnat_pos; discriminate|]. lra. }
  assert (H2 : (0 <= d * Qsum (inbox vs (PregelVertex.id v)))%Q)
    by (apply Qmult_le_0_compat; lra).
  lra.
Qed.

Lemma total_split (vs : list PregelVertex.t) :
  (total_value vs
   == Qsum (map (fun v => if sends v then PregelVertex.value v else 0) vs)
      + Qsum (map (fun v => if sends v then 0 else PregelVertex.value v) vs))%Q.
Proof.
  unfold total_value. rewrite <- Qsum_map_plus. apply Qsum_map_ext.
  intros v _. destruct (sends v); ring.
Qed.

Lemma silent_nonnegative (vs : list PregelVertex.t) :
  nonnegative vs ->
  Forall (fun x => (0 <= x)%Q)
         (map (fun v => if sends v then 0%Q else PregelVertex.value v) vs).
Proof.
  intros H. apply Forall_map. eapply Forall_impl; [|exact H].
  intros v Hv. cbv beta in Hv. destruct (sends v); lra.
Qed.

(** The scores keep adding up to at most [1]. *)
Lemma superstep_bound (d : Q) (vs : list PregelVertex.t) :
  (0 <= d <= 1)%Q -> graph_ok vs -> vs <> [] -> nonnegative vs ->
  (total_value vs <= 1)%Q ->
  (total_value (superstep_vertices d vs) <= 1)%Q.
Proof.
  intros Hd Hok Hne Hnn Hle. rewrite (superstep_total d vs Hok Hne).
  pose proof (total_split vs) as Hs.
  pose proof (Qsum_nonneg _ (silent_nonnegative vs Hnn)) as H0.
  set (A := Qsum (map (fun v => if sends v then PregelVertex.value v else 0%Q) vs)) in *.
  set (B := Qsum (map (fun v => if sends v then 0%Q else PregelVertex.value v) vs)) in *.
  assert (HA : (A <= 1)%Q) by lra.
  assert (HdA : (d * A <= d * 1)%Q) by nra.
  lra.
Qed.

(** They add up to [1] only if they did before and the vertices that did
    not send had none of it. *)
Lemma superstep_full (d : Q) (vs : list PregelVertex.t) :
  (0 < d <= 1)%Q -> graph_ok vs -> vs <> [] -> nonnegative vs ->
  (total_value vs <= 1)%Q ->
  (total_value (superstep_vertices d vs) == 1)%Q ->
  (total_value vs == 1)%Q
  /\ forall v, In v vs -> sends v = false -> (PregelVertex.value v == 0)%Q.
Proof.
  intros Hd Hok Hne Hnn Hle Heq. rewrite (superstep_total d vs Hok Hne) in Heq.
  pose proof (total_split vs) as Hs.
  pose proof (silent_nonnegative vs Hnn) as Hsil.
  pose proof (Qsum_nonneg _ Hsil) as H0.
  set (A := Qsum (map (fun v => if sends v then PregelVertex.value v else 0%Q) vs)) in *.
  set (B := Qsum (map (fun v => if sends v then 0%Q else PregelVertex.value v) vs)) in *.
  assert (HA : (A == 1)%Q).
  { assert (H : (d * A == d * 1)%Q) by lra.
    apply Qmult_inj_l in H; [exact H|]. intros E. rewrite E in Hd. lra. }
  assert (HB : (B == 0)%Q) by lra.
  split; [lra|].
  intros v Hv Hsend. pose proof (Qsum_zero_terms _ Hsil HB) as Hz.
  rewrite Forall_map, Forall_forall in Hz. specialize (Hz v Hv).
  cbv beta in Hz. now rewrite Hsend in Hz.
Qed.

(** ** The graph that the Pregel engine builds *)

Lemma enumerate_from_app {A : Type} (l1 l2 : list A) (i : nat) :
  PageRankPregel.enumerate_from i (l1 ++ l2)
  = PageRankPregel.enumerate_from i l1
    ++ PageRankPregel.enumerate_from (i + length l1) l2.
Proof.
  revert i. induction l1 as [|x l1 IH]; intros i; simpl.
  - now rewrite Nat.add_0_r.
  - rewrite IH. now rewrite Nat.add_succ_r.
Qed.

Lemma enumerate_from_fst {A : Type} (l : list A) (i : nat) :
  map fst (PageRankPregel.enumerate_from i l) = seq i (length l).
Proof.
  revert i. induction l as [|x l IH]; intros i; simpl; [reflexivity|].
  now rewrite IH.
Qed.

Lemma enumerate_from_snd {A : Type} (l : list A) (i : nat) :
  map snd (PageRankPregel.enumerate_from i l) = l.
Proof.
  revert i. induction l as [|x l IH]; intros i; simpl; [reflexivity|].
  now rewrite IH.
Qed.

Lemma index_in_some (ids : list Z) (id : Z) :
  In id ids -> exists i, index_in id ids = Some i /\ nth_error ids i = Some id.
Proof.
  induction ids as [|x ids IH]; intros H; [contradiction|]. simpl.
  destruct (Z.eq_dec id x) as [->|Hne].
  - exists 0. auto.
  - destruct H as [H|H]; [congruence|].
    destruct (IH H) as (i & -> & Hi). exists (S i). auto.
Qed.

Lemma index_in_none (ids : list Z) (id : Z) :
  ~ In id ids -> index_in id ids = None.
Proof.
  induction ids as [|x ids IH]; intros H; [reflexivity|]. simpl.
  destruct (Z.eq_dec id x) as [->|Hne]; [exfalso; apply H; now left|].
  rewrite IH; [reflexivity|]. intros Hin. apply H. now right.
Qed.

Lemma index_in_nth (ids : list Z) :
  NoDup ids ->
  forall i id, nth_error ids i = Some id -> index_in id ids = Some i.
Proof.
  induction 1 as [|x ids Hx Hnd IH]; intros i id Hi; [now destruct i|].
  simpl. destruct i as [|i]; simpl in Hi.
  - injection Hi as ->. now destruct (Z.eq_dec id id).
  - destruct (Z.eq_dec id x) as [->|Hne].
    + exfalso. apply Hx. eapply nth_error_In. exact Hi.
    + now rewrite (IH i id Hi).
Qed.

Lemma index_in_bound (ids : list Z) (id : Z) (i : nat) :
  index_in id ids = Some i -> i < length ids /\ nth_error ids i = Some id.
Proof.
  revert i. induction ids as [|x ids IH]; intros i H; [discriminate|].
  simpl in H. destruct (Z.eq_dec id x) as [->|Hne].
  - injection H as <-. simpl. split; [lia|reflexivity].
  - destruct (index_in id ids) as [j|]; [|discriminate].
    injection H as <-. destruct (IH j eq_refl). simpl. split; [lia|assumption].
Qed.

(** [id_to_index] maps a document id to its index. *)
Lemma id_to_index_from (ids : list Z) :
  NoDup ids ->
  forall (i0 : nat) (acc : Dict.t Z nat) (id : Z),
    Dict.get Z.eq_dec id
      (fold_left (fun d e => Dict.set Z.eq_dec (snd e) (fst e) d)
                 (PageRankPregel.enumerate_from i0 ids) acc)
    = match index_in id ids with
      | Some j => Some (i0 + j)
      | None => Dict.get Z.eq_dec id acc
      end.
Proof.
  induction 1 as [|x ids Hx Hnd IH]; intros i0 acc id; simpl; [reflexivity|].
  rewrite IH. destruct (Z.eq_dec id x) as [->|Hne].
  - rewrite (index_in_none ids x Hx), get_set_same. now rewrite Nat.add_0_r.
  - destruct (index_in id ids) as [j|]; simpl.
    + now rewrite Nat.add_succ_r.
    + now apply get_set_other.
Qed.

Lemma id_to_index_get (ids : list Z) (id : Z) :
  NoDup ids ->
  Dict.get Z.eq_dec id (id_to_index_of ids) = index_in id ids.
Proof.
  intros Hnd. unfold id_to_index_of, PageRankPregel.enumerate.
  rewrite id_to_index_from by exact Hnd. now destruct (index_in id ids).
Qed.

(** [index_to_id] maps an index to the document id there. *)
Lemma index_to_id_from (ids : list Z) :
  forall (i0 : nat) (acc : Dict.t nat Z) (i : nat),
    Dict.get Nat.eq_dec i
      (fold_left (fun d e => Dict.set Nat.eq_dec (fst e) (snd e) d)
                 (PageRankPregel.enumerate_from i0 ids) acc)
    = if i0 <=? i
      then match nth_error ids (i - i0) with
           | Some id => Some id
           | None => Dict.get Nat.eq_dec i acc
           end
      else Dict.get Nat.eq_dec i acc.
Proof.
  induction ids as [|x ids IH]; intros i0 acc i; simpl.
  - destruct (i0 <=? i); [|reflexivity]. now destruct (i - i0).
  - rewrite IH. destruct (Nat.leb_spec (S i0) i) as [H|H].
    + destruct (Nat.leb_spec i0 i) as [_|H']; [|lia].
      replace (i - i0) with (S (i - S i0)) by lia. simpl.
      destruct (nth_error ids (i - S i0)); [reflexivity|].
      apply get_set_other. lia.
    + destruct (Nat.leb_spec i0 i) as [H'|H'].
      * assert (i = i0) by lia. subst i. rewrite Nat.sub_diag. simpl.
        apply get_set_same.
      * apply get_set_other. lia.
Qed.

Lemma index_to_id_get (ids : list Z) (i : nat) :
  Dict.get Nat.eq_dec i (index_to_id_of ids) = nth_error ids i.
Proof.
  unfold index_to_id_of, PageRankPregel.enumerate. rewrite index_to_id_from.
  simpl. rewrite Nat.sub_0_r. now destruct (nth_error ids i).
Qed.

Lemma append_edge_length (i t : nat) (vs : list PregelVertex.t) :
  length (SimplePregelGraph.append_edge i t vs) = length vs.
Proof.
  revert i. induction vs as [|v vs IH]; intros i; [now destruct i|].
  destruct i; simpl; [reflexivity|]. now rewrite IH.
Qed.

Lemma append_edge_nth (i t : nat) (vs : list PregelVertex.t) (j : nat) :
  nth_error (SimplePregelGraph.append_edge i t vs) j
  = if i =? j then option_map (with_edges [t]) (nth_error vs j)
    else nth_error vs j.
Proof.
  revert i j. induction vs as [|v vs IH]; intros i j.
  - destruct i as [|i], j as [|j]; simpl; try reflexivity; now destruct (i =? j).
  - destruct i as [|i], j as [|j]; simpl; try reflexivity. apply IH.
Qed.

Lemma with_edges_app (es1 es2 : list nat) (v : PregelVertex.t) :
  with_edges es2 (with_edges es1 v) = with_edges (es1 ++ es2) v.
Proof. unfold with_edges. simpl. now rewrite app_assoc. Qed.

Lemma extend_edges_length (i : nat) (es : list nat) (vs : list PregelVertex.t) :
  length (extend_edges i es vs) = length vs.
Proof.
  unfold extend_edges. revert vs.
  induction es as [|e es IH]; intros vs; simpl; [reflexivity|].
  now rewrite IH, append_edge_length.
Qed.

Lemma extend_edges_nth (i : nat) (es : list nat) (vs : list PregelVertex.t) (j : nat) :
  es <> [] ->
  nth_error (extend_edges i es vs) j
  = if i =? j then option_map (with_edges es) (nth_error vs j)
    else nth_error vs j.
Proof.
  unfold extend_edges. revert vs.
  induction es as [|e es IH]; intros vs Hne; [congruence|]. simpl.
  destruct es as [|e' es'].
  - simpl. apply append_edge_nth.
  - rewrite IH by discriminate. rewrite append_edge_nth.
    destruct (i =? j); [|reflexivity].
    destruct (nth_error vs j); simpl; [|reflexivity].
    now rewrite with_edges_app.
Qed.

(** The inner loop of [build_graph] raises nothing and appends the indices
    of the targets that are documents. *)
Lemma add_targets_spec (ids : list Z) (src : nat)
    (outgoing : list (option Z * str)) :
  NoDup ids ->
  (forall link t, In link outgoing -> fst link = Some t -> t <> 0%Z -> In t ids) ->
  forall g,
    src < SimplePregelGraph.num_vertices g ->
    SimplePregelGraph.num_vertices g = length ids ->
    PageRankPregel.add_targets (id_to_index_of ids) src outgoing g
    = Ok {| SimplePregelGraph.vertices :=
              extend_edges src
                (map (index_of ids) (PageRankMapReduce.resolved_targets outgoing))
                (SimplePregelGraph.vertices g);
            SimplePregelGraph.superstep := SimplePregelGraph.superstep g;
            SimplePregelGraph.messages := SimplePregelGraph.messages g |}.
Proof.
  intros Hnd. unfold PageRankPregel.add_targets.
  match goal with |- context [fold_left ?f _ _] => set (step := f) end.
  induction outgoing as [|link rest IH]; intros Hclosed g Hsrc Hlen.
  - destruct g. reflexivity.
  - cbn [fold_left].
    assert (Hrest : forall link' t, In link' rest -> fst link' = Some t ->
                                    t <> 0%Z -> In t ids)
      by (intros link' t Hin; apply Hclosed; now right).
    destruct link as [[t|] u].
    + destruct (Z.eqb_spec t 0) as [->|Hne].
      * change (step (Ok g) (Some 0%Z, u)) with (Ok g).
        rewrite (IH Hrest g Hsrc Hlen). reflexivity.
      * assert (Ht : In t ids)
          by (apply (Hclosed (Some t, u) t); [now left|reflexivity|exact Hne]).
        destruct (index_in_some ids t Ht) as (i & Hi & Hnth).
        destruct (index_in_bound ids t i Hi) as [Hlt _].
        assert (Hstep : step (Ok g) (Some t, u)
                        = Ok {| SimplePregelGraph.vertices :=
                                  SimplePregelGraph.append_edge src i
                                    (SimplePregelGraph.vertices g);
                                SimplePregelGraph.superstep :=
                                  SimplePregelGraph.superstep g;
                                SimplePregelGraph.messages :=
                                  SimplePregelGraph.messages g |}).
        { unfold step. cbn [bind fst].
          unfold truthy, Dict.contains, PageRankPregel.lookup.
          rewrite id_to_index_get by exact Hnd. rewrite Hi.
          destruct (t =? 0)%Z eqn:E; [apply Z.eqb_eq in E; congruence|].
          cbn [negb andb bind]. unfold SimplePregelGraph.add_edge.
          destruct (Nat.ltb_spec src (SimplePregelGraph.num_vertices g)) as [_|H]; [|lia].
          destruct (Nat.ltb_spec i (SimplePregelGraph.num_vertices g)) as [_|H]; [|lia].
          reflexivity. }
        assert (Hres : PageRankMapReduce.resolved_targets ((Some t, u) :: rest)
                       = t :: PageRankMapReduce.resolved_targets rest).
        { unfold PageRankMapReduce.resolved_targets. simpl.
          destruct (Z.eqb_spec t 0); [congruence|reflexivity]. }
        rewrite Hstep, (IH Hrest), Hres.
        -- cbn [map]. replace (index_of ids t) with i
             by (unfold index_of; now rewrite Hi).
           reflexivity.
        -- unfold SimplePregelGraph.num_vertices. simpl.
           rewrite append_edge_length. exact Hsrc.
        -- unfold SimplePregelGraph.num_vertices. simpl.
           rewrite append_edge_length. exact Hlen.
    + change (step (Ok g) (None, u)) with (Ok g).
      rewrite (IH Hrest g Hsrc Hlen). reflexivity.
Qed.

Lemma extend_edges_fields (i : nat) (es : list nat) (vs : list PregelVertex.t)
    (j : nat) (v : PregelVertex.t) :
  nth_error vs j = Some v ->
  exists v', nth_error (extend_edges i es vs) j = Some v'
             /\ extends v v' (if i =? j then es else []).
Proof.
  intros Hv. destruct es as [|e es].
  - exists v. split; [exact Hv|]. unfold extends.
    destruct (i =? j); now rewrite app_nil_r.
  - rewrite extend_edges_nth by discriminate. rewrite Hv.
    destruct (i =? j); simpl.
    + eexists. split; [reflexivity|]. unfold extends, with_edges. simpl. auto.
    + exists v. split; [reflexivity|]. unfold extends. now rewrite app_nil_r.
Qed.

Lemma build_vertices_length (db : Database.t) (ids s : list Z)
    (vs : list PregelVertex.t) :
  length (build_vertices db ids s vs) = length vs.
Proof.
  unfold build_vertices. revert vs.
  induction s as [|id s IH]; intros vs; simpl; [reflexivity|].
  now rewrite IH, extend_edges_length.
Qed.

Lemma build_vertices_fields (db : Database.t) (ids s : list Z) (j : nat) :
  forall vs v,
    nth_error vs j = Some v ->
    exists v', nth_error (build_vertices db ids s vs) j = Some v'
               /\ extends v v'
                    (flat_map (fun id => if index_of ids id =? j
                                         then map (index_of ids) (outgoing db id)
                                         else []) s).
Proof.
  unfold build_vertices.
  induction s as [|id s IH]; intros vs v Hv; simpl.
  - exists v. split; [exact Hv|]. unfold extends. now rewrite app_nil_r.
  - destruct (extend_edges_fields (index_of ids id)
                (map (index_of ids) (outgoing db id)) vs j v Hv)
      as (v1 & Hv1 & E1 & E2 & E3 & E4).
    destruct (IH _ v1 Hv1) as (v2 & Hv2 & F1 & F2 & F3 & F4).
    exists v2. split; [exact Hv2|]. unfold extends.
    rewrite F1, F2, F3, F4, E1, E2, E3, E4, app_assoc. auto.
Qed.

Lemma flat_map_unique {A B : Type} (g : A -> bool) (f : A -> list B)
    (l : list A) (a : A) :
  NoDup l -> In a l -> (forall x, In x l -> (g x = true <-> x = a)) ->
  flat_map (fun x => if g x then f x else []) l = f a.
Proof.
  induction 1 as [|x l Hx Hnd IH]; intros Ha Hg; [contradiction|]. simpl.
  destruct Ha as [->|Ha].
  - assert (E : g a = true) by (apply Hg; [now left|reflexivity]).
    rewrite E. rewrite <- (app_nil_r (f a)) at 2. f_equal.
    clear IH. induction l as [|y l IHl]; [reflexivity|]. simpl.
    assert (Ey : g y = false).
    { destruct (g y) eqn:Ey; [|reflexivity].
      apply Hg in Ey; [|right; now left]. subst y. exfalso. apply Hx. now left. }
    rewrite Ey. simpl. apply IHl.
    + intros Hin. apply Hx. now right.
    + now inversion Hnd.
    + intros z [->|Hz]; [apply Hg; now left|apply Hg; right; now right].
  - assert (E : g x = false).
    { destruct (g x) eqn:E; [|reflexivity].
      apply Hg in E; [|now left]. subst x. contradiction. }
    rewrite E. simpl. apply IH; [exact Ha|].
    intros z Hz. apply Hg. now right.
Qed.

Lemma index_of_nth (ids : list Z) (i : nat) (id : Z) :
  NoDup ids -> nth_error ids i = Some id -> index_of ids id = i.
Proof.
  intros Hnd Hi. unfold index_of. now rewrite (index_in_nth ids Hnd i id Hi).
Qed.

Lemma index_of_inj (ids : list Z) (a b : Z) :
  In a ids -> In b ids -> index_of ids a = index_of ids b -> a = b.
Proof.
  intros Ha Hb. unfold index_of.
  destruct (index_in_some ids a Ha) as (i & -> & Hi).
  destruct (index_in_some ids b Hb) as (j & -> & Hj).
  intros <-. congruence.
Qed.

Lemma enumerate_nth {A : Type} (l : list A) (j : nat) (x : A) :
  forall i, nth_error l j = Some x ->
            nth_error (PageRankPregel.enumerate_from i l) j = Some (i + j, x).
Proof.
  revert j. induction l as [|y l IH]; intros j i H; [now destruct j|].
  destruct j as [|j]; simpl in *.
  - injection H as ->. now rewrite Nat.add_0_r.
  - rewrite (IH j (S i) H). now rewrite Nat.add_succ_r.
Qed.

Lemma enumerate_length {A : Type} (l : list A) (i : nat) :
  length (PageRankPregel.enumerate_from i l) = length l.
Proof.
  revert i. induction l as [|y l IH]; intros i; simpl; [reflexivity|]. now rewrite IH.
Qed.

(** The loop of [build_graph] over all the documents, on the vertices as
    [SimplePregelGraph] makes them. *)
Lemma build_vertices_all (db : Database.t) (ids : list Z) :
  NoDup ids ->
  build_vertices db ids ids (map PregelVertex.init (seq 0 (length ids)))
  = map (built_vertex db ids) (PageRankPregel.enumerate ids).
Proof.
  intros Hnd. apply nth_error_ext. intros j.
  destruct (nth_error ids j) as [id|] eqn:Hj.
  - assert (Hlt : j < length ids) by (apply nth_error_Some; congruence).
    assert (Hinit : nth_error (map PregelVertex.init (seq 0 (length ids))) j
                    = Some (PregelVertex.init j)).
    { apply map_nth_error. rewrite nth_error_nth' with (d := 0) by (now rewrite length_seq).
      now rewrite seq_nth. }
    destruct (build_vertices_fields db ids ids j _ _ Hinit)
      as (v' & Hv' & E1 & E2 & E3 & E4).
    rewrite Hv'. unfold PageRankPregel.enumerate.
    rewrite (map_nth_error _ _ _ (enumerate_nth ids j id 0 Hj)).
    f_equal. unfold built_vertex. simpl.
    rewrite (flat_map_unique _ (fun id => map (index_of ids) (outgoing db id)) ids id Hnd)
      in E4.
    + destruct v'. simpl in *. now subst.
    + eapply nth_error_In. exact Hj.
    + intros x Hx. rewrite Nat.eqb_eq. split.
      * intros Hidx. apply (index_of_inj ids); auto.
        -- eapply nth_error_In. exact Hj.
        -- now rewrite (index_of_nth ids j id Hnd Hj).
      * intros ->. now apply index_of_nth.
  - assert (Hge : length ids <= j) by (now apply nth_error_None).
    transitivity (@None PregelVertex.t); [|symmetry]; apply nth_error_None.
    + now rewrite build_vertices_length, length_map, length_seq.
    + unfold PageRankPregel.enumerate. now rewrite length_map, enumerate_length.
Qed.

Lemma doc_ids_of_documents (db : Database.t) :
  doc_ids_of db = map Database.doc_id (Database.documents db).
Proof.
  unfold doc_ids_of, Database.get_all_documents. rewrite map_map. reflexivity.
Qed.

(** The links that [get_outgoing_links] returns are links of the tables. *)
Lemma outgoing_links_closed (db : Database.t) (id : Z) :
  link_graph_ok db ->
  forall link t,
    In link (Database.get_outgoing_links id db) ->
    fst link = Some t -> t <> 0%Z -> In t (doc_ids_of db).
Proof.
  intros [_ Hclosed] link t Hin Ht Hne.
  unfold Database.get_outgoing_links in Hin.
  apply in_map_iff in Hin as (l & <- & Hl). apply sort_by_in in Hl.
  apply filter_In in Hl as [Hl _].
  exact (Hclosed l Hl t Ht Hne).
Qed.

Lemma resolved_targets_in (outgoing : list (option Z * str)) (t : Z) :
  In t (PageRankMapReduce.resolved_targets outgoing) ->
  exists link, In link outgoing /\ fst link = Some t /\ t <> 0%Z.
Proof.
  unfold PageRankMapReduce.resolved_targets. intros H.
  apply in_flat_map in H as (link & Hlink & Ht). exists link.
  destruct (fst link) as [z|]; [|contradiction].
  unfold truthy in Ht. destruct (Z.eqb_spec z 0); simpl in Ht; [contradiction|].
  destruct Ht as [->|[]]. auto.
Qed.

Lemma outgoing_in_ids (db : Database.t) (id t : Z) :
  link_graph_ok db -> In t (outgoing db id) -> In t (doc_ids_of db).
Proof.
  intros Hok Ht. apply resolved_targets_in in Ht as (link & Hlink & Hfst & Hne).
  exact (outgoing_links_closed db id Hok link t Hlink Hfst Hne).
Qed.

(** [build_graph] raises nothing. *)
Lemma build_graph_spec (db : Database.t) (s : list Z) :
  link_graph_ok db ->
  incl s (doc_ids_of db) ->
  forall g,
    SimplePregelGraph.num_vertices g = length (doc_ids_of db) ->
    PageRankPregel.build_graph s (id_to_index_of (doc_ids_of db)) db g
    = Ok {| SimplePregelGraph.vertices :=
              build_vertices db (doc_ids_of db) s (SimplePregelGraph.vertices g);
            SimplePregelGraph.superstep := SimplePregelGraph.superstep g;
            SimplePregelGraph.messages := SimplePregelGraph.messages g |}.
Proof.
  intros Hok. pose proof Hok as [Hnd _]. unfold PageRankPregel.build_graph.
  match goal with |- context [fold_left ?f _ _] => set (step := f) end.
  induction s as [|id s IH]; intros Hincl g Hlen.
  - destruct g. reflexivity.
  - cbn [fold_left].
    assert (Hid : In id (doc_ids_of db)) by (apply Hincl; now left).
    assert (Hs : incl s (doc_ids_of db)) by (intros x Hx; apply Hincl; now right).
    destruct (index_in_some _ id Hid) as (i & Hi & Hnth).
    destruct (index_in_bound _ id i Hi) as [Hlt _].
    assert (Hstep : step (Ok g) id
                    = Ok {| SimplePregelGraph.vertices :=
                              extend_edges i
                                (map (index_of (doc_ids_of db)) (outgoing db id))
                                (SimplePregelGraph.vertices g);
                            SimplePregelGraph.superstep := SimplePregelGraph.superstep g;
                            SimplePregelGraph.messages := SimplePregelGraph.messages g |}).
    { unfold step. cbn [bind]. unfold PageRankPregel.lookup.
      rewrite id_to_index_get by exact Hnd. rewrite Hi. cbn [bind].
      apply add_targets_spec; [exact Hnd| |lia|exact Hlen].
      intros link t. apply outgoing_links_closed. exact Hok. }
    rewrite Hstep, (IH Hs).
    + unfold build_vertices. cbn [fold_left SimplePregelGraph.vertices
                                   SimplePregelGraph.superstep SimplePregelGraph.messages].
      replace (index_of (doc_ids_of db) id) with i
        by (unfold index_of; now rewrite Hi).
      reflexivity.
    + unfold SimplePregelGraph.num_vertices. simpl.
      rewrite extend_edges_length. exact Hlen.
Qed.

(** The engine that [PageRankPregel.__init__] makes of a corpus with a
    document: the vertex at index [i] stands for the [i]-th document and
    has an edge for each of its resolved links. *)
Lemma pregel_init_spec (cfg : Config.pagerank_config) (db : Database.t) :
  link_graph_ok db -> doc_ids_of db <> [] ->
  PageRankPregel.init cfg db = Ok (pregel_engine cfg db).
Proof.
  intros Hok Hne. pose proof Hok as [Hnd _]. unfold PageRankPregel.init.
  fold (doc_ids_of db). fold (id_to_index_of (doc_ids_of db)).
  fold (index_to_id_of (doc_ids_of db)).
  destruct (Nat.eqb_spec (length (doc_ids_of db)) 0) as [E|_].
  - destruct (doc_ids_of db); [congruence|discriminate].
  - rewrite build_graph_spec.
    + cbn [bind]. unfold SimplePregelGraph.init. simpl SimplePregelGraph.vertices.
      rewrite build_vertices_all by exact Hnd. reflexivity.
    + exact Hok.
    + apply incl_refl.
    + unfold SimplePregelGraph.num_vertices, SimplePregelGraph.init. simpl.
      now rewrite length_map, length_seq.
Qed.

(** ** The scores of the Pregel engine over the supersteps *)

Lemma initialize_built (db : Database.t) :
  doc_ids_of db <> [] ->
  SimplePregelGraph.initialize_pagerank
    {| SimplePregelGraph.vertices :=
         map (built_vertex db (doc_ids_of db))
             (PageRankPregel.enumerate (doc_ids_of db));
       SimplePregelGraph.superstep := 0;
       SimplePregelGraph.messages := [] |}
  = Ok {| SimplePregelGraph.vertices := initial_vertices db;
          SimplePregelGraph.superstep := 0;
          SimplePregelGraph.messages := [] |}.
Proof.
  intros Hne. unfold SimplePregelGraph.initialize_pagerank,
    SimplePregelGraph.num_vertices. simpl.
  unfold PageRankPregel.enumerate. rewrite length_map, enumerate_length.
  destruct (Nat.eqb_spec (length (doc_ids_of db)) 0) as [E|_].
  - destruct (doc_ids_of db); [congruence|discriminate].
  - unfold initial_vertices, PageRankPregel.enumerate. rewrite map_map. reflexivity.
Qed.

Lemma initial_length (db : Database.t) :
  length (initial_vertices db) = length (doc_ids_of db).
Proof.
  unfold initial_vertices, PageRankPregel.enumerate.
  now rewrite length_map, enumerate_length.
Qed.

Lemma index_of_bound (ids : list Z) (t : Z) :
  In t ids -> index_of ids t < length ids.
Proof.
  intros H. unfold index_of. destruct (index_in_some ids t H) as (i & -> & Hi).
  apply nth_error_Some. congruence.
Qed.

Lemma initial_graph_ok (db : Database.t) :
  link_graph_ok db -> graph_ok (initial_vertices db).
Proof.
  intros Hok. split.
  - rewrite initial_length. unfold initial_vertices, PageRankPregel.enumerate.
    rewrite map_map. simpl. apply enumerate_from_fst.
  - rewrite initial_length. unfold initial_vertices.
    apply Forall_map, Forall_forall. intros e _. simpl.
    apply Forall_map, Forall_forall. intros t Ht.
    apply index_of_bound. exact (outgoing_in_ids db (snd e) t Hok Ht).
Qed.

Lemma initial_value_pos (db : Database.t) :
  doc_ids_of db <> [] -> (0 < 1 / Qnat (length (doc_ids_of db)))%Q.
Proof.
  intros Hne. apply Qlt_shift_div_l; [|lra].
  apply Qnat_pos. destruct (doc_ids_of db); [congruence|discriminate].
Qed.

Lemma initial_nonnegative (db : Database.t) :
  doc_ids_of db <> [] -> nonnegative (initial_vertices db).
Proof.
  intros Hne. unfold nonnegative, initial_vertices.
  apply Forall_map, Forall_forall. intros e _. simpl.
  apply Qlt_le_weak, initial_value_pos, Hne.
Qed.

Lemma initial_total (db : Database.t) :
  doc_ids_of db <> [] -> (total_value (initial_vertices db) == 1)%Q.
Proof.
  intros Hne. unfold total_value, initial_vertices. rewrite map_map. simpl.
  rewrite Qsum_map_const. unfold PageRankPregel.enumerate. rewrite enumerate_length.
  field. apply Qnot_eq_sym, Qlt_not_eq, Qnat_pos.
  destruct (doc_ids_of db); [congruence|discriminate].
Qed.

Lemma pregel_vertices_succ (d : Q) (db : Database.t) (k : nat) :
  pregel_vertices d db (S k) = superstep_vertices d (pregel_vertices d db k).
Proof. reflexivity. Qed.

Lemma pregel_vertices_edges (d : Q) (db : Database.t) (k : nat) :
  map PregelVertex.outgoing_edges (pregel_vertices d db k)
  = map PregelVertex.outgoing_edges (initial_vertices db).
Proof.
  induction k as [|k IH]; [reflexivity|].
  now rewrite pregel_vertices_succ, superstep_edges.
Qed.

Lemma pregel_vertices_length (d : Q) (db : Database.t) (k : nat) :
  length (pregel_vertices d db k) = length (doc_ids_of db).
Proof.
  induction k as [|k IH]; [apply initial_length|].
  now rewrite pregel_vertices_succ, superstep_length.
Qed.

(** What every superstep keeps. *)
Lemma pregel_invariant (d : Q) (db : Database.t) :
  link_graph_ok db -> doc_ids_of db <> [] -> (0 <= d <= 1)%Q ->
  forall k,
    graph_ok (pregel_vertices d db k)
    /\ nonnegative (pregel_vertices d db k)
    /\ (total_value (pregel_vertices d db k) <= 1)%Q.
Proof.
  intros Hok Hne Hd. induction k as [|k (IH1 & IH2 & IH3)].
  - split; [now apply initial_graph_ok|]. split; [now apply initial_nonnegative|].
    rewrite (initial_total db Hne). lra.
  - rewrite pregel_vertices_succ.
    assert (Hk : pregel_vertices d db k <> []).
    { intros E. pose proof (pregel_vertices_length d db k) as Hl. rewrite E in Hl.
      destruct (doc_ids_of db); [congruence|discriminate]. }
    split; [now apply superstep_graph_ok|].
    split; [now apply superstep_nonnegative|].
    now apply superstep_bound.
Qed.

Lemma initial_vertex_of (db : Database.t) (id : Z) :
  In id (doc_ids_of db) ->
  exists v, In v (initial_vertices db)
            /\ PregelVertex.active v = true
            /\ (0 < PregelVertex.value v)%Q
            /\ PregelVertex.outgoing_edges v
               = map (index_of (doc_ids_of db)) (outgoing db id).
Proof.
  intros Hid. apply In_nth_error in Hid as (i & Hi).
  eexists. split; [|split; [|split]].
  - unfold initial_vertices. apply in_map.
    eapply nth_error_In. unfold PageRankPregel.enumerate.
    apply (enumerate_nth _ i id 0 Hi).
  - reflexivity.
  - simpl. apply initial_value_pos. intros E. rewrite E in Hi. now destruct i.
  - reflexivity.
Qed.

(** The scores add up to [1] after a superstep only if every document has
    a link. *)
Lemma pregel_full (d : Q) (db : Database.t) :
  link_graph_ok db -> doc_ids_of db <> [] -> (0 < d <= 1)%Q ->
  forall k,
    (total_value (pregel_vertices d db (S k)) == 1)%Q -> no_dangling db.
Proof.
  intros Hok Hne Hd.
  assert (Hd' : (0 <= d <= 1)%Q) by lra.
  induction k as [|k IH]; intros Heq.
  - destruct (pregel_invariant d db Hok Hne Hd' 0) as (H1 & H2 & H3).
    assert (H0 : pregel_vertices d db 0 <> []).
    { intros E. pose proof (pregel_vertices_length d db 0) as Hl. rewrite E in Hl.
      destruct (doc_ids_of db); [congruence|discriminate]. }
    destruct (superstep_full d _ Hd H1 H0 H2 H3 Heq) as [_ Hsilent].
    intros id Hid Hout.
    destruct (initial_vertex_of db id Hid) as (v & Hv & Hact & Hpos & Hedges).
    assert (Hs : sends v = false).
    { unfold sends. rewrite Hedges, Hout. simpl. apply andb_false_r. }
    specialize (Hsilent v Hv Hs). rewrite Hsilent in Hpos. discriminate.
  - apply IH.
    destruct (pregel_invariant d db Hok Hne Hd' (S k)) as (H1 & H2 & H3).
    assert (H0 : pregel_vertices d db (S k) <> []).
    { intros E. pose proof (pregel_vertices_length d db (S k)) as Hl. rewrite E in Hl.
      destruct (doc_ids_of db); [congruence|discriminate]. }
    exact (proj1 (superstep_full d _ Hd H1 H0 H2 H3 Heq)).
Qed.

(** ** What [calculate] of the Pregel engine returns *)

Lemma set_fresh {K V : Type} (eq_dec : forall a b : K, {a = b} + {a <> b})
    (k : K) (v : V) (d : Dict.t K V) :
  ~ In k (Dict.keys d) -> Dict.set eq_dec k v d = d ++ [(k, v)].
Proof.
  unfold Dict.keys. induction d as [|[k' v'] d IH]; intros H; simpl; [reflexivity|].
  destruct (eq_dec k k') as [->|Hne]; [exfalso; apply H; now left|].
  rewrite IH; [reflexivity|]. intros Hin. apply H. now right.
Qed.

Lemma scores_of_keys (ids : list Z) (vs : list PregelVertex.t) :
  length vs = length ids -> Dict.keys (scores_of ids vs) = ids.
Proof.
  unfold Dict.keys, scores_of. rewrite map_map. simpl.
  revert vs. induction ids as [|a ids IH]; intros vs H; [reflexivity|].
  destruct vs as [|v vs]; [discriminate|]. simpl. f_equal. apply IH.
  now injection H.
Qed.

Lemma scores_of_snoc (ids : list Z) (vs : list PregelVertex.t) (a : Z)
    (v : PregelVertex.t) :
  length vs = length ids ->
  scores_of (ids ++ [a]) (vs ++ [v]) = scores_of ids vs ++ [(a, PregelVertex.value v)].
Proof.
  unfold scores_of. revert vs.
  induction ids as [|b ids IH]; intros vs H; destruct vs as [|w vs];
    try discriminate; [reflexivity|].
  simpl. rewrite IH; [reflexivity|]. now injection H.
Qed.

Lemma pagerank_of_from (ids : list Z) :
  NoDup ids ->
  forall (s : list PregelVertex.t) (p : list PregelVertex.t),
    length (p ++ s) = length ids ->
    fold_left (fun rd iv =>
                 d <- rd ;;
                 doc_id <- PageRankPregel.lookup Nat.eq_dec (fst iv)
                             (index_to_id_of ids) ;;
                 Ok (Dict.set Z.eq_dec doc_id (PregelVertex.value (snd iv)) d))
              (PageRankPregel.enumerate_from (length p) s)
              (Ok (scores_of (firstn (length p) ids) p))
    = Ok (scores_of ids (p ++ s)).
Proof.
  intros Hnd. induction s as [|v s IH]; intros p Hlen.
  - rewrite app_nil_r in *. simpl. rewrite Hlen, firstn_all. reflexivity.
  - cbn [PageRankPregel.enumerate_from fold_left bind fst snd].
    unfold PageRankPregel.lookup. rewrite index_to_id_get.
    rewrite length_app in Hlen. simpl in Hlen.
    destruct (nth_error ids (length p)) as [a|] eqn:Ha;
      [|apply nth_error_None in Ha; lia].
    cbn [bind].
    assert (Hfirst : firstn (S (length p)) ids = firstn (length p) ids ++ [a]).
    { rewrite <- (firstn_skipn (length p) ids) at 1.
      assert (Hsk : skipn (length p) ids = a :: skipn (S (length p)) ids).
      { clear -Ha. revert ids Ha. induction (length p) as [|n IHn]; intros ids Ha.
        - destruct ids; [discriminate|]. simpl in *. congruence.
        - destruct ids; [discriminate|]. simpl in *. now apply IHn. }
      rewrite Hsk. rewrite firstn_app, firstn_firstn.
      rewrite length_firstn. replace (Nat.min (S (length p)) (length p)) with (length p) by lia.
      replace (Nat.min (length p) (length ids)) with (length p) by lia.
      replace (S (length p) - length p) with 1 by lia. reflexivity. }
    assert (Hfresh : ~ In a (Dict.keys (scores_of (firstn (length p) ids) p))).
    { rewrite scores_of_keys by (rewrite length_firstn; lia).
      intros Hin. rewrite <- (firstn_skipn (S (length p)) ids), Hfirst in Hnd.
      rewrite <- app_assoc in Hnd. apply NoDup_remove_2 in Hnd.
      apply Hnd. apply in_app_iff. now left. }
    rewrite set_fresh by exact Hfresh.
    rewrite <- scores_of_snoc by (rewrite length_firstn; lia).
    rewrite <- Hfirst.
    replace (S (length p)) with (length (p ++ [v])) by (rewrite length_app; simpl; lia).
    rewrite IH.
    + now rewrite <- app_assoc.
    + rewrite !length_app. simpl. lia.
Qed.

(** [get_current_pagerank] raises nothing and lists the scores by document. *)
Lemma pagerank_of_spec (ids : list Z) (vs : list PregelVertex.t) :
  NoDup ids -> length vs = length ids ->
  PageRankPregel.pagerank_of (index_to_id_of ids) vs = Ok (scores_of ids vs).
Proof.
  intros Hnd Hlen. unfold PageRankPregel.pagerank_of, PageRankPregel.enumerate.
  exact (pagerank_of_from ids Hnd vs [] Hlen).
Qed.

Lemma scores_of_get (ids : list Z) :
  NoDup ids ->
  forall vs i id v,
    length vs = length ids ->
    nth_error ids i = Some id -> nth_error vs i = Some v ->
    Dict.get_default Z.eq_dec id 0%Q (scores_of ids vs) = PregelVertex.value v.
Proof.
  unfold Dict.get_default, scores_of.
  induction 1 as [|a ids Ha Hnd IH]; intros vs i id v Hlen Hid Hv; [now destruct i|].
  destruct vs as [|w vs]; [discriminate|]. simpl.
  destruct i as [|i]; simpl in Hid, Hv.
  - injection Hid as ->. injection Hv as ->. now destruct (Z.eq_dec id id).
  - destruct (Z.eq_dec id a) as [->|Hne].
    + exfalso. apply Ha. eapply nth_error_In. exact Hid.
    + apply (IH vs i id v); auto.
Qed.

Lemma scores_of_total (ids : list Z) (vs : list PregelVertex.t) :
  NoDup ids -> length vs = length ids ->
  total_score ids (scores_of ids vs) = total_value vs.
Proof.
  intros Hnd Hlen. unfold total_score, total_value. f_equal.
  apply nth_error_ext. intros i.
  destruct (nth_error ids i) as [id|] eqn:Hid.
  - destruct (nth_error vs i) as [v|] eqn:Hv;
      [|apply nth_error_None in Hv;
        assert (i < length ids) by (apply nth_error_Some; congruence); lia].
    rewrite (map_nth_error _ _ _ Hid), (map_nth_error _ _ _ Hv).
    f_equal. exact (scores_of_get ids Hnd vs i id v Hlen Hid Hv).
  - apply nth_error_None in Hid.
    transitivity (@None Q); [|symmetry]; apply nth_error_None; rewrite length_map; lia.
Qed.

Lemma run_superstep_vertices (d : Q) (g : SimplePregelGraph.t) :
  SimplePregelGraph.vertices (fst (SimplePregelGraph.run_superstep d g))
  = superstep_vertices d (SimplePregelGraph.vertices g).
Proof. reflexivity. Qed.

(** The loop of [calculate] raises nothing and leaves the vertices as some
    number of supersteps made them: one at least, the cap at most. *)
Lemma pregel_loop_spec (self : PageRankPregel.t) (ids : list Z) :
  NoDup ids ->
  PageRankPregel.index_to_id self = index_to_id_of ids ->
  forall n i g db,
    length (SimplePregelGraph.vertices g) = length ids ->
    exists k g' db',
      k <= n /\ (0 < n -> 0 < k)
      /\ PageRankPregel.calculate_loop self n i g db = Ok (g', db')
      /\ SimplePregelGraph.vertices g'
         = Nat.iter k (superstep_vertices (PageRankPregel.damping_factor self))
             (SimplePregelGraph.vertices g).
Proof.
  intros Hnd Hidx. induction n as [|n IH]; intros i g db Hlen.
  - exists 0, g, db. split; [lia|]. split; [lia|]. split; reflexivity.
  - cbn [PageRankPregel.calculate_loop].
    destruct (SimplePregelGraph.run_superstep (PageRankPregel.damping_factor self) g)
      as [g1 active] eqn:E.
    assert (Hv1 : SimplePregelGraph.vertices g1
                  = superstep_vertices (PageRankPregel.damping_factor self)
                      (SimplePregelGraph.vertices g)).
    { rewrite <- run_superstep_vertices. now rewrite E. }
    assert (Hlen1 : length (SimplePregelGraph.vertices g1) = length ids)
      by (now rewrite Hv1, superstep_length).
    unfold PageRankPregel.get_current_pagerank. cbn [PageRankPregel.set_graph
      PageRankPregel.graph PageRankPregel.index_to_id].
    rewrite Hidx, (pagerank_of_spec ids _ Hnd Hlen1). cbn [bind].
    destruct active; cbn [negb].
    + destruct (IH (S i) g1
                  (save_pagerank (scores_of ids (SimplePregelGraph.vertices g1)) (i + 1) db)
                  Hlen1) as (k & g' & db' & Hk & _ & Hloop & Hv).
      exists (S k), g', db'. repeat split; try lia; [exact Hloop|].
      rewrite Hv, Hv1. symmetry. apply Nat.iter_succ_r.
    + exists 1, g1, (save_pagerank (scores_of ids (SimplePregelGraph.vertices g1)) (i + 1) db).
      repeat split; try lia. exact Hv1.
Qed.

(** [calculate] of the Pregel engine, on a corpus with a document, raises
    nothing and returns the scores after [k] supersteps, for some [k]
    between one and the cap. *)
Lemma pregel_calculate_spec (cfg : Config.pagerank_config) (db : Database.t) :
  link_graph_ok db -> doc_ids_of db <> [] ->
  PageRankPregel.init cfg db = Ok (pregel_engine cfg db)
  /\ exists k self' db',
       k <= Config.max_iterations cfg
       /\ (0 < Config.max_iterations cfg -> 0 < k)
       /\ PageRankPregel.calculate (pregel_engine cfg db) db
          = Ok (scores_of (doc_ids_of db)
                  (pregel_vertices (Config.damping_factor cfg) db k),
                self', db').
Proof.
  intros Hok Hne. pose proof Hok as [Hnd _].
  split; [exact (pregel_init_spec cfg db Hok Hne)|].
  unfold PageRankPregel.calculate, PageRankPregel.num_documents.
  cbn [PageRankPregel.graph pregel_engine PageRankPregel.doc_ids].
  destruct (Nat.eqb_spec (length (doc_ids_of db)) 0) as [E|_];
    [destruct (doc_ids_of db); [congruence|discriminate]|].
  rewrite (initialize_built db Hne). cbn [bind PageRankPregel.max_iterations].
  match goal with
  | |- context [PageRankPregel.calculate_loop ?s ?n ?i ?g ?d] =>
      destruct (pregel_loop_spec s (doc_ids_of db) Hnd eq_refl n i g d
                  (initial_length db))
        as (k & g' & db' & Hk1 & Hk2 & Hloop & Hv)
  end.
  exists k. rewrite Hloop. cbn [bind fst snd].
  unfold PageRankPregel.get_current_pagerank.
  cbn [PageRankPregel.set_graph PageRankPregel.graph PageRankPregel.index_to_id
       pregel_engine].
  cbn [SimplePregelGraph.vertices PageRankPregel.damping_factor pregel_engine] in Hv.
  assert (Hlen : length (SimplePregelGraph.vertices g') = length (doc_ids_of db)).
  { rewrite Hv. apply (pregel_vertices_length (Config.damping_factor cfg) db k). }
  rewrite (pagerank_of_spec _ _ Hnd Hlen). cbn [bind].
  do 2 eexists. split; [exact Hk1|]. split; [exact Hk2|].
  rewrite Hv. reflexivity.
Qed.

(** ** The stopping test of the MapReduce engine *)

Lemma total_diff_nonneg (self : PageRankMapReduce.t)
    (old_ranks new_ranks : Dict.t Z Q) :
  (0 <= PageRankMapReduce.total_diff self old_ranks new_ranks)%Q.
Proof.
  unfold PageRankMapReduce.total_diff.
  assert (H : forall l a, (0 <= a)%Q ->
            (0 <= fold_left
                    (fun total doc_id =>
                       let diff :=
                         (Dict.get_default Z.eq_dec doc_id 0 new_ranks
                          - Dict.get_default Z.eq_dec doc_id 0 old_ranks)%Q in
                       (total + diff * diff)%Q) l a)%Q).
  { induction l as [|x l IH]; intros a Ha; simpl; [exact Ha|].
    apply IH. cbv zeta.
    match goal with |- (0 <= a + ?d * ?d)%Q => generalize d end.
    intros d. nra. }
  apply H. apply Qle_refl.
Qed.

(** [below_tolerance] decides [convergence < self.tolerance] for the square
    root that [calculate_convergence] returns. *)
Lemma below_tolerance_sqrt (squared tolerance : Q) :
  (0 <= squared)%Q ->
  PageRankMapReduce.below_tolerance squared tolerance = true
  <-> (sqrt (Q2R squared) < Q2R tolerance)%R.
Proof.
  intros Hs. apply Qle_Rle in Hs. change (Q2R 0) with (0 / 1)%R in Hs.
  assert (Hs' : (0 <= Q2R squared)%R) by lra.
  unfold PageRankMapReduce.below_tolerance. split.
  - intros H.
    destruct (0 ?= tolerance)%Q eqn:Ht; try discriminate.
    destruct (squared ?= tolerance * tolerance)%Q eqn:Hq; try discriminate.
    apply Qlt_alt, Qlt_Rlt in Ht. apply Qlt_alt, Qlt_Rlt in Hq.
    rewrite Q2R_mult in Hq. rewrite RMicromega.Q2R_0 in Ht.
    rewrite <- (sqrt_square (Q2R tolerance)) by lra.
    apply sqrt_lt_1_alt. lra.
  - intros H. pose proof (sqrt_pos (Q2R squared)) as Hp.
    pose proof (sqrt_sqrt (Q2R squared) Hs') as Hq.
    assert (Ht : (0 < tolerance)%Q).
    { apply Rlt_Qlt. rewrite RMicromega.Q2R_0. lra. }
    assert (Hlt : (squared < tolerance * tolerance)%Q).
    { apply Rlt_Qlt. rewrite Q2R_mult, <- Hq. nra. }
    rewrite (proj1 (Qlt_alt _ _) Ht), (proj1 (Qlt_alt _ _) Hlt). reflexivity.
Qed.

(** ** Dictionaries filled by loops *)

Section DictLoops.
Variables (K V : Type).
Variable K_eq_dec : forall a b : K, {a = b} + {a <> b}.

Lemma keys_set_iff (k : K) (v : V) (d : Dict.t K V) (k' : K) :
  In k' (Dict.keys (Dict.set K_eq_dec k v d)) <-> k' = k \/ In k' (Dict.keys d).
Proof.
  unfold Dict.keys. induction d as [|[k0 v0] d IH]; simpl.
  - intuition.
  - destruct (K_eq_dec k k0) as [->|Hne]; simpl; [intuition|].
    rewrite IH. intuition.
Qed.

Lemma keys_set_nodup (k : K) (v : V) (d : Dict.t K V) :
  NoDup (Dict.keys d) -> NoDup (Dict.keys (Dict.set K_eq_dec k v d)).
Proof.
  unfold Dict.keys. induction d as [|[k0 v0] d IH]; intros H; simpl.
  - constructor; [intros []|constructor].
  - inversion H as [|? ? Hk0 Hd]; subst.
    destruct (K_eq_dec k k0) as [->|Hne]; simpl; [now constructor|].
    constructor; [|now apply IH].
    intros Hin. apply (keys_set_iff k v d k0) in Hin as [E|Hin]; [congruence|].
    now apply Hk0.
Qed.

Lemma get_in_keys (k : K) (d : Dict.t K V) :
  In k (Dict.keys d) <-> Dict.get K_eq_dec k d <> None.
Proof.
  unfold Dict.keys. induction d as [|[k0 v0] d IH]; simpl.
  - intuition.
  - destruct (K_eq_dec k k0) as [->|Hne].
    + split; [discriminate|auto].
    + rewrite <- IH. split; [intros [E|H]; [congruence|exact H]|auto].
Qed.

Lemma get_of_item (d : Dict.t K V) :
  NoDup (Dict.keys d) ->
  forall k v, In (k, v) d -> Dict.get K_eq_dec k d = Some v.
Proof.
  unfold Dict.keys. induction d as [|[k0 v0] d IH]; intros H k v Hin; [contradiction|].
  simpl in *. inversion H as [|? ? Hk0 Hd]; subst.
  destruct Hin as [E|Hin].
  - injection E as -> ->. now destruct (K_eq_dec k k).
  - destruct (K_eq_dec k k0) as [->|Hne]; [|now apply IH].
    exfalso. apply Hk0. apply in_map_iff. now exists (k0, v).
Qed.

(** A dictionary comprehension [{k: f(k) for k in ks}]. *)
Lemma comprehension_get (f : K -> V) (ks : list K) (k : K) :
  forall acc,
    Dict.get K_eq_dec k (fold_left (fun d k => Dict.set K_eq_dec k (f k) d) ks acc)
    = if in_dec K_eq_dec k ks then Some (f k) else Dict.get K_eq_dec k acc.
Proof.
  induction ks as [|a ks IH]; intros acc; simpl; [reflexivity|].
  rewrite IH. destruct (in_dec K_eq_dec k ks) as [Hin|Hnin].
  - destruct (K_eq_dec a k); reflexivity.
  - destruct (K_eq_dec a k) as [->|Hne].
    + apply get_set_same.
    + apply get_set_other. congruence.
Qed.

Lemma comprehension_items (f : K -> V) (ks : list K) :
  NoDup ks ->
  forall acc,
    (forall k, In k ks -> ~ In k (Dict.keys acc)) ->
    fold_left (fun d k => Dict.set K_eq_dec k (f k) d) ks acc
    = acc ++ map (fun k => (k, f k)) ks.
Proof.
  induction 1 as [|a ks Ha Hnd IH]; intros acc Hfresh; simpl.
  - now rewrite app_nil_r.
  - rewrite set_fresh by (apply Hfresh; now left). rewrite IH.
    + now rewrite <- app_assoc.
    + intros k Hk Hin. unfold Dict.keys in Hin. rewrite map_app, in_app_iff in Hin.
      destruct Hin as [Hin|[E|[]]].
      * apply (Hfresh k); [now right|exact Hin].
      * simpl in E. subst. contradiction.
Qed.

End DictLoops.

(** ** One iteration of the MapReduce engine *)

Lemma Qsum_perm (l l' : list Q) : Permutation l l' -> (Qsum l == Qsum l')%Q.
Proof.
  induction 1 as [|x l l' Hp IH|x y l|l l' l'' H1 IH1 H2 IH2].
  - reflexivity.
  - now rewrite !Qsum_cons, IH.
  - rewrite !Qsum_cons. ring.
  - now rewrite IH1.
Qed.

Lemma Z_eqb_spec_iff (a b : Z) : Z.eqb a b = true <-> a = b.
Proof. apply Z.eqb_eq. Qed.

(** The reduce step sums, for every target, the contributions to it. *)
Lemma reduce_phase_from (cs : list (Z * Q)) (id : Z) :
  forall acc,
    (Dict.get_default Z.eq_dec id 0
       (fold_left (fun reduced c =>
                     let '(doc_id, contribution) := c in
                     Dict.set Z.eq_dec doc_id
                       (Dict.get_default Z.eq_dec doc_id 0 reduced + contribution)
                       reduced) cs acc)
     == Dict.get_default Z.eq_dec id 0 acc + Qsum (to_target Z.eqb id cs))%Q.
Proof.
  induction cs as [|[t c] cs IH]; intros acc.
  - simpl. unfold to_target, Qsum. simpl. ring.
  - cbn [fold_left]. rewrite IH, (to_target_cons Z Z.eqb). cbn [fst snd].
    unfold Dict.get_default at 1. destruct (Z.eqb_spec id t) as [->|Hne].
    + rewrite get_set_same. ring.
    + rewrite get_set_other by exact Hne. fold (Dict.get_default Z.eq_dec id 0%Q acc). ring.
Qed.

Lemma reduce_phase_get (cs : list (Z * Q)) (id : Z) :
  (Dict.get_default Z.eq_dec id 0 (PageRankMapReduce.reduce_phase cs)
   == Qsum (to_target Z.eqb id cs))%Q.
Proof.
  unfold PageRankMapReduce.reduce_phase. rewrite reduce_phase_from.
  unfold Dict.get_default. simpl. ring.
Qed.

Lemma reduce_phase_keys (cs : list (Z * Q)) :
  forall acc,
    NoDup (Dict.keys acc) ->
    NoDup (Dict.keys
             (fold_left (fun reduced c =>
                           let '(doc_id, contribution) := c in
                           Dict.set Z.eq_dec doc_id
                             (Dict.get_default Z.eq_dec doc_id 0 reduced + contribution)%Q
                             reduced) cs acc))
    /\ forall id,
         In id (Dict.keys
                  (fold_left (fun reduced c =>
                                let '(doc_id, contribution) := c in
                                Dict.set Z.eq_dec doc_id
                                  (Dict.get_default Z.eq_dec doc_id 0 reduced + contribution)%Q
                                  reduced) cs acc))
         <-> In id (map fst cs) \/ In id (Dict.keys acc).
Proof.
  induction cs as [|[t c] cs IH]; intros acc Hacc.
  - simpl. split; [exact Hacc|]. intuition.
  - cbn [fold_left].
    destruct (IH (Dict.set Z.eq_dec t (Dict.get_default Z.eq_dec t 0 acc + c)%Q acc))
      as [H1 H2]; [now apply keys_set_nodup|].
    split; [exact H1|]. intros id. rewrite H2, keys_set_iff. simpl. intuition.
Qed.

(** The loop that applies the formula to every document. *)
Lemma formula_loop_get (d base : Q) (ids : list Z) :
  NoDup ids ->
  forall (ranks : Dict.t Z Q) (id : Z),
    Dict.get_default Z.eq_dec id 0%Q
      (fold_left (fun new_ranks doc_id =>
                    Dict.set Z.eq_dec doc_id
                      (base + Dict.get_default Z.eq_dec doc_id 0 new_ranks * d)%Q
                      new_ranks) ids ranks)
    = if in_dec Z.eq_dec id ids
      then (base + Dict.get_default Z.eq_dec id 0 ranks * d)%Q
      else Dict.get_default Z.eq_dec id 0%Q ranks.
Proof.
  induction 1 as [|a ids Ha Hnd IH]; intros ranks id; [reflexivity|].
  cbn [fold_left]. rewrite IH. unfold Dict.get_default.
  destruct (in_dec Z.eq_dec id ids) as [Hin|Hnin].
  - destruct (in_dec Z.eq_dec id (a :: ids)) as [_|H]; [|exfalso; apply H; now right].
    assert (Hne : id <> a) by (intros ->; contradiction).
    now rewrite get_set_other by exact Hne.
  - destruct (Z.eq_dec id a) as [->|Hne].
    + destruct (in_dec Z.eq_dec a (a :: ids)) as [_|H]; [|exfalso; apply H; now left].
      now rewrite get_set_same.
    + destruct (in_dec Z.eq_dec id (a :: ids)) as [[E|H]|_]; [congruence|contradiction|].
      now rewrite get_set_other by exact Hne.
Qed.

Lemma formula_loop_keys (d base : Q) (ids : list Z) :
  forall (ranks : Dict.t Z Q),
    NoDup (Dict.keys ranks) ->
    NoDup (Dict.keys
             (fold_left (fun new_ranks doc_id =>
                           Dict.set Z.eq_dec doc_id
                             (base + Dict.get_default Z.eq_dec doc_id 0 new_ranks * d)%Q
                             new_ranks) ids ranks))
    /\ forall id,
         In id (Dict.keys
                  (fold_left (fun new_ranks doc_id =>
                                Dict.set Z.eq_dec doc_id
                                  (base + Dict.get_default Z.eq_dec doc_id 0 new_ranks * d)%Q
                                  new_ranks) ids ranks))
         <-> In id ids \/ In id (Dict.keys ranks).
Proof.
  induction ids as [|a ids IH]; intros ranks Hnd.
  - simpl. split; [exact Hnd|]. intuition.
  - cbn [fold_left].
    destruct (IH (Dict.set Z.eq_dec a
                    (base + Dict.get_default Z.eq_dec a 0 ranks * d)%Q ranks))
      as [H1 H2]; [now apply keys_set_nodup|].
    split; [exact H1|]. intros id. rewrite H2, keys_set_iff. simpl. intuition.
Qed.

(** ** The MapReduce engine of a corpus *)

Lemma mapreduce_outgoing (cfg : Config.pagerank_config) (db : Database.t) (id : Z) :
  Dict.get Z.eq_dec id (PageRankMapReduce.outgoing_links (mapreduce_engine cfg db))
  = if in_dec Z.eq_dec id (doc_ids_of db) then Some (outgoing db id) else None.
Proof.
  unfold mapreduce_engine, PageRankMapReduce.init. cbn [PageRankMapReduce.outgoing_links].
  fold (doc_ids_of db).
  exact (comprehension_get Z (list Z) Z.eq_dec (fun id => outgoing db id)
           (doc_ids_of db) id []).
Qed.

Lemma mapreduce_initial (cfg : Config.pagerank_config) (db : Database.t) :
  NoDup (doc_ids_of db) ->
  PageRankMapReduce.pagerank (mapreduce_engine cfg db)
  = map (fun id => (id, (1 / Qnat (length (doc_ids_of db)))%Q)) (doc_ids_of db).
Proof.
  intros Hnd. unfold mapreduce_engine, PageRankMapReduce.init.
  cbn [PageRankMapReduce.pagerank]. fold (doc_ids_of db).
  exact (comprehension_items Z Q Z.eq_dec
           (fun _ => (1 / Qnat (length (doc_ids_of db)))%Q)
           (doc_ids_of db) Hnd [] (fun k _ H => H)).
Qed.

Lemma map_phase_spec (cfg : Config.pagerank_config) (db : Database.t) (id : Z) (v : Q) :
  PageRankMapReduce.map_phase (mapreduce_engine cfg db) id v
  = if in_dec Z.eq_dec id (doc_ids_of db)
    then map (fun t => (t, (v / Qnat (length (outgoing db id)))%Q)) (outgoing db id)
    else [].
Proof.
  unfold PageRankMapReduce.map_phase. rewrite mapreduce_outgoing.
  destruct (in_dec Z.eq_dec id (doc_ids_of db)); [|reflexivity].
  now destruct (outgoing db id).
Qed.

Lemma map_phase_sum (cfg : Config.pagerank_config) (db : Database.t) (id : Z) (v : Q) :
  In id (doc_ids_of db) ->
  (Qsum (map snd (PageRankMapReduce.map_phase (mapreduce_engine cfg db) id v))
   == if has_links db id then v else 0)%Q.
Proof.
  intros Hin. rewrite map_phase_spec.
  destruct (in_dec Z.eq_dec id (doc_ids_of db)); [|contradiction].
  rewrite map_map. unfold has_links.
  destruct (outgoing db id) as [|t ts] eqn:E; [reflexivity|].
  apply (Qsum_shares v (t :: ts)). discriminate.
Qed.

Lemma contributions_targets (cfg : Config.pagerank_config) (db : Database.t)
    (ranks : Dict.t Z Q) :
  link_graph_ok db ->
  Forall (fun m => In (fst m) (doc_ids_of db))
         (contributions (mapreduce_engine cfg db) ranks).
Proof.
  intros Hok. unfold contributions. apply Forall_forall. intros m Hm.
  apply in_flat_map in Hm as ([id v] & _ & Hm). rewrite map_phase_spec in Hm.
  cbn [fst snd] in Hm.
  destruct (in_dec Z.eq_dec id (doc_ids_of db)); [|contradiction].
  apply in_map_iff in Hm as (t & <- & Ht). simpl.
  exact (outgoing_in_ids db id t Hok Ht).
Qed.

Lemma contributions_nonneg (cfg : Config.pagerank_config) (db : Database.t)
    (ranks : Dict.t Z Q) :
  Forall (fun dr => (0 <= snd dr)%Q) ranks ->
  Forall (fun m => (0 <= snd m)%Q) (contributions (mapreduce_engine cfg db) ranks).
Proof.
  intros Hnn. unfold contributions. apply Forall_forall. intros m Hm.
  apply in_flat_map in Hm as ([id v] & Hidv & Hm). rewrite map_phase_spec in Hm.
  cbn [fst snd] in Hm.
  destruct (in_dec Z.eq_dec id (doc_ids_of db)); [|contradiction].
  apply in_map_iff in Hm as (t & <- & Ht). simpl.
  rewrite Forall_forall in Hnn. specialize (Hnn (id, v) Hidv). simpl in Hnn.
  apply Qle_shift_div_l; [|lra].
  apply Qnat_pos. destruct (outgoing db id); [contradiction|discriminate].
Qed.

Lemma iteration_get (cfg : Config.pagerank_config) (db : Database.t)
    (ranks : Dict.t Z Q) (id : Z) :
  NoDup (doc_ids_of db) -> In id (doc_ids_of db) ->
  Dict.get_default Z.eq_dec id 0%Q
    (PageRankMapReduce.calculate_pagerank_iteration (mapreduce_engine cfg db) ranks)
  = ((1 - Config.damping_factor cfg) / Qnat (length (doc_ids_of db))
     + Dict.get_default Z.eq_dec id 0
         (PageRankMapReduce.reduce_phase
            (contributions (mapreduce_engine cfg db) ranks))
       * Config.damping_factor cfg)%Q.
Proof.
  intros Hnd Hin. unfold PageRankMapReduce.calculate_pagerank_iteration.
  fold (contributions (mapreduce_engine cfg db) ranks).
  change (PageRankMapReduce.doc_ids (mapreduce_engine cfg db)) with (doc_ids_of db).
  change (PageRankMapReduce.damping_factor (mapreduce_engine cfg db))
    with (Config.damping_factor cfg).
  change (PageRankMapReduce.num_documents (mapreduce_engine cfg db))
    with (length (doc_ids_of db)).
  rewrite (formula_loop_get (Config.damping_factor cfg)
             ((1 - Config.damping_factor cfg) / Qnat (length (doc_ids_of db)))%Q
             (doc_ids_of db) Hnd).
  destruct (in_dec Z.eq_dec id (doc_ids_of db)); [reflexivity|contradiction].
Qed.

(** The score of a document after an iteration. *)
Lemma iteration_value (cfg : Config.pagerank_config) (db : Database.t)
    (ranks : Dict.t Z Q) (id : Z) :
  NoDup (doc_ids_of db) -> In id (doc_ids_of db) ->
  (Dict.get_default Z.eq_dec id 0
     (PageRankMapReduce.calculate_pagerank_iteration (mapreduce_engine cfg db) ranks)
   == (1 - Config.damping_factor cfg) / Qnat (length (doc_ids_of db))
      + Config.damping_factor cfg
        * Qsum (to_target Z.eqb id (contributions (mapreduce_engine cfg db) ranks)))%Q.
Proof.
  intros Hnd Hin. rewrite (iteration_get cfg db ranks id Hnd Hin), reduce_phase_get.
  ring.
Qed.

Lemma iteration_keys (cfg : Config.pagerank_config) (db : Database.t)
    (ranks : Dict.t Z Q) :
  link_graph_ok db ->
  NoDup (Dict.keys (PageRankMapReduce.calculate_pagerank_iteration
                      (mapreduce_engine cfg db) ranks))
  /\ forall id,
       In id (Dict.keys (PageRankMapReduce.calculate_pagerank_iteration
                           (mapreduce_engine cfg db) ranks))
       <-> In id (doc_ids_of db).
Proof.
  intros Hok. unfold PageRankMapReduce.calculate_pagerank_iteration.
  fold (contributions (mapreduce_engine cfg db) ranks).
  change (PageRankMapReduce.doc_ids (mapreduce_engine cfg db)) with (doc_ids_of db).
  destruct (reduce_phase_keys (contributions (mapreduce_engine cfg db) ranks) [])
    as [R1 R2]; [constructor|].
  fold (PageRankMapReduce.reduce_phase (contributions (mapreduce_engine cfg db) ranks))
    in R1, R2.
  match goal with
  | |- context [fold_left ?f (doc_ids_of db) ?r] =>
      destruct (formula_loop_keys
                  (PageRankMapReduce.damping_factor (mapreduce_engine cfg db))
                  ((1 - PageRankMapReduce.damping_factor (mapreduce_engine cfg db))
                   / Qnat (PageRankMapReduce.num_documents (mapreduce_engine cfg db)))%Q
                  (doc_ids_of db) r R1) as [F1 F2]
  end.
  split; [exact F1|]. intros id. rewrite F2, R2. split; [|auto].
  intros [H|[H|[]]]; [exact H|].
  apply in_map_iff in H as (m & <- & Hm).
  pose proof (contributions_targets cfg db ranks Hok) as Ht.
  rewrite Forall_forall in Ht. exact (Ht m Hm).
Qed.

Lemma to_target_nonneg (id : Z) (cs : list (Z * Q)) :
  Forall (fun m => (0 <= snd m)%Q) cs ->
  (0 <= Qsum (to_target Z.eqb id cs))%Q.
Proof.
  intros H. apply Qsum_nonneg. unfold to_target.
  apply Forall_map, Forall_forall. intros m Hm. apply filter_In in Hm as [Hm _].
  rewrite Forall_forall in H. exact (H m Hm).
Qed.

Lemma base_rank_nonneg (d : Q) (n : nat) :
  (d <= 1)%Q -> (0 <= (1 - d) / Qnat n)%Q.
Proof.
  intros Hd. destruct n as [|n].
  - unfold Qnat, Qdiv, Qinv. simpl. lra.
  - apply Qle_shift_div_l; [apply Qnat_pos; discriminate|]. lra.
Qed.

(** An iteration makes a score vector of a score vector. *)
Lemma iteration_ranks_ok (cfg : Config.pagerank_config) (db : Database.t)
    (ranks : Dict.t Z Q) :
  link_graph_ok db -> (0 <= Config.damping_factor cfg <= 1)%Q ->
  Forall (fun dr => (0 <= snd dr)%Q) ranks ->
  ranks_ok (doc_ids_of db)
    (PageRankMapReduce.calculate_pagerank_iteration (mapreduce_engine cfg db) ranks).
Proof.
  intros Hok Hd Hnn. pose proof Hok as [Hnd _].
  destruct (iteration_keys cfg db ranks Hok) as [K1 K2].
  split; [exact K1|]. split; [exact K2|].
  apply Forall_forall. intros [id v] Hin. simpl.
  assert (Hid : In id (doc_ids_of db)).
  { apply K2. unfold Dict.keys. apply in_map_iff. now exists (id, v). }
  pose proof (get_of_item Z Q Z.eq_dec _ K1 id v Hin) as Hget.
  pose proof (iteration_value cfg db ranks id Hnd Hid) as Hval.
  unfold Dict.get_default in Hval at 1. rewrite Hget in Hval. rewrite Hval.
  pose proof (base_rank_nonneg (Config.damping_factor cfg) (length (doc_ids_of db))
                (proj2 Hd)) as H1.
  pose proof (to_target_nonneg id _ (contributions_nonneg cfg db ranks Hnn)) as H2.
  assert (H3 : (0 <= Config.damping_factor cfg
                     * Qsum (to_target Z.eqb id
                               (contributions (mapreduce_engine cfg db) ranks)))%Q)
    by (apply Qmult_le_0_compat; lra).
  lra.
Qed.

Lemma items_by_keys (ranks : Dict.t Z Q) :
  NoDup (Dict.keys ranks) ->
  ranks = map (fun id => (id, Dict.get_default Z.eq_dec id 0%Q ranks)) (Dict.keys ranks).
Proof.
  intros Hnd. unfold Dict.keys. rewrite map_map.
  rewrite <- (map_id ranks) at 1. apply map_ext_in. intros [id v] Hin. simpl.
  unfold Dict.get_default. now rewrite (get_of_item Z Q Z.eq_dec ranks Hnd id v Hin).
Qed.

(** A sum over the entries of a score vector is a sum over the documents. *)
Lemma dict_sum_keys (ids : list Z) (ranks : Dict.t Z Q) (g : Z -> Q -> Q) :
  NoDup (Dict.keys ranks) -> (forall id, In id (Dict.keys ranks) <-> In id ids) ->
  NoDup ids ->
  (Qsum (map (fun dr => g (fst dr) (snd dr)) ranks)
   == Qsum (map (fun id => g id (Dict.get_default Z.eq_dec id 0 ranks)) ids))%Q.
Proof.
  intros K1 K2 Hnd.
  rewrite (items_by_keys ranks K1) at 1. rewrite map_map. cbn [fst snd].
  apply Qsum_perm, Permutation_map, NoDup_Permutation; assumption.
Qed.

Lemma dict_sum (ids : list Z) (ranks : Dict.t Z Q) (g : Z -> Q -> Q) :
  ranks_ok ids ranks -> NoDup ids ->
  (Qsum (map (fun dr => g (fst dr) (snd dr)) ranks)
   == Qsum (map (fun id => g id (Dict.get_default Z.eq_dec id 0 ranks)) ids))%Q.
Proof.
  intros (K1 & K2 & _). now apply dict_sum_keys.
Qed.

Lemma contributions_sum (cfg : Config.pagerank_config) (db : Database.t)
    (ranks : Dict.t Z Q) :
  link_graph_ok db -> ranks_ok (doc_ids_of db) ranks ->
  (Qsum (map snd (contributions (mapreduce_engine cfg db) ranks))
   == Qsum (map (fun id => if has_links db id
                           then Dict.get_default Z.eq_dec id 0 ranks
                           else 0) (doc_ids_of db)))%Q.
Proof.
  intros [Hnd _] Hr. pose proof Hr as (K1 & K2 & _).
  rewrite <- (dict_sum (doc_ids_of db) ranks
                (fun id v => if has_links db id then v else 0%Q) Hr Hnd).
  unfold contributions. rewrite flat_map_concat_map, concat_map, map_map.
  rewrite <- flat_map_concat_map, Qsum_flat_map.
  apply Qsum_map_ext. intros [id v] Hin. cbn [fst snd].
  apply map_phase_sum. apply K2. unfold Dict.keys. apply in_map_iff. now exists (id, v).
Qed.

(** The scores after an iteration add up to [1 - d], shared by the
    documents, and [d] times the scores of the documents with a link. *)
Lemma iteration_total (cfg : Config.pagerank_config) (db : Database.t)
    (ranks : Dict.t Z Q) :
  link_graph_ok db -> doc_ids_of db <> [] -> ranks_ok (doc_ids_of db) ranks ->
  (total_score (doc_ids_of db)
     (PageRankMapReduce.calculate_pagerank_iteration (mapreduce_engine cfg db) ranks)
   == (1 - Config.damping_factor cfg)
      + Config.damping_factor cfg
        * Qsum (map (fun id => if has_links db id
                               then Dict.get_default Z.eq_dec id 0 ranks
                               else 0) (doc_ids_of db)))%Q.
Proof.
  intros Hok Hne Hr. pose proof Hok as [Hnd _]. unfold total_score.
  rewrite (Qsum_map_ext _
             (fun id => (1 - Config.damping_factor cfg) / Qnat (length (doc_ids_of db))
                        + Config.damping_factor cfg
                          * Qsum (to_target Z.eqb id
                                    (contributions (mapreduce_engine cfg db) ranks)))%Q)
    by (intros id Hid; now apply iteration_value).
  rewrite Qsum_map_plus, Qsum_map_const, Qsum_map_scale.
  rewrite (sum_to_targets Z Z.eqb Z_eqb_spec_iff) by exact Hnd.
  rewrite filter_all.
  - rewrite (contributions_sum cfg db ranks Hok Hr). field.
    apply Qnot_eq_sym, Qlt_not_eq, Qnat_pos.
    destruct (doc_ids_of db); [congruence|discriminate].
  - eapply Forall_impl; [|apply (contributions_targets cfg db ranks Hok)].
    intros m Hm. cbv beta in Hm. apply existsb_exists. exists (fst m).
    split; [exact Hm|apply Z.eqb_refl].
Qed.

(** ** The scores of the MapReduce engine over the iterations *)

Section Weighted.
Variable A : Type.
Variables (x : A -> Q) (s : A -> bool) (l : list A) (d : Q).
Hypothesis x_nonneg : forall a, In a l -> (0 <= x a)%Q.
Hypothesis x_total : (Qsum (map x l) <= 1)%Q.

Lemma weighted_split :
  (Qsum (map x l)
   == Qsum (map (fun a => if s a then x a else 0) l)
      + Qsum (map (fun a => if s a then 0 else x a) l))%Q.
Proof.
  rewrite <- Qsum_map_plus. apply Qsum_map_ext. intros a _. destruct (s a); ring.
Qed.

Lemma weighted_rest_nonneg :
  Forall (fun q => (0 <= q)%Q) (map (fun a => if s a then 0%Q else x a) l).
Proof.
  apply Forall_map, Forall_forall. intros a Ha. specialize (x_nonneg a Ha).
  destruct (s a); lra.
Qed.

Lemma weighted_bound :
  (0 <= d <= 1)%Q ->
  ((1 - d) + d * Qsum (map (fun a => if s a then x a else 0) l) <= 1)%Q.
Proof.
  intros Hd. pose proof weighted_split as Hs.
  pose proof (Qsum_nonneg _ weighted_rest_nonneg) as H0.
  set (P := Qsum (map (fun a => if s a then x a else 0%Q) l)) in *.
  assert (HP : (P <= 1)%Q) by lra. nra.
Qed.

Lemma weighted_full :
  (0 < d <= 1)%Q ->
  ((1 - d) + d * Qsum (map (fun a => if s a then x a else 0) l) == 1)%Q ->
  (Qsum (map x l) == 1)%Q
  /\ forall a, In a l -> s a = false -> (x a == 0)%Q.
Proof.
  intros Hd Heq. pose proof weighted_split as Hs.
  pose proof weighted_rest_nonneg as Hrest.
  pose proof (Qsum_nonneg _ Hrest) as H0.
  set (P := Qsum (map (fun a => if s a then x a else 0%Q) l)) in *.
  set (R := Qsum (map (fun a => if s a then 0%Q else x a) l)) in *.
  assert (HP : (P == 1)%Q).
  { assert (H : (d * P == d * 1)%Q) by lra.
    apply Qmult_inj_l in H; [exact H|]. intros E. rewrite E in Hd. lra. }
  assert (HR : (R == 0)%Q) by lra.
  split; [lra|]. intros a Ha Hsa.
  pose proof (Qsum_zero_terms _ Hrest HR) as Hz.
  rewrite Forall_map, Forall_forall in Hz. specialize (Hz a Ha).
  cbv beta in Hz. now rewrite Hsa in Hz.
Qed.

End Weighted.

Lemma get_default_nonneg (ranks : Dict.t Z Q) (id : Z) :
  Forall (fun dr => (0 <= snd dr)%Q) ranks ->
  (0 <= Dict.get_default Z.eq_dec id 0 ranks)%Q.
Proof.
  unfold Dict.get_default. induction 1 as [|[k v] r Hv Hr IH]; simpl; [lra|].
  destruct (Z.eq_dec id k); [exact Hv|exact IH].
Qed.

Lemma initial_ranks_ok (cfg : Config.pagerank_config) (db : Database.t) :
  link_graph_ok db -> doc_ids_of db <> [] ->
  ranks_ok (doc_ids_of db) (PageRankMapReduce.pagerank (mapreduce_engine cfg db)).
Proof.
  intros [Hnd _] Hne. rewrite (mapreduce_initial cfg db Hnd).
  assert (Hk : Dict.keys (map (fun id => (id, (1 / Qnat (length (doc_ids_of db)))%Q))
                              (doc_ids_of db)) = doc_ids_of db).
  { unfold Dict.keys. rewrite map_map. apply map_id. }
  split; [now rewrite Hk|]. split; [intros id; now rewrite Hk|].
  apply Forall_map, Forall_forall. intros id _. simpl.
  apply Qlt_le_weak, initial_value_pos, Hne.
Qed.

Lemma initial_score (cfg : Config.pagerank_config) (db : Database.t) (id : Z) :
  NoDup (doc_ids_of db) -> In id (doc_ids_of db) ->
  Dict.get_default Z.eq_dec id 0%Q
    (PageRankMapReduce.pagerank (mapreduce_engine cfg db))
  = (1 / Qnat (length (doc_ids_of db)))%Q.
Proof.
  intros Hnd Hin. unfold Dict.get_default, mapreduce_engine, PageRankMapReduce.init.
  cbn [PageRankMapReduce.pagerank]. fold (doc_ids_of db).
  rewrite (comprehension_get Z Q Z.eq_dec
             (fun _ => (1 / Qnat (length (doc_ids_of db)))%Q) (doc_ids_of db) id []).
  destruct (in_dec Z.eq_dec id (doc_ids_of db)); [reflexivity|contradiction].
Qed.

Lemma initial_total_score (cfg : Config.pagerank_config) (db : Database.t) :
  link_graph_ok db -> doc_ids_of db <> [] ->
  (total_score (doc_ids_of db)
     (PageRankMapReduce.pagerank (mapreduce_engine cfg db)) == 1)%Q.
Proof.
  intros [Hnd _] Hne. unfold total_score.
  rewrite (Qsum_map_ext _ (fun _ => (1 / Qnat (length (doc_ids_of db)))%Q))
    by (intros id Hid; now rewrite (initial_score cfg db id Hnd Hid)).
  rewrite Qsum_map_const. field. apply Qnot_eq_sym, Qlt_not_eq, Qnat_pos.
  destruct (doc_ids_of db); [congruence|discriminate].
Qed.

Lemma mapreduce_scores_succ (cfg : Config.pagerank_config) (db : Database.t) (k : nat) :
  mapreduce_scores cfg db (S k)
  = PageRankMapReduce.calculate_pagerank_iteration (mapreduce_engine cfg db)
      (mapreduce_scores cfg db k).
Proof. reflexivity. Qed.

(** What every iteration keeps. *)
Lemma mapreduce_invariant (cfg : Config.pagerank_config) (db : Database.t) :
  link_graph_ok db -> doc_ids_of db <> [] ->
  (0 <= Config.damping_factor cfg <= 1)%Q ->
  forall k,
    ranks_ok (doc_ids_of db) (mapreduce_scores cfg db k)
    /\ (total_score (doc_ids_of db) (mapreduce_scores cfg db k) <= 1)%Q.
Proof.
  intros Hok Hne Hd. induction k as [|k [IH1 IH2]].
  - split; [now apply initial_ranks_ok|].
    change (mapreduce_scores cfg db 0)
      with (PageRankMapReduce.pagerank (mapreduce_engine cfg db)).
    rewrite (initial_total_score cfg db Hok Hne). lra.
  - rewrite mapreduce_scores_succ. pose proof IH1 as (_ & _ & Hnn).
    split; [now apply iteration_ranks_ok|].
    rewrite (iteration_total cfg db _ Hok Hne IH1).
    apply (weighted_bound Z (fun id => Dict.get_default Z.eq_dec id 0%Q
                                         (mapreduce_scores cfg db k))
             (has_links db) (doc_ids_of db) (Config.damping_factor cfg)).
    + intros id _. now apply get_default_nonneg.
    + exact IH2.
    + exact Hd.
Qed.

(** The scores add up to [1] after an iteration only if every document has
    a link. *)
Lemma mapreduce_full (cfg : Config.pagerank_config) (db : Database.t) :
  link_graph_ok db -> doc_ids_of db <> [] ->
  (0 < Config.damping_factor cfg <= 1)%Q ->
  forall k,
    (total_score (doc_ids_of db) (mapreduce_scores cfg db (S k)) == 1)%Q ->
    no_dangling db.
Proof.
  intros Hok Hne Hd. pose proof Hok as [Hnd _].
  assert (Hd' : (0 <= Config.damping_factor cfg <= 1)%Q) by lra.
  assert (Hstep : forall k,
             (total_score (doc_ids_of db) (mapreduce_scores cfg db (S k)) == 1)%Q ->
             (total_score (doc_ids_of db) (mapreduce_scores cfg db k) == 1)%Q
             /\ forall id, In id (doc_ids_of db) -> has_links db id = false ->
                  (Dict.get_default Z.eq_dec id 0 (mapreduce_scores cfg db k) == 0)%Q).
  { intros k Heq.
    destruct (mapreduce_invariant cfg db Hok Hne Hd' k) as [Hr Hle].
    pose proof Hr as (_ & _ & Hnn).
    rewrite mapreduce_scores_succ, (iteration_total cfg db _ Hok Hne Hr) in Heq.
    apply (weighted_full Z (fun id => Dict.get_default Z.eq_dec id 0%Q
                                        (mapreduce_scores cfg db k))
             (has_links db) (doc_ids_of db) (Config.damping_factor cfg)).
    - intros id _. now apply get_default_nonneg.
    - exact Hle.
    - exact Hd.
    - exact Heq. }
  induction k as [|k IH]; intros Heq.
  - destruct (Hstep 0 Heq) as [_ Hsilent].
    intros id Hid Hout.
    assert (Hl : has_links db id = false) by (unfold has_links; now rewrite Hout).
    specialize (Hsilent id Hid Hl).
    change (mapreduce_scores cfg db 0)
      with (PageRankMapReduce.pagerank (mapreduce_engine cfg db)) in Hsilent.
    rewrite (initial_score cfg db id Hnd Hid) in Hsilent.
    pose proof (initial_value_pos db Hne) as Hpos. rewrite Hsilent in Hpos.
    discriminate.
  - apply IH. exact (proj1 (Hstep (S k) Heq)).
Qed.

(** The loop of [calculate] raises nothing on a corpus with a document and
    returns the scores after some number of iterations: one at least, the
    cap at most. *)
Lemma mapreduce_loop_spec (self : PageRankMapReduce.t) :
  PageRankMapReduce.num_documents self <> 0 ->
  forall n i current db,
    exists k db',
      k <= n /\ (0 < n -> 0 < k)
      /\ PageRankMapReduce.calculate_loop self n i current db
         = Ok (Nat.iter k (PageRankMapReduce.calculate_pagerank_iteration self) current,
               db').
Proof.
  intros HN. induction n as [|n IH]; intros i current db.
  - exists 0, db. split; [lia|]. split; [lia|reflexivity].
  - cbn [PageRankMapReduce.calculate_loop].
    unfold PageRankMapReduce.calculate_convergence_squared.
    destruct (Nat.eqb_spec (PageRankMapReduce.num_documents self) 0) as [E|_];
      [contradiction|].
    cbn [bind].
    match goal with |- context [if ?b then _ else _] => destruct b end.
    + eexists 1, _. split; [lia|]. split; [lia|reflexivity].
    + match goal with
      | |- context [PageRankMapReduce.calculate_loop self n ?i' ?c ?d] =>
          destruct (IH i' c d) as (k & db' & Hk & _ & Hloop)
      end.
      exists (S k), db'. split; [lia|]. split; [lia|].
      rewrite Hloop. now rewrite Nat.iter_succ_r.
Qed.

Lemma mapreduce_calculate_spec (cfg : Config.pagerank_config) (db : Database.t) :
  doc_ids_of db <> [] ->
  exists k self' db',
    k <= Config.max_iterations cfg
    /\ (0 < Config.max_iterations cfg -> 0 < k)
    /\ PageRankMapReduce.calculate (mapreduce_engine cfg db) db
       = Ok (mapreduce_scores cfg db k, self', db').
Proof.
  intros Hne. unfold PageRankMapReduce.calculate.
  assert (HN : PageRankMapReduce.num_documents (mapreduce_engine cfg db) <> 0).
  { change (PageRankMapReduce.num_documents (mapreduce_engine cfg db))
      with (length (doc_ids_of db)).
    destruct (doc_ids_of db); [congruence|discriminate]. }
  destruct (mapreduce_loop_spec (mapreduce_engine cfg db) HN
              (PageRankMapReduce.max_iterations (mapreduce_engine cfg db)) 0
              (PageRankMapReduce.pagerank (mapreduce_engine cfg db)) db)
    as (k & db' & Hk1 & Hk2 & Hloop).
  rewrite Hloop. cbn [bind fst snd]. exists k. do 2 eexists.
  split; [exact Hk1|]. split; [exact Hk2|reflexivity].
Qed.

(** ** The two engines, round by round *)

Lemma Forall2_of_nth {A B : Type} (R : A -> B -> Prop) (l : list A) :
  forall l',
    length l = length l' ->
    (forall i a b, nth_error l i = Some a -> nth_error l' i = Some b -> R a b) ->
    Forall2 R l l'.
Proof.
  induction l as [|a l IH]; intros [|b l'] Hlen H; try discriminate; constructor.
  - exact (H 0 a b eq_refl eq_refl).
  - apply IH; [now injection Hlen|]. intros i a' b' Ha Hb. exact (H (S i) a' b' Ha Hb).
Qed.

Lemma pregel_graph_ok (d : Q) (db : Database.t) (k : nat) :
  link_graph_ok db -> graph_ok (pregel_vertices d db k).
Proof.
  intros Hok. induction k as [|k IH]; [now apply initial_graph_ok|].
  rewrite pregel_vertices_succ. now apply superstep_graph_ok.
Qed.

Lemma pregel_vertex_edges (d : Q) (db : Database.t) (k i : nat) (id : Z)
    (v : PregelVertex.t) :
  nth_error (doc_ids_of db) i = Some id ->
  nth_error (pregel_vertices d db k) i = Some v ->
  PregelVertex.outgoing_edges v = map (index_of (doc_ids_of db)) (outgoing db id).
Proof.
  intros Hid Hv.
  pose proof (map_nth_error PregelVertex.outgoing_edges _ _ Hv) as H.
  rewrite pregel_vertices_edges in H. unfold initial_vertices in H.
  rewrite map_map in H. cbn [PregelVertex.outgoing_edges] in H.
  unfold PageRankPregel.enumerate in H.
  rewrite (map_nth_error _ _ _ (enumerate_nth _ i id 0 Hid)) in H.
  cbn [snd] in H. congruence.
Qed.

Lemma pregel_vertex_id (d : Q) (db : Database.t) (k i : nat) (v : PregelVertex.t) :
  link_graph_ok db ->
  nth_error (pregel_vertices d db k) i = Some v -> PregelVertex.id v = i.
Proof.
  intros Hok Hv. destruct (pregel_graph_ok d db k Hok) as [Hid _].
  pose proof (map_nth_error PregelVertex.id _ _ Hv) as H. rewrite Hid in H.
  assert (Hlt : i < length (pregel_vertices d db k))
    by (apply nth_error_Some; congruence).
  rewrite nth_error_nth' with (d := 0) in H by (now rewrite length_seq).
  rewrite seq_nth in H by exact Hlt. simpl in H. congruence.
Qed.

Lemma pregel_vertex_value (d : Q) (db : Database.t) (k i : nat) (id : Z)
    (v : PregelVertex.t) :
  link_graph_ok db ->
  nth_error (doc_ids_of db) i = Some id ->
  nth_error (pregel_vertices d db k) i = Some v ->
  PregelVertex.value v = pregel_score d db k id.
Proof.
  intros [Hnd _] Hid Hv. unfold pregel_score. symmetry.
  exact (scores_of_get _ Hnd _ i id v (pregel_vertices_length d db k) Hid Hv).
Qed.

(** Matching a target index is matching the target document. *)
Lemma filter_by_index (ids : list Z) (i : nat) (id : Z) (c : Q) (out : list Z) :
  NoDup ids -> nth_error ids i = Some id -> incl out ids ->
  map (fun _ => c) (filter (Nat.eqb i) (map (index_of ids) out))
  = map (fun _ => c) (filter (Z.eqb id) out).
Proof.
  intros Hnd Hi. induction out as [|t out IH]; intros Hincl; [reflexivity|].
  simpl. assert (Ht : In t ids) by (apply Hincl; now left).
  assert (E : Nat.eqb i (index_of ids t) = Z.eqb id t).
  { destruct (Z.eqb_spec id t) as [->|Hne].
    - rewrite (index_of_nth ids i t Hnd Hi). apply Nat.eqb_refl.
    - apply Nat.eqb_neq. intros Heq. apply Hne.
      apply (index_of_inj ids); [eapply nth_error_In; exact Hi|exact Ht|].
      now rewrite (index_of_nth ids i id Hnd Hi). }
  rewrite E. destruct (Z.eqb id t); simpl; rewrite IH; auto;
    intros x Hx; apply Hincl; now right.
Qed.

(** The inbox of a vertex, while every vertex is active, holds the shares
    that reach its document. *)
Lemma inbox_inflow (db : Database.t) (x : Z -> Q) (i : nat) (id : Z) :
  link_graph_ok db ->
  nth_error (doc_ids_of db) i = Some id ->
  forall (ids : list Z) (vs : list PregelVertex.t),
    incl ids (doc_ids_of db) ->
    Forall2 (fun j v =>
               PregelVertex.outgoing_edges v
               = map (index_of (doc_ids_of db)) (outgoing db j)
               /\ PregelVertex.value v = x j
               /\ PregelVertex.active v = true) ids vs ->
    inbox vs i
    = flat_map (fun j => map (fun _ => (x j / Qnat (length (outgoing db j)))%Q)
                             (filter (Z.eqb id) (outgoing db j))) ids.
Proof.
  intros Hok Hi ids vs Hincl H. pose proof Hok as [Hnd _].
  induction H as [|j v ids vs (He & Hx & Ha) HF IH]; [reflexivity|].
  unfold inbox in *. simpl. rewrite IH by (intros y Hy; apply Hincl; now right).
  rewrite Ha, He, Hx, length_map. f_equal.
  apply (filter_by_index (doc_ids_of db) i id _ (outgoing db j) Hnd Hi).
  intros t Ht. exact (outgoing_in_ids db j t Hok Ht).
Qed.

Lemma pregel_inbox (d : Q) (db : Database.t) (k i : nat) (id : Z) :
  link_graph_ok db ->
  nth_error (doc_ids_of db) i = Some id ->
  all_active (pregel_vertices d db k) ->
  inbox (pregel_vertices d db k) i = inflow db (pregel_score d db k) id.
Proof.
  intros Hok Hi Hact. unfold inflow.
  apply (inbox_inflow db (pregel_score d db k) i id Hok Hi); [apply incl_refl|].
  apply Forall2_of_nth; [symmetry; apply pregel_vertices_length|].
  intros n j v Hj Hv. split; [|split].
  - exact (pregel_vertex_edges d db k n j v Hj Hv).
  - exact (pregel_vertex_value d db k n j v Hok Hj Hv).
  - unfold all_active in Hact. rewrite Forall_forall in Hact.
    apply Hact. eapply nth_error_In. exact Hv.
Qed.

(** The score of a document after a superstep in which every vertex sent. *)
Lemma pregel_score_succ (d : Q) (db : Database.t) (k : nat) (id : Z) :
  link_graph_ok db -> In id (doc_ids_of db) ->
  all_active (pregel_vertices d db k) ->
  pregel_score d db (S k) id
  = ((1 - d) / Qnat (length (doc_ids_of db))
     + d * Qsum (inflow db (pregel_score d db k) id))%Q.
Proof.
  intros Hok Hid Hact. apply In_nth_error in Hid as (i & Hi).
  assert (Hlt : i < length (pregel_vertices d db k)).
  { rewrite pregel_vertices_length. apply nth_error_Some. congruence. }
  destruct (nth_error (pregel_vertices d db k) i) as [v|] eqn:Hv;
    [|apply nth_error_None in Hv; lia].
  assert (Hv' : nth_error (pregel_vertices d db (S k)) i
                = Some (SimplePregelGraph.receive d (length (pregel_vertices d db k))
                          (SimplePregelGraph.send_phase (pregel_vertices d db k)) v)).
  { rewrite pregel_vertices_succ. unfold superstep_vertices.
    now apply map_nth_error. }
  rewrite <- (pregel_vertex_value d db (S k) i id _ Hok Hi Hv').
  rewrite receive_value, (pregel_vertex_id d db k i v Hok Hv).
  rewrite (pregel_inbox d db k i id Hok Hi Hact), pregel_vertices_length.
  reflexivity.
Qed.

Lemma inflow_ext (db : Database.t) (x y : Z -> Q) (id : Z) :
  (forall j, In j (doc_ids_of db) -> (x j == y j)%Q) ->
  (Qsum (inflow db x id) == Qsum (inflow db y id))%Q.
Proof.
  intros H. unfold inflow. rewrite !Qsum_flat_map.
  apply Qsum_map_ext. intros j Hj. rewrite !Qsum_map_const, (H j Hj). reflexivity.
Qed.

Lemma to_target_flat_map {A : Type} (f : A -> list (Z * Q)) (l : list A) (id : Z) :
  to_target Z.eqb id (flat_map f l) = flat_map (fun a => to_target Z.eqb id (f a)) l.
Proof.
  unfold to_target. induction l as [|a l IH]; simpl; [reflexivity|].
  now rewrite filter_app, map_app, IH.
Qed.

Lemma map_phase_to_target (cfg : Config.pagerank_config) (db : Database.t)
    (j id : Z) (v : Q) :
  In j (doc_ids_of db) ->
  to_target Z.eqb id (PageRankMapReduce.map_phase (mapreduce_engine cfg db) j v)
  = map (fun _ => (v / Qnat (length (outgoing db j)))%Q)
        (filter (Z.eqb id) (outgoing db j)).
Proof.
  intros Hj. rewrite map_phase_spec.
  destruct (in_dec Z.eq_dec j (doc_ids_of db)); [|contradiction].
  unfold to_target. generalize (v / Qnat (length (outgoing db j)))%Q as c. intros c.
  induction (outgoing db j) as [|t out IH]; simpl; [reflexivity|].
  destruct (Z.eqb id t); simpl; now rewrite IH.
Qed.

(** The reduce step sums, for a document, the shares that reach it. *)
Lemma contributions_inflow (cfg : Config.pagerank_config) (db : Database.t)
    (ranks : Dict.t Z Q) (id : Z) :
  NoDup (doc_ids_of db) ->
  NoDup (Dict.keys ranks) ->
  (forall j, In j (Dict.keys ranks) <-> In j (doc_ids_of db)) ->
  (Qsum (to_target Z.eqb id (contributions (mapreduce_engine cfg db) ranks))
   == Qsum (inflow db (fun j => Dict.get_default Z.eq_dec j 0 ranks) id))%Q.
Proof.
  intros Hnd K1 K2. unfold contributions, inflow.
  rewrite to_target_flat_map, !Qsum_flat_map.
  rewrite <- (dict_sum_keys (doc_ids_of db) ranks
                (fun j v => Qsum (map (fun _ => (v / Qnat (length (outgoing db j)))%Q)
                                      (filter (Z.eqb id) (outgoing db j))))
                K1 K2 Hnd).
  apply Qsum_map_ext. intros [j v] Hin. cbn [fst snd].
  rewrite map_phase_to_target; [reflexivity|].
  apply K2. unfold Dict.keys. apply in_map_iff. now exists (j, v).
Qed.

Lemma mapreduce_keys (cfg : Config.pagerank_config) (db : Database.t) (k : nat) :
  link_graph_ok db ->
  NoDup (Dict.keys (mapreduce_scores cfg db k))
  /\ forall id, In id (Dict.keys (mapreduce_scores cfg db k)) <-> In id (doc_ids_of db).
Proof.
  intros Hok. destruct k as [|k].
  - pose proof Hok as [Hnd _].
    change (mapreduce_scores cfg db 0)
      with (PageRankMapReduce.pagerank (mapreduce_engine cfg db)).
    rewrite (mapreduce_initial cfg db Hnd). unfold Dict.keys. rewrite map_map.
    simpl. rewrite map_id. split; [exact Hnd|reflexivity].
  - rewrite mapreduce_scores_succ. now apply iteration_keys.
Qed.

(** While no vertex of the Pregel engine has been marked inactive, the two
    engines hold the same score for every document. *)
Lemma engines_agree_while_active (cfg : Config.pagerank_config) (db : Database.t) :
  link_graph_ok db ->
  forall k,
    (forall j, j < k ->
               all_active (pregel_vertices (Config.damping_factor cfg) db j)) ->
    forall id, In id (doc_ids_of db) ->
      (pregel_score (Config.damping_factor cfg) db k id
       == Dict.get_default Z.eq_dec id 0 (mapreduce_scores cfg db k))%Q.
Proof.
  intros Hok. pose proof Hok as [Hnd _].
  induction k as [|k IH]; intros Hact id Hid.
  - change (mapreduce_scores cfg db 0)
      with (PageRankMapReduce.pagerank (mapreduce_engine cfg db)).
    rewrite (initial_score cfg db id Hnd Hid).
    apply In_nth_error in Hid as (i & Hi).
    unfold pregel_score, pregel_vertices. cbn [Nat.iter].
    erewrite scores_of_get;
      [| exact Hnd | apply initial_length | exact Hi
       | unfold initial_vertices, PageRankPregel.enumerate;
         apply map_nth_error; apply (enumerate_nth _ i id 0 Hi)].
    reflexivity.
  - rewrite (pregel_score_succ _ db k id Hok Hid (Hact k (Nat.lt_succ_diag_r k))).
    rewrite mapreduce_scores_succ, (iteration_value cfg db _ id Hnd Hid).
    destruct (mapreduce_keys cfg db k Hok) as [K1 K2].
    rewrite (contributions_inflow cfg db _ id Hnd K1 K2).
    rewrite (inflow_ext db (pregel_score (Config.damping_factor cfg) db k)
               (fun j => Dict.get_default Z.eq_dec j 0%Q (mapreduce_scores cfg db k)) id).
    + reflexivity.
    + intros j Hj. apply IH; [|exact Hj]. intros n Hn. apply Hact. lia.
Qed.

(** ** The link graph of a corpus that the parser indexed *)

Lemma documents_ok_append (docs : list Database.Document) (seq : Z)
    (u ti c : str) (n : nat) :
  documents_ok docs seq ->
  documents_ok
    (docs ++ [{| Database.doc_id := seq + 1; Database.url := u;
                 Database.title := ti; Database.content := c;
                 Database.content_length := n |}]) (seq + 1).
Proof.
  intros [Hnd Hle]. split.
  - rewrite map_app. simpl.
    apply NoDup_app; [exact Hnd|repeat constructor; intros []|].
    intros x Hx [<-|[]]. apply in_map_iff in Hx as (d & Hd & Hin).
    specialize (Hle d Hin). lia.
  - intros d Hd. apply in_app_iff in Hd as [Hd|[<-|[]]]; [|simpl; lia].
    specialize (Hle d Hd). lia.
Qed.

Lemma insert_or_ignore_documents (u ti c : str) (db : Database.t) :
  documents_ok (Database.documents db) (Database.seq_documents db) ->
  let db1 := Database.insert_or_ignore_document u ti c db in
  documents_ok (Database.documents db1) (Database.seq_documents db1)
  /\ incl (map Database.doc_id (Database.documents db))
          (map Database.doc_id (Database.documents db1))
  /\ Database.links db1 = Database.links db.
Proof.
  intros Hok. unfold Database.insert_or_ignore_document.
  destruct (Database.get_document_id u db); simpl.
  - split; [exact Hok|]. split; [apply incl_refl|reflexivity].
  - split; [apply documents_ok_append; exact Hok|].
    split; [|reflexivity].
    rewrite map_app. apply incl_appl, incl_refl.
Qed.

Lemma update_document_ids (id : Z) (ti c : str) (db : Database.t) :
  map Database.doc_id (Database.documents (Database.update_document id ti c db))
  = map Database.doc_id (Database.documents db).
Proof.
  unfold Database.update_document. simpl. rewrite map_map.
  apply map_ext. intros d. now destruct (Database.doc_id d =? id)%Z.
Qed.

Lemma add_document_documents (u ti c : str) (db : Database.t) :
  documents_ok (Database.documents db) (Database.seq_documents db) ->
  let db1 := snd (Database.add_document u ti c db) in
  documents_ok (Database.documents db1) (Database.seq_documents db1)
  /\ incl (map Database.doc_id (Database.documents db))
          (map Database.doc_id (Database.documents db1))
  /\ Database.links db1 = Database.links db.
Proof.
  intros Hok.
  destruct (insert_or_ignore_documents u ti c db Hok) as (Hok1 & Hincl & Hl).
  unfold Database.add_document.
  set (db1 := Database.insert_or_ignore_document u ti c db) in *.
  destruct (Database.get_document_id u db1) as [id|]; simpl.
  - split; [|split; [|exact Hl]].
    + destruct Hok1 as [Hnd Hle]. split.
      * change (NoDup (map Database.doc_id
                         (Database.documents (Database.update_document id ti c db1)))).
        rewrite update_document_ids. exact Hnd.
      * intros d Hd. apply in_map_iff in Hd as (d0 & <- & Hd0).
        specialize (Hle d0 Hd0).
        now destruct (Database.doc_id d0 =? id)%Z.
    + change (incl (map Database.doc_id (Database.documents db))
                (map Database.doc_id
                   (Database.documents (Database.update_document id ti c db1)))).
      rewrite update_document_ids. exact Hincl.
  - split; [apply documents_ok_append; exact Hok1|].
    split; [|exact Hl].
    rewrite map_app. apply incl_appl. exact Hincl.
Qed.

Lemma index_terms_frame (doc : Z) (pc : Dict.t str (list nat))
    (term_counts : Dict.t str nat) :
  forall db,
    Database.links (WebParser.index_terms doc term_counts pc db)
    = Database.links db
    /\ Database.documents (WebParser.index_terms doc term_counts pc db)
       = Database.documents db
    /\ Database.seq_documents (WebParser.index_terms doc term_counts pc db)
       = Database.seq_documents db.
Proof.
  induction term_counts as [|[w c] l IH]; intros db;
    rewrite index_terms_fold; cbn [fold_left]; [auto|].
  rewrite <- index_terms_fold.
  destruct (IH (index_term doc pc db (w, c))) as (-> & -> & ->).
  unfold index_term, Database.add_word.
  destruct (Database.get_word_id w db) as [id|]; simpl.
  - destruct (id =? -1)%Z; auto.
  - destruct (Database.seq_words db + 1 =? -1)%Z; auto.
Qed.

Lemma get_document_id_in (u : str) (db : Database.t) (id : Z) :
  Database.get_document_id u db = Some id ->
  In id (map Database.doc_id (Database.documents db)).
Proof.
  unfold Database.get_document_id.
  destruct (find _ (Database.documents db)) as [d|] eqn:E; [|discriminate].
  intros H. injection H as <-. apply find_some in E as [Hin _].
  now apply in_map.
Qed.

Lemma add_links_links (doc : Z) (links : list str) (ids : list Z) :
  forall db,
    map Database.doc_id (Database.documents db) = ids ->
    links_ok (Database.links db) ids ->
    links_ok (Database.links (WebParser.add_links doc links db)) ids.
Proof.
  unfold WebParser.add_links.
  induction links as [|l ls IH]; intros db Hids Hok; simpl; [exact Hok|].
  apply IH.
  - unfold Database.add_link. now destruct (existsb _ (Database.links db)).
  - unfold Database.add_link.
    destruct (existsb _ (Database.links db)); [exact Hok|]. simpl.
    intros l' Hl' t Ht. apply in_app_iff in Hl' as [Hl'|[<-|[]]].
    + exact (Hok l' Hl' t Ht).
    + simpl in Ht. rewrite <- Hids. exact (get_document_id_in l db t Ht).
Qed.

(** The corpus that [index_document] leaves has distinct document ids, and
    its resolved links lead to documents, when the corpus it started from
    had. *)
Lemma index_document_link_graph (url title content : str) (links : list str)
    (db : Database.t) :
  documents_ok (Database.documents db) (Database.seq_documents db) ->
  links_ok (Database.links db) (map Database.doc_id (Database.documents db)) ->
  let db' := WebParser.index_document url title content links db in
  documents_ok (Database.documents db') (Database.seq_documents db')
  /\ links_ok (Database.links db') (map Database.doc_id (Database.documents db'))
  /\ link_graph_ok db'.
Proof.
  intros Hdocs Hlinks db'.
  assert (H : documents_ok (Database.documents db') (Database.seq_documents db')
              /\ links_ok (Database.links db')
                   (map Database.doc_id (Database.documents db'))).
  { subst db'. unfold WebParser.index_document.
    destruct (add_document_documents url title content db Hdocs)
      as (Hok1 & Hincl & Hl1).
    destruct (Database.add_document url title content db) as [doc db1].
    simpl in Hok1, Hincl, Hl1.
    assert (Hlinks1 : links_ok (Database.links db1)
                        (map Database.doc_id (Database.documents db1))).
    { rewrite Hl1. intros l Hl t Ht. apply Hincl. exact (Hlinks l Hl t Ht). }
    destruct (doc =? -1)%Z; [split; assumption|].
    destruct (Utils.tokenize content Config.STOP_WORDS) as [|t ts].
    - destruct (add_links_spec doc links db1) as (H1 & _ & _ & H4 & _).
      rewrite H1, H4. split; [exact Hok1|].
      apply add_links_links; [reflexivity|exact Hlinks1].
    - set (tokens := t :: ts).
      set (pc := WebParser.positions_from 0 tokens []).
      destruct (index_terms_frame doc pc (WebParser.Counter tokens) db1)
        as (Hl2 & Hd2 & Hs2).
      set (db2 := WebParser.index_terms doc (WebParser.Counter tokens) pc db1) in *.
      destruct (add_links_spec doc links db2) as (H1 & _ & _ & H4 & _).
      rewrite H1, H4, Hd2, Hs2. split; [exact Hok1|].
      rewrite <- Hd2. apply add_links_links; [reflexivity|].
      rewrite Hl2, Hd2. exact Hlinks1. }
  destruct H as [H1 H2]. split; [exact H1|]. split; [exact H2|].
  split.
  - rewrite doc_ids_of_documents. apply H1.
  - intros l Hl t Ht _. rewrite doc_ids_of_documents. exact (H2 l Hl t Ht).
Qed.

Lemma empty_link_graph :
  documents_ok (Database.documents Database.empty)
    (Database.seq_documents Database.empty)
  /\ links_ok (Database.links Database.empty)
       (map Database.doc_id (Database.documents Database.empty)).
Proof.
  split; [split; [constructor|intros d []]|intros l []].
Qed.

(** ** The claims about the PageRank engines *)

Lemma supersteps_vertices (d : Q) (k : nat) (g : SimplePregelGraph.t) :
  SimplePregelGraph.vertices (supersteps d k g)
  = Nat.iter k (superstep_vertices d) (SimplePregelGraph.vertices g).
Proof.
  unfold supersteps. induction k as [|k IH]; [reflexivity|].
  rewrite !Nat.iter_succ, run_superstep_vertices, IH. reflexivity.
Qed.

Lemma pregel_start_spec (cfg : Config.pagerank_config) (db : Database.t) :
  link_graph_ok db -> doc_ids_of db <> [] ->
  pregel_start cfg db = Ok (pregel_engine cfg db, Some (initial_graph db)).
Proof.
  intros Hok Hne. unfold pregel_start.
  rewrite (pregel_init_spec cfg db Hok Hne). cbn [bind pregel_engine PageRankPregel.graph].
  rewrite (initialize_built db Hne). reflexivity.
Qed.

Lemma pregel_scores_after (cfg : Config.pagerank_config) (db : Database.t) (k : nat) :
  link_graph_ok db ->
  SimplePregelGraph.vertices
    (supersteps (Config.damping_factor cfg) k (initial_graph db))
  = pregel_vertices (Config.damping_factor cfg) db k
  /\ PageRankPregel.get_current_pagerank
       (PageRankPregel.set_graph (pregel_engine cfg db)
          (supersteps (Config.damping_factor cfg) k (initial_graph db)))
     = Ok (scores_of (doc_ids_of db)
             (pregel_vertices (Config.damping_factor cfg) db k)).
Proof.
  intros [Hnd _].
  assert (Hv : SimplePregelGraph.vertices
                 (supersteps (Config.damping_factor cfg) k (initial_graph db))
               = pregel_vertices (Config.damping_factor cfg) db k)
    by apply supersteps_vertices.
  split; [exact Hv|].
  unfold PageRankPregel.get_current_pagerank.
  cbn [PageRankPregel.set_graph PageRankPregel.graph PageRankPregel.index_to_id
       pregel_engine].
  rewrite Hv. apply pagerank_of_spec; [exact Hnd|apply pregel_vertices_length].
Qed.

(** C3, in exact arithmetic.  On a corpus with a document, with a damping
    factor [0 < d <= 1], after every superstep of the Pregel engine and
    after every iteration of the MapReduce engine, started from the uniform
    scores [1/N], the scores of the documents, computed without rounding,
    add up to at most [1], and to [1] only when no document has zero
    outdegree.  The scores that the code computes in binary64 can add up
    to more: see [scores_sum_above_one_in_binary64]. *)
Theorem scores_sum_at_most_one :
  forall (cfg : Config.pagerank_config) (db : Database.t),
    link_graph_ok db -> doc_ids_of db <> [] ->
    (0 < Config.damping_factor cfg <= 1)%Q ->
    pregel_start cfg db = Ok (pregel_engine cfg db, Some (initial_graph db))
    /\ forall k,
         let ids := doc_ids_of db in
         let scoresA :=
           scores_of ids
             (SimplePregelGraph.vertices
                (supersteps (Config.damping_factor cfg) (S k) (initial_graph db))) in
         let scoresB :=
           Nat.iter (S k)
             (PageRankMapReduce.calculate_pagerank_iteration
                (PageRankMapReduce.init cfg db))
             (PageRankMapReduce.pagerank (PageRankMapReduce.init cfg db)) in
         PageRankPregel.get_current_pagerank
           (PageRankPregel.set_graph (pregel_engine cfg db)
              (supersteps (Config.damping_factor cfg) (S k) (initial_graph db)))
         = Ok scoresA
         /\ (total_score ids scoresA <= 1)%Q
         /\ ((total_score ids scoresA == 1)%Q -> no_dangling db)
         /\ (total_score ids scoresB <= 1)%Q
         /\ ((total_score ids scoresB == 1)%Q -> no_dangling db).
Proof.
  intros cfg db Hok Hne Hd. pose proof Hok as [Hnd _].
  assert (Hd' : (0 <= Config.damping_factor cfg <= 1)%Q) by lra.
  split; [exact (pregel_start_spec cfg db Hok Hne)|].
  intros k ids scoresA scoresB.
  destruct (pregel_scores_after cfg db (S k) Hok) as [Hv Hget].
  subst scoresA. rewrite Hv.
  rewrite (scores_of_total ids _ Hnd (pregel_vertices_length _ db (S k))).
  destruct (pregel_invariant _ db Hok Hne Hd' (S k)) as (_ & _ & HleA).
  destruct (mapreduce_invariant cfg db Hok Hne Hd' (S k)) as [_ HleB].
  split; [exact Hget|]. split; [exact HleA|].
  split; [exact (pregel_full _ db Hok Hne Hd k)|].
  split; [exact HleB|exact (mapreduce_full cfg db Hok Hne Hd k)].
Qed.

(** ** A corpus of two documents *)

Lemma chain_corpus_ok : link_graph_ok chain_corpus.
Proof.
  split.
  - vm_compute. repeat constructor; simpl; intuition discriminate.
  - intros l Hl t Ht Hne. vm_compute in Hl. destruct Hl as [<-|[]].
    simpl in Ht. injection Ht as <-. vm_compute. auto.
Defined.

Lemma chain_corpus_documents : doc_ids_of chain_corpus <> [].
Proof. vm_compute. discriminate. Defined.

Lemma default_damping : (0 < Config.damping_factor Config.PAGERANK_CONFIG <= 1)%Q.
Proof. split; vm_compute; [reflexivity|discriminate]. Defined.

Lemma scores_sum_witness :
  link_graph_ok chain_corpus
  /\ doc_ids_of chain_corpus <> []
  /\ (0 < Config.damping_factor Config.PAGERANK_CONFIG <= 1)%Q
  /\ (total_score (doc_ids_of chain_corpus)
        (Nat.iter 1
           (PageRankMapReduce.calculate_pagerank_iteration
              (PageRankMapReduce.init Config.PAGERANK_CONFIG chain_corpus))
           (PageRankMapReduce.pagerank
              (PageRankMapReduce.init Config.PAGERANK_CONFIG chain_corpus)))
      <= 1)%Q.
Proof.
  split; [exact chain_corpus_ok|]. split; [exact chain_corpus_documents|].
  split; [exact default_damping|].
  exact (proj1 (proj2 (proj2 (proj2
           (proj2 (scores_sum_at_most_one Config.PAGERANK_CONFIG chain_corpus
                     chain_corpus_ok chain_corpus_documents default_damping) 0))))).
Defined.

Lemma equal_within (a b tolerance : Q) :
  (a == b)%Q -> (0 < tolerance)%Q -> (Qabs (a - b) < tolerance)%Q.
Proof.
  intros E Ht.
  assert (H : (a - b == 0)%Q) by (rewrite E; ring).
  rewrite H. exact Ht.
Qed.

(** C1, amended, in exact arithmetic.  On a corpus with a document, for
    the same damping factor and a tolerance above zero, the score of every
    document after [k] supersteps of the Pregel engine and its score after
    [k] iterations of the MapReduce engine, computed without rounding,
    differ by less than the tolerance as long as no vertex was marked
    inactive in an earlier superstep, and so after the first round; with
    an iteration cap of [1] both [calculate] return, and the scores that
    they return differ by less than the tolerance at every document.  In
    binary64 the two engines add the same shares in different orders: see
    [engines_round_differently]. *)
Theorem engines_agree_round_by_round :
  forall (cfg : Config.pagerank_config) (db : Database.t),
    link_graph_ok db -> doc_ids_of db <> [] ->
    (0 < Config.tolerance cfg)%Q ->
    pregel_start cfg db = Ok (pregel_engine cfg db, Some (initial_graph db))
    /\ (forall k,
          (forall j, j < k ->
             all_active (SimplePregelGraph.vertices
                           (supersteps (Config.damping_factor cfg) j
                              (initial_graph db)))) ->
          exists scoresA,
            PageRankPregel.get_current_pagerank
              (PageRankPregel.set_graph (pregel_engine cfg db)
                 (supersteps (Config.damping_factor cfg) k (initial_graph db)))
            = Ok scoresA
            /\ forall id, In id (doc_ids_of db) ->
                 (Qabs (Dict.get_default Z.eq_dec id 0 scoresA
                        - Dict.get_default Z.eq_dec id 0
                            (Nat.iter k
                               (PageRankMapReduce.calculate_pagerank_iteration
                                  (PageRankMapReduce.init cfg db))
                               (PageRankMapReduce.pagerank
                                  (PageRankMapReduce.init cfg db))))
                  < Config.tolerance cfg)%Q)
    /\ (Config.max_iterations cfg = 1 ->
        exists scoresA selfA dbA scoresB selfB dbB,
          PageRankPregel.calculate (pregel_engine cfg db) db
          = Ok (scoresA, selfA, dbA)
          /\ PageRankMapReduce.calculate (PageRankMapReduce.init cfg db) db
             = Ok (scoresB, selfB, dbB)
          /\ forall id, In id (doc_ids_of db) ->
               (Qabs (Dict.get_default Z.eq_dec id 0 scoresA
                      - Dict.get_default Z.eq_dec id 0 scoresB)
                < Config.tolerance cfg)%Q).
Proof.
  intros cfg db Hok Hne Htol.
  split; [exact (pregel_start_spec cfg db Hok Hne)|]. split.
  - intros k Hact.
    destruct (pregel_scores_after cfg db k Hok) as [_ Hget].
    eexists. split; [exact Hget|]. intros id Hid.
    apply equal_within; [|exact Htol].
    apply (engines_agree_while_active cfg db Hok k); [|exact Hid].
    intros j Hj. specialize (Hact j Hj).
    now rewrite (proj1 (pregel_scores_after cfg db j Hok)) in Hact.
  - intros Hcap.
    destruct (pregel_calculate_spec cfg db Hok Hne) as (_ & kA & selfA & dbA & HA1 & HA2 & HA).
    destruct (mapreduce_calculate_spec cfg db Hne) as (kB & selfB & dbB & HB1 & HB2 & HB).
    rewrite Hcap in HA1, HA2, HB1, HB2.
    assert (kA = 1) by (specialize (HA2 Nat.lt_0_1); lia).
    assert (kB = 1) by (specialize (HB2 Nat.lt_0_1); lia). subst kA kB.
    do 6 eexists. split; [exact HA|]. split; [exact HB|].
    intros id Hid.
    apply equal_within; [|exact Htol].
    apply (engines_agree_while_active cfg db Hok 1); [|exact Hid].
    intros j Hj. assert (j = 0) by lia. subst j.
    unfold all_active, pregel_vertices, initial_vertices. cbn [Nat.iter].
    apply Forall_map, Forall_forall. intros e _. reflexivity.
Qed.

Lemma default_tolerance : (0 < Config.tolerance Config.PAGERANK_CONFIG)%Q.
Proof. vm_compute. reflexivity. Defined.

Lemma engines_agree_witness :
  link_graph_ok chain_corpus
  /\ doc_ids_of chain_corpus <> []
  /\ (0 < Config.tolerance Config.PAGERANK_CONFIG)%Q
  /\ exists scoresA,
       PageRankPregel.get_current_pagerank
         (PageRankPregel.set_graph
            (pregel_engine Config.PAGERANK_CONFIG chain_corpus)
            (supersteps (Config.damping_factor Config.PAGERANK_CONFIG) 1
               (initial_graph chain_corpus)))
       = Ok scoresA
       /\ forall id, In id (doc_ids_of chain_corpus) ->
            (Qabs (Dict.get_default Z.eq_dec id 0 scoresA
                   - Dict.get_default Z.eq_dec id 0
                       (Nat.iter 1
                          (PageRankMapReduce.calculate_pagerank_iteration
                             (PageRankMapReduce.init Config.PAGERANK_CONFIG
                                chain_corpus))
                          (PageRankMapReduce.pagerank
                             (PageRankMapReduce.init Config.PAGERANK_CONFIG
                                chain_corpus))))
             < Config.tolerance Config.PAGERANK_CONFIG)%Q.
Proof.
  split; [exact chain_corpus_ok|]. split; [exact chain_corpus_documents|].
  split; [exact default_tolerance|].
  apply (proj1 (proj2 (engines_agree_round_by_round Config.PAGERANK_CONFIG
                         chain_corpus chain_corpus_ok chain_corpus_documents
                         default_tolerance)) 1).
  intros j Hj. assert (E : j = 0) by lia. rewrite E.
  vm_compute. repeat constructor.
Defined.

(** C1 as stated fails: with the configuration of [config.py], on the two
    documents of [chain_corpus], the Pregel engine returns [3/40] for the
    second document and the MapReduce engine [111/800]. *)
Lemma engines_not_within_tolerance :
  ~ engines_within_tolerance Config.PAGERANK_CONFIG chain_corpus.
Proof.
  destruct (PageRankPregel.init Config.PAGERANK_CONFIG chain_corpus)
    as [selfA|e] eqn:EA; [|vm_compute in EA; discriminate].
  pose proof EA as EA'. vm_compute in EA'. injection EA' as EA'.
  destruct (PageRankPregel.calculate selfA chain_corpus)
    as [[[ranksA selfA'] dbA]|e] eqn:EC;
    [|rewrite <- EA' in EC; vm_compute in EC; discriminate].
  pose proof EC as EC'. rewrite <- EA' in EC'. vm_compute in EC'.
  injection EC' as E1 E2 E3.
  destruct (PageRankMapReduce.calculate
              (PageRankMapReduce.init Config.PAGERANK_CONFIG chain_corpus)
              chain_corpus)
    as [[[ranksB selfB'] dbB]|e] eqn:EB; [|vm_compute in EB; discriminate].
  pose proof EB as EB'. vm_compute in EB'. injection EB' as F1 F2 F3.
  assert (Hin : In 2%Z (doc_ids_of chain_corpus)) by (vm_compute; auto).
  intros H.
  pose proof (H selfA ranksA selfA' dbA ranksB selfB' dbB EA EC EB 2%Z Hin)
    as H2.
  rewrite <- E1, <- F1 in H2. vm_compute in H2. discriminate.
Qed.


(** ** The engines in binary64 *)

(** C3 as stated fails of the scores that the code computes: on the
    documents and links of [test_with_local_data], where every document
    has a link, the scores of the MapReduce engine after 14 iterations are
    binary64 numbers whose sum, taken without rounding, is above [1]. *)
Lemma scores_sum_above_one_in_binary64 :
  ~ sum_at_most_one_binary64 Config.PAGERANK_CONFIG local_test_corpus.
Proof.
  intros H. specialize (H 13). vm_compute in H. apply H. reflexivity.
Qed.

(** Added up in binary64, in the order of the dictionary, the same scores
    give a number above [1] as well: [1.0000000000000002], the binary64
    number next to [1]. *)
Lemma scores_float_sum_above_one :
  Binary64.sum
    (Dict.values (mapreduce_scores64 Config.PAGERANK_CONFIG local_test_corpus 14))
  = Binary64.add (Binary64.of_Z 1) (S754_finite false 1 (-52)).
Proof. vm_compute. reflexivity. Qed.

(** The corpus of the lemma above has the link graph that the theorems
    about the engines ask for, and no document of it is without a link. *)
Lemma local_test_corpus_ok :
  link_graph_ok local_test_corpus
  /\ doc_ids_of local_test_corpus = [1; 2; 3; 4]%Z
  /\ no_dangling local_test_corpus.
Proof.
  assert (Hids : doc_ids_of local_test_corpus = [1; 2; 3; 4]%Z)
    by (vm_compute; reflexivity).
  assert (Hlinks : map Database.target_doc_id (Database.links local_test_corpus)
                   = [Some 2; Some 3; Some 1; Some 3; Some 1; Some 2]%Z)
    by (vm_compute; reflexivity).
  split; [|split; [exact Hids|]].
  - split.
    + rewrite Hids. repeat constructor; cbn [In]; intuition discriminate.
    + intros l Hl t Ht _. rewrite Hids.
      apply (in_map Database.target_doc_id) in Hl.
      rewrite Hlinks, Ht in Hl. cbn [In] in Hl |- *.
      intuition congruence.
  - intros id Hid. rewrite Hids in Hid. cbn [In] in Hid.
    destruct Hid as [<- | [<- | [<- | [<- | []]]]];
      vm_compute; discriminate.
Qed.

(** In binary64 the two engines agree up to rounding only.  On
    [rounding_corpus] every vertex of the Pregel engine is active through
    the first four supersteps, and after the fourth round the two engines
    hold different binary64 numbers for document 4: the MapReduce engine
    adds the shares in the order of its dictionary, the Pregel engine in
    the order of the vertices.  The two numbers differ by less than the
    tolerance. *)
Lemma engines_round_differently :
  exists scoresA a b,
    pregel_scores64 Config.PAGERANK_CONFIG rounding_corpus 4 = Ok scoresA
    /\ Dict.get Z.eq_dec 4%Z scoresA = Some a
    /\ Dict.get Z.eq_dec 4%Z
         (mapreduce_scores64 Config.PAGERANK_CONFIG rounding_corpus 4)
       = Some b
    /\ a <> b
    /\ (Qabs (Binary64.to_Q a - Binary64.to_Q b)
        < Config.tolerance Config.PAGERANK_CONFIG)%Q
    /\ forall j, j < 4 ->
         exists g,
           pregel_graph64 Config.PAGERANK_CONFIG rounding_corpus j
           = Ok (Some g)
           /\ forallb PregelVertex64.active (SimplePregelGraph64.vertices g)
              = true.
Proof.
  do 3 eexists.
  split; [vm_compute; reflexivity|].
  split; [vm_compute; reflexivity|].
  split; [vm_compute; reflexivity|].
  split; [discriminate|].
  split; [vm_compute; reflexivity|].
  intros j Hj.
  destruct j as [|[|[|[|j]]]]; [| | | |lia];
    eexists; (split; [vm_compute; reflexivity|vm_compute; reflexivity]).
Qed.

(** The ten initial values of a graph of ten vertices are the binary64
    number nearest to [1/10], which is above [1/10]: their sum is above
    [1], and added one by one in binary64 they give a number below [1]. *)
Lemma initial_values_round :
  exists g,
    SimplePregelGraph64.initialize_pagerank
      (SimplePregelGraph64.of_edges (SimplePregelGraph.init 10)) = Ok g
    /\ (Binary64.to_Q
          (Binary64.sum (map PregelVertex64.value
                             (SimplePregelGraph64.vertices g)))
        < 1)%Q
    /\ (1 < Qsum (map (fun v => Binary64.to_Q (PregelVertex64.value v))
                      (SimplePregelGraph64.vertices g)))%Q.
Proof.
  eexists. split; [vm_compute; reflexivity|].
  split; vm_compute; reflexivity.
Qed.
(** ** The tables of database.py *)

Lemma find_map_inv {A : Type} (p : A -> bool) (f : A -> A) (l : list A) :
  (forall x, p (f x) = p x) ->
  find p (map f l) = option_map f (find p l).
Proof.
  intros H. induction l as [|x l IH]; [reflexivity|].
  simpl. rewrite H. destruct (p x); [reflexivity|exact IH].
Qed.

Lemma find_app_split {A : Type} (p : A -> bool) (l1 l2 : list A) :
  find p (l1 ++ l2)
  = match find p l1 with Some x => Some x | None => find p l2 end.
Proof.
  induction l1 as [|x l1 IH]; [reflexivity|].
  simpl. destruct (p x); [reflexivity|exact IH].
Qed.

Lemma find_none_iff {A : Type} (p : A -> bool) (l : list A) :
  find p l = None <-> forall x, In x l -> p x = false.
Proof.
  split; [apply find_none|].
  induction l as [|x l IH]; intros H; [reflexivity|].
  simpl. rewrite (H x (or_introl eq_refl)). apply IH.
  intros y Hy. apply H. now right.
Qed.

Lemma same_id_same_document (docs : list Database.Document)
    (d1 d2 : Database.Document) :
  NoDup (map Database.doc_id docs) ->
  In d1 docs -> In d2 docs -> Database.doc_id d1 = Database.doc_id d2 ->
  d1 = d2.
Proof.
  induction docs as [|d docs IH]; intros Hnd H1 H2 E; [contradiction|].
  simpl in Hnd. inversion Hnd as [|? ? Hd Hnd']; subst.
  destruct H1 as [<-|H1], H2 as [<-|H2].
  - reflexivity.
  - exfalso. apply Hd. rewrite E. now apply in_map.
  - exfalso. apply Hd. rewrite <- E. now apply in_map.
  - now apply IH.
Qed.

(** What [add_document] returns, in terms of the table after
    [INSERT OR IGNORE]. *)
Lemma add_document_unfold (u ti c : str) (db : Database.t) :
  exists d,
    find (fun d => str_eqb (Database.url d) u)
         (Database.documents (Database.insert_or_ignore_document u ti c db))
    = Some d
    /\ Database.add_document u ti c db
       = (Database.doc_id d,
          Database.update_document (Database.doc_id d) ti c
            (Database.insert_or_ignore_document u ti c db)).
Proof.
  assert (H : exists d,
             find (fun d => str_eqb (Database.url d) u)
                  (Database.documents (Database.insert_or_ignore_document u ti c db))
             = Some d).
  { unfold Database.insert_or_ignore_document, Database.get_document_id.
    destruct (find _ (Database.documents db)) as [d|] eqn:E; simpl.
    - exists d. exact E.
    - eexists. rewrite find_app_split, E. simpl.
      unfold str_eqb. destruct (str_eq_dec u u) as [_|Hn]; [reflexivity|].
      now contradiction Hn. }
  destruct H as [d Hd]. exists d. split; [exact Hd|].
  unfold Database.add_document, Database.get_document_id. rewrite Hd. reflexivity.
Qed.

(** X1.  A document that [add_document] has stored is found again: its url
    leads to the id returned, and the id to the content, the url and the
    title given, whether the url was known before or not. *)
Theorem add_document_lookup :
  forall (u ti c : str) (db : Database.t),
    documents_ok (Database.documents db) (Database.seq_documents db) ->
    let id := fst (Database.add_document u ti c db) in
    let db' := snd (Database.add_document u ti c db) in
    Database.get_document_id u db' = Some id
    /\ Database.get_document_content id db' = Some c
    /\ Database.get_document_url id db' = Some u
    /\ Database.get_document_info id db' = Some (u, ti).
Proof.
  intros u ti c db Hok id db'.
  destruct (insert_or_ignore_documents u ti c db Hok) as ([Hnd _] & _ & _).
  destruct (add_document_unfold u ti c db) as (d & Hd & E).
  subst id db'. rewrite E. cbn [fst snd].
  set (db1 := Database.insert_or_ignore_document u ti c db) in *.
  set (upd := fun d0 : Database.Document =>
                if (Database.doc_id d0 =? Database.doc_id d)%Z
                then {| Database.doc_id := Database.doc_id d0;
                        Database.url := Database.url d0;
                        Database.title := ti; Database.content := c;
                        Database.content_length := length c |}
                else d0).
  assert (Hurl : forall x, str_eqb (Database.url (upd x)) u
                           = str_eqb (Database.url x) u).
  { intros x. unfold upd. now destruct (Database.doc_id x =? Database.doc_id d)%Z. }
  assert (Hid : forall x, (Database.doc_id (upd x) =? Database.doc_id d)%Z
                          = (Database.doc_id x =? Database.doc_id d)%Z).
  { intros x. unfold upd.
    destruct (Database.doc_id x =? Database.doc_id d)%Z eqn:Ex; simpl; exact Ex. }
  assert (Hbyid : find (fun x => (Database.doc_id x =? Database.doc_id d)%Z)
                       (Database.documents db1) = Some d).
  { destruct (find (fun x => (Database.doc_id x =? Database.doc_id d)%Z)
                   (Database.documents db1)) as [d'|] eqn:E'.
    - apply find_some in E' as [Hin' Hd'].
      apply find_some in Hd as [Hin _].
      apply Z.eqb_eq in Hd'.
      now rewrite (same_id_same_document _ d' d Hnd Hin' Hin Hd').
    - apply find_some in Hd as [Hin _].
      pose proof (find_none _ _ E' d Hin) as Hf. simpl in Hf.
      rewrite Z.eqb_refl in Hf. discriminate. }
  assert (Hu : Database.url d = u).
  { apply find_some in Hd as [_ Hd]. now apply str_eqb_eq. }
  assert (Hupd : upd d = {| Database.doc_id := Database.doc_id d;
                            Database.url := u; Database.title := ti;
                            Database.content := c;
                            Database.content_length := length c |}).
  { unfold upd. now rewrite Z.eqb_refl, Hu. }
  unfold Database.get_document_id, Database.get_document_content,
    Database.get_document_url, Database.get_document_info,
    Database.update_document.
  cbn [Database.documents]. fold upd.
  rewrite (find_map_inv _ upd _ Hurl), (find_map_inv _ upd _ Hid), Hd, Hbyid.
  cbn [option_map]. rewrite Hupd. simpl.
  now destruct (Database.doc_id d =? Database.doc_id d)%Z.
Qed.

Lemma add_document_lookup_witness :
  documents_ok (Database.documents Database.empty)
    (Database.seq_documents Database.empty)
  /\ Database.get_document_id (py "http://example.com/a")
       (snd (Database.add_document (py "http://example.com/a") (py "A")
               (py "alpha") Database.empty))
     = Some (fst (Database.add_document (py "http://example.com/a") (py "A")
                    (py "alpha") Database.empty)).
Proof.
  assert (H : documents_ok (Database.documents Database.empty)
                (Database.seq_documents Database.empty))
    by (split; [constructor|intros d []]).
  split; [exact H|].
  pose proof (add_document_lookup (py "http://example.com/a") (py "A")
                (py "alpha") Database.empty H) as P.
  cbv zeta in P. exact (proj1 P).
Defined.

(** X2.  [add_document] is an upsert on the url.  For a known url it
    returns the id the url has and the table keeps its size; for a new url
    it returns an id that no document has and the table grows by one row.
    In both cases the rows of the other ids stay as they are. *)
Theorem add_document_upsert :
  forall (u ti c : str) (db : Database.t),
    documents_ok (Database.documents db) (Database.seq_documents db) ->
    let id := fst (Database.add_document u ti c db) in
    let db' := snd (Database.add_document u ti c db) in
    match Database.get_document_id u db with
    | Some id0 =>
        id = id0
        /\ Database.get_total_documents db' = Database.get_total_documents db
    | None =>
        ~ In id (map Database.doc_id (Database.documents db))
        /\ Database.get_total_documents db' = S (Database.get_total_documents db)
    end
    /\ forall id', id' <> id ->
         Database.get_document_content id' db' = Database.get_document_content id' db
         /\ Database.get_document_info id' db' = Database.get_document_info id' db.
Proof.
  intros u ti c db [Hnd Hle] id db'.
  destruct (add_document_unfold u ti c db) as (d & Hd & E).
  subst id db'. rewrite E. cbn [fst snd]. clear E.
  set (upd := fun d0 : Database.Document =>
                if (Database.doc_id d0 =? Database.doc_id d)%Z
                then {| Database.doc_id := Database.doc_id d0;
                        Database.url := Database.url d0;
                        Database.title := ti; Database.content := c;
                        Database.content_length := length c |}
                else d0).
  assert (Hother : forall id' l, id' <> Database.doc_id d ->
            find (fun x => (Database.doc_id x =? id')%Z) (map upd l)
            = find (fun x => (Database.doc_id x =? id')%Z) l).
  { intros id' l Hne.
    assert (Hupd : forall x, Database.doc_id (upd x) = Database.doc_id x).
    { intros x. unfold upd.
      now destruct (Database.doc_id x =? Database.doc_id d)%Z. }
    assert (Hfix : forall x, Database.doc_id x <> Database.doc_id d -> upd x = x).
    { intros x Hx. unfold upd.
      destruct (Database.doc_id x =? Database.doc_id d)%Z eqn:Ex; [|reflexivity].
      apply Z.eqb_eq in Ex. contradiction. }
    induction l as [|x l IH]; [reflexivity|].
    simpl. rewrite Hupd.
    destruct (Database.doc_id x =? id')%Z eqn:Ex'; [|exact IH].
    apply Z.eqb_eq in Ex'. rewrite Hfix by congruence. reflexivity. }
  unfold Database.get_total_documents, Database.get_document_content,
    Database.get_document_info, Database.update_document.
  cbn [Database.documents]. fold upd. rewrite length_map.
  revert Hd. unfold Database.insert_or_ignore_document, Database.get_document_id.
  destruct (find (fun d0 => str_eqb (Database.url d0) u) (Database.documents db))
    as [d0|] eqn:E0; cbn [option_map Database.documents]; intros Hd.
  - rewrite E0 in Hd. injection Hd as <-.
    split; [split; reflexivity|].
    intros id' Hne. now rewrite (Hother id' _ Hne).
  - rewrite find_app_split, E0 in Hd. simpl in Hd.
    destruct (str_eqb u u); [|discriminate]. injection Hd as <-.
    cbn [Database.doc_id] in *.
    split.
    + split.
      * intros Hin. apply in_map_iff in Hin as (x & Hx & Hin).
        specialize (Hle x Hin). lia.
      * rewrite length_app. simpl. lia.
    + intros id' Hne. rewrite (Hother id' _ Hne), find_app_split. simpl.
      destruct (Database.seq_documents db + 1 =? id')%Z eqn:Ex;
        [apply Z.eqb_eq in Ex; congruence|].
      destruct (find (fun x => (Database.doc_id x =? id')%Z) (Database.documents db));
        split; reflexivity.
Qed.

Lemma add_document_upsert_witness :
  documents_ok (Database.documents Database.empty)
    (Database.seq_documents Database.empty)
  /\ Database.get_total_documents
       (snd (Database.add_document (py "http://example.com/a") (py "A")
               (py "alpha") Database.empty))
     = 1.
Proof.
  assert (H : documents_ok (Database.documents Database.empty)
                (Database.seq_documents Database.empty))
    by (split; [constructor|intros d []]).
  split; [exact H|].
  pose proof (add_document_upsert (py "http://example.com/a") (py "A")
                (py "alpha") Database.empty H) as P.
  cbv zeta in P. exact (proj2 (proj1 P)).
Defined.

Lemma add_word_effect :
  forall (w : str) (db : Database.t),
    well_formed db ->
    let id := fst (Database.add_word w db) in
    let db' := snd (Database.add_word w db) in
    Database.get_word_id w db' = Some id
    /\ Database.get_word_frequency w db'
       = (Database.get_word_frequency w db + 1)%Z
    /\ fst (Database.add_word w db') = id
    /\ forall w', w' <> w ->
         Database.get_word_id w' db' = Database.get_word_id w' db
         /\ Database.get_word_frequency w' db' = Database.get_word_frequency w' db.
Proof.
  intros w db Hwf id db'.
  assert (Hid : Database.get_word_id w db' = Some id
                -> fst (Database.add_word w db') = id).
  { intros H. unfold Database.add_word. now rewrite H. }
  subst id db'.
  destruct (Database.add_word w db) as [id db'] eqn:E. cbn [fst snd] in *.
  unfold Database.add_word, Database.get_word_id in E.
  unfold Database.get_word_frequency at 2.
  destruct (find (fun r => str_eqb (Database.word r) w) (Database.words db))
    as [r0|] eqn:E0; cbn [option_map] in E; injection E as <- <-.
  - set (upd := fun r : Database.Word =>
                  if (Database.word_id r =? Database.word_id r0)%Z
                  then {| Database.word_id := Database.word_id r;
                          Database.word := Database.word r;
                          Database.frequency := (Database.frequency r + 1)%Z |}
                  else r).
    assert (Hword : forall w' x, str_eqb (Database.word (upd x)) w'
                                 = str_eqb (Database.word x) w').
    { intros w' x. unfold upd.
      now destruct (Database.word_id x =? Database.word_id r0)%Z. }
    assert (Hfind : forall w',
              find (fun r => str_eqb (Database.word r) w')
                   (map upd (Database.words db))
              = option_map upd
                  (find (fun r => str_eqb (Database.word r) w') (Database.words db))).
    { intros w'. apply find_map_inv. intros x. apply Hword. }
    assert (H0 : upd r0 = {| Database.word_id := Database.word_id r0;
                             Database.word := Database.word r0;
                             Database.frequency := (Database.frequency r0 + 1)%Z |}).
    { unfold upd. now rewrite Z.eqb_refl. }
    assert (Hget : Database.get_word_id w
                     {| Database.documents := Database.documents db;
                        Database.words := map upd (Database.words db);
                        Database.links := Database.links db;
                        Database.inverted_index := Database.inverted_index db;
                        Database.pagerank := Database.pagerank db;
                        Database.seq_documents := Database.seq_documents db;
                        Database.seq_words := Database.seq_words db |}
                   = Some (Database.word_id r0)).
    { unfold Database.get_word_id. cbn [Database.words].
      rewrite Hfind, E0. cbn [option_map]. now rewrite H0. }
    fold upd in Hid |- *.
    split; [exact Hget|]. split; [|split; [exact (Hid Hget)|]].
    + unfold Database.get_word_frequency. cbn [Database.words].
      rewrite Hfind, E0. cbn [option_map]. now rewrite H0.
    + intros w' Hne.
      unfold Database.get_word_id, Database.get_word_frequency.
      cbn [Database.words]. rewrite Hfind.
      destruct (find (fun r => str_eqb (Database.word r) w') (Database.words db))
        as [r'|] eqn:E'; cbn [option_map]; [|split; reflexivity].
      assert (Hsame : upd r' = r').
      { unfold upd.
        destruct (Database.word_id r' =? Database.word_id r0)%Z eqn:Ex;
          [|reflexivity].
        apply Z.eqb_eq in Ex.
        apply find_some in E' as [Hin' Hw'].
        apply find_some in E0 as [Hin0 Hw0].
        apply str_eqb_eq in Hw', Hw0.
        pose proof (wf_word_of_id Hwf r' r0 Hin' Hin0 Ex). congruence. }
      now rewrite Hsame.
  - assert (Hww : str_eqb w w = true) by now apply str_eqb_eq.
    assert (Hget : Database.get_word_id w
                     {| Database.documents := Database.documents db;
                        Database.words :=
                          Database.words db ++
                          [{| Database.word_id := (Database.seq_words db + 1)%Z;
                              Database.word := w; Database.frequency := 1 |}];
                        Database.links := Database.links db;
                        Database.inverted_index := Database.inverted_index db;
                        Database.pagerank := Database.pagerank db;
                        Database.seq_documents := Database.seq_documents db;
                        Database.seq_words := (Database.seq_words db + 1)%Z |}
                   = Some (Database.seq_words db + 1)%Z).
    { unfold Database.get_word_id. cbn [Database.words].
      rewrite find_app_split, E0. simpl. now rewrite Hww. }
    split; [exact Hget|]. split; [|split; [exact (Hid Hget)|]].
    + unfold Database.get_word_frequency. cbn [Database.words].
      rewrite find_app_split, E0. simpl. now rewrite Hww.
    + intros w' Hne.
      unfold Database.get_word_id, Database.get_word_frequency.
      cbn [Database.words]. rewrite find_app_split.
      destruct (find (fun r => str_eqb (Database.word r) w') (Database.words db));
        [split; reflexivity|].
      simpl. destruct (str_eqb w w') eqn:Ew; [|split; reflexivity].
      apply str_eqb_eq in Ew. congruence.
Qed.

(** X3.  [add_word] counts its calls per word: the word has the id
    returned, its frequency is one more than before (one for a new word),
    another call returns the same id, and the ids and frequencies of the
    other words are as before. *)
Theorem add_word_counts_calls :
  forall (w : str) (db : Database.t),
    well_formed db ->
    let id := fst (Database.add_word w db) in
    let db' := snd (Database.add_word w db) in
    Database.get_word_id w db' = Some id
    /\ Database.get_word_frequency w db'
       = (Database.get_word_frequency w db + 1)%Z
    /\ fst (Database.add_word w db') = id
    /\ forall w', w' <> w ->
         Database.get_word_id w' db' = Database.get_word_id w' db
         /\ Database.get_word_frequency w' db' = Database.get_word_frequency w' db.
Proof.
  exact add_word_effect.
Qed.

Lemma add_word_counts_calls_witness :
  well_formed Database.empty
  /\ Database.get_word_frequency (py "alpha")
       (snd (Database.add_word (py "alpha") Database.empty))
     = (Database.get_word_frequency (py "alpha") Database.empty + 1)%Z.
Proof.
  assert (H : well_formed Database.empty)
    by (constructor; simpl; try lia; intros; contradiction).
  split; [exact H|].
  pose proof (add_word_counts_calls (py "alpha") Database.empty H) as P.
  cbv zeta in P. exact (proj1 (proj2 P)).
Defined.




(** X5.  The two views of the table of links agree: [s] is among the
    incoming links of [t] exactly when a link resolved to [t] is among the
    outgoing links of [s]. *)
Theorem incoming_links_are_outgoing_links :
  forall (s t : Z) (db : Database.t),
    In s (Database.get_incoming_links t db)
    <-> exists u, In (Some t, u) (Database.get_outgoing_links s db).
Proof.
  intros s t db.
  unfold Database.get_incoming_links, Database.get_outgoing_links.
  rewrite in_map_iff. split.
  - intros (l & Hs & Hl). apply filter_In in Hl as [Hl Ht].
    destruct (Database.target_doc_id l) as [x|] eqn:Ex; [|discriminate].
    apply Z.eqb_eq in Ht. subst x s.
    exists (Database.target_url l). apply in_map_iff. exists l.
    split; [now rewrite Ex|]. apply sort_by_in.
    apply filter_In. split; [exact Hl|].
    apply Z.eqb_refl.
  - intros (u & Hu). apply in_map_iff in Hu as (l & El & Hl).
    apply sort_by_in in Hl.
    apply filter_In in Hl as [Hl Hs]. injection El as Et Eu.
    exists l. split; [now apply Z.eqb_eq|].
    apply filter_In. split; [exact Hl|]. rewrite Et. apply Z.eqb_refl.
Qed.

Lemma find_filter_other {A : Type} (p q : A -> bool) (l : list A) :
  (forall x, p x = true -> q x = true) ->
  find p (filter q l) = find p l.
Proof.
  intros H. induction l as [|x l IH]; [reflexivity|].
  simpl. destruct (q x) eqn:Eq; simpl.
  - destruct (p x); [reflexivity|exact IH].
  - destruct (p x) eqn:Ep; [|exact IH].
    rewrite (H x Ep) in Eq. discriminate.
Qed.

(** X6.  The score written by [update_pagerank] is the score that
    [get_pagerank] reads, the scores of the other documents are as before,
    and a document without a row has the score [1.0]. *)
Theorem update_pagerank_lookup :
  forall (d : Z) (rank : Q) (iteration : nat) (db : Database.t),
    Database.get_pagerank d (Database.update_pagerank d rank iteration db) = rank
    /\ (forall d', d' <> d ->
          Database.get_pagerank d' (Database.update_pagerank d rank iteration db)
          = Database.get_pagerank d' db)
    /\ ((forall r, In r (Database.pagerank db) -> Database.r_doc_id r <> d) ->
        Database.get_pagerank d db = 1%Q).
Proof.
  intros d rank iteration db. split; [|split].
  - unfold Database.get_pagerank, Database.update_pagerank.
    cbn [Database.pagerank]. rewrite find_app_split.
    assert (H : find (fun r => (Database.r_doc_id r =? d)%Z)
                  (filter (fun r => negb (Database.r_doc_id r =? d)%Z)
                          (Database.pagerank db)) = None).
    { apply find_none_iff. intros x Hx. apply filter_In in Hx as [_ Hx].
      now destruct (Database.r_doc_id x =? d)%Z. }
    rewrite H. simpl. now rewrite Z.eqb_refl.
  - intros d' Hne. unfold Database.get_pagerank, Database.update_pagerank.
    cbn [Database.pagerank]. rewrite find_app_split, find_filter_other.
    + destruct (find _ (Database.pagerank db)); [reflexivity|].
      simpl. destruct (d =? d')%Z eqn:E; [|reflexivity].
      apply Z.eqb_eq in E. congruence.
    + intros x Hx. apply Z.eqb_eq in Hx.
      destruct (Database.r_doc_id x =? d)%Z eqn:E; [|reflexivity].
      apply Z.eqb_eq in E. congruence.
  - intros H. unfold Database.get_pagerank.
    assert (E : find (fun r => (Database.r_doc_id r =? d)%Z)
                  (Database.pagerank db) = None).
    { apply find_none_iff. intros x Hx. apply Z.eqb_neq. exact (H x Hx). }
    now rewrite E.
Qed.

(** ** The scores that the engines store *)

Lemma get_pagerank_update_same (d : Z) (r : Q) (i : nat) (db : Database.t) :
  Database.get_pagerank d (Database.update_pagerank d r i db) = r.
Proof.
  unfold Database.get_pagerank, Database.update_pagerank.
  cbn [Database.pagerank]. rewrite find_app_split.
  assert (H : find (fun x => (Database.r_doc_id x =? d)%Z)
                (filter (fun x => negb (Database.r_doc_id x =? d)%Z)
                        (Database.pagerank db)) = None).
  { apply find_none_iff. intros x Hx. apply filter_In in Hx as [_ Hx].
    now destruct (Database.r_doc_id x =? d)%Z. }
  rewrite H. simpl. now rewrite Z.eqb_refl.
Qed.

Lemma get_pagerank_update_other (d d' : Z) (r : Q) (i : nat) (db : Database.t) :
  d' <> d ->
  Database.get_pagerank d' (Database.update_pagerank d r i db)
  = Database.get_pagerank d' db.
Proof.
  intros Hne. unfold Database.get_pagerank, Database.update_pagerank.
  cbn [Database.pagerank]. rewrite find_app_split, find_filter_other.
  - destruct (find _ (Database.pagerank db)); [reflexivity|].
    simpl. destruct (d =? d')%Z eqn:E; [|reflexivity].
    apply Z.eqb_eq in E. congruence.
  - intros x Hx. apply Z.eqb_eq in Hx.
    destruct (Database.r_doc_id x =? d)%Z eqn:E; [|reflexivity].
    apply Z.eqb_eq in E. congruence.
Qed.

Lemma save_pagerank_other (ranks : Dict.t Z Q) (i : nat) (id : Z) :
  forall db,
    ~ In id (Dict.keys ranks) ->
    Database.get_pagerank id (save_pagerank ranks i db)
    = Database.get_pagerank id db.
Proof.
  unfold save_pagerank.
  induction ranks as [|[k v] ranks IH]; intros db Hn; [reflexivity|].
  simpl in *. rewrite IH by tauto.
  apply get_pagerank_update_other. intros E. apply Hn. now left.
Qed.

(** After the loop that stores a dictionary of scores, every score of the
    dictionary is the score of its document in the table. *)
Lemma save_pagerank_get (ranks : Dict.t Z Q) (i : nat) (id : Z) (r : Q) :
  forall db,
    NoDup (Dict.keys ranks) ->
    Dict.get Z.eq_dec id ranks = Some r ->
    Database.get_pagerank id (save_pagerank ranks i db) = r.
Proof.
  unfold save_pagerank.
  induction ranks as [|[k v] ranks IH]; intros db Hnd Hget; [discriminate|].
  simpl in Hnd. inversion Hnd as [|? ? Hk Hnd']; subst.
  simpl in Hget |- *. destruct (Z.eq_dec id k) as [->|Hne].
  - injection Hget as <-.
    change (fold_left _ ranks ?d) with (save_pagerank ranks i d).
    rewrite (save_pagerank_other ranks i k _ Hk).
    apply get_pagerank_update_same.
  - now apply IH.
Qed.

Lemma mapreduce_iteration_nodup (self : PageRankMapReduce.t)
    (current : Dict.t Z Q) :
  NoDup (Dict.keys (PageRankMapReduce.calculate_pagerank_iteration self current)).
Proof.
  unfold PageRankMapReduce.calculate_pagerank_iteration.
  generalize (PageRankMapReduce.doc_ids self).
  assert (H0 : NoDup (Dict.keys
                        (PageRankMapReduce.reduce_phase
                           (flat_map (fun dr => PageRankMapReduce.map_phase self
                                                  (fst dr) (snd dr)) current))))
    by (apply (reduce_phase_keys _ []); constructor).
  revert H0.
  generalize (PageRankMapReduce.reduce_phase
                (flat_map (fun dr => PageRankMapReduce.map_phase self
                                       (fst dr) (snd dr)) current)).
  intros d Hd ids. revert d Hd.
  induction ids as [|id ids IH]; intros d Hd; [exact Hd|].
  simpl. apply IH. now apply keys_set_nodup.
Qed.

(** The tables after the loop of [calculate] hold the scores of the last
    round. *)
Lemma mapreduce_loop_stores (self : PageRankMapReduce.t) :
  forall n i current db ranks db',
    0 < n ->
    PageRankMapReduce.calculate_loop self n i current db = Ok (ranks, db') ->
    NoDup (Dict.keys ranks)
    /\ exists j db0, db' = save_pagerank ranks j db0.
Proof.
  induction n as [|n IH]; intros i current db ranks db' Hn H; [lia|].
  cbn [PageRankMapReduce.calculate_loop] in H.
  destruct (PageRankMapReduce.calculate_convergence_squared self current _)
    as [c2|e]; [|discriminate].
  cbn [bind] in H.
  destruct (PageRankMapReduce.below_tolerance c2 _).
  - injection H as <- <-. split; [apply mapreduce_iteration_nodup|eauto].
  - destruct n as [|n'].
    + cbn [PageRankMapReduce.calculate_loop] in H. injection H as <- <-.
      split; [apply mapreduce_iteration_nodup|eauto].
    + exact (IH _ _ _ _ _ (Nat.lt_0_succ n') H).
Qed.

(** What [calculate] of the MapReduce engine returns and stores. *)
Lemma mapreduce_calculate_effect :
  forall (self : PageRankMapReduce.t) (db : Database.t),
    PageRankMapReduce.num_documents self <> 0 ->
    0 < PageRankMapReduce.max_iterations self ->
    exists ranks self' db',
      PageRankMapReduce.calculate self db = Ok (ranks, self', db')
      /\ PageRankMapReduce.pagerank self' = ranks
      /\ forall id r,
           Dict.get Z.eq_dec id ranks = Some r ->
           Database.get_pagerank id db' = r.
Proof.
  intros self db Hdocs Hcap.
  destruct (mapreduce_loop_spec self Hdocs (PageRankMapReduce.max_iterations self)
              0 (PageRankMapReduce.pagerank self) db) as (k & db' & _ & _ & Hloop).
  unfold PageRankMapReduce.calculate. rewrite Hloop. cbn [bind fst snd].
  do 3 eexists. split; [reflexivity|]. split; [reflexivity|].
  intros id r Hget.
  destruct (mapreduce_loop_stores self _ _ _ _ _ _ Hcap Hloop)
    as (Hnd & j & db0 & ->).
  now apply save_pagerank_get.
Qed.

(** X7.  The MapReduce engine stores what it returns.  With at least one
    document and an iteration cap above zero, [calculate] returns scores,
    keeps them in [self.pagerank], and [get_pagerank] reads the returned
    score of every document from the table. *)
Theorem mapreduce_calculate_stores_scores :
  forall (self : PageRankMapReduce.t) (db : Database.t),
    PageRankMapReduce.num_documents self <> 0 ->
    0 < PageRankMapReduce.max_iterations self ->
    exists ranks self' db',
      PageRankMapReduce.calculate self db = Ok (ranks, self', db')
      /\ PageRankMapReduce.pagerank self' = ranks
      /\ forall id r,
           Dict.get Z.eq_dec id ranks = Some r ->
           Database.get_pagerank id db' = r.
Proof. exact mapreduce_calculate_effect. Qed.

Lemma mapreduce_calculate_stores_scores_witness :
  PageRankMapReduce.num_documents
    (PageRankMapReduce.init Config.PAGERANK_CONFIG chain_corpus) <> 0
  /\ 0 < PageRankMapReduce.max_iterations
           (PageRankMapReduce.init Config.PAGERANK_CONFIG chain_corpus)
  /\ exists ranks self' db',
       PageRankMapReduce.calculate
         (PageRankMapReduce.init Config.PAGERANK_CONFIG chain_corpus) chain_corpus
       = Ok (ranks, self', db')
       /\ PageRankMapReduce.pagerank self' = ranks
       /\ forall id r,
            Dict.get Z.eq_dec id ranks = Some r ->
            Database.get_pagerank id db' = r.
Proof.
  assert (H1 : PageRankMapReduce.num_documents
                 (PageRankMapReduce.init Config.PAGERANK_CONFIG chain_corpus) <> 0)
    by (vm_compute; discriminate).
  assert (H2 : 0 < PageRankMapReduce.max_iterations
                     (PageRankMapReduce.init Config.PAGERANK_CONFIG chain_corpus))
    by (vm_compute; lia).
  split; [exact H1|]. split; [exact H2|].
  exact (mapreduce_calculate_stores_scores _ chain_corpus H1 H2).
Defined.

Lemma pregel_loop_stores (self : PageRankPregel.t) (ids : list Z) :
  NoDup ids ->
  PageRankPregel.index_to_id self = index_to_id_of ids ->
  forall n i g db g' db',
    0 < n ->
    length (SimplePregelGraph.vertices g) = length ids ->
    PageRankPregel.calculate_loop self n i g db = Ok (g', db') ->
    length (SimplePregelGraph.vertices g') = length ids
    /\ exists j db0,
         db' = save_pagerank (scores_of ids (SimplePregelGraph.vertices g')) j db0.
Proof.
  intros Hnd Hidx.
  induction n as [|n IH]; intros i g db g' db' Hn Hlen H; [lia|].
  cbn [PageRankPregel.calculate_loop] in H.
  pose proof (run_superstep_vertices (PageRankPregel.damping_factor self) g) as Hv.
  destruct (SimplePregelGraph.run_superstep (PageRankPregel.damping_factor self) g)
    as [g1 active]. cbn [fst] in Hv.
  assert (Hlen1 : length (SimplePregelGraph.vertices g1) = length ids)
    by (rewrite Hv, superstep_length; exact Hlen).
  unfold PageRankPregel.get_current_pagerank in H.
  cbn [PageRankPregel.set_graph PageRankPregel.graph PageRankPregel.index_to_id] in H.
  rewrite Hidx, (pagerank_of_spec ids _ Hnd Hlen1) in H. cbn [bind] in H.
  destruct active; cbn [negb] in H.
  - destruct n as [|n'].
    + cbn [PageRankPregel.calculate_loop] in H. injection H as <- <-.
      split; [exact Hlen1|eauto].
    + exact (IH _ _ _ _ _ (Nat.lt_0_succ n') Hlen1 H).
  - injection H as <- <-. split; [exact Hlen1|eauto].
Qed.

Lemma scores_of_nodup (ids : list Z) (vs : list PregelVertex.t) :
  NoDup ids -> length vs = length ids -> NoDup (Dict.keys (scores_of ids vs)).
Proof.
  intros Hnd Hlen. now rewrite scores_of_keys.
Qed.

(** What [calculate] of the Pregel engine returns and stores. *)
Lemma pregel_calculate_effect :
  forall (cfg : Config.pagerank_config) (db : Database.t),
    link_graph_ok db -> doc_ids_of db <> [] ->
    0 < Config.max_iterations cfg ->
    exists self ranks self' db',
      PageRankPregel.init cfg db = Ok self
      /\ PageRankPregel.calculate self db = Ok (ranks, self', db')
      /\ Dict.keys ranks = doc_ids_of db
      /\ PageRankPregel.get_current_pagerank self' = Ok ranks
      /\ forall id r,
           Dict.get Z.eq_dec id ranks = Some r ->
           Database.get_pagerank id db' = r.
Proof.
  intros cfg db Hok Hne Hcap. pose proof Hok as [Hnd _].
  exists (pregel_engine cfg db).
  assert (Hn : length (doc_ids_of db) <> 0)
    by (destruct (doc_ids_of db); [congruence|discriminate]).
  assert (Hlen0 : length (initial_vertices db) = length (doc_ids_of db)).
  { unfold initial_vertices. rewrite length_map. apply enumerate_length. }
  destruct (pregel_loop_spec (pregel_engine cfg db) (doc_ids_of db) Hnd eq_refl
              (Config.max_iterations cfg) 0 (initial_graph db) db Hlen0)
    as (k & g' & db' & _ & _ & Hloop & _).
  destruct (pregel_loop_stores (pregel_engine cfg db) (doc_ids_of db) Hnd eq_refl
              _ _ (initial_graph db) _ _ _ Hcap Hlen0 Hloop) as (Hlen & j & db0 & Hdb).
  exists (scores_of (doc_ids_of db) (SimplePregelGraph.vertices g')),
    (PageRankPregel.set_graph (pregel_engine cfg db) g'), db'.
  assert (Hget : PageRankPregel.get_current_pagerank
                   (PageRankPregel.set_graph (pregel_engine cfg db) g')
                 = Ok (scores_of (doc_ids_of db) (SimplePregelGraph.vertices g'))).
  { unfold PageRankPregel.get_current_pagerank.
    cbn [PageRankPregel.set_graph PageRankPregel.graph PageRankPregel.index_to_id
         pregel_engine].
    exact (pagerank_of_spec _ _ Hnd Hlen). }
  split; [exact (pregel_init_spec cfg db Hok Hne)|].
  split; [|split; [exact (scores_of_keys _ _ Hlen)|split; [exact Hget|]]].
  - unfold PageRankPregel.calculate.
    change (PageRankPregel.graph (pregel_engine cfg db))
      with (Some {| SimplePregelGraph.vertices :=
                      map (built_vertex db (doc_ids_of db))
                          (PageRankPregel.enumerate (doc_ids_of db));
                    SimplePregelGraph.superstep := 0;
                    SimplePregelGraph.messages := [] |}).
    change (PageRankPregel.num_documents (pregel_engine cfg db))
      with (length (doc_ids_of db)).
    change (PageRankPregel.max_iterations (pregel_engine cfg db))
      with (Config.max_iterations cfg).
    cbv iota.
    destruct (length (doc_ids_of db) =? 0) eqn:E;
      [apply Nat.eqb_eq in E; contradiction|].
    rewrite (initialize_built db Hne). cbn [bind].
    change {| SimplePregelGraph.vertices := initial_vertices db;
              SimplePregelGraph.superstep := 0;
              SimplePregelGraph.messages := [] |} with (initial_graph db).
    rewrite Hloop. cbn [bind fst snd]. rewrite Hget. reflexivity.
  - intros id r Hr. rewrite Hdb.
    apply save_pagerank_get; [|exact Hr].
    now apply scores_of_nodup.
Qed.

(** X8.  The Pregel engine stores what it returns.  On a corpus with a
    document and with a cap of at least one superstep, the engine is built,
    [calculate] returns one score per document, in the order of the
    documents, the same scores as [get_current_pagerank] gives afterwards,
    and [get_pagerank] reads the returned score of every document from the
    table. *)
Theorem pregel_calculate_stores_scores :
  forall (cfg : Config.pagerank_config) (db : Database.t),
    link_graph_ok db -> doc_ids_of db <> [] ->
    0 < Config.max_iterations cfg ->
    exists self ranks self' db',
      PageRankPregel.init cfg db = Ok self
      /\ PageRankPregel.calculate self db = Ok (ranks, self', db')
      /\ Dict.keys ranks = doc_ids_of db
      /\ PageRankPregel.get_current_pagerank self' = Ok ranks
      /\ forall id r,
           Dict.get Z.eq_dec id ranks = Some r ->
           Database.get_pagerank id db' = r.
Proof. exact pregel_calculate_effect. Qed.

Lemma pregel_calculate_stores_scores_witness :
  link_graph_ok chain_corpus
  /\ doc_ids_of chain_corpus <> []
  /\ 0 < Config.max_iterations Config.PAGERANK_CONFIG
  /\ exists self ranks self' db',
       PageRankPregel.init Config.PAGERANK_CONFIG chain_corpus = Ok self
       /\ PageRankPregel.calculate self chain_corpus = Ok (ranks, self', db')
       /\ Dict.keys ranks = doc_ids_of chain_corpus
       /\ PageRankPregel.get_current_pagerank self' = Ok ranks
       /\ forall id r,
            Dict.get Z.eq_dec id ranks = Some r ->
            Database.get_pagerank id db' = r.
Proof.
  assert (H3 : 0 < Config.max_iterations Config.PAGERANK_CONFIG)
    by (vm_compute; lia).
  split; [exact chain_corpus_ok|]. split; [exact chain_corpus_documents|].
  split; [exact H3|].
  exact (pregel_calculate_stores_scores Config.PAGERANK_CONFIG chain_corpus
           chain_corpus_ok chain_corpus_documents H3).
Defined.

(** ** The result list of the query engine *)

Lemma insert_desc_perm (x : Z * R) (l : list (Z * R)) :
  Permutation (SearchEngine.insert_desc x l) (x :: l).
Proof.
  induction l as [|y l IH]; [reflexivity|].
  simpl. destruct (Rlt_dec (snd x) (snd y)); [|reflexivity].
  rewrite IH. apply perm_swap.
Qed.

Lemma sorted_desc_perm (l : list (Z * R)) :
  Permutation (SearchEngine.sorted_desc l) l.
Proof.
  induction l as [|x l IH]; [reflexivity|].
  simpl. rewrite insert_desc_perm. now constructor.
Qed.

(** The second components do not increase along the list. *)
Lemma insert_desc_sorted (x : Z * R) (l : list (Z * R)) :
  StronglySorted (fun a b => (snd b <= snd a)%R) l ->
  StronglySorted (fun a b => (snd b <= snd a)%R) (SearchEngine.insert_desc x l).
Proof.
  induction l as [|y l IH]; intros H; simpl.
  - repeat constructor.
  - inversion H as [|? ? Hl Hy]; subst.
    destruct (Rlt_dec (snd x) (snd y)) as [Hlt|Hge].
    + constructor; [now apply IH|].
      apply Forall_forall. intros z Hz.
      apply (Permutation_in _ (insert_desc_perm x l)) in Hz.
      destruct Hz as [<-|Hz]; [lra|].
      rewrite Forall_forall in Hy. now apply Hy.
    + constructor; [exact H|].
      constructor; [lra|].
      rewrite Forall_forall in Hy |- *. intros z Hz.
      specialize (Hy z Hz). lra.
Qed.

Lemma sorted_desc_sorted (l : list (Z * R)) :
  StronglySorted (fun a b => (snd b <= snd a)%R) (SearchEngine.sorted_desc l).
Proof.
  induction l as [|x l IH]; [constructor|].
  simpl. now apply insert_desc_sorted.
Qed.

Lemma in_firstn {A : Type} (n : nat) (l : list A) (x : A) :
  In x (firstn n l) -> In x l.
Proof.
  revert n. induction l as [|y l IH]; intros [|n] H; simpl in *; try contradiction.
  destruct H as [H|H]; [now left|right; exact (IH n H)].
Qed.

Lemma StronglySorted_firstn {A : Type} (R : A -> A -> Prop) (n : nat) (l : list A) :
  StronglySorted R l -> StronglySorted R (firstn n l).
Proof.
  revert n. induction l as [|x l IH]; intros n H; [destruct n; constructor|].
  destruct n as [|n]; [constructor|]. simpl.
  inversion H as [|? ? Hl Hx]; subst. constructor; [now apply IH|].
  rewrite Forall_forall in Hx |- *. intros y Hy. apply Hx.
  exact (in_firstn _ _ _ Hy).
Qed.

Lemma StronglySorted_flat_map {A B : Type} (R : A -> A -> Prop)
    (S : B -> B -> Prop) (f : A -> list B) (l : list A) :
  (forall a, length (f a) <= 1) ->
  (forall a a' b b', R a a' -> In b (f a) -> In b' (f a') -> S b b') ->
  StronglySorted R l -> StronglySorted S (flat_map f l).
Proof.
  intros Hone HRS. induction l as [|x l IH]; intros H; [constructor|].
  inversion H as [|? ? Hl Hx]; subst. simpl.
  specialize (IH Hl). specialize (Hone x).
  destruct (f x) as [|b [|b' bs]] eqn:E; [exact IH| |simpl in Hone; lia].
  simpl. constructor; [exact IH|].
  apply Forall_forall. intros b' Hb'. apply in_flat_map in Hb' as (a' & Ha' & Hb').
  rewrite Forall_forall in Hx.
  apply (HRS x a' b b' (Hx a' Ha')); [rewrite E; now left|exact Hb'].
Qed.

Lemma NoDup_firstn {A : Type} (n : nat) (l : list A) :
  NoDup l -> NoDup (firstn n l).
Proof.
  revert n. induction l as [|x l IH]; intros n H; [destruct n; constructor|].
  destruct n as [|n]; [constructor|]. simpl.
  inversion H as [|? ? Hx Hl]; subst. constructor; [|now apply IH].
  intros Hin. apply Hx. exact (in_firstn _ _ _ Hin).
Qed.

(** What [format_results] makes of a list of scores with distinct
    documents. *)
Lemma format_results_spec (self : SearchEngine.t) (db : Database.t)
    (query_terms : list str) (scores : list (Z * R)) :
  NoDup (map fst scores) ->
  let results :=
    SearchEngine.format_results self db query_terms (SearchEngine.sorted_desc scores) in
  length results <= SearchEngine.results_per_page self
  /\ StronglySorted (fun a b => (snd (fst b) <= snd (fst a))%R) results
  /\ NoDup (map (fun r => fst (fst r)) results)
  /\ forall doc_id score snippet,
       In (doc_id, score, snippet) results ->
       In (doc_id, score) scores
       /\ exists content,
            Database.get_document_content doc_id db = Some content
            /\ content <> []
            /\ snippet = Utils.generate_snippet content query_terms
                           (SearchEngine.snippet_length self).
Proof.
  intros Hnd results. subst results. unfold SearchEngine.format_results.
  set (f := fun ds : Z * R =>
              let '(doc_id, score) := ds in
              match SearchEngine.nonempty_content
                      (Database.get_document_content doc_id db) with
              | Some content =>
                  [(doc_id, score,
                    Utils.generate_snippet content query_terms
                      (SearchEngine.snippet_length self))]
              | None => []
              end).
  set (top := firstn (SearchEngine.results_per_page self)
                     (SearchEngine.sorted_desc scores)).
  assert (Hone : forall a, length (f a) <= 1).
  { intros [d s]. unfold f.
    destruct (SearchEngine.nonempty_content _); simpl; lia. }
  assert (Hin : forall a b, In b (f a) -> fst b = a).
  { intros [d s] b. unfold f.
    destruct (SearchEngine.nonempty_content _); [|intros []].
    intros [<-|[]]. reflexivity. }
  assert (Hlen : forall l, length (flat_map f l) <= length l).
  { induction l as [|a l IH]; [simpl; lia|].
    simpl. rewrite length_app. specialize (Hone a). lia. }
  split; [|split; [|split]].
  - etransitivity; [apply Hlen|]. unfold top. apply firstn_le_length.
  - apply (StronglySorted_flat_map (fun a b => (snd b <= snd a)%R)); [exact Hone| |].
    + intros a a' b b' HR Hb Hb'.
      now rewrite (Hin a b Hb), (Hin a' b' Hb').
    + apply StronglySorted_firstn, sorted_desc_sorted.
  - assert (Htop : NoDup (map fst top)).
    { unfold top. rewrite <- firstn_map. apply NoDup_firstn.
      apply (Permutation_NoDup (l := map fst scores)); [|exact Hnd].
      apply Permutation_map. symmetry. apply sorted_desc_perm. }
    revert Htop. generalize top. induction top0 as [|a l IH]; intros H; [constructor|].
    simpl in H. inversion H as [|? ? Ha Hl]; subst. specialize (IH Hl).
    simpl. specialize (Hone a). pose proof (Hin a) as Hina.
    destruct (f a) as [|b [|b' bs]]; [exact IH| |simpl in Hone; lia].
    simpl. constructor; [|exact IH].
    intros Hb. apply in_map_iff in Hb as (b' & Eb' & Hb').
    apply in_flat_map in Hb' as (a' & Ha' & Hb').
    apply Ha. apply in_map_iff. exists a'. split; [|exact Ha'].
    rewrite <- (Hin a' b' Hb'), Eb'.
    now rewrite (Hina b (or_introl eq_refl)).
  - intros doc_id score snippet Hr.
    apply in_flat_map in Hr as ([d s] & Hds & Hr).
    assert (Hsc : In (d, s) scores).
    { apply (Permutation_in _ (sorted_desc_perm scores)).
      exact (in_firstn _ _ _ Hds). }
    unfold f in Hr.
    destruct (Database.get_document_content d db) as [[|c content]|] eqn:Ec;
      simpl in Hr; try contradiction.
    destruct Hr as [Hr|[]]. injection Hr as <- <- <-.
    split; [exact Hsc|]. exists (c :: content).
    split; [exact Ec|]. split; [discriminate|reflexivity].
Qed.

Section DictKeys.
Variables (K V : Type).
Variable K_eq_dec : forall a b : K, {a = b} + {a <> b}.

Lemma keys_set_present (k : K) (v : V) (d : Dict.t K V) :
  In k (Dict.keys d) -> Dict.keys (Dict.set K_eq_dec k v d) = Dict.keys d.
Proof.
  unfold Dict.keys. induction d as [|[k0 v0] d IH]; intros H; [contradiction|].
  simpl. destruct (K_eq_dec k k0) as [->|Hne]; [reflexivity|].
  simpl. f_equal. apply IH. destruct H as [H|H]; [simpl in H; congruence|exact H].
Qed.

(** A loop that assigns to keys that the dictionary has keeps the keys. *)
Lemma keys_fold_present (f : Dict.t K V -> K -> V) (ks : list K) :
  forall d,
    incl ks (Dict.keys d) ->
    Dict.keys (fold_left (fun d k => Dict.set K_eq_dec k (f d k) d) ks d)
    = Dict.keys d.
Proof.
  induction ks as [|k ks IH]; intros d H; [reflexivity|].
  simpl. rewrite IH.
  - apply keys_set_present. apply H. now left.
  - rewrite keys_set_present by (apply H; now left).
    intros x Hx. apply H. now right.
Qed.

Lemma item_key (d : Dict.t K V) (k : K) (v : V) :
  In (k, v) d -> In k (Dict.keys d).
Proof.
  intros H. unfold Dict.keys. apply in_map_iff. now exists (k, v).
Qed.

End DictKeys.

Lemma apply_pagerank_keys (db : Database.t) (scores : Dict.t Z R) :
  Dict.keys (SearchEngine.apply_pagerank db scores) = Dict.keys scores.
Proof.
  unfold SearchEngine.apply_pagerank.
  destruct (Dict.values scores) as [|v vs]; [reflexivity|].
  cbv zeta.
  set (normalised := if Rlt_dec 0 (SearchEngine.max_of v vs) then _ else scores).
  assert (Hn : Dict.keys normalised = Dict.keys scores).
  { unfold normalised. destruct (Rlt_dec 0 (SearchEngine.max_of v vs)); [|reflexivity].
    apply (keys_fold_present Z R Z.eq_dec
             (fun d k => (Dict.get_default Z.eq_dec k 0 d / SearchEngine.max_of v vs)%R)).
    apply incl_refl. }
  rewrite <- Hn.
  apply (keys_fold_present Z R Z.eq_dec
           (fun d k => (Dict.get_default Z.eq_dec k 0 d
                        * (1 + Q2R (Dict.get_default Z.eq_dec k 1%Q
                                      (Database.get_all_pageranks db))))%R)).
  apply incl_refl.
Qed.

Lemma calculate_idf_settings (self : SearchEngine.t) (db : Database.t) (word : str) :
  SearchEngine.results_per_page (snd (SearchEngine.calculate_idf self db word))
  = SearchEngine.results_per_page self
  /\ SearchEngine.snippet_length (snd (SearchEngine.calculate_idf self db word))
     = SearchEngine.snippet_length self.
Proof.
  unfold SearchEngine.calculate_idf.
  destruct (Dict.get str_eq_dec word (SearchEngine.idf_cache self)); [auto|].
  destruct (length (Database.get_documents_for_word word db) =? 0); auto.
Qed.

Lemma add_term_scores_keys (doc_lengths : Dict.t Z nat) (idf : R)
    (docs_with_term : list (Z * Q)) :
  forall scores,
    NoDup (Dict.keys scores) ->
    NoDup (Dict.keys (SearchEngine.add_term_scores doc_lengths idf docs_with_term scores))
    /\ forall id,
         In id (Dict.keys (SearchEngine.add_term_scores doc_lengths idf
                             docs_with_term scores)) ->
         In id (Dict.keys scores) \/ In id (map fst docs_with_term).
Proof.
  unfold SearchEngine.add_term_scores.
  induction docs_with_term as [|[d tf] l IH]; intros scores Hnd; [auto|].
  cbn [fold_left map fst].
  set (next := match Dict.get Z.eq_dec d doc_lengths with
               | Some doc_length => _
               | None => scores
               end).
  assert (Hnext : NoDup (Dict.keys next)
                  /\ forall id, In id (Dict.keys next) ->
                                In id (Dict.keys scores) \/ id = d).
  { unfold next. destruct (Dict.get Z.eq_dec d doc_lengths) as [n|]; [|auto].
    destruct (n =? 0); [auto|]. cbv zeta.
    split; [now apply keys_set_nodup|].
    intros id Hid. apply keys_set_iff in Hid. tauto. }
  destruct Hnext as [Hnd' Hk]. destruct (IH next Hnd') as [H1 H2].
  split; [exact H1|]. intros id Hid.
  destruct (H2 id Hid) as [H|H]; [|simpl; tauto].
  destruct (Hk id H) as [H' | ->]; simpl; tauto.
Qed.

Lemma term_at_a_time_keys (db : Database.t) (doc_lengths : Dict.t Z nat)
    (query_terms : list str) :
  forall self scores,
    NoDup (Dict.keys scores) ->
    let state := fold_left (SearchEngine.term_at_a_time_step db doc_lengths)
                           query_terms (self, scores) in
    SearchEngine.results_per_page (fst state) = SearchEngine.results_per_page self
    /\ SearchEngine.snippet_length (fst state) = SearchEngine.snippet_length self
    /\ NoDup (Dict.keys (snd state))
    /\ forall id, In id (Dict.keys (snd state)) ->
                  In id (Dict.keys scores) \/ listed_for db query_terms id.
Proof.
  induction query_terms as [|term terms IH]; intros self scores Hnd; [simpl; auto|].
  cbn [fold_left]. cbv zeta.
  pose proof (calculate_idf_settings self db term) as [Hr Hs].
  assert (Estep : exists scores1,
            SearchEngine.term_at_a_time_step db doc_lengths (self, scores) term
            = (snd (SearchEngine.calculate_idf self db term), scores1)
            /\ NoDup (Dict.keys scores1)
            /\ forall id, In id (Dict.keys scores1) ->
                 In id (Dict.keys scores)
                 \/ In id (map fst (Database.get_documents_for_word term db))).
  { unfold SearchEngine.term_at_a_time_step.
    destruct (SearchEngine.calculate_idf self db term) as [idf self1]. cbn [snd].
    destruct (Req_EM_T idf 0%R).
    - exists scores. auto.
    - eexists. split; [reflexivity|]. now apply add_term_scores_keys. }
  destruct Estep as (scores1 & -> & Hnd1 & Hk1).
  set (self1 := snd (SearchEngine.calculate_idf self db term)) in *.
  destruct (IH self1 scores1 Hnd1) as (E1 & E2 & Hnd2 & Hk2). cbv zeta in *.
  split; [congruence|]. split; [congruence|]. split; [exact Hnd2|].
  intros id Hid. destruct (Hk2 id Hid) as [H|(t & tf & Ht & Htf)].
  - destruct (Hk1 id H) as [H'|H']; [now left|right].
    apply in_map_iff in H' as ([d tf] & <- & Hin).
    exists term, tf. split; [now left|exact Hin].
  - right. exists t, tf. split; [now right|exact Htf].
Qed.

Lemma collect_term_idf_settings (db : Database.t) (query_terms : list str) :
  forall self term_idf,
    let state :=
      fold_left (fun state term =>
                   let '(self, term_idf) := state in
                   let '(idf, self) := SearchEngine.calculate_idf self db term in
                   (self, Dict.set str_eq_dec term idf term_idf))
                query_terms (self, term_idf) in
    SearchEngine.results_per_page (fst state) = SearchEngine.results_per_page self
    /\ SearchEngine.snippet_length (fst state) = SearchEngine.snippet_length self.
Proof.
  induction query_terms as [|term terms IH]; intros self term_idf; [simpl; auto|].
  cbn [fold_left]. cbv zeta.
  pose proof (calculate_idf_settings self db term) as [Hr Hs].
  destruct (SearchEngine.calculate_idf self db term) as [idf self1].
  cbn [snd] in Hr, Hs.
  destruct (IH self1 (Dict.set str_eq_dec term idf term_idf)) as [E1 E2].
  cbv zeta in E1, E2. split; congruence.
Qed.

Lemma document_at_a_time_unchanged (term_idf : Dict.t str R)
    (doc_tokens query_terms : list str) :
  (forall term, In term query_terms -> ~ In term doc_tokens) ->
  forall doc_score,
    fold_left (SearchEngine.document_at_a_time_step term_idf doc_tokens)
              query_terms doc_score = doc_score.
Proof.
  induction query_terms as [|term terms IH]; intros H doc_score; [reflexivity|].
  cbn [fold_left]. rewrite IH by (intros t Ht; apply H; now right).
  unfold SearchEngine.document_at_a_time_step.
  destruct (Req_EM_T _ 0%R); [reflexivity|].
  assert (E : count_occ str_eq_dec doc_tokens term = 0).
  { apply count_occ_not_In. apply H. now left. }
  rewrite E. reflexivity.
Qed.

Lemma positive_score_has_term (term_idf : Dict.t str R)
    (doc_tokens query_terms : list str) :
  (0 < fold_left (SearchEngine.document_at_a_time_step term_idf doc_tokens)
                 query_terms 0)%R ->
  exists term, In term query_terms /\ In term doc_tokens.
Proof.
  intros H.
  destruct (Exists_dec (fun term => In term doc_tokens) query_terms
              (fun term => in_dec str_eq_dec term doc_tokens)) as [He|Hn].
  - apply Exists_exists in He. exact He.
  - rewrite document_at_a_time_unchanged in H; [lra|].
    intros term Ht Hin. apply Hn. apply Exists_exists. now exists term.
Qed.

Lemma score_document_keys (db : Database.t) (term_idf : Dict.t str R)
    (query_terms : list str) (docs : list (Z * str * str)) :
  forall doc_scores,
    NoDup (Dict.keys doc_scores) ->
    NoDup (Dict.keys (fold_left (SearchEngine.score_document db term_idf query_terms)
                                docs doc_scores))
    /\ forall id,
         In id (Dict.keys (fold_left (SearchEngine.score_document db term_idf
                                        query_terms) docs doc_scores)) ->
         In id (Dict.keys doc_scores) \/ contains_term db query_terms id.
Proof.
  induction docs as [|doc docs IH]; intros doc_scores Hnd; [simpl; auto|].
  cbn [fold_left].
  assert (H1 : NoDup (Dict.keys (SearchEngine.score_document db term_idf
                                   query_terms doc_scores doc))
               /\ forall id,
                    In id (Dict.keys (SearchEngine.score_document db term_idf
                                        query_terms doc_scores doc)) ->
                    In id (Dict.keys doc_scores) \/ contains_term db query_terms id).
  { unfold SearchEngine.score_document.
    destruct (Database.get_document_content (fst (fst doc)) db)
      as [[|c content]|] eqn:Ec; cbn [SearchEngine.nonempty_content]; [auto| |auto].
    cbv zeta.
    destruct (length (Utils.tokenize (c :: content) Config.STOP_WORDS) =? 0); [auto|].
    destruct (Rlt_dec 0 _) as [Hpos|]; [|auto].
    split; [now apply keys_set_nodup|].
    intros id Hid. apply keys_set_iff in Hid as [->|Hid]; [right|now left].
    destruct (positive_score_has_term _ _ _ Hpos) as (term & Ht & Hin).
    exists (c :: content), term. auto. }
  destruct H1 as [Hnd1 Hk1]. destruct (IH _ Hnd1) as [Hnd2 Hk2].
  split; [exact Hnd2|]. intros id Hid.
  destruct (Hk2 id Hid) as [H|H]; [exact (Hk1 id H)|now right].
Qed.

Lemma nodup_keys_items {V : Type} (d : Dict.t Z V) :
  NoDup (Dict.keys d) -> NoDup (map fst d).
Proof. exact (fun H => H). Qed.

Lemma search_term_at_a_time_unfold (self : SearchEngine.t) (db : Database.t)
    (query : str) (use_pagerank : bool) :
  Utils.tokenize query Config.STOP_WORDS <> [] ->
  SearchEngine.search_term_at_a_time self db query use_pagerank
  = let query_terms := Utils.tokenize query Config.STOP_WORDS in
    let state :=
      fold_left (SearchEngine.term_at_a_time_step db
                   (SearchEngine.collect_doc_lengths db))
                query_terms (self, []) in
    (SearchEngine.format_results (fst state) db query_terms
       (SearchEngine.sorted_desc
          (if use_pagerank then SearchEngine.apply_pagerank db (snd state)
           else snd state)),
     fst state).
Proof.
  intros Hne. unfold SearchEngine.search_term_at_a_time.
  destruct (Utils.tokenize query Config.STOP_WORDS) as [|t ts]; [congruence|].
  cbv zeta. now destruct (fold_left _ (t :: ts) _).
Qed.

Lemma search_document_at_a_time_unfold (self : SearchEngine.t) (db : Database.t)
    (query : str) (use_pagerank : bool) :
  Utils.tokenize query Config.STOP_WORDS <> [] ->
  SearchEngine.search_document_at_a_time self db query use_pagerank
  = let query_terms := Utils.tokenize query Config.STOP_WORDS in
    let state := SearchEngine.collect_term_idf self db query_terms in
    let doc_scores :=
      fold_left (SearchEngine.score_document db (snd state) query_terms)
                (Database.get_all_documents db) [] in
    (SearchEngine.format_results (fst state) db query_terms
       (SearchEngine.sorted_desc
          (if use_pagerank then SearchEngine.apply_pagerank db doc_scores
           else doc_scores)),
     fst state).
Proof.
  intros Hne. unfold SearchEngine.search_document_at_a_time.
  destruct (Utils.tokenize query Config.STOP_WORDS) as [|t ts]; [congruence|].
  cbv zeta. now destruct (SearchEngine.collect_term_idf self db (t :: ts)).
Qed.

(** X9.  The result list of [search], whatever the method and with or
    without PageRank: at most [results_per_page] results, with scores that
    do not increase, no document twice, and each result with a document of
    non-empty content and the snippet of that content for the tokens of
    the query. *)
Theorem search_results_ranked :
  forall (self : SearchEngine.t) (db : Database.t) (query method : str)
         (use_pagerank : bool),
    let results := fst (SearchEngine.search self db query method use_pagerank) in
    length results <= SearchEngine.results_per_page self
    /\ ranked results
    /\ NoDup (map (fun r => fst (fst r)) results)
    /\ forall doc_id score snippet,
         In (doc_id, score, snippet) results ->
         exists content,
           Database.get_document_content doc_id db = Some content
           /\ content <> []
           /\ snippet
              = Utils.generate_snippet content
                  (Utils.tokenize query Config.STOP_WORDS)
                  (SearchEngine.snippet_length self).
Proof.
  intros self db query method use_pagerank results.
  assert (Hempty : length (@nil (Z * R * str)) <= SearchEngine.results_per_page self
                   /\ ranked []
                   /\ NoDup (map (fun r : Z * R * str => fst (fst r)) [])
                   /\ forall doc_id score snippet,
                        In (doc_id, score, snippet) (@nil (Z * R * str)) ->
                        exists content,
                          Database.get_document_content doc_id db = Some content
                          /\ content <> []
                          /\ snippet
                             = Utils.generate_snippet content
                                 (Utils.tokenize query Config.STOP_WORDS)
                                 (SearchEngine.snippet_length self)).
  { split; [simpl; lia|]. split; [constructor|]. split; [constructor|].
    intros ? ? ? []. }
  assert (Hfmt : forall self' scores,
            SearchEngine.results_per_page self' = SearchEngine.results_per_page self ->
            SearchEngine.snippet_length self' = SearchEngine.snippet_length self ->
            NoDup (Dict.keys scores) ->
            let rs := SearchEngine.format_results self' db
                        (Utils.tokenize query Config.STOP_WORDS)
                        (SearchEngine.sorted_desc scores) in
            length rs <= SearchEngine.results_per_page self
            /\ ranked rs
            /\ NoDup (map (fun r => fst (fst r)) rs)
            /\ forall doc_id score snippet,
                 In (doc_id, score, snippet) rs ->
                 exists content,
                   Database.get_document_content doc_id db = Some content
                   /\ content <> []
                   /\ snippet
                      = Utils.generate_snippet content
                          (Utils.tokenize query Config.STOP_WORDS)
                          (SearchEngine.snippet_length self)).
  { intros self' scores Er Es Hnd rs.
    destruct (format_results_spec self' db (Utils.tokenize query Config.STOP_WORDS)
                scores Hnd) as (H1 & H2 & H3 & H4).
    rewrite Er in H1. split; [exact H1|]. split; [exact H2|]. split; [exact H3|].
    intros doc_id score snippet Hin.
    destruct (H4 doc_id score snippet Hin) as (_ & content & Hc & Hne & Hs).
    exists content. rewrite <- Es. auto. }
  assert (Hterm : let rs := fst (SearchEngine.search_term_at_a_time self db query
                                   use_pagerank) in
                  length rs <= SearchEngine.results_per_page self
                  /\ ranked rs
                  /\ NoDup (map (fun r => fst (fst r)) rs)
                  /\ forall doc_id score snippet,
                       In (doc_id, score, snippet) rs ->
                       exists content,
                         Database.get_document_content doc_id db = Some content
                         /\ content <> []
                         /\ snippet
                            = Utils.generate_snippet content
                                (Utils.tokenize query Config.STOP_WORDS)
                                (SearchEngine.snippet_length self)).
  { destruct (Utils.tokenize query Config.STOP_WORDS) as [|t ts] eqn:Eq.
    - unfold SearchEngine.search_term_at_a_time. rewrite Eq. exact Hempty.
    - rewrite <- Eq in *.
      rewrite search_term_at_a_time_unfold by (rewrite Eq; discriminate).
      cbv zeta. cbn [fst].
      destruct (term_at_a_time_keys db (SearchEngine.collect_doc_lengths db)
                  (Utils.tokenize query Config.STOP_WORDS) self [] (NoDup_nil _))
        as (Er & Es & Hnd & _). cbv zeta in Er, Es, Hnd.
      apply Hfmt; [exact Er|exact Es|].
      destruct use_pagerank; [rewrite apply_pagerank_keys|]; exact Hnd. }
  assert (Hdoc : let rs := fst (SearchEngine.search_document_at_a_time self db query
                                  use_pagerank) in
                 length rs <= SearchEngine.results_per_page self
                 /\ ranked rs
                 /\ NoDup (map (fun r => fst (fst r)) rs)
                 /\ forall doc_id score snippet,
                      In (doc_id, score, snippet) rs ->
                      exists content,
                        Database.get_document_content doc_id db = Some content
                        /\ content <> []
                        /\ snippet
                           = Utils.generate_snippet content
                               (Utils.tokenize query Config.STOP_WORDS)
                               (SearchEngine.snippet_length self)).
  { destruct (Utils.tokenize query Config.STOP_WORDS) as [|t ts] eqn:Eq.
    - unfold SearchEngine.search_document_at_a_time. rewrite Eq. exact Hempty.
    - rewrite <- Eq in *.
      rewrite search_document_at_a_time_unfold by (rewrite Eq; discriminate).
      cbv zeta. cbn [fst].
      destruct (collect_term_idf_settings db (Utils.tokenize query Config.STOP_WORDS)
                  self []) as (Er & Es). cbv zeta in Er, Es.
      destruct (score_document_keys db
                  (snd (SearchEngine.collect_term_idf self db
                          (Utils.tokenize query Config.STOP_WORDS)))
                  (Utils.tokenize query Config.STOP_WORDS)
                  (Database.get_all_documents db) [] (NoDup_nil _)) as [Hnd _].
      apply Hfmt; [exact Er|exact Es|].
      destruct use_pagerank; [rewrite apply_pagerank_keys|]; exact Hnd. }
  subst results. unfold SearchEngine.search.
  destruct (str_eqb (Utils.lower method) (py "term")); [exact Hterm|].
  destruct (str_eqb (Utils.lower method) (py "document")); [exact Hdoc|exact Hterm].
Qed.

Lemma format_results_ids (self : SearchEngine.t) (db : Database.t)
    (query_terms : list str) (scores : Dict.t Z R) (P : Z -> Prop) :
  (forall id, In id (Dict.keys scores) -> P id) ->
  Forall (fun r => P (fst (fst r)))
         (SearchEngine.format_results self db query_terms
            (SearchEngine.sorted_desc scores)).
Proof.
  intros H. apply Forall_forall. intros [[doc_id score] snippet] Hr.
  unfold SearchEngine.format_results in Hr.
  apply in_flat_map in Hr as ([d s] & Hds & Hr).
  apply in_firstn in Hds.
  apply (Permutation_in _ (sorted_desc_perm scores)) in Hds.
  destruct (SearchEngine.nonempty_content _); [|contradiction].
  destruct Hr as [Hr|[]]. injection Hr as <- <- <-. cbn [fst].
  apply H. exact (item_key Z R scores d s Hds).
Qed.

(** X10.  The term-at-a-time search ranks by the inverted index alone: every
    document of its result list is listed in the index for a term of the
    query, whether or not the content of the document has the term. *)
Theorem term_at_a_time_results_are_listed :
  forall (self : SearchEngine.t) (db : Database.t) (query : str)
         (use_pagerank : bool),
    Forall (fun r => listed_for db (Utils.tokenize query Config.STOP_WORDS)
                       (fst (fst r)))
           (fst (SearchEngine.search_term_at_a_time self db query use_pagerank)).
Proof.
  intros self db query use_pagerank.
  destruct (Utils.tokenize query Config.STOP_WORDS) as [|t ts] eqn:Eq.
  - unfold SearchEngine.search_term_at_a_time. rewrite Eq. constructor.
  - rewrite <- Eq.
    rewrite search_term_at_a_time_unfold by (rewrite Eq; discriminate).
    cbv zeta. cbn [fst].
    destruct (term_at_a_time_keys db (SearchEngine.collect_doc_lengths db)
                (Utils.tokenize query Config.STOP_WORDS) self [] (NoDup_nil _))
      as (_ & _ & _ & Hk). cbv zeta in Hk.
    apply format_results_ids. intros id Hid.
    assert (Hid' : In id (Dict.keys
                            (snd (fold_left
                                    (SearchEngine.term_at_a_time_step db
                                       (SearchEngine.collect_doc_lengths db))
                                    (Utils.tokenize query Config.STOP_WORDS)
                                    (self, []))))).
    { destruct use_pagerank; [rewrite apply_pagerank_keys in Hid|]; exact Hid. }
    destruct (Hk id Hid') as [[]|H]. exact H.
Qed.

(** X11.  The document-at-a-time search ranks by the contents alone: every
    document of its result list has a query term among the tokens of its
    content, whatever the inverted index holds. *)
Theorem document_at_a_time_results_contain_term :
  forall (self : SearchEngine.t) (db : Database.t) (query : str)
         (use_pagerank : bool),
    Forall (fun r => contains_term db (Utils.tokenize query Config.STOP_WORDS)
                       (fst (fst r)))
           (fst (SearchEngine.search_document_at_a_time self db query use_pagerank)).
Proof.
  intros self db query use_pagerank.
  destruct (Utils.tokenize query Config.STOP_WORDS) as [|t ts] eqn:Eq.
  - unfold SearchEngine.search_document_at_a_time. rewrite Eq. constructor.
  - rewrite <- Eq.
    rewrite search_document_at_a_time_unfold by (rewrite Eq; discriminate).
    cbv zeta. cbn [fst].
    destruct (score_document_keys db
                (snd (SearchEngine.collect_term_idf self db
                        (Utils.tokenize query Config.STOP_WORDS)))
                (Utils.tokenize query Config.STOP_WORDS)
                (Database.get_all_documents db) [] (NoDup_nil _)) as [_ Hk].
    apply format_results_ids. intros id Hid.
    assert (Hid' : In id (Dict.keys
                            (fold_left
                               (SearchEngine.score_document db
                                  (snd (SearchEngine.collect_term_idf self db
                                          (Utils.tokenize query Config.STOP_WORDS)))
                                  (Utils.tokenize query Config.STOP_WORDS))
                               (Database.get_all_documents db) []))).
    { destruct use_pagerank; [rewrite apply_pagerank_keys in Hid|]; exact Hid. }
    destruct (Hk id Hid') as [[]|H]. exact H.
Qed.

Lemma tokenize_all (text : str) :
  Utils.tokenize text [] = Utils.split (Utils.clean_text text).
Proof.
  unfold Utils.tokenize. cbv zeta.
  induction (Utils.split (Utils.clean_text text)) as [|t ts IH]; [reflexivity|].
  cbn [filter]. change (str_in t []) with false. cbn [negb]. now rewrite IH.
Qed.

(** X12.  A query without a word that is not a stop word has no results:
    under every method, with or without PageRank, [search] returns the
    empty list and leaves the engine as it is, its cache of weights
    included. *)
Theorem search_stop_word_query :
  forall (self : SearchEngine.t) (db : Database.t) (query method : str)
         (use_pagerank : bool),
    (forall token, In token (Utils.tokenize query []) ->
                   In token Config.STOP_WORDS) ->
    SearchEngine.search self db query method use_pagerank = ([], self).
Proof.
  intros self db query method use_pagerank H.
  assert (E : Utils.tokenize query Config.STOP_WORDS = []).
  { rewrite tokenize_all in H. unfold Utils.tokenize. cbv zeta.
    induction (Utils.split (Utils.clean_text query)) as [|t ts IH]; [reflexivity|].
    cbn [filter]. assert (Ht : str_in t Config.STOP_WORDS = true).
    { apply str_in_spec. apply H. now left. }
    rewrite Ht. cbn [negb]. apply IH. intros token Hin. apply H. now right. }
  unfold SearchEngine.search, SearchEngine.search_term_at_a_time,
    SearchEngine.search_document_at_a_time.
  rewrite E.
  destruct (str_eqb (Utils.lower method) (py "term")); [reflexivity|].
  destruct (str_eqb (Utils.lower method) (py "document")); reflexivity.
Qed.

Lemma search_stop_word_query_witness :
  (forall token, In token (Utils.tokenize (py "The and of?") []) ->
                 In token Config.STOP_WORDS)
  /\ SearchEngine.search (SearchEngine.init Config.SEARCH_CONFIG one_document_corpus)
       one_document_corpus (py "The and of?") (py "document") true
     = ([], SearchEngine.init Config.SEARCH_CONFIG one_document_corpus).
Proof.
  assert (H : forall token, In token (Utils.tokenize (py "The and of?") []) ->
                            In token Config.STOP_WORDS).
  { intros token Hin. vm_compute in Hin.
    destruct Hin as [<-|[<-|[<-|[]]]]; vm_compute; tauto. }
  split; [exact H|].
  exact (search_stop_word_query _ one_document_corpus (py "The and of?")
           (py "document") true H).
Defined.

(** ** What [index_document] stores *)

Lemma is_posting_of_spec (db : Database.t) (term : str) (doc : Z)
    (p : Database.Posting) :
  is_posting_of db term doc p = true
  <-> Database.p_doc_id p = doc
      /\ exists r, In r (Database.words db)
                   /\ Database.word_id r = Database.p_word_id p
                   /\ Database.word r = term.
Proof.
  unfold is_posting_of. rewrite andb_true_iff, Z.eqb_eq, existsb_exists.
  split; intros [Hd (r & Hr & H)]; (split; [exact Hd|]); exists r;
    (split; [exact Hr|]).
  - apply andb_true_iff in H as [H1 H2].
    apply Z.eqb_eq in H1. apply str_eqb_eq in H2. auto.
  - destruct H as [H1 H2]. apply andb_true_iff.
    split; [now apply Z.eqb_eq|now apply str_eqb_eq].
Qed.

Lemma filter_ext_in_eq {A : Type} (f g : A -> bool) (l : list A) :
  (forall x, In x l -> f x = g x) -> filter f l = filter g l.
Proof.
  induction l as [|x l IH]; intros H; [reflexivity|].
  simpl. rewrite (H x (or_introl eq_refl)), IH; [reflexivity|].
  intros y Hy. apply H. now right.
Qed.

Lemma filter_filter_ext {A : Type} (f g h : A -> bool) (l : list A) :
  (forall x, In x l -> g x && f x = h x) ->
  filter f (filter g l) = filter h l.
Proof.
  induction l as [|x l IH]; intros H; [reflexivity|].
  cbn [filter]. pose proof (H x (or_introl eq_refl)) as Hx.
  assert (IH' : filter f (filter g l) = filter h l)
    by (apply IH; intros y Hy; apply H; now right).
  destruct (g x); cbn [filter andb] in *.
  - rewrite Hx. now rewrite IH'.
  - rewrite <- Hx. exact IH'.
Qed.

Lemma filter_none {A : Type} (l : list A) : filter (fun _ => false) l = [].
Proof. induction l as [|x l IH]; [reflexivity|exact IH]. Qed.

Lemma bool_eq_iff (a b : bool) : (a = true <-> b = true) -> a = b.
Proof.
  destruct a, b; intros [H1 H2]; try reflexivity.
  - symmetry. now apply H1.
  - now apply H2.
Qed.

Lemma postings_of_ext (db1 db2 : Database.t) (term : str) (doc : Z) :
  Database.words db1 = Database.words db2 ->
  Database.inverted_index db1 = Database.inverted_index db2 ->
  postings_of db1 term doc = postings_of db2 term doc.
Proof.
  intros Hw Hi. unfold postings_of, is_posting_of. now rewrite Hw, Hi.
Qed.

(** The postings that [get_documents_for_word] returns for a document. *)
Lemma documents_for_word_of (db : Database.t) (term : str) (doc : Z) :
  filter (fun e => (fst e =? doc)%Z) (Database.get_documents_for_word term db)
  = map (fun p => (Database.p_doc_id p, Database.tf p)) (postings_of db term doc).
Proof.
  unfold Database.get_documents_for_word, postings_of, is_posting_of.
  rewrite filter_map_swap. cbn [fst]. f_equal.
  rewrite (sort_by_key_filter Database.Posting Database.p_doc_id doc).
  induction (Database.inverted_index db) as [|p l IH]; [reflexivity|].
  cbn [filter].
  destruct (existsb _ (Database.words db)); cbn [filter];
    destruct (Database.p_doc_id p =? doc)%Z; cbn [andb]; now rewrite IH.
Qed.

Lemma add_word_unique (w : str) (db : Database.t) :
  words_unique db -> words_unique (snd (Database.add_word w db)).
Proof.
  intros Hu. unfold Database.add_word.
  destruct (Database.get_word_id w db) as [id0|] eqn:E; cbn [snd].
  - intros r1 r2 H1 H2 Hw. cbn [Database.words] in H1, H2.
    apply in_map_iff in H1 as (s1 & <- & Hs1).
    apply in_map_iff in H2 as (s2 & <- & Hs2).
    assert (Hb : forall r,
              Database.word_id (if (Database.word_id r =? id0)%Z
                                then {| Database.word_id := Database.word_id r;
                                        Database.word := Database.word r;
                                        Database.frequency :=
                                          (Database.frequency r + 1)%Z |}
                                else r) = Database.word_id r
              /\ Database.word (if (Database.word_id r =? id0)%Z
                                then {| Database.word_id := Database.word_id r;
                                        Database.word := Database.word r;
                                        Database.frequency :=
                                          (Database.frequency r + 1)%Z |}
                                else r) = Database.word r).
    { intros r. now destruct (Database.word_id r =? id0)%Z. }
    destruct (Hb s1) as [-> E1], (Hb s2) as [-> E2].
    rewrite E1, E2 in Hw. now apply Hu.
  - intros r1 r2 H1 H2 Hw. cbn [Database.words] in H1, H2.
    pose proof (get_word_id_none w db E) as Hn.
    apply in_app_iff in H1 as [H1|[<-|[]]]; apply in_app_iff in H2 as [H2|[<-|[]]].
    + now apply Hu.
    + simpl in Hw. now destruct (Hn r1 H1).
    + simpl in Hw. symmetry in Hw. now destruct (Hn r2 H2).
    + reflexivity.
Qed.

(** One round of the loop over the words of a document: the word has
    exactly one posting for the document afterwards, the one just
    written; the postings of the other words and of the other documents are
    as before. *)
Lemma index_term_postings (doc : Z) (pc : Dict.t str (list nat))
    (db : Database.t) (w : str) (c : nat) :
  well_formed db -> words_unique db ->
  words_unique (index_term doc pc db (w, c))
  /\ (exists id,
        postings_of (index_term doc pc db (w, c)) w doc
        = [{| Database.p_word_id := id; Database.p_doc_id := doc;
              Database.tf := inject_Z (Z.of_nat c);
              Database.positions := Dict.get_default str_eq_dec w [] pc |}])
  /\ (forall term, term <> w ->
        postings_of (index_term doc pc db (w, c)) term doc
        = postings_of db term doc)
  /\ (forall term doc2, doc2 <> doc ->
        postings_of (index_term doc pc db (w, c)) term doc2
        = postings_of db term doc2).
Proof.
  intros Hwf Hu. unfold index_term.
  pose proof (add_word_unique w db Hu) as Hu1.
  destruct (Database.add_word w db) as [id db1] eqn:E. cbn [snd] in Hu1.
  destruct (add_word_spec w db Hwf id db1 E)
    as (Hid & Hseq & _ & _ & Hii & Hids & Hfun & (r0 & Hr0 & Hr0id & Hr0w)
        & Hold & Hnew).
  destruct (id =? -1)%Z eqn:Em; [apply Z.eqb_eq in Em; lia|].
  set (new := {| Database.p_word_id := id; Database.p_doc_id := doc;
                 Database.tf := inject_Z (Z.of_nat c);
                 Database.positions := Dict.get_default str_eq_dec w [] pc |}).
  set (db2 := Database.add_inverted_index_entry id doc (inject_Z (Z.of_nat c))
                (Dict.get_default str_eq_dec w [] pc) db1).
  assert (Hw2 : Database.words db2 = Database.words db1) by reflexivity.
  assert (Hi2 : Database.inverted_index db2
                = filter (fun p => negb (Database.same_posting id doc p))
                         (Database.inverted_index db) ++ [new])
    by (unfold db2, Database.add_inverted_index_entry; simpl; now rewrite Hii).
  (* the join with the words, before and after *)
  assert (Hjoin : forall term d p,
            In p (Database.inverted_index db) ->
            is_posting_of db2 term d p = is_posting_of db term d p).
  { intros term d p Hp. apply bool_eq_iff.
    rewrite !is_posting_of_spec, Hw2. split; intros [Hd (r & Hr & Hrid & Hrw)];
      (split; [exact Hd|]).
    - destruct (Hold r Hr) as [(s & Hs & E1 & E2)|Hgt].
      + exists s. split; [exact Hs|]. split; congruence.
      + pose proof (wf_posting_ids Hwf p Hp). lia.
    - destruct (Hnew r Hr) as (r' & Hr' & E1 & E2).
      exists r'. split; [exact Hr'|]. split; congruence. }
  assert (Hnew_of : forall term d,
            is_posting_of db2 term d new = true <-> d = doc /\ term = w).
  { intros term d. rewrite is_posting_of_spec, Hw2. cbn [new Database.p_doc_id
      Database.p_word_id]. split.
    - intros [<- (r & Hr & Hrid & Hrw)]. split; [reflexivity|].
      rewrite <- Hrw, <- Hr0w. symmetry. apply Hfun; [exact Hr0|exact Hr|congruence].
    - intros [-> ->]. split; [reflexivity|]. now exists r0. }
  assert (Hsame : forall term p,
            In p (Database.inverted_index db) ->
            is_posting_of db2 term doc p = true ->
            (Database.same_posting id doc p = true <-> term = w)).
  { intros term p Hp H. apply is_posting_of_spec in H as [Hd (r & Hr & Hrid & Hrw)].
    rewrite Hw2 in Hr. unfold Database.same_posting.
    rewrite andb_true_iff, !Z.eqb_eq. split.
    - intros [Hpid _]. rewrite <- Hrw, <- Hr0w. symmetry.
      apply Hfun; [exact Hr0|exact Hr|congruence].
    - intros ->. split; [|exact Hd].
      rewrite <- Hrid, <- Hr0id. apply Hu1; [exact Hr|exact Hr0|congruence]. }
  split; [exact Hu1|]. unfold postings_of. fold db2. rewrite Hi2.
  split; [|split].
  - exists id. rewrite filter_app. cbn [filter].
    rewrite (proj2 (Hnew_of w doc) (conj eq_refl eq_refl)).
    rewrite (filter_filter_ext _ _ (fun _ => false)), filter_none; [reflexivity|].
    intros p Hp.
    destruct (is_posting_of db2 w doc p) eqn:Ep; [|apply andb_false_r].
    now rewrite (proj2 (Hsame w p Hp Ep) eq_refl).
  - intros term Hne. rewrite filter_app. cbn [filter].
    assert (Hn : is_posting_of db2 term doc new = false).
    { destruct (is_posting_of db2 term doc new) eqn:En; [|reflexivity].
      apply Hnew_of in En as [_ En]. contradiction. }
    rewrite Hn, app_nil_r. apply filter_filter_ext.
    intros p Hp. rewrite <- (Hjoin term doc p Hp).
    destruct (is_posting_of db2 term doc p) eqn:Ep; [|apply andb_false_r].
    destruct (Database.same_posting id doc p) eqn:Es; [|reflexivity].
    apply (Hsame term p Hp Ep) in Es. contradiction.
  - intros term doc2 Hne. rewrite filter_app. cbn [filter].
    assert (Hn : is_posting_of db2 term doc2 new = false).
    { destruct (is_posting_of db2 term doc2 new) eqn:En; [|reflexivity].
      apply Hnew_of in En as [En _]. contradiction. }
    rewrite Hn, app_nil_r. apply filter_filter_ext.
    intros p Hp. rewrite <- (Hjoin term doc2 p Hp).
    destruct (is_posting_of db2 term doc2 p) eqn:Ep; [|apply andb_false_r].
    destruct (Database.same_posting id doc p) eqn:Es; [|reflexivity].
    apply is_posting_of_spec in Ep as [Ed _].
    unfold Database.same_posting in Es. apply andb_true_iff in Es as [_ Es].
    apply Z.eqb_eq in Es. congruence.
Qed.

Lemma Counter_from (tokens : list str) (t : str) :
  forall acc,
    Dict.get_default str_eq_dec t 0
      (fold_left (fun d token =>
                    Dict.set str_eq_dec token
                      (Dict.get_default str_eq_dec token 0 d + 1) d)
                 tokens acc)
    = Dict.get_default str_eq_dec t 0 acc + count_occ str_eq_dec tokens t.
Proof.
  induction tokens as [|x tokens IH]; intros acc; [simpl; lia|].
  cbn [fold_left count_occ]. rewrite IH. unfold Dict.get_default at 1.
  destruct (str_eq_dec x t) as [->|Hne].
  - rewrite (get_set_same str nat str_eq_dec). lia.
  - rewrite (get_set_other str nat str_eq_dec t x) by congruence.
    unfold Dict.get_default. lia.
Qed.

Lemma Counter_nodup (tokens : list str) :
  NoDup (Dict.keys (WebParser.Counter tokens)).
Proof.
  unfold WebParser.Counter.
  assert (H : forall acc : Dict.t str nat,
            NoDup (Dict.keys acc) ->
            NoDup (Dict.keys
                     (fold_left (fun d token =>
                                   Dict.set str_eq_dec token
                                     (Dict.get_default str_eq_dec token 0 d + 1) d)
                                tokens acc))).
  { induction tokens as [|x tokens IH]; intros acc Hacc; [exact Hacc|].
    cbn [fold_left]. apply IH. now apply keys_set_nodup. }
  apply H. constructor.
Qed.

(** [Counter(tokens)] holds each token with the number of its
    occurrences. *)
Lemma Counter_items (tokens : list str) (w : str) (c : nat) :
  In (w, c) (WebParser.Counter tokens) ->
  c = count_occ str_eq_dec tokens w.
Proof.
  intros H.
  pose proof (get_of_item str nat str_eq_dec _ (Counter_nodup tokens) w c H) as Hg.
  pose proof (Counter_from tokens w []) as Hc.
  fold (WebParser.Counter tokens) in Hc.
  unfold Dict.get_default in Hc. rewrite Hg in Hc. simpl in Hc. exact Hc.
Qed.

Lemma positions_from_get (tokens : list str) (t : str) :
  forall i cache,
    Dict.get_default str_eq_dec t [] (WebParser.positions_from i tokens cache)
    = Dict.get_default str_eq_dec t [] cache ++ indices_from i t tokens.
Proof.
  induction tokens as [|x tokens IH]; intros i cache;
    [simpl; now rewrite app_nil_r|].
  cbn [WebParser.positions_from indices_from]. rewrite IH.
  unfold Dict.get_default at 1. unfold str_eqb.
  destruct (str_eq_dec x t) as [->|Hne].
  - rewrite (get_set_same str (list nat) str_eq_dec), <- app_assoc. reflexivity.
  - rewrite (get_set_other str (list nat) str_eq_dec t x) by congruence.
    reflexivity.
Qed.

Lemma indices_from_spec (t : str) (tokens : list str) :
  forall i,
    (forall j, In j (indices_from i t tokens)
               <-> i <= j /\ nth_error tokens (j - i) = Some t)
    /\ StronglySorted lt (indices_from i t tokens)
    /\ length (indices_from i t tokens) = count_occ str_eq_dec tokens t.
Proof.
  induction tokens as [|x tokens IH]; intros i.
  - split; [|split; [constructor|reflexivity]].
    intros j. simpl. split; [intros []|intros [_ H]].
    now destruct (j - i).
  - destruct (IH (S i)) as (Hin & Hs & Hl).
    cbn [indices_from count_occ]. unfold str_eqb.
    destruct (str_eq_dec x t) as [->|Hne].
    + split; [|split].
      * intros j. simpl. rewrite Hin. split.
        -- intros [<-|[Hj Hn]].
           ++ split; [lia|]. now rewrite Nat.sub_diag.
           ++ split; [lia|]. replace (j - i) with (S (j - S i)) by lia. exact Hn.
        -- intros [Hj Hn]. destruct (Nat.eq_dec i j) as [E|E]; [now left|right].
           split; [lia|]. replace (j - i) with (S (j - S i)) in Hn by lia. exact Hn.
      * constructor; [exact Hs|]. apply Forall_forall. intros j Hj.
        apply Hin in Hj. lia.
      * simpl. now rewrite Hl.
    + split; [|split; [exact Hs|exact Hl]].
      intros j. rewrite Hin. split.
      * intros [Hj Hn]. split; [lia|].
        replace (j - i) with (S (j - S i)) by lia. exact Hn.
      * intros [Hj Hn]. destruct (Nat.eq_dec i j) as [E|E].
        -- subst. rewrite Nat.sub_diag in Hn. simpl in Hn. congruence.
        -- split; [lia|]. replace (j - i) with (S (j - S i)) in Hn by lia. exact Hn.
Qed.

(** X13.  The positions that [index_document] records for a word of a
    document are the indices at which the word stands among the tokens, in
    ascending order, and there are as many of them as [Counter] counts
    occurrences of the word. *)
Theorem positions_are_the_occurrences :
  forall (tokens : list str) (word : str),
    let positions :=
      Dict.get_default str_eq_dec word [] (WebParser.positions_from 0 tokens []) in
    (forall i, In i positions <-> nth_error tokens i = Some word)
    /\ StronglySorted lt positions
    /\ length positions
       = Dict.get_default str_eq_dec word 0 (WebParser.Counter tokens)
    /\ Dict.get_default str_eq_dec word 0 (WebParser.Counter tokens)
       = count_occ str_eq_dec tokens word.
Proof.
  intros tokens word positions. subst positions.
  rewrite positions_from_get. cbn [Dict.get_default Dict.get app].
  destruct (indices_from_spec word tokens 0) as (Hin & Hs & Hl).
  pose proof (Counter_from tokens word []) as Hc.
  fold (WebParser.Counter tokens) in Hc. simpl in Hc.
  split; [|split; [exact Hs|split; [congruence|exact Hc]]].
  intros i. rewrite Hin, Nat.sub_0_r. split; [tauto|]. split; [lia|assumption].
Qed.

Lemma index_terms_postings (doc : Z) (pc : Dict.t str (list nat))
    (term_counts : Dict.t str nat) :
  NoDup (Dict.keys term_counts) ->
  forall db,
    well_formed db -> words_unique db ->
    let db' := WebParser.index_terms doc term_counts pc db in
    words_unique db'
    /\ (forall w c, In (w, c) term_counts ->
          exists id,
            postings_of db' w doc
            = [{| Database.p_word_id := id; Database.p_doc_id := doc;
                  Database.tf := inject_Z (Z.of_nat c);
                  Database.positions := Dict.get_default str_eq_dec w [] pc |}])
    /\ (forall term, ~ In term (Dict.keys term_counts) ->
          postings_of db' term doc = postings_of db term doc)
    /\ (forall term doc2, doc2 <> doc ->
          postings_of db' term doc2 = postings_of db term doc2).
Proof.
  induction term_counts as [|[w c] l IH]; intros Hnd db Hwf Hu db'; subst db'.
  - split; [exact Hu|]. split; [intros ? ? []|]. split; reflexivity.
  - rewrite index_terms_fold. cbn [fold_left]. rewrite <- index_terms_fold.
    unfold Dict.keys in Hnd. simpl in Hnd.
    inversion Hnd as [|? ? Hw Hnd']; subst.
    destruct (index_term_spec doc pc db w c Hwf) as (Hwf1 & _).
    destruct (index_term_postings doc pc db w c Hwf Hu)
      as (Hu1 & (id & Hp1) & Ho1 & Hd1).
    destruct (IH Hnd' _ Hwf1 Hu1) as (Hu2 & Hp2 & Ho2 & Hd2). cbv zeta in *.
    split; [exact Hu2|]. split; [|split].
    + intros w' c' [E|Hin].
      * injection E as <- <-. exists id.
        rewrite (Ho2 w Hw). exact Hp1.
      * exact (Hp2 w' c' Hin).
    + intros term Hn. unfold Dict.keys in Hn. simpl in Hn.
      rewrite Ho2 by tauto. apply Ho1. intros ->. tauto.
    + intros term doc2 Hne. rewrite Hd2 by exact Hne. now apply Hd1.
Qed.

(** X14.  What [index_document] leaves in the inverted index.  For every
    token of the content the document has exactly one posting, with the
    number of occurrences of the token as its [tf] and the indices of the
    occurrences as its positions, and [get_documents_for_word] returns the
    document once, with that count.  The postings of the document for
    words that are not among the tokens, and the postings of the other
    documents, are as they were. *)
Theorem index_document_stores_counts :
  forall (db : Database.t) (url title content : str) (links : list str),
    well_formed db -> words_unique db ->
    let doc := fst (Database.add_document url title content db) in
    let db' := WebParser.index_document url title content links db in
    let tokens := Utils.tokenize content Config.STOP_WORDS in
    words_unique db'
    /\ (forall term, In term tokens ->
          (exists id,
             postings_of db' term doc
             = [{| Database.p_word_id := id; Database.p_doc_id := doc;
                   Database.tf :=
                     inject_Z (Z.of_nat (count_occ str_eq_dec tokens term));
                   Database.positions := indices_from 0 term tokens |}])
          /\ filter (fun e => (fst e =? doc)%Z)
                    (Database.get_documents_for_word term db')
             = [(doc, inject_Z (Z.of_nat (count_occ str_eq_dec tokens term)))])
    /\ (forall term, ~ In term tokens ->
          postings_of db' term doc = postings_of db term doc)
    /\ (forall term doc2, doc2 <> doc ->
          postings_of db' term doc2 = postings_of db term doc2).
Proof.
  intros db url title content links Hwf Hu. cbv zeta.
  destruct (add_document_spec url title content db Hwf) as (Hid & Hwf1 & Hw1 & Hi1).
  unfold WebParser.index_document.
  destruct (Database.add_document url title content db) as [doc db1].
  cbn [fst snd] in *.
  destruct (doc =? -1)%Z eqn:Em; [apply Z.eqb_eq in Em; lia|].
  assert (Hu1 : words_unique db1) by (unfold words_unique; now rewrite Hw1).
  assert (Hb : forall term d, postings_of db1 term d = postings_of db term d)
    by (intros; now apply postings_of_ext).
  destruct (Utils.tokenize content Config.STOP_WORDS) as [|t ts].
  - destruct (add_links_spec doc links db1) as (_ & H2 & H3 & _ & _).
    assert (Ha : forall term d,
              postings_of (WebParser.add_links doc links db1) term d
              = postings_of db term d).
    { intros. rewrite <- Hb. now apply postings_of_ext. }
    split; [unfold words_unique; now rewrite H2|].
    split; [intros term []|]. split; intros; apply Ha.
  - set (tokens := t :: ts).
    destruct (index_terms_postings doc (WebParser.positions_from 0 tokens [])
                (WebParser.Counter tokens) (Counter_nodup tokens) db1 Hwf1 Hu1)
      as (Hu2 & Hp2 & Ho2 & Hd2). cbv zeta in Hu2, Hp2, Ho2, Hd2.
    set (db2 := WebParser.index_terms doc (WebParser.Counter tokens)
                  (WebParser.positions_from 0 tokens []) db1) in *.
    destruct (add_links_spec doc links db2) as (_ & H2 & H3 & _ & _).
    assert (Ha : forall term d,
              postings_of (WebParser.add_links doc links db2) term d
              = postings_of db2 term d)
      by (intros; now apply postings_of_ext).
    split; [unfold words_unique; now rewrite H2|]. split; [|split].
    + intros term Hin.
      assert (Hk : In term (Dict.keys (WebParser.Counter tokens)))
        by now apply Counter_keys.
      unfold Dict.keys in Hk. apply in_map_iff in Hk as ([w c] & Ew & Hitem).
      simpl in Ew. subst w.
      destruct (Hp2 term c Hitem) as (id & Hp).
      rewrite (Counter_items tokens term c Hitem) in Hp.
      rewrite positions_from_get in Hp. cbn [Dict.get_default Dict.get app] in Hp.
      split.
      * exists id. now rewrite Ha.
      * rewrite documents_for_word_of, Ha, Hp. reflexivity.
    + intros term Hn. rewrite Ha, Ho2, Hb; [reflexivity|].
      now rewrite Counter_keys.
    + intros term doc2 Hne. now rewrite Ha, Hd2, Hb.
Qed.

Lemma index_document_stores_counts_witness :
  well_formed Database.empty
  /\ words_unique Database.empty
  /\ filter (fun e => (fst e =? fst (Database.add_document
                                       (py "http://example.com/doc1")
                                       (py "Document 1")
                                       (py "machine learning machine")
                                       Database.empty))%Z)
            (Database.get_documents_for_word (py "machine")
               (WebParser.index_document (py "http://example.com/doc1")
                  (py "Document 1") (py "machine learning machine") []
                  Database.empty))
     = [(fst (Database.add_document (py "http://example.com/doc1")
                (py "Document 1") (py "machine learning machine") Database.empty),
         inject_Z (Z.of_nat
                     (count_occ str_eq_dec
                        (Utils.tokenize (py "machine learning machine")
                           Config.STOP_WORDS)
                        (py "machine"))))].
Proof.
  assert (H1 : well_formed Database.empty)
    by (constructor; simpl; try lia; intros; contradiction).
  assert (H2 : words_unique Database.empty) by (intros r1 r2 []).
  assert (Hin : In (py "machine")
                  (Utils.tokenize (py "machine learning machine") Config.STOP_WORDS))
    by (vm_compute; left; reflexivity).
  split; [exact H1|]. split; [exact H2|].
  pose proof (index_document_stores_counts Database.empty
                (py "http://example.com/doc1") (py "Document 1")
                (py "machine learning machine") [] H1 H2) as P.
  cbv zeta in P. destruct P as (_ & P & _).
  exact (proj2 (P (py "machine") Hin)).
Defined.

Lemma index_term_frequency (doc : Z) (pc : Dict.t str (list nat))
    (db : Database.t) (w : str) (c : nat) (w' : str) :
  well_formed db ->
  Database.get_word_frequency w' (index_term doc pc db (w, c))
  = (Database.get_word_frequency w' db + if str_eqb w' w then 1 else 0)%Z.
Proof.
  intros Hwf. unfold index_term.
  pose proof (add_word_effect w db Hwf) as P. cbv zeta in P.
  destruct P as (_ & Hsame & _ & Hother).
  destruct (Database.add_word w db) as [id db1]. cbn [fst snd] in *.
  assert (E : Database.get_word_frequency w'
                (if (id =? -1)%Z then db1
                 else Database.add_inverted_index_entry id doc
                        (inject_Z (Z.of_nat c))
                        (Dict.get_default str_eq_dec w [] pc) db1)
              = Database.get_word_frequency w' db1)
    by now destruct (id =? -1)%Z.
  rewrite E. unfold str_eqb. destruct (str_eq_dec w' w) as [->|Hne].
  - exact Hsame.
  - rewrite (proj2 (Hother w' Hne)). lia.
Qed.

Lemma index_terms_frequency (doc : Z) (pc : Dict.t str (list nat))
    (term_counts : Dict.t str nat) (w' : str) :
  NoDup (Dict.keys term_counts) ->
  forall db,
    well_formed db ->
    Database.get_word_frequency w' (WebParser.index_terms doc term_counts pc db)
    = (Database.get_word_frequency w' db
       + if in_dec str_eq_dec w' (Dict.keys term_counts) then 1 else 0)%Z.
Proof.
  induction term_counts as [|[w c] l IH]; intros Hnd db Hwf.
  - simpl. lia.
  - rewrite index_terms_fold. cbn [fold_left]. rewrite <- index_terms_fold.
    unfold Dict.keys in Hnd. simpl in Hnd.
    inversion Hnd as [|? ? Hw Hnd']; subst.
    destruct (index_term_spec doc pc db w c Hwf) as (Hwf1 & _).
    rewrite (IH Hnd' _ Hwf1), (index_term_frequency doc pc db w c w' Hwf).
    unfold str_eqb.
    destruct (in_dec str_eq_dec w' (Dict.keys ((w, c) :: l))) as [Hin|Hn];
      destruct (in_dec str_eq_dec w' (Dict.keys l)) as [Hin'|Hn'];
      destruct (str_eq_dec w' w) as [->|Hne]; try lia;
      exfalso; unfold Dict.keys in *; simpl in *; intuition congruence.
Qed.

(** X15.  The frequency of a word counts the documents indexed with it,
    not its occurrences: [index_document] adds one to the frequency of
    every word that is among the tokens of the content, however often it
    occurs there, and leaves the frequencies of the other words as they
    are. *)
Theorem index_document_counts_words_once :
  forall (db : Database.t) (url title content : str) (links : list str)
         (word : str),
    well_formed db ->
    Database.get_word_frequency word
      (WebParser.index_document url title content links db)
    = (Database.get_word_frequency word db
       + if in_dec str_eq_dec word (Utils.tokenize content Config.STOP_WORDS)
         then 1 else 0)%Z.
Proof.
  intros db url title content links word Hwf.
  destruct (add_document_spec url title content db Hwf) as (Hid & Hwf1 & Hw1 & _).
  unfold WebParser.index_document.
  destruct (Database.add_document url title content db) as [doc db1].
  cbn [fst snd] in *.
  destruct (doc =? -1)%Z eqn:Em; [apply Z.eqb_eq in Em; lia|].
  assert (Hf : forall db2, Database.words db2 = Database.words db1 ->
                 Database.get_word_frequency word db2
                 = Database.get_word_frequency word db).
  { intros db2 E. unfold Database.get_word_frequency. now rewrite E, Hw1. }
  destruct (Utils.tokenize content Config.STOP_WORDS) as [|t ts].
  - destruct (add_links_spec doc links db1) as (_ & H2 & _).
    rewrite (Hf _ H2). simpl. lia.
  - set (tokens := t :: ts).
    set (db2 := WebParser.index_terms doc (WebParser.Counter tokens)
                  (WebParser.positions_from 0 tokens []) db1).
    destruct (add_links_spec doc links db2) as (_ & H2 & _).
    assert (E : Database.get_word_frequency word (WebParser.add_links doc links db2)
                = Database.get_word_frequency word db2)
      by (unfold Database.get_word_frequency; now rewrite H2).
    rewrite E. unfold db2.
    rewrite (index_terms_frequency doc _ _ word (Counter_nodup tokens) db1 Hwf1).
    rewrite (Hf db1 eq_refl).
    destruct (in_dec str_eq_dec word (Dict.keys (WebParser.Counter tokens)))
      as [Hin|Hn];
      destruct (in_dec str_eq_dec word tokens) as [Hin'|Hn']; try reflexivity.
    + destruct (Hn' (proj1 (Counter_keys tokens word) Hin)).
    + destruct (Hn (proj2 (Counter_keys tokens word) Hin')).
Qed.

Lemma index_document_counts_words_once_witness :
  well_formed Database.empty
  /\ Database.get_word_frequency (py "machine")
       (WebParser.index_document (py "http://example.com/doc1") (py "Document 1")
          (py "machine learning machine") [] Database.empty)
     = (Database.get_word_frequency (py "machine") Database.empty
        + if in_dec str_eq_dec (py "machine")
               (Utils.tokenize (py "machine learning machine") Config.STOP_WORDS)
          then 1 else 0)%Z.
Proof.
  assert (H1 : well_formed Database.empty)
    by (constructor; simpl; try lia; intros; contradiction).
  split; [exact H1|].
  exact (index_document_counts_words_once Database.empty
           (py "http://example.com/doc1") (py "Document 1")
           (py "machine learning machine") [] (py "machine") H1).
Defined.

Lemma get_document_id_ext (u : str) (db1 db2 : Database.t) :
  Database.documents db1 = Database.documents db2 ->
  Database.get_document_id u db1 = Database.get_document_id u db2.
Proof.
  intros E. unfold Database.get_document_id. now rewrite E.
Qed.

Lemma add_links_appends (doc : Z) (links : list str) :
  forall db,
    exists new,
      Database.links (WebParser.add_links doc links db) = Database.links db ++ new
      /\ (forall l, In l new ->
            Database.source_doc_id l = doc
            /\ In (Database.target_url l) links
            /\ Database.target_doc_id l
               = Database.get_document_id (Database.target_url l) db)
      /\ (forall u, In u links ->
            exists l, In l (Database.links (WebParser.add_links doc links db))
                      /\ Database.source_doc_id l = doc
                      /\ Database.target_url l = u).
Proof.
  unfold WebParser.add_links.
  induction links as [|u links IH]; intros db.
  - exists []. simpl. rewrite app_nil_r. split; [reflexivity|].
    split; [intros l []|intros u []].
  - cbn [fold_left].
    set (db1 := Database.add_link doc u (Database.get_document_id u db) db).
    destruct (IH db1) as (new & Hl & Hnew & Hall).
    assert (Hdocs : Database.documents db1 = Database.documents db).
    { unfold db1, Database.add_link. now destruct (existsb _ (Database.links db)). }
    assert (H1 : exists first,
               Database.links db1 = Database.links db ++ first
               /\ (forall l, In l first ->
                     Database.source_doc_id l = doc
                     /\ Database.target_url l = u
                     /\ Database.target_doc_id l = Database.get_document_id u db)
               /\ exists l, In l (Database.links db1)
                            /\ Database.source_doc_id l = doc
                            /\ Database.target_url l = u).
    { unfold db1, Database.add_link.
      destruct (existsb _ (Database.links db)) eqn:E.
      - exists []. rewrite app_nil_r. split; [reflexivity|]. split; [intros l []|].
        apply existsb_exists in E as (l & Hl' & Hb).
        apply andb_true_iff in Hb as [Hs Ht].
        apply Z.eqb_eq in Hs. apply str_eqb_eq in Ht. now exists l.
      - eexists [_]. cbn [Database.links]. split; [reflexivity|]. split.
        + intros l [<-|[]]. simpl. auto.
        + eexists. split; [apply in_app_iff; right; left; reflexivity|].
          simpl. auto. }
    destruct H1 as (first & Hf & Hfirst & (l0 & Hl0 & Hs0 & Ht0)).
    exists (first ++ new). split; [now rewrite Hl, Hf, app_assoc|]. split.
    + intros l Hin. apply in_app_iff in Hin as [Hin|Hin].
      * destruct (Hfirst l Hin) as (E1 & E2 & E3).
        split; [exact E1|]. split; [left; now symmetry|]. now rewrite E2.
      * destruct (Hnew l Hin) as (E1 & E2 & E3).
        split; [exact E1|]. split; [now right|].
        rewrite E3. now apply get_document_id_ext.
    + intros u' [<-|Hin]; [|exact (Hall u' Hin)].
      exists l0. split; [|auto]. rewrite Hl. apply in_app_iff. now left.
Qed.

(** X16.  [index_document] only adds links.  The links of the table stay
    as they are, in their order; the new links come after them, each from
    the document indexed to a url of the list given, with the id that
    [get_document_id] has for the url at that moment ([None] for a page not
    indexed yet); and every url of the list has a link from the document
    afterwards. *)
Theorem index_document_appends_links :
  forall (db : Database.t) (url title content : str) (links : list str),
    well_formed db ->
    let doc := fst (Database.add_document url title content db) in
    let db' := WebParser.index_document url title content links db in
    exists new,
      Database.links db' = Database.links db ++ new
      /\ (forall l, In l new ->
            Database.source_doc_id l = doc
            /\ In (Database.target_url l) links
            /\ Database.target_doc_id l
               = Database.get_document_id (Database.target_url l) db')
      /\ (forall u, In u links ->
            exists l, In l (Database.links db')
                      /\ Database.source_doc_id l = doc
                      /\ Database.target_url l = u).
Proof.
  intros db url title content links Hwf. cbv zeta.
  destruct (add_document_spec url title content db Hwf) as (Hid & Hwf1 & _ & _).
  assert (Hl1 : Database.links (snd (Database.add_document url title content db))
                = Database.links db).
  { unfold Database.add_document.
    assert (E : Database.links (Database.insert_or_ignore_document url title content db)
                = Database.links db).
    { unfold Database.insert_or_ignore_document.
      now destruct (Database.get_document_id url db). }
    destruct (Database.get_document_id url
                (Database.insert_or_ignore_document url title content db));
      exact E. }
  unfold WebParser.index_document.
  destruct (Database.add_document url title content db) as [doc db1].
  cbn [fst snd] in *.
  destruct (doc =? -1)%Z eqn:Em; [apply Z.eqb_eq in Em; lia|].
  assert (Hgen : forall db2,
            Database.links db2 = Database.links db ->
            exists new,
              Database.links (WebParser.add_links doc links db2)
              = Database.links db ++ new
              /\ (forall l, In l new ->
                    Database.source_doc_id l = doc
                    /\ In (Database.target_url l) links
                    /\ Database.target_doc_id l
                       = Database.get_document_id (Database.target_url l)
                           (WebParser.add_links doc links db2))
              /\ (forall u, In u links ->
                    exists l, In l (Database.links (WebParser.add_links doc links db2))
                              /\ Database.source_doc_id l = doc
                              /\ Database.target_url l = u)).
  { intros db2 E2. destruct (add_links_appends doc links db2) as (new & Hl & Hnew & Hall).
    destruct (add_links_spec doc links db2) as (Hd & _).
    exists new. split; [now rewrite Hl, E2|]. split; [|exact Hall].
    intros l Hin. destruct (Hnew l Hin) as (E1 & E3 & E4).
    split; [exact E1|]. split; [exact E3|]. rewrite E4.
    symmetry. now apply get_document_id_ext. }
  destruct (Utils.tokenize content Config.STOP_WORDS) as [|t ts].
  - apply Hgen. exact Hl1.
  - apply Hgen.
    destruct (index_terms_frame doc (WebParser.positions_from 0 (t :: ts) [])
                (WebParser.Counter (t :: ts)) db1) as (E & _).
    now rewrite E.
Qed.

Lemma index_document_appends_links_witness :
  well_formed Database.empty
  /\ exists new,
       Database.links
         (WebParser.index_document (py "http://example.com/a") (py "A")
            (py "alpha") [py "http://example.com/b"] Database.empty)
       = Database.links Database.empty ++ new
       /\ (forall l, In l new ->
             Database.source_doc_id l
             = fst (Database.add_document (py "http://example.com/a") (py "A")
                      (py "alpha") Database.empty)
             /\ In (Database.target_url l) [py "http://example.com/b"]
             /\ Database.target_doc_id l
                = Database.get_document_id (Database.target_url l)
                    (WebParser.index_document (py "http://example.com/a") (py "A")
                       (py "alpha") [py "http://example.com/b"] Database.empty))
       /\ (forall u, In u [py "http://example.com/b"] ->
             exists l,
               In l (Database.links
                       (WebParser.index_document (py "http://example.com/a")
                          (py "A") (py "alpha") [py "http://example.com/b"]
                          Database.empty))
               /\ Database.source_doc_id l
                  = fst (Database.add_document (py "http://example.com/a") (py "A")
                           (py "alpha") Database.empty)
               /\ Database.target_url l = u).
Proof.
  assert (H1 : well_formed Database.empty)
    by (constructor; simpl; try lia; intros; contradiction).
  split; [exact H1|].
  exact (index_document_appends_links Database.empty (py "http://example.com/a")
           (py "A") (py "alpha") [py "http://example.com/b"] H1).
Defined.

(** ** More of utils.py *)

Lemma count_from (tokens : list str) (t : str) :
  forall acc : Dict.t str Q,
    (Dict.get_default str_eq_dec t 0%Q
       (fold_left (fun tf token =>
                     Dict.set str_eq_dec token
                       (Dict.get_default str_eq_dec token 0%Q tf + 1) tf)
                  tokens acc)
     == Dict.get_default str_eq_dec t 0%Q acc
        + Qnat (count_occ str_eq_dec tokens t))%Q.
Proof.
  induction tokens as [|x tokens IH]; intros acc.
  - simpl. unfold Qnat. simpl. ring.
  - cbn [fold_left count_occ]. rewrite IH. unfold Dict.get_default at 1.
    destruct (str_eq_dec x t) as [->|Hne].
    + rewrite (get_set_same str Q str_eq_dec). unfold Qnat.
      rewrite Nat2Z.inj_succ, <- Z.add_1_r, inject_Z_plus. ring.
    + rewrite (get_set_other str Q str_eq_dec t x) by congruence.
      unfold Dict.get_default. ring.
Qed.

Lemma count_keys (tokens : list str) :
  forall acc : Dict.t str Q,
    NoDup (Dict.keys acc) ->
    NoDup (Dict.keys
             (fold_left (fun tf token =>
                           Dict.set str_eq_dec token
                             (Dict.get_default str_eq_dec token 0%Q tf + 1)%Q tf)
                        tokens acc))
    /\ forall t,
         In t (Dict.keys
                 (fold_left (fun tf token =>
                               Dict.set str_eq_dec token
                                 (Dict.get_default str_eq_dec token 0%Q tf + 1)%Q tf)
                            tokens acc))
         <-> In t tokens \/ In t (Dict.keys acc).
Proof.
  induction tokens as [|x tokens IH]; intros acc Hacc.
  - split; [exact Hacc|]. intros t. simpl. tauto.
  - cbn [fold_left].
    destruct (IH _ (keys_set_nodup str Q str_eq_dec x
                      (Dict.get_default str_eq_dec x 0%Q acc + 1)%Q acc Hacc))
      as [H1 H2].
    split; [exact H1|]. intros t. rewrite H2, (keys_set_iff str Q str_eq_dec).
    simpl. intuition.
Qed.

(** A loop that divides the entries of a dictionary in place. *)
Lemma divide_loop_get (total : Q) (ks : list str) (t : str) :
  NoDup ks ->
  forall d : Dict.t str Q,
    Dict.get_default str_eq_dec t 0%Q
      (fold_left (fun tf token =>
                    Dict.set str_eq_dec token
                      (Dict.get_default str_eq_dec token 0%Q tf / total)%Q tf)
                 ks d)
    = if in_dec str_eq_dec t ks
      then (Dict.get_default str_eq_dec t 0%Q d / total)%Q
      else Dict.get_default str_eq_dec t 0%Q d.
Proof.
  induction ks as [|k ks IH]; intros Hnd d; [reflexivity|].
  inversion Hnd as [|? ? Hk Hnd']; subst.
  cbn [fold_left]. rewrite (IH Hnd').
  destruct (in_dec str_eq_dec t (k :: ks)) as [Hin|Hn];
    destruct (in_dec str_eq_dec t ks) as [Hin'|Hn'].
  - assert (Hne : t <> k) by (intros ->; contradiction).
    unfold Dict.get_default.
    now rewrite (get_set_other str Q str_eq_dec t k) by exact Hne.
  - destruct Hin as [->|Hin]; [|contradiction].
    unfold Dict.get_default at 1.
    now rewrite (get_set_same str Q str_eq_dec).
  - exfalso. apply Hn. now right.
  - assert (Hne : t <> k) by (intros ->; apply Hn; now left).
    unfold Dict.get_default.
    now rewrite (get_set_other str Q str_eq_dec t k) by exact Hne.
Qed.

Lemma sum_of_counts (tokens ks : list str) :
  NoDup ks -> incl tokens ks ->
  (Qsum (map (fun k => Qnat (count_occ str_eq_dec tokens k)) ks)
   == Qnat (length tokens))%Q.
Proof.
  intros Hnd. induction tokens as [|x tokens IH]; intros Hincl.
  - simpl. apply Qsum_zero. intros k _. reflexivity.
  - assert (Hx : In x ks) by (apply Hincl; now left).
    assert (Hrest : incl tokens ks) by (intros y Hy; apply Hincl; now right).
    rewrite (Qsum_map_ext _
               (fun k => (if str_eqb k x then 1 else 0)
                         + Qnat (count_occ str_eq_dec tokens k))%Q).
    + rewrite Qsum_map_plus, (IH Hrest).
      rewrite (sum_indicator str str_eqb str_eqb_eq ks x 1 Hnd).
      assert (E : existsb (fun t => str_eqb t x) ks = true).
      { apply existsb_exists. exists x. split; [exact Hx|]. now apply str_eqb_eq. }
      rewrite E. unfold Qnat. cbn [length].
      rewrite Nat2Z.inj_succ, <- Z.add_1_r, inject_Z_plus. ring.
    + intros k _. cbn [count_occ]. unfold str_eqb.
      destruct (str_eq_dec x k) as [->|Hne].
      * destruct (str_eq_dec k k); [|congruence]. unfold Qnat.
        rewrite Nat2Z.inj_succ, <- Z.add_1_r, inject_Z_plus. ring.
      * destruct (str_eq_dec k x); [congruence|]. ring.
Qed.

(** X17.  [calculate_tf] of utils.py gives every token of a non-empty list
    its number of occurrences divided by the length of the list, has the
    distinct tokens as its keys, and its values add up to one; of the empty
    list it gives the empty dictionary. *)
Theorem calculate_tf_is_a_distribution :
  forall tokens : list str,
    Utils.calculate_tf [] = []
    /\ NoDup (Dict.keys (Utils.calculate_tf tokens))
    /\ (forall t, In t (Dict.keys (Utils.calculate_tf tokens)) <-> In t tokens)
    /\ (forall t, In t tokens ->
          (Dict.get_default str_eq_dec t 0%Q (Utils.calculate_tf tokens)
           == Qnat (count_occ str_eq_dec tokens t) / Qnat (length tokens))%Q)
    /\ (tokens <> [] ->
        (Qsum (map (fun t => Dict.get_default str_eq_dec t 0%Q
                               (Utils.calculate_tf tokens))
                   (Dict.keys (Utils.calculate_tf tokens)))
         == 1)%Q).
Proof.
  intros tokens. split; [reflexivity|].
  destruct tokens as [|x rest] eqn:Et.
  { split; [constructor|]. split; [intros t; simpl; tauto|].
    split; [intros t []|congruence]. }
  rewrite <- Et. set (n := length tokens).
  assert (Hn : ~ (Qnat n == 0)%Q).
  { apply Qnot_eq_sym, Qlt_not_eq, Qnat_pos. unfold n. rewrite Et. discriminate. }
  set (counts := fold_left (fun tf token =>
                              Dict.set str_eq_dec token
                                (Dict.get_default str_eq_dec token 0%Q tf + 1)%Q tf)
                           tokens ([] : Dict.t str Q)).
  assert (E : Utils.calculate_tf tokens
              = fold_left (fun tf token =>
                             Dict.set str_eq_dec token
                               (Dict.get_default str_eq_dec token 0%Q tf / Qnat n)%Q tf)
                          (Dict.keys counts) counts).
  { unfold Utils.calculate_tf. rewrite Et at 1. reflexivity. }
  destruct (count_keys tokens [] (NoDup_nil _)) as [Hnd Hk]. fold counts in Hnd, Hk.
  assert (Hkeys : Dict.keys (Utils.calculate_tf tokens) = Dict.keys counts).
  { rewrite E.
    apply (keys_fold_present str Q str_eq_dec
             (fun tf token => (Dict.get_default str_eq_dec token 0%Q tf / Qnat n)%Q)).
    apply incl_refl. }
  assert (Hval : forall t, In t tokens ->
            (Dict.get_default str_eq_dec t 0%Q (Utils.calculate_tf tokens)
             == Qnat (count_occ str_eq_dec tokens t) / Qnat n)%Q).
  { intros t Ht. rewrite E, (divide_loop_get (Qnat n) _ t Hnd).
    destruct (in_dec str_eq_dec t (Dict.keys counts)) as [_|Hno];
      [|destruct Hno; apply Hk; now left].
    unfold counts. rewrite count_from. cbn [Dict.get_default Dict.get]. field. exact Hn. }
  rewrite Hkeys. split; [exact Hnd|]. split; [|split; [exact Hval|]].
  - intros t. rewrite Hk. simpl. tauto.
  - intros _.
    rewrite (Qsum_map_ext _ (fun t => (/ Qnat n)
                                      * Qnat (count_occ str_eq_dec tokens t))%Q).
    + rewrite Qsum_map_scale, (sum_of_counts tokens _ Hnd).
      * fold n. field. exact Hn.
      * intros t Ht. apply Hk. now left.
    + intros t Ht. rewrite Hval by (apply Hk in Ht; simpl in Ht; tauto).
      field. exact Hn.
Qed.

Lemma slice_length (text : str) (start stop : nat) :
  length (Utils.slice text start stop) <= stop - start.
Proof.
  unfold Utils.slice. apply firstn_le_length.
Qed.

Lemma wide_slice_length (text : UtilsWide.str) (start stop : nat) :
  length (UtilsWide.slice text start stop) <= stop - start.
Proof.
  unfold UtilsWide.slice. apply firstn_le_length.
Qed.

(** X18.  A snippet is never longer than [max_length] characters and the
    two ellipses, whatever the text and the query terms; of the empty text
    it is empty.  This holds on both alphabets, also where the snippet
    misses the occurrence. *)
Theorem generate_snippet_length :
  forall (max_length : nat),
    (forall (text : str) (query_terms : list str),
        length (Utils.generate_snippet text query_terms max_length)
        <= max_length + 6)
    /\ (forall (text : UtilsWide.str) (query_terms : list UtilsWide.str),
          length (UtilsWide.generate_snippet text query_terms max_length)
          <= max_length + 6)
    /\ (forall query_terms, Utils.generate_snippet [] query_terms max_length = [])
    /\ (forall query_terms,
          UtilsWide.generate_snippet [] query_terms max_length = []).
Proof.
  intros max_length. split; [|split; [|split; reflexivity]].
  - intros text query_terms. unfold Utils.generate_snippet.
    destruct text as [|c text]; [simpl; lia|].
    destruct (Utils.all_positions (c :: text) query_terms) as [[|p ps]|];
      [| |simpl; lia].
    + destruct (max_length <? length (c :: text)) eqn:E.
      * rewrite length_app. pose proof (firstn_le_length max_length (c :: text)).
        change (length Utils.ellipsis) with 3. lia.
      * apply Nat.ltb_ge in E. lia.
    + cbv zeta.
      set (start := Utils.min_start p ps - max_length / 2).
      set (stop := Nat.min (length (c :: text)) (start + max_length)).
      pose proof (slice_length (c :: text) start stop) as Hs.
      assert (Hw : stop - start <= max_length) by (unfold stop; lia).
      destruct (0 <? start); destruct (stop <? length (c :: text));
        rewrite ?length_app; change (length Utils.ellipsis) with 3; lia.
  - intros text query_terms. unfold UtilsWide.generate_snippet.
    destruct text as [|c text]; [simpl; lia|].
    destruct (UtilsWide.all_positions (c :: text) query_terms) as [[|p ps]|];
      [| |simpl; lia].
    + destruct (max_length <? length (c :: text)) eqn:E.
      * rewrite length_app. pose proof (firstn_le_length max_length (c :: text)).
        change (length UtilsWide.ellipsis) with 3. lia.
      * apply Nat.ltb_ge in E. lia.
    + cbv zeta.
      set (start := Utils.min_start p ps - max_length / 2).
      set (stop := Nat.min (length (c :: text)) (start + max_length)).
      pose proof (wide_slice_length (c :: text) start stop) as Hs.
      assert (Hw : stop - start <= max_length) by (unfold stop; lia).
      destruct (0 <? start); destruct (stop <? length (c :: text));
        rewrite ?length_app; change (length UtilsWide.ellipsis) with 3; lia.
Qed.

(** ** More of the two PageRank engines *)

Lemma term_le_sum {A : Type} (f : A -> Q) (l : list A) (x : A) :
  (forall y, In y l -> (0 <= f y)%Q) -> In x l ->
  (f x <= Qsum (map f l))%Q.
Proof.
  induction l as [|y l IH]; intros Hpos Hin; [contradiction|].
  cbn [map]. rewrite Qsum_cons.
  assert (Hrest : (0 <= Qsum (map f l))%Q).
  { apply Qsum_nonneg. apply Forall_map, Forall_forall.
    intros z Hz. apply Hpos. now right. }
  destruct Hin as [->|Hin].
  - lra.
  - pose proof (Hpos y (or_introl eq_refl)).
    assert (f x <= Qsum (map f l))%Q
      by (apply IH; [intros z Hz; apply Hpos; now right|exact Hin]).
    lra.
Qed.

Lemma ranks_ok_get (ids : list Z) (ranks : Dict.t Z Q) (id : Z) :
  ranks_ok ids ranks -> (0 <= Dict.get_default Z.eq_dec id 0%Q ranks)%Q.
Proof.
  intros (_ & _ & Hpos). unfold Dict.get_default.
  induction ranks as [|[k v] ranks IH]; simpl; [lra|].
  inversion Hpos as [|? ? Hv Hrest]; subst.
  destruct (Z.eq_dec id k); [exact Hv|now apply IH].
Qed.

(** X19.  Every score stays between the share [(1 - d) / N] that each
    document gets without any link and [1]: after every superstep of the
    Pregel engine and after every iteration of the MapReduce engine, for a
    damping factor between [0] and [1]. *)
Theorem scores_within_bounds :
  forall (cfg : Config.pagerank_config) (db : Database.t),
    link_graph_ok db -> doc_ids_of db <> [] ->
    (0 <= Config.damping_factor cfg <= 1)%Q ->
    forall k id, In id (doc_ids_of db) ->
      let base := ((1 - Config.damping_factor cfg)
                   / Qnat (length (doc_ids_of db)))%Q in
      (base <= pregel_score (Config.damping_factor cfg) db (S k) id <= 1)%Q
      /\ (base <= Dict.get_default Z.eq_dec id 0%Q (mapreduce_scores cfg db (S k))
          <= 1)%Q.
Proof.
  intros cfg db Hok Hne Hd k id Hid base. pose proof Hok as [Hnd _].
  set (d := Config.damping_factor cfg) in *.
  split; split.
  - (* Pregel, from below *)
    destruct (In_nth_error _ _ Hid) as [i Hi].
    assert (Hlen : length (pregel_vertices d db (S k)) = length (doc_ids_of db))
      by apply pregel_vertices_length.
    assert (Hlt : i < length (pregel_vertices d db k)).
    { rewrite pregel_vertices_length. apply nth_error_Some. congruence. }
    destruct (nth_error (pregel_vertices d db k) i) as [v|] eqn:Ev;
      [|apply nth_error_None in Ev; lia].
    assert (Ev' : nth_error (pregel_vertices d db (S k)) i
                  = Some (SimplePregelGraph.receive d
                            (length (pregel_vertices d db k))
                            (SimplePregelGraph.send_phase (pregel_vertices d db k)) v)).
    { rewrite pregel_vertices_succ. unfold superstep_vertices.
      now apply map_nth_error. }
    rewrite <- (pregel_vertex_value d db (S k) i id _ Hok Hi Ev').
    rewrite receive_value, pregel_vertices_length. fold base.
    destruct (pregel_invariant d db Hok Hne Hd k) as (_ & Hpos & _).
    pose proof (Qsum_nonneg _ (inbox_nonnegative _ (PregelVertex.id v) Hpos)).
    destruct Hd. nra.
  - (* Pregel, from above *)
    destruct (pregel_invariant d db Hok Hne Hd (S k)) as (_ & Hpos & Hle).
    rewrite <- (scores_of_total (doc_ids_of db) _ Hnd (pregel_vertices_length d db (S k)))
      in Hle.
    unfold total_score in Hle. unfold pregel_score.
    eapply Qle_trans; [|exact Hle].
    apply (term_le_sum (fun id0 => Dict.get_default Z.eq_dec id0 0%Q
                                   (scores_of (doc_ids_of db)
                                      (pregel_vertices d db (S k))))); [|exact Hid].
    intros y Hy. destruct (In_nth_error _ _ Hy) as [j Hj].
    assert (Hltj : j < length (pregel_vertices d db (S k))).
    { rewrite pregel_vertices_length. apply nth_error_Some. congruence. }
    destruct (nth_error (pregel_vertices d db (S k)) j) as [v|] eqn:Ev;
      [|apply nth_error_None in Ev; lia].
    rewrite (scores_of_get _ Hnd _ j y v (pregel_vertices_length d db (S k)) Hj Ev).
    unfold nonnegative in Hpos. rewrite Forall_forall in Hpos.
    apply Hpos. eapply nth_error_In. exact Ev.
  - (* MapReduce, from below *)
    rewrite mapreduce_scores_succ, (iteration_value cfg db _ id Hnd Hid).
    fold d base.
    destruct (mapreduce_invariant cfg db Hok Hne Hd k) as [(_ & _ & Hpos) _].
    pose proof (to_target_nonneg id _ (contributions_nonneg cfg db _ Hpos)).
    destruct Hd. nra.
  - (* MapReduce, from above *)
    destruct (mapreduce_invariant cfg db Hok Hne Hd (S k)) as [Hr Hle].
    unfold total_score in Hle. eapply Qle_trans; [|exact Hle].
    apply (term_le_sum (fun id0 => Dict.get_default Z.eq_dec id0 0%Q
                                   (mapreduce_scores cfg db (S k)))); [|exact Hid].
    intros y _. exact (ranks_ok_get _ _ y Hr).
Qed.

Lemma scores_within_bounds_witness :
  link_graph_ok chain_corpus
  /\ doc_ids_of chain_corpus <> []
  /\ (0 <= Config.damping_factor Config.PAGERANK_CONFIG <= 1)%Q
  /\ In 2%Z (doc_ids_of chain_corpus)
  /\ ((1 - Config.damping_factor Config.PAGERANK_CONFIG)
      / Qnat (length (doc_ids_of chain_corpus))
      <= pregel_score (Config.damping_factor Config.PAGERANK_CONFIG) chain_corpus 1 2
      <= 1)%Q.
Proof.
  assert (Hd : (0 <= Config.damping_factor Config.PAGERANK_CONFIG <= 1)%Q)
    by (split; vm_compute; discriminate).
  assert (Hin : In 2%Z (doc_ids_of chain_corpus)) by (vm_compute; tauto).
  split; [exact chain_corpus_ok|]. split; [exact chain_corpus_documents|].
  split; [exact Hd|]. split; [exact Hin|].
  exact (proj1 (scores_within_bounds Config.PAGERANK_CONFIG chain_corpus
                  chain_corpus_ok chain_corpus_documents Hd 0 2%Z Hin)).
Defined.

(** X20.  [add_edge] checks its bounds: an edge whose source or target is
    no vertex of the graph is dropped and the graph stays as it is; an
    edge between vertices is put at the end of the edges of its source,
    also when the source has that edge already, and the other vertices are
    as before. *)
Theorem add_edge_checks_bounds :
  forall (source target : nat) (g : SimplePregelGraph.t),
    (SimplePregelGraph.num_vertices g <= source
     \/ SimplePregelGraph.num_vertices g <= target ->
     SimplePregelGraph.add_edge source target g = g)
    /\ SimplePregelGraph.num_vertices (SimplePregelGraph.add_edge source target g)
       = SimplePregelGraph.num_vertices g
    /\ (source < SimplePregelGraph.num_vertices g ->
        target < SimplePregelGraph.num_vertices g ->
        forall i v,
          nth_error (SimplePregelGraph.vertices g) i = Some v ->
          nth_error (SimplePregelGraph.vertices
                       (SimplePregelGraph.add_edge source target g)) i
          = Some (if source =? i
                  then {| PregelVertex.id := PregelVertex.id v;
                          PregelVertex.value := PregelVertex.value v;
                          PregelVertex.outgoing_edges :=
                            PregelVertex.outgoing_edges v ++ [target];
                          PregelVertex.active := PregelVertex.active v |}
                  else v)).
Proof.
  intros source target g. unfold SimplePregelGraph.add_edge. split; [|split].
  - intros H.
    destruct (source <? SimplePregelGraph.num_vertices g) eqn:E1;
      destruct (target <? SimplePregelGraph.num_vertices g) eqn:E2;
      try reflexivity.
    apply Nat.ltb_lt in E1, E2. lia.
  - destruct ((source <? SimplePregelGraph.num_vertices g)
              && (target <? SimplePregelGraph.num_vertices g)); [|reflexivity].
    unfold SimplePregelGraph.num_vertices. cbn [SimplePregelGraph.vertices].
    apply append_edge_length.
  - intros H1 H2 i v Hv.
    rewrite (proj2 (Nat.ltb_lt _ _) H1), (proj2 (Nat.ltb_lt _ _) H2).
    cbn [andb SimplePregelGraph.vertices].
    rewrite append_edge_nth, Hv. now destruct (source =? i).
Qed.

(** X21.  [initialize_pagerank] divides by the number of vertices: on a
    graph without vertices it raises [ZeroDivisionError]; otherwise every
    vertex gets the value [1 / N] and is active, and keeps its id and its
    edges.  Over exact rationals, where the value is the rational
    [1 / N], the values add up to one; the [N] binary64 numbers nearest to
    [1 / N] that the code adds need not: see [initial_values_round]. *)
Theorem initialize_pagerank_uniform :
  forall g : SimplePregelGraph.t,
    match SimplePregelGraph.initialize_pagerank g with
    | Raise e => e = ZeroDivisionError /\ SimplePregelGraph.vertices g = []
    | Ok g' =>
        SimplePregelGraph.vertices g <> []
        /\ Forall2 (fun v v' =>
                      PregelVertex.id v' = PregelVertex.id v
                      /\ PregelVertex.outgoing_edges v' = PregelVertex.outgoing_edges v
                      /\ PregelVertex.value v'
                         = (1 / Qnat (SimplePregelGraph.num_vertices g))%Q
                      /\ PregelVertex.active v' = true)
                   (SimplePregelGraph.vertices g) (SimplePregelGraph.vertices g')
        /\ (total_value (SimplePregelGraph.vertices g') == 1)%Q
    end.
Proof.
  intros g. unfold SimplePregelGraph.initialize_pagerank,
    SimplePregelGraph.num_vertices.
  destruct (length (SimplePregelGraph.vertices g) =? 0) eqn:E.
  - apply Nat.eqb_eq in E. split; [reflexivity|].
    now destruct (SimplePregelGraph.vertices g).
  - apply Nat.eqb_neq in E. cbn [SimplePregelGraph.vertices].
    split; [now destruct (SimplePregelGraph.vertices g)|]. split.
    + induction (SimplePregelGraph.vertices g) as [|v vs IH]; [constructor|].
      simpl. constructor; [auto|]. clear IH E.
      generalize (S (length vs)). intros n.
      induction vs as [|w vs IH]; [constructor|].
      simpl. constructor; [auto|exact IH].
    + unfold total_value. rewrite map_map. cbn [PregelVertex.value].
      rewrite Qsum_map_const. field.
      apply Qnot_eq_sym, Qlt_not_eq, Qnat_pos. exact E.
Qed.

Lemma nth_error_index_of (ids : list Z) (t : Z) :
  In t ids -> nth_error ids (index_of ids t) = Some t.
Proof.
  intros H. unfold index_of.
  destruct (index_in_some ids t H) as (i & -> & Hi). exact Hi.
Qed.

(** X22.  The graph that the Pregel engine builds from the tables.  On a
    corpus with a document the engine is built; its two dictionaries are
    inverse to each other, the index of a document being its place among
    the documents; the vertex at an index has that index as its id; and
    its edges, read back through the places of the documents, are the
    documents that the resolved links of its document lead to, one edge for
    each link, in the order of the links. *)
Theorem pregel_graph_of_links :
  forall (cfg : Config.pagerank_config) (db : Database.t),
    link_graph_ok db -> doc_ids_of db <> [] ->
    exists self g,
      PageRankPregel.init cfg db = Ok self
      /\ PageRankPregel.graph self = Some g
      /\ PageRankPregel.doc_ids self = doc_ids_of db
      /\ SimplePregelGraph.num_vertices g = length (doc_ids_of db)
      /\ (forall id i,
            Dict.get Z.eq_dec id (PageRankPregel.id_to_index self) = Some i
            <-> Dict.get Nat.eq_dec i (PageRankPregel.index_to_id self) = Some id)
      /\ (forall i, Dict.get Nat.eq_dec i (PageRankPregel.index_to_id self)
                    = nth_error (doc_ids_of db) i)
      /\ forall i id,
           nth_error (doc_ids_of db) i = Some id ->
           exists v,
             nth_error (SimplePregelGraph.vertices g) i = Some v
             /\ PregelVertex.id v = i
             /\ map (nth_error (doc_ids_of db)) (PregelVertex.outgoing_edges v)
                = map Some (outgoing db id).
Proof.
  intros cfg db Hok Hne. pose proof Hok as [Hnd _].
  exists (pregel_engine cfg db). eexists.
  split; [exact (pregel_init_spec cfg db Hok Hne)|].
  split; [reflexivity|]. split; [reflexivity|].
  cbn [PageRankPregel.id_to_index PageRankPregel.index_to_id pregel_engine
       SimplePregelGraph.vertices].
  split; [|split; [|split]].
  - unfold SimplePregelGraph.num_vertices. cbn [SimplePregelGraph.vertices].
    rewrite length_map. apply enumerate_length.
  - intros id i. rewrite (id_to_index_get _ id Hnd), index_to_id_get. split.
    + intros H.
      assert (Hin : In id (doc_ids_of db)).
      { destruct (in_dec Z.eq_dec id (doc_ids_of db)) as [Hin|Hn]; [exact Hin|].
        rewrite (index_in_none _ _ Hn) in H. discriminate. }
      destruct (index_in_some _ _ Hin) as (j & Ej & Hj). congruence.
    + intros H. exact (index_in_nth _ Hnd i id H).
  - intros i. apply index_to_id_get.
  - intros i id Hi. eexists. split.
    + apply map_nth_error. apply (enumerate_nth _ i id 0). exact Hi.
    + cbn [built_vertex PregelVertex.id PregelVertex.outgoing_edges fst snd].
      split; [reflexivity|]. rewrite map_map. apply map_ext_in.
      intros t Ht. apply nth_error_index_of.
      exact (outgoing_in_ids db id t Hok Ht).
Qed.

Lemma pregel_graph_of_links_witness :
  link_graph_ok chain_corpus
  /\ doc_ids_of chain_corpus <> []
  /\ exists self g,
       PageRankPregel.init Config.PAGERANK_CONFIG chain_corpus = Ok self
       /\ PageRankPregel.graph self = Some g
       /\ PageRankPregel.doc_ids self = doc_ids_of chain_corpus
       /\ SimplePregelGraph.num_vertices g = length (doc_ids_of chain_corpus)
       /\ (forall id i,
             Dict.get Z.eq_dec id (PageRankPregel.id_to_index self) = Some i
             <-> Dict.get Nat.eq_dec i (PageRankPregel.index_to_id self) = Some id)
       /\ (forall i, Dict.get Nat.eq_dec i (PageRankPregel.index_to_id self)
                     = nth_error (doc_ids_of chain_corpus) i)
       /\ forall i id,
            nth_error (doc_ids_of chain_corpus) i = Some id ->
            exists v,
              nth_error (SimplePregelGraph.vertices g) i = Some v
              /\ PregelVertex.id v = i
              /\ map (nth_error (doc_ids_of chain_corpus))
                     (PregelVertex.outgoing_edges v)
                 = map Some (outgoing chain_corpus id).
Proof.
  split; [exact chain_corpus_ok|]. split; [exact chain_corpus_documents|].
  exact (pregel_graph_of_links Config.PAGERANK_CONFIG chain_corpus
           chain_corpus_ok chain_corpus_documents).
Defined.

Lemma reset_superstep (c d : Q) (vs : list PregelVertex.t) :
  map (reset_vertex c) (superstep_vertices d vs) = map (reset_vertex c) vs.
Proof.
  unfold superstep_vertices. rewrite map_map. apply map_ext. reflexivity.
Qed.

Lemma reset_iter (c d : Q) (k : nat) (vs : list PregelVertex.t) :
  map (reset_vertex c) (Nat.iter k (superstep_vertices d) vs)
  = map (reset_vertex c) vs.
Proof.
  induction k as [|k IH]; [reflexivity|].
  rewrite Nat.iter_succ. now rewrite reset_superstep.
Qed.

Lemma iter_length (d : Q) (k : nat) (vs : list PregelVertex.t) :
  length (Nat.iter k (superstep_vertices d) vs) = length vs.
Proof.
  induction k as [|k IH]; [reflexivity|].
  rewrite Nat.iter_succ. now rewrite superstep_length.
Qed.

Lemma run_superstep_by_vertices (d : Q) (g1 g2 : SimplePregelGraph.t) :
  SimplePregelGraph.vertices g1 = SimplePregelGraph.vertices g2 ->
  SimplePregelGraph.vertices (fst (SimplePregelGraph.run_superstep d g1))
  = SimplePregelGraph.vertices (fst (SimplePregelGraph.run_superstep d g2))
  /\ snd (SimplePregelGraph.run_superstep d g1)
     = snd (SimplePregelGraph.run_superstep d g2).
Proof.
  intros E. unfold SimplePregelGraph.run_superstep, SimplePregelGraph.num_vertices.
  cbn [fst snd SimplePregelGraph.vertices]. now rewrite E.
Qed.

(** The loop of [calculate] reads the vertices of the graph only, and of
    the engine only the damping factor and the dictionary of the ids. *)
Lemma pregel_loop_by_vertices (self1 self2 : PageRankPregel.t) :
  PageRankPregel.damping_factor self1 = PageRankPregel.damping_factor self2 ->
  PageRankPregel.index_to_id self1 = PageRankPregel.index_to_id self2 ->
  forall n i1 i2 g1 g2 db1 db2,
    SimplePregelGraph.vertices g1 = SimplePregelGraph.vertices g2 ->
    match PageRankPregel.calculate_loop self1 n i1 g1 db1,
          PageRankPregel.calculate_loop self2 n i2 g2 db2 with
    | Ok (a, _), Ok (b, _) =>
        SimplePregelGraph.vertices a = SimplePregelGraph.vertices b
    | Raise e1, Raise e2 => e1 = e2
    | _, _ => False
    end.
Proof.
  intros Hd Hidx. induction n as [|n IH]; intros i1 i2 g1 g2 db1 db2 E.
  - exact E.
  - cbn [PageRankPregel.calculate_loop]. rewrite Hd.
    destruct (run_superstep_by_vertices (PageRankPregel.damping_factor self2)
                g1 g2 E) as [Ev Ea].
    destruct (SimplePregelGraph.run_superstep
                (PageRankPregel.damping_factor self2) g1) as [h1 a1].
    destruct (SimplePregelGraph.run_superstep
                (PageRankPregel.damping_factor self2) g2) as [h2 a2].
    cbn [fst snd] in Ev, Ea. subst a2.
    unfold PageRankPregel.get_current_pagerank.
    cbn [PageRankPregel.set_graph PageRankPregel.graph PageRankPregel.index_to_id].
    rewrite Hidx, Ev.
    destruct (PageRankPregel.pagerank_of (PageRankPregel.index_to_id self2)
                (SimplePregelGraph.vertices h2)) as [r|e]; cbn [bind];
      [|reflexivity].
    destruct a1; cbn [negb]; [apply IH; exact Ev|exact Ev].
Qed.

(** X23.  The Pregel engine can be run again: a second [calculate] on the
    engine that the first left starts from the uniform scores again, since
    [initialize_pagerank] resets every vertex, and returns the scores that
    the first returned, whatever the tables hold by then. *)
Theorem pregel_calculate_repeatable :
  forall (cfg : Config.pagerank_config) (db db1 db2 : Database.t),
    link_graph_ok db -> doc_ids_of db <> [] ->
    exists self ranks self1 db1' self2 db2',
      PageRankPregel.init cfg db = Ok self
      /\ PageRankPregel.calculate self db1 = Ok (ranks, self1, db1')
      /\ PageRankPregel.calculate self1 db2 = Ok (ranks, self2, db2').
Proof.
  intros cfg db db1 db2 Hok Hne. pose proof Hok as [Hnd _].
  set (ids := doc_ids_of db). set (self := pregel_engine cfg db).
  assert (Hn : (length ids =? 0) = false).
  { apply Nat.eqb_neq. unfold ids. destruct (doc_ids_of db); [congruence|discriminate]. }
  assert (Hlen0 : length (initial_vertices db) = length ids).
  { unfold initial_vertices. rewrite length_map. apply enumerate_length. }
  (* the first run *)
  destruct (pregel_loop_spec self ids Hnd eq_refl (Config.max_iterations cfg) 0
              (initial_graph db) db1 Hlen0) as (k & g1 & db1' & _ & _ & Hloop1 & Hv1).
  cbn [initial_graph SimplePregelGraph.vertices] in Hv1.
  assert (Hlen1 : length (SimplePregelGraph.vertices g1) = length ids)
    by (rewrite Hv1, iter_length; exact Hlen0).
  assert (Hcalc : forall (engine : PageRankPregel.t) g0 tables,
            PageRankPregel.graph engine = Some g0 ->
            PageRankPregel.doc_ids engine = ids ->
            PageRankPregel.max_iterations engine = Config.max_iterations cfg ->
            SimplePregelGraph.initialize_pagerank g0
            = Ok {| SimplePregelGraph.vertices := initial_vertices db;
                    SimplePregelGraph.superstep := SimplePregelGraph.superstep g0;
                    SimplePregelGraph.messages := SimplePregelGraph.messages g0 |} ->
            PageRankPregel.calculate engine tables
            = (gd <- PageRankPregel.calculate_loop engine (Config.max_iterations cfg) 0
                       {| SimplePregelGraph.vertices := initial_vertices db;
                          SimplePregelGraph.superstep := SimplePregelGraph.superstep g0;
                          SimplePregelGraph.messages := SimplePregelGraph.messages g0 |}
                       tables ;;
               ranks <- PageRankPregel.get_current_pagerank
                          (PageRankPregel.set_graph engine (fst gd)) ;;
               Ok (ranks, PageRankPregel.set_graph engine (fst gd), snd gd))).
  { intros engine g0 tables Hg Hids Hmax Hinit.
    unfold PageRankPregel.calculate, PageRankPregel.num_documents.
    rewrite Hg, Hids, Hn, Hinit, Hmax. reflexivity. }
  assert (Hrank : forall engine g,
            PageRankPregel.index_to_id engine = index_to_id_of ids ->
            length (SimplePregelGraph.vertices g) = length ids ->
            PageRankPregel.get_current_pagerank (PageRankPregel.set_graph engine g)
            = Ok (scores_of ids (SimplePregelGraph.vertices g))).
  { intros engine g Hidx Hl. unfold PageRankPregel.get_current_pagerank.
    cbn [PageRankPregel.set_graph PageRankPregel.graph PageRankPregel.index_to_id].
    rewrite Hidx. exact (pagerank_of_spec ids _ Hnd Hl). }
  set (self1 := PageRankPregel.set_graph self g1).
  (* the second run *)
  assert (Hinit2 : SimplePregelGraph.initialize_pagerank g1
                   = Ok {| SimplePregelGraph.vertices := initial_vertices db;
                           SimplePregelGraph.superstep := SimplePregelGraph.superstep g1;
                           SimplePregelGraph.messages := SimplePregelGraph.messages g1 |}).
  { unfold SimplePregelGraph.initialize_pagerank, SimplePregelGraph.num_vertices.
    rewrite Hlen1, Hn. do 2 f_equal.
    change (map (reset_vertex (1 / Qnat (length ids))) (SimplePregelGraph.vertices g1)
            = initial_vertices db).
    rewrite Hv1, reset_iter. unfold initial_vertices. rewrite map_map.
    apply map_ext. intros e. reflexivity. }
  pose proof (pregel_loop_by_vertices self1 self eq_refl eq_refl
                (Config.max_iterations cfg) 0 0
                {| SimplePregelGraph.vertices := initial_vertices db;
                   SimplePregelGraph.superstep := SimplePregelGraph.superstep g1;
                   SimplePregelGraph.messages := SimplePregelGraph.messages g1 |}
                (initial_graph db) db2 db1 eq_refl) as Hsame.
  rewrite Hloop1 in Hsame.
  destruct (PageRankPregel.calculate_loop self1 (Config.max_iterations cfg) 0 _ db2)
    as [[g2 db2']|e] eqn:Hloop2; [|contradiction].
  assert (Hlen2 : length (SimplePregelGraph.vertices g2) = length ids)
    by (rewrite Hsame; exact Hlen1).
  exists self, (scores_of ids (SimplePregelGraph.vertices g1)), self1, db1',
    (PageRankPregel.set_graph self1 g2), db2'.
  split; [exact (pregel_init_spec cfg db Hok Hne)|]. split.
  - rewrite (Hcalc self _ db1 eq_refl eq_refl eq_refl (initialize_built db Hne)).
    cbn [SimplePregelGraph.superstep SimplePregelGraph.messages].
    change {| SimplePregelGraph.vertices := initial_vertices db;
              SimplePregelGraph.superstep := 0;
              SimplePregelGraph.messages := [] |} with (initial_graph db).
    rewrite Hloop1. cbn [bind fst snd].
    rewrite (Hrank self g1 eq_refl Hlen1). reflexivity.
  - rewrite (Hcalc self1 g1 db2 eq_refl eq_refl eq_refl Hinit2).
    rewrite Hloop2. cbn [bind fst snd].
    rewrite (Hrank self1 g2 eq_refl Hlen2), Hsame. reflexivity.
Qed.

Lemma pregel_calculate_repeatable_witness :
  link_graph_ok chain_corpus
  /\ doc_ids_of chain_corpus <> []
  /\ exists self ranks self1 db1' self2 db2',
       PageRankPregel.init Config.PAGERANK_CONFIG chain_corpus = Ok self
       /\ PageRankPregel.calculate self chain_corpus = Ok (ranks, self1, db1')
       /\ PageRankPregel.calculate self1 chain_corpus = Ok (ranks, self2, db2').
Proof.
  split; [exact chain_corpus_ok|]. split; [exact chain_corpus_documents|].
  exact (pregel_calculate_repeatable Config.PAGERANK_CONFIG chain_corpus
           chain_corpus chain_corpus chain_corpus_ok chain_corpus_documents).
Defined.


(** ** The top documents of the two engines *)

Lemma insert_by_rank_perm (x : Z * Q) (l : list (Z * Q)) :
  Permutation (x :: l) (insert_by_rank x l).
Proof.
  induction l as [|y l IH]; cbn [insert_by_rank]; [reflexivity|].
  destruct (Qlt_le_dec (snd x) (snd y)); [|reflexivity].
  rewrite perm_swap. now apply perm_skip.
Qed.

Lemma sorted_by_rank_perm (l : list (Z * Q)) :
  Permutation l (sorted_by_rank l).
Proof.
  induction l as [|x l IH]; [reflexivity|].
  change (sorted_by_rank (x :: l)) with (insert_by_rank x (sorted_by_rank l)).
  rewrite <- insert_by_rank_perm. now apply perm_skip.
Qed.

Lemma insert_by_rank_sorted (x : Z * Q) (l : list (Z * Q)) :
  StronglySorted (fun a b => (snd b <= snd a)%Q) l ->
  StronglySorted (fun a b => (snd b <= snd a)%Q) (insert_by_rank x l).
Proof.
  induction l as [|y l IH]; intros Hs; cbn [insert_by_rank].
  - constructor; constructor.
  - inversion Hs as [|? ? Hs' Hall]; subst.
    destruct (Qlt_le_dec (snd x) (snd y)) as [Hlt | Hle].
    + constructor; [now apply IH|].
      rewrite Forall_forall. intros z Hz.
      apply (Permutation_in _ (Permutation_sym (insert_by_rank_perm x l))) in Hz.
      destruct Hz as [<- | Hz].
      * now apply Qlt_le_weak.
      * rewrite Forall_forall in Hall. now apply Hall.
    + constructor; [exact Hs|].
      constructor; [exact Hle|].
      rewrite Forall_forall in Hall |- *. intros z Hz.
      apply Qle_trans with (snd y); [now apply Hall | exact Hle].
Qed.

Lemma sorted_by_rank_sorted (l : list (Z * Q)) :
  StronglySorted (fun a b => (snd b <= snd a)%Q) (sorted_by_rank l).
Proof.
  induction l as [|x l IH]; [constructor|].
  change (sorted_by_rank (x :: l)) with (insert_by_rank x (sorted_by_rank l)).
  now apply insert_by_rank_sorted.
Qed.

Lemma sorted_split (k : nat) (l : list (Z * Q)) :
  StronglySorted (fun a b => (snd b <= snd a)%Q) l ->
  StronglySorted (fun a b => (snd b <= snd a)%Q) (firstn k l)
  /\ forall x y, In x (firstn k l) -> In y (skipn k l) -> (snd y <= snd x)%Q.
Proof.
  revert k. induction l as [|a l IH]; intros k Hs.
  - rewrite firstn_nil, skipn_nil. split; [constructor | intros x y []].
  - destruct k as [|k].
    + split; [constructor | intros x y []].
    + inversion Hs as [|? ? Hs' Hall]; subst.
      destruct (IH k Hs') as [Hf Hcross].
      rewrite Forall_forall in Hall.
      cbn [firstn skipn]. split.
      * constructor; [exact Hf|].
        rewrite Forall_forall. intros z Hz. apply Hall.
        rewrite <- (firstn_skipn k l). apply in_or_app. now left.
      * intros x y [<- | Hx] Hy.
        -- apply Hall. rewrite <- (firstn_skipn k l). apply in_or_app. now right.
        -- now apply Hcross.
Qed.

Lemma prefix_nonneg (A : Type) (n : Z) (l : list A) :
  (0 <= n)%Z -> prefix n l = firstn (Z.to_nat n) l.
Proof.
  intros Hn. unfold prefix.
  destruct (n <? 0)%Z eqn:E; [apply Z.ltb_lt in E; lia | reflexivity].
Qed.

(** What the loop that forms the result keeps of the sorted scores. *)
Lemma top_of_map (pagerank : list (Z * Q)) (n : Z)
    (shown : Z * Q -> str * str) :
  (0 <= n)%Z ->
  let top := map (fun dr => (fst dr, snd dr, fst (shown dr), snd (shown dr)))
                 (prefix n (sorted_by_rank pagerank)) in
  length top = Nat.min (Z.to_nat n) (length pagerank)
  /\ top_of pagerank top.
Proof.
  intros Hn top. subst top. rewrite prefix_nonneg by exact Hn.
  set (k := Z.to_nat n). set (s := sorted_by_rank pagerank).
  assert (Hmap : forall l : list (Z * Q),
             map entry_score
               (map (fun dr => (fst dr, snd dr, fst (shown dr), snd (shown dr))) l)
             = l).
  { induction l as [|[i r] l IH]; [reflexivity|].
    cbn [map]. rewrite IH. reflexivity. }
  destruct (sorted_split k _ (sorted_by_rank_sorted pagerank)) as [Hf Hcross].
  fold s in Hf, Hcross.
  split; [|split].
  - rewrite length_map, length_firstn. unfold s.
    now rewrite <- (Permutation_length (sorted_by_rank_perm pagerank)).
  - clear Hcross. induction Hf as [|a l Hs IH Hall]; [constructor|].
    cbn [map]. constructor; [exact IH|].
    rewrite Forall_forall in Hall |- *. intros e He.
    apply in_map_iff in He. destruct He as [b [<- Hb]].
    unfold entry_rank. cbn [fst snd]. now apply Hall.
  - exists (skipn k s). split.
    + rewrite Hmap, firstn_skipn. apply sorted_by_rank_perm.
    + intros e y He Hy. apply in_map_iff in He.
      destruct He as [b [<- Hb]]. unfold entry_rank. cbn [fst snd].
      now apply Hcross.
Qed.

Lemma mapreduce_top_unfold (self : PageRankMapReduce.t) (n : Z) :
  PageRankMapReduce.get_top_documents self n
  = map (fun dr =>
           (fst dr, snd dr,
            fst ((fun dr : Z * Q =>
                    (fst (Dict.get_default Z.eq_dec (fst dr)
                            (py "Unknown", py "Unknown")
                            (documents_info (PageRankMapReduce.documents self))),
                     firstn 50
                       (snd (Dict.get_default Z.eq_dec (fst dr)
                               (py "Unknown", py "Unknown")
                               (documents_info (PageRankMapReduce.documents self))))))
                   dr),
            snd ((fun dr : Z * Q =>
                    (fst (Dict.get_default Z.eq_dec (fst dr)
                            (py "Unknown", py "Unknown")
                            (documents_info (PageRankMapReduce.documents self))),
                     firstn 50
                       (snd (Dict.get_default Z.eq_dec (fst dr)
                               (py "Unknown", py "Unknown")
                               (documents_info (PageRankMapReduce.documents self))))))
                   dr)))
        (prefix n (sorted_by_rank (PageRankMapReduce.pagerank self))).
Proof.
  unfold PageRankMapReduce.get_top_documents. cbv zeta.
  apply map_ext. intros dr. cbv beta. cbn [fst snd].
  now destruct (Dict.get_default Z.eq_dec (fst dr) _ _).
Qed.

(** X24. [PageRankMapReduce.get_top_documents(n)] with [n >= 0] returns
    [min(n, number of scores)] entries, drawn from [self.pagerank] in
    non-increasing order of score; no score it leaves out is above one it
    returns, and every title it returns has at most 50 characters. *)
Theorem mapreduce_top_documents (self : PageRankMapReduce.t) (n : Z) :
  (0 <= n)%Z ->
  let top := PageRankMapReduce.get_top_documents self n in
  length top
  = Nat.min (Z.to_nat n) (length (PageRankMapReduce.pagerank self))
  /\ top_of (PageRankMapReduce.pagerank self) top
  /\ forall e, In e top -> length (snd e) <= 50.
Proof.
  intros Hn top. subst top.
  split; [|split].
  - rewrite mapreduce_top_unfold.
    exact (proj1 (top_of_map (PageRankMapReduce.pagerank self) n _ Hn)).
  - rewrite mapreduce_top_unfold.
    exact (proj2 (top_of_map (PageRankMapReduce.pagerank self) n _ Hn)).
  - intros e He. rewrite mapreduce_top_unfold in He.
    apply in_map_iff in He. destruct He as [dr [<- _]].
    cbn [fst snd]. rewrite length_firstn. apply Nat.le_min_l.
Qed.

Lemma mapreduce_top_documents_witness :
  (0 <= 10)%Z
  /\ let self := PageRankMapReduce.init Config.PAGERANK_CONFIG chain_corpus in
     let top := PageRankMapReduce.get_top_documents self 10 in
     length top
     = Nat.min (Z.to_nat 10) (length (PageRankMapReduce.pagerank self))
     /\ top_of (PageRankMapReduce.pagerank self) top
     /\ forall e, In e top -> length (snd e) <= 50.
Proof.
  split; [lia|].
  apply (mapreduce_top_documents
           (PageRankMapReduce.init Config.PAGERANK_CONFIG chain_corpus) 10).
  lia.
Defined.

Lemma pregel_top_unfold (self : PageRankPregel.t) (n : Z)
    (pagerank : Dict.t Z Q) :
  PageRankPregel.get_current_pagerank self = Ok pagerank ->
  pagerank <> [] ->
  PageRankPregel.get_top_documents self n
  = Ok (map (fun dr =>
               (fst dr, snd dr,
                fst ((fun dr : Z * Q =>
                        let info :=
                          Dict.get_default Z.eq_dec (fst dr)
                            (py "Unknown", py "Unknown")
                            (documents_info (PageRankPregel.documents self)) in
                        (fst info,
                         if 50 <? length (snd info)
                         then firstn 50 (snd info) ++ py "..."
                         else snd info)) dr),
                snd ((fun dr : Z * Q =>
                        let info :=
                          Dict.get_default Z.eq_dec (fst dr)
                            (py "Unknown", py "Unknown")
                            (documents_info (PageRankPregel.documents self)) in
                        (fst info,
                         if 50 <? length (snd info)
                         then firstn 50 (snd info) ++ py "..."
                         else snd info)) dr)))
            (prefix n (sorted_by_rank pagerank))).
Proof.
  intros Hpr Hne. unfold PageRankPregel.get_top_documents.
  rewrite Hpr. cbn [bind].
  destruct pagerank as [|p rest]; [contradiction|].
  cbv zeta. f_equal. apply map_ext. intros dr. cbv beta. cbn [fst snd].
  now destruct (Dict.get_default Z.eq_dec (fst dr) _ _).
Qed.

(** X25. When the scores can be read off the graph,
    [PageRankPregel.get_top_documents(n)] with [n >= 0] returns
    [min(n, number of scores)] entries, drawn from
    [get_current_pagerank()] in non-increasing order of score; no score it
    leaves out is above one it returns, and every title it returns has at
    most 53 characters: 50 of the title and the dots. *)
Theorem pregel_top_documents (self : PageRankPregel.t) (n : Z)
    (pagerank : Dict.t Z Q) :
  (0 <= n)%Z ->
  PageRankPregel.get_current_pagerank self = Ok pagerank ->
  exists top,
    PageRankPregel.get_top_documents self n = Ok top
    /\ length top = Nat.min (Z.to_nat n) (length pagerank)
    /\ top_of pagerank top
    /\ forall e, In e top -> length (snd e) <= 53.
Proof.
  intros Hn Hpr.
  destruct pagerank as [|p rest].
  - exists []. unfold PageRankPregel.get_top_documents.
    rewrite Hpr. cbn [bind]. split; [reflexivity|].
    split; [now rewrite Nat.min_0_r|].
    split; [|intros e []].
    split; [constructor|]. exists []. split; [reflexivity | intros e y []].
  - assert (Hne : p :: rest <> []) by discriminate.
    eexists. split; [exact (pregel_top_unfold self n _ Hpr Hne)|].
    split; [|split].
    + exact (proj1 (top_of_map (p :: rest) n _ Hn)).
    + exact (proj2 (top_of_map (p :: rest) n _ Hn)).
    + intros e He. apply in_map_iff in He. destruct He as [dr [<- _]].
      cbv zeta. cbn [fst snd].
      destruct (50 <? length _) eqn:E.
      * rewrite length_app, length_firstn. cbn [length py].
        pose proof (Nat.le_min_l 50
          (length (snd (Dict.get_default Z.eq_dec (fst dr)
                          (py "Unknown", py "Unknown")
                          (documents_info (PageRankPregel.documents self)))))).
        change (length (py "...")) with 3. lia.
      * apply Nat.ltb_ge in E. lia.
Qed.

Lemma pregel_top_documents_witness :
  (0 <= 10)%Z
  /\ exists pagerank,
       PageRankPregel.get_current_pagerank
         (pregel_engine Config.PAGERANK_CONFIG chain_corpus) = Ok pagerank
       /\ exists top,
            PageRankPregel.get_top_documents
              (pregel_engine Config.PAGERANK_CONFIG chain_corpus) 10 = Ok top
            /\ length top = Nat.min (Z.to_nat 10) (length pagerank)
            /\ top_of pagerank top
            /\ forall e, In e top -> length (snd e) <= 53.
Proof.
  split; [lia|].
  eexists. split; [vm_compute; reflexivity|].
  apply (pregel_top_documents
           (pregel_engine Config.PAGERANK_CONFIG chain_corpus) 10);
    [lia | vm_compute; reflexivity].
Defined.

(** ** The crawler *)

Section CrawlProperties.

Variable World : Type.
Variable normalize_url : str -> str -> str.
Variable parse_page : str -> World -> option (str * str * list str) * World.

Lemma crawl_loop_cons (budget : nat) (url : str) (queue : list str)
    (st : WebParser.crawl_state World) :
  WebParser.crawl_loop parse_page (S budget) (url :: queue) st
  = if str_in url (WebParser.visited st)
    then WebParser.crawl_loop parse_page (S budget) queue st
    else
      match fst (parse_page url (WebParser.world st)) with
      | None =>
          WebParser.crawl_loop parse_page (S budget) queue
            {| WebParser.visited :=
                 WebParser.add_visited url (WebParser.visited st);
               WebParser.pages_parsed := WebParser.pages_parsed st;
               WebParser.db := WebParser.db st;
               WebParser.world := snd (parse_page url (WebParser.world st));
               WebParser.requested := WebParser.requested st ++ [url] |}
      | Some (title, content, links) =>
          WebParser.crawl_loop parse_page budget
            (WebParser.enqueue_links
               (WebParser.add_visited url (WebParser.visited st)) links queue)
            {| WebParser.visited :=
                 WebParser.add_visited url (WebParser.visited st);
               WebParser.pages_parsed := (WebParser.pages_parsed st + 1)%Z;
               WebParser.db :=
                 WebParser.index_document url title content links
                   (WebParser.db st);
               WebParser.world := snd (parse_page url (WebParser.world st));
               WebParser.requested := WebParser.requested st ++ [url] |}
      end.
Proof.
  cbn [WebParser.crawl_loop]. 
  destruct (str_in url (WebParser.visited st)); [reflexivity|].
  cbv zeta.
  destruct (fst (parse_page url (WebParser.world st))) as [[[title content] links]|];
    reflexivity.
Qed.

Lemma crawl_loop_nil (budget : nat) (st : WebParser.crawl_state World) :
  WebParser.crawl_loop parse_page budget [] st = ([], st).
Proof. destruct budget; reflexivity. Qed.

Lemma add_visited_in (url u : str) (visited : list str) :
  In u (WebParser.add_visited url visited) <-> u = url \/ In u visited.
Proof.
  unfold WebParser.add_visited.
  destruct (str_in url visited) eqn:E.
  - apply str_in_spec in E. split; [now right|].
    intros [-> | H]; assumption.
  - cbn [In]. split; intros [H | H]; auto.
Qed.

Lemma index_document_total_documents (url title content : str)
    (links : list str) (db : Database.t) :
  Database.get_total_documents
    (WebParser.index_document url title content links db)
  <= Database.get_total_documents db + 1.
Proof.
  unfold Database.get_total_documents, WebParser.index_document.
  destruct (add_document_unfold url title content db) as (d & _ & E).
  rewrite E.
  assert (H1 : length (Database.documents
                         (Database.update_document (Database.doc_id d) title content
                            (Database.insert_or_ignore_document url title content db)))
               <= length (Database.documents db) + 1).
  { unfold Database.update_document. cbn [Database.documents].
    rewrite length_map. unfold Database.insert_or_ignore_document.
    destruct (Database.get_document_id url db); cbn [Database.documents].
    - lia.
    - rewrite length_app. cbn [length]. lia. }
  set (db1 := Database.update_document _ _ _ _) in *.
  destruct (Database.doc_id d =? -1)%Z; [exact H1|].
  destruct (Utils.tokenize content Config.STOP_WORDS) as [|t ts].
  - destruct (add_links_spec (Database.doc_id d) links db1) as (-> & _).
    exact H1.
  - set (tokens := t :: ts).
    destruct (index_terms_frame (Database.doc_id d)
                (WebParser.positions_from 0 tokens [])
                (WebParser.Counter tokens) db1) as (_ & Hd & _).
    destruct (add_links_spec (Database.doc_id d) links
                (WebParser.index_terms (Database.doc_id d)
                   (WebParser.Counter tokens)
                   (WebParser.positions_from 0 tokens []) db1)) as (-> & _).
    rewrite Hd. exact H1.
Qed.

(** What a run of the loop of [crawl] does, from any state of the loop. *)
Lemma crawl_loop_spec (budget : nat) :
  forall (queue : list str) (st : WebParser.crawl_state World),
    let st' := snd (WebParser.crawl_loop parse_page budget queue st) in
    (exists new,
        WebParser.requested st' = WebParser.requested st ++ new
        /\ NoDup new
        /\ forall u, In u new ->
             ~ In u (WebParser.visited st) /\ In u (WebParser.visited st'))
    /\ incl (WebParser.visited st) (WebParser.visited st')
    /\ (WebParser.pages_parsed st <= WebParser.pages_parsed st'
        <= WebParser.pages_parsed st + Z.of_nat budget)%Z
    /\ (Z.of_nat (Database.get_total_documents (WebParser.db st'))
        <= Z.of_nat (Database.get_total_documents (WebParser.db st))
           + (WebParser.pages_parsed st' - WebParser.pages_parsed st))%Z
    /\ (documents_ok (Database.documents (WebParser.db st))
          (Database.seq_documents (WebParser.db st)) ->
        links_ok (Database.links (WebParser.db st))
          (map Database.doc_id (Database.documents (WebParser.db st))) ->
        documents_ok (Database.documents (WebParser.db st'))
          (Database.seq_documents (WebParser.db st'))
        /\ links_ok (Database.links (WebParser.db st'))
             (map Database.doc_id (Database.documents (WebParser.db st')))).
Proof.
  induction budget as [|budget IHb].
  - intros queue st. cbn [WebParser.crawl_loop snd].
    split; [|split; [apply incl_refl|split; [lia|split; [lia|tauto]]]].
    exists []. rewrite app_nil_r. split; [reflexivity|].
    split; [constructor|intros u []].
  - induction queue as [|url queue IHq]; intros st.
    + rewrite crawl_loop_nil. cbn [snd].
      split; [|split; [apply incl_refl|split; [lia|split; [lia|tauto]]]].
      exists []. rewrite app_nil_r. split; [reflexivity|].
      split; [constructor|intros u []].
    + rewrite crawl_loop_cons.
      destruct (str_in url (WebParser.visited st)) eqn:Evis; [apply IHq|].
      assert (Hnew : ~ In url (WebParser.visited st)).
      { intros H. apply str_in_spec in H. congruence. }
      destruct (fst (parse_page url (WebParser.world st)))
        as [[[title content] links]|].
      * match goal with
        | |- context [WebParser.crawl_loop parse_page budget ?q ?s] =>
            specialize (IHb q s); set (st1 := s) in *; set (q1 := q) in *
        end.
        cbv zeta in IHb.
        destruct IHb as ((new & Hreq & Hnd & Hvis) & Hincl & Hpages & Hdocs & Hinv).
        set (st' := snd (WebParser.crawl_loop parse_page budget q1 st1)) in *.
        cbv zeta. fold st'.
        cbn [WebParser.visited WebParser.pages_parsed WebParser.db
             WebParser.requested st1] in Hreq, Hvis, Hincl, Hpages, Hdocs, Hinv.
        split; [|split; [|split; [|split]]].
        -- exists (url :: new). split; [now rewrite Hreq, <- app_assoc|].
           split.
           ++ constructor; [|exact Hnd].
              intros Hin. apply (proj1 (Hvis url Hin)).
              apply add_visited_in. now left.
           ++ intros u [<- | Hu].
              ** split; [exact Hnew|]. apply Hincl, add_visited_in. now left.
              ** destruct (Hvis u Hu) as [H1 H2]. split; [|exact H2].
                 intros H. apply H1, add_visited_in. now right.
        -- intros u Hu. apply Hincl, add_visited_in. now right.
        -- lia.
        -- pose proof (index_document_total_documents url title content links
                         (WebParser.db st)). lia.
        -- intros Hd Hl.
           destruct (index_document_link_graph url title content links
                       (WebParser.db st) Hd Hl) as (Hd1 & Hl1 & _).
           exact (Hinv Hd1 Hl1).
      * match goal with
        | |- context [WebParser.crawl_loop parse_page (S budget) queue ?s] =>
            specialize (IHq s); set (st1 := s) in *
        end.
        cbv zeta in IHq.
        destruct IHq as ((new & Hreq & Hnd & Hvis) & Hincl & Hpages & Hdocs & Hinv).
        set (st' := snd (WebParser.crawl_loop parse_page (S budget) queue st1)) in *.
        cbv zeta. fold st'.
        cbn [WebParser.visited WebParser.pages_parsed WebParser.db
             WebParser.requested st1] in Hreq, Hvis, Hincl, Hpages, Hdocs, Hinv.
        split; [|split; [|split; [|split]]].
        -- exists (url :: new). split; [now rewrite Hreq, <- app_assoc|].
           split.
           ++ constructor; [|exact Hnd].
              intros Hin. apply (proj1 (Hvis url Hin)).
              apply add_visited_in. now left.
           ++ intros u [<- | Hu].
              ** split; [exact Hnew|]. apply Hincl, add_visited_in. now left.
              ** destruct (Hvis u Hu) as [H1 H2]. split; [|exact H2].
                 intros H. apply H1, add_visited_in. now right.
        -- intros u Hu. apply Hincl, add_visited_in. now right.
        -- lia.
        -- lia.
        -- exact Hinv.
Qed.

Lemma add_start_urls_visited (urls : list str) :
  forall self,
    WebParser.visited_urls (WebParser.add_start_urls normalize_url urls self)
    = WebParser.visited_urls self
    /\ WebParser.max_pages (WebParser.add_start_urls normalize_url urls self)
       = WebParser.max_pages self.
Proof.
  unfold WebParser.add_start_urls.
  induction urls as [|url urls IH]; intros self; cbn [fold_left]; [auto|].
  cbv zeta.
  destruct (negb (str_in (normalize_url [] url) (WebParser.visited_urls self)));
    [|apply IH].
  destruct (IH {| WebParser.visited_urls := WebParser.visited_urls self;
                  WebParser.urls_to_visit :=
                    WebParser.urls_to_visit self ++ [normalize_url [] url];
                  WebParser.max_pages := WebParser.max_pages self |}) as [H1 H2].
  now rewrite H1, H2.
Qed.

End CrawlProperties.

Lemma crawl_unfold (World : Type) (normalize_url : str -> str -> str)
    (parse_page : str -> World -> option (str * str * list str) * World)
    (start_urls : list str) (max_pages_arg : option Z) (self : WebParser.t)
    (db : Database.t) (w : World) :
  exists self1 queue st',
    WebParser.visited_urls self1 = WebParser.visited_urls self
    /\ WebParser.max_pages self1
       = match max_pages_arg with
         | Some m => if (m =? 0)%Z then WebParser.max_pages self else m
         | None => WebParser.max_pages self
         end
    /\ WebParser.crawl_loop parse_page (Z.to_nat (WebParser.max_pages self1))
         (WebParser.urls_to_visit self1)
         {| WebParser.visited := WebParser.visited_urls self1;
            WebParser.pages_parsed := 0;
            WebParser.db := db;
            WebParser.world := w;
            WebParser.requested := [] |} = (queue, st')
    /\ WebParser.crawl normalize_url parse_page start_urls max_pages_arg self db w
       = ({| WebParser.visited_urls := WebParser.visited st';
             WebParser.urls_to_visit := queue;
             WebParser.max_pages := WebParser.max_pages self1 |},
          WebParser.db st', WebParser.world st', WebParser.requested st').
Proof.
  unfold WebParser.crawl. cbv zeta.
  match goal with
  | |- context [WebParser.add_start_urls normalize_url start_urls ?s] =>
      set (self0 := s)
  end.
  destruct (add_start_urls_visited normalize_url start_urls self0) as [Hv Hm].
  set (self1 := WebParser.add_start_urls normalize_url start_urls self0) in *.
  exists self1.
  destruct (WebParser.crawl_loop parse_page _ _ _) as [queue st'] eqn:E.
  exists queue, st'. cbn [fst snd].
  split; [|split; [|split; [reflexivity|reflexivity]]].
  - rewrite Hv. subst self0. destruct max_pages_arg as [m|]; [|reflexivity].
    now destruct (m =? 0)%Z.
  - rewrite Hm. subst self0. destruct max_pages_arg as [m|]; [|reflexivity].
    now destruct (m =? 0)%Z.
Qed.

(** X26. [crawl] hands no url to [parse_page] twice, and none that was in
    [visited_urls] when it began; every url it has handed to [parse_page]
    is in [visited_urls] when it returns, whether the page could be parsed
    or not, and [visited_urls] loses nothing. *)
Theorem crawl_requests_each_url_once (World : Type)
    (normalize_url : str -> str -> str)
    (parse_page : str -> World -> option (str * str * list str) * World)
    (start_urls : list str) (max_pages_arg : option Z) (self : WebParser.t)
    (db : Database.t) (w : World) :
  let run :=
    WebParser.crawl normalize_url parse_page start_urls max_pages_arg self db w in
  let self' := fst (fst (fst run)) in
  let requested := snd run in
  NoDup requested
  /\ (forall url, In url requested ->
        ~ In url (WebParser.visited_urls self)
        /\ In url (WebParser.visited_urls self'))
  /\ incl (WebParser.visited_urls self) (WebParser.visited_urls self').
Proof.
  intros run self' requested. subst run self' requested.
  destruct (crawl_unfold World normalize_url parse_page start_urls max_pages_arg
              self db w) as (self1 & queue & st' & Hv & _ & Hloop & ->).
  cbn [fst snd WebParser.visited_urls].
  pose proof (crawl_loop_spec World parse_page (Z.to_nat (WebParser.max_pages self1))
                (WebParser.urls_to_visit self1)
                {| WebParser.visited := WebParser.visited_urls self1;
                   WebParser.pages_parsed := 0;
                   WebParser.db := db;
                   WebParser.world := w;
                   WebParser.requested := [] |}) as H.
  cbv zeta in H. rewrite Hloop in H.
  cbn [snd WebParser.visited WebParser.requested] in H.
  destruct H as ((new & -> & Hnd & Hvis) & Hincl & _).
  rewrite Hv in Hvis, Hincl. cbn [app].
  split; [exact Hnd|]. split; [exact Hvis|exact Hincl].
Qed.

(** X27. [crawl] adds at most [max_pages] documents: the page limit in
    force is the argument when it is given and not zero, and
    [self.max_pages] otherwise; it is kept in [self.max_pages], and
    [get_total_documents] grows by no more than it (by nothing when it is
    negative). *)
Theorem crawl_respects_page_limit (World : Type)
    (normalize_url : str -> str -> str)
    (parse_page : str -> World -> option (str * str * list str) * World)
    (start_urls : list str) (max_pages_arg : option Z) (self : WebParser.t)
    (db : Database.t) (w : World) :
  let run :=
    WebParser.crawl normalize_url parse_page start_urls max_pages_arg self db w in
  let self' := fst (fst (fst run)) in
  let db' := snd (fst (fst run)) in
  WebParser.max_pages self'
  = match max_pages_arg with
    | Some m => if (m =? 0)%Z then WebParser.max_pages self else m
    | None => WebParser.max_pages self
    end
  /\ Database.get_total_documents db'
     <= Database.get_total_documents db + Z.to_nat (WebParser.max_pages self').
Proof.
  intros run self' db'. subst run self' db'.
  destruct (crawl_unfold World normalize_url parse_page start_urls max_pages_arg
              self db w) as (self1 & queue & st' & _ & Hm & Hloop & ->).
  cbn [fst snd WebParser.max_pages].
  split; [exact Hm|].
  pose proof (crawl_loop_spec World parse_page (Z.to_nat (WebParser.max_pages self1))
                (WebParser.urls_to_visit self1)
                {| WebParser.visited := WebParser.visited_urls self1;
                   WebParser.pages_parsed := 0;
                   WebParser.db := db;
                   WebParser.world := w;
                   WebParser.requested := [] |}) as H.
  cbv zeta in H. rewrite Hloop in H.
  cbn [snd WebParser.pages_parsed WebParser.db] in H.
  destruct H as (_ & _ & Hpages & Hdocs & _). lia.
Qed.

(** X28. [crawl] keeps the tables fit for the PageRank engines: when the
    ids of the documents are distinct and every resolved link leads to a
    document before the crawl, the same holds after it, whatever the
    network returned. *)
Theorem crawl_keeps_link_graph (World : Type)
    (normalize_url : str -> str -> str)
    (parse_page : str -> World -> option (str * str * list str) * World)
    (start_urls : list str) (max_pages_arg : option Z) (self : WebParser.t)
    (db : Database.t) (w : World) :
  documents_ok (Database.documents db) (Database.seq_documents db) ->
  links_ok (Database.links db) (map Database.doc_id (Database.documents db)) ->
  let db' :=
    snd (fst (fst (WebParser.crawl normalize_url parse_page start_urls
                     max_pages_arg self db w))) in
  documents_ok (Database.documents db') (Database.seq_documents db')
  /\ links_ok (Database.links db') (map Database.doc_id (Database.documents db'))
  /\ link_graph_ok db'.
Proof.
  intros Hd Hl db'. subst db'.
  destruct (crawl_unfold World normalize_url parse_page start_urls max_pages_arg
              self db w) as (self1 & queue & st' & _ & _ & Hloop & ->).
  cbn [fst snd].
  pose proof (crawl_loop_spec World parse_page (Z.to_nat (WebParser.max_pages self1))
                (WebParser.urls_to_visit self1)
                {| WebParser.visited := WebParser.visited_urls self1;
                   WebParser.pages_parsed := 0;
                   WebParser.db := db;
                   WebParser.world := w;
                   WebParser.requested := [] |}) as H.
  cbv zeta in H. rewrite Hloop in H. cbn [snd WebParser.db] in H.
  destruct H as (_ & _ & _ & _ & Hinv).
  destruct (Hinv Hd Hl) as [Hd' Hl'].
  split; [exact Hd'|]. split; [exact Hl'|].
  split.
  - rewrite doc_ids_of_documents. apply Hd'.
  - intros l Hin t Ht _. rewrite doc_ids_of_documents. exact (Hl' l Hin t Ht).
Qed.

Lemma crawl_keeps_link_graph_witness :
  documents_ok (Database.documents Database.empty)
    (Database.seq_documents Database.empty)
  /\ links_ok (Database.links Database.empty)
       (map Database.doc_id (Database.documents Database.empty))
  /\ let db' :=
       snd (fst (fst (WebParser.crawl (fun _ url => url) two_pages
                        [py "http://example.com/a"] None WebParser.init
                        Database.empty 0))) in
     documents_ok (Database.documents db') (Database.seq_documents db')
     /\ links_ok (Database.links db')
          (map Database.doc_id (Database.documents db'))
     /\ link_graph_ok db'.
Proof.
  assert (Hd : documents_ok (Database.documents Database.empty)
                 (Database.seq_documents Database.empty))
    by (split; [constructor|intros d []]).
  assert (Hl : links_ok (Database.links Database.empty)
                 (map Database.doc_id (Database.documents Database.empty)))
    by (intros l []).
  split; [exact Hd|]. split; [exact Hl|].
  exact (crawl_keeps_link_graph nat (fun _ url => url) two_pages
           [py "http://example.com/a"] None WebParser.init Database.empty 0
           Hd Hl).
Defined.

(** ** The application *)

Lemma pregel_top_documents_ok (self : PageRankPregel.t) (n : Z)
    (pagerank : Dict.t Z Q) :
  PageRankPregel.get_current_pagerank self = Ok pagerank ->
  exists top, PageRankPregel.get_top_documents self n = Ok top.
Proof.
  intros H. unfold PageRankPregel.get_top_documents. rewrite H. cbn [bind].
  destruct pagerank; eexists; reflexivity.
Qed.

(** X29. [SearchEngineApp.calculate_pagerank_mapreduce] raises nothing,
    whatever the tables hold: without documents it returns the empty
    dictionary and leaves the application as it is; with documents it keeps
    the engine in [self.mapreduce_pr], returns the scores of the engine,
    and [get_pagerank] reads each returned score from the tables. *)
Theorem app_mapreduce_never_raises (self : SearchEngineApp.t) :
  exists pagerank self',
    SearchEngineApp.calculate_pagerank_mapreduce self = Ok (pagerank, self')
    /\ (Database.get_total_documents (SearchEngineApp.db self) = 0 ->
        pagerank = [] /\ self' = self)
    /\ (Database.get_total_documents (SearchEngineApp.db self) <> 0 ->
        (exists engine,
            SearchEngineApp.mapreduce_pr self' = Some engine
            /\ PageRankMapReduce.pagerank engine = pagerank)
        /\ forall id r,
             Dict.get Z.eq_dec id pagerank = Some r ->
             Database.get_pagerank id (SearchEngineApp.db self') = r).
Proof.
  unfold SearchEngineApp.calculate_pagerank_mapreduce.
  destruct (Database.get_total_documents (SearchEngineApp.db self) =? 0) eqn:E.
  - apply Nat.eqb_eq in E. exists [], self.
    split; [reflexivity|]. split; [auto|]. intros H. contradiction.
  - apply Nat.eqb_neq in E.
    set (db := SearchEngineApp.db self) in *.
    assert (Hdocs : PageRankMapReduce.num_documents
                      (PageRankMapReduce.init Config.PAGERANK_CONFIG db) <> 0).
    { unfold PageRankMapReduce.num_documents, PageRankMapReduce.init.
      cbn [PageRankMapReduce.doc_ids]. unfold Database.get_all_documents.
      rewrite !length_map. exact E. }
    assert (Hcap : 0 < PageRankMapReduce.max_iterations
                         (PageRankMapReduce.init Config.PAGERANK_CONFIG db))
      by (cbn; lia).
    destruct (mapreduce_calculate_effect _ db Hdocs Hcap)
      as (ranks & engine & db' & Hcalc & Hpr & Hget).
    rewrite Hcalc. cbn [bind fst snd]. cbv zeta.
    eexists. eexists. split; [reflexivity|].
    split; [intros H; contradiction|]. intros _.
    cbn [SearchEngineApp.mapreduce_pr SearchEngineApp.db].
    split; [exists engine; split; [reflexivity|exact Hpr]|exact Hget].
Qed.

(** X30. On tables with distinct document ids whose resolved links lead to
    documents, [SearchEngineApp.calculate_pagerank_pregel] raises nothing:
    without documents it returns the empty dictionary and leaves the
    application as it is; with documents it keeps the engine in
    [self.pregel_pr] and returns one score per document, in the order of
    the documents, each of which [get_pagerank] reads from the tables. *)
Theorem app_pregel_never_raises (self : SearchEngineApp.t) :
  link_graph_ok (SearchEngineApp.db self) ->
  exists pagerank self',
    SearchEngineApp.calculate_pagerank_pregel self = Ok (pagerank, self')
    /\ (Database.get_total_documents (SearchEngineApp.db self) = 0 ->
        pagerank = [] /\ self' = self)
    /\ (Database.get_total_documents (SearchEngineApp.db self) <> 0 ->
        SearchEngineApp.pregel_pr self' <> None
        /\ Dict.keys pagerank = doc_ids_of (SearchEngineApp.db self)
        /\ forall id r,
             Dict.get Z.eq_dec id pagerank = Some r ->
             Database.get_pagerank id (SearchEngineApp.db self') = r).
Proof.
  intros Hok. unfold SearchEngineApp.calculate_pagerank_pregel.
  destruct (Database.get_total_documents (SearchEngineApp.db self) =? 0) eqn:E.
  - apply Nat.eqb_eq in E. exists [], self.
    split; [reflexivity|]. split; [auto|]. intros H. contradiction.
  - apply Nat.eqb_neq in E.
    set (db := SearchEngineApp.db self) in *.
    assert (Hne : doc_ids_of db <> []).
    { rewrite doc_ids_of_documents. intros H. apply E.
      unfold Database.get_total_documents.
      apply (f_equal (@length Z)) in H. now rewrite length_map in H. }
    assert (Hcap : 0 < Config.max_iterations Config.PAGERANK_CONFIG)
      by (cbn; lia).
    destruct (pregel_calculate_effect Config.PAGERANK_CONFIG db Hok Hne Hcap)
      as (engine & ranks & engine' & db' & Hinit & Hcalc & Hkeys & Hcur & Hget).
    rewrite Hinit. cbn [bind]. rewrite Hcalc. cbn [bind fst snd].
    unfold PageRankPregel.print_statistics.
    destruct (pregel_top_documents_ok engine' 5 ranks Hcur) as [top ->].
    cbn [bind].
    eexists. eexists. split; [reflexivity|].
    split; [intros H; contradiction|]. intros _.
    cbn [SearchEngineApp.pregel_pr SearchEngineApp.db].
    split; [discriminate|]. split; [exact Hkeys|exact Hget].
Qed.

Lemma app_pregel_never_raises_witness :
  link_graph_ok (SearchEngineApp.db (app_on chain_corpus))
  /\ exists pagerank self',
       SearchEngineApp.calculate_pagerank_pregel (app_on chain_corpus)
       = Ok (pagerank, self')
       /\ (Database.get_total_documents
             (SearchEngineApp.db (app_on chain_corpus)) = 0 ->
           pagerank = [] /\ self' = app_on chain_corpus)
       /\ (Database.get_total_documents
             (SearchEngineApp.db (app_on chain_corpus)) <> 0 ->
           SearchEngineApp.pregel_pr self' <> None
           /\ Dict.keys pagerank
              = doc_ids_of (SearchEngineApp.db (app_on chain_corpus))
           /\ forall id r,
                Dict.get Z.eq_dec id pagerank = Some r ->
                Database.get_pagerank id (SearchEngineApp.db self') = r).
Proof.
  split; [exact chain_corpus_ok|].
  exact (app_pregel_never_raises (app_on chain_corpus) chain_corpus_ok).
Defined.
